(** * RocksRecordStore: a record store over an ordered key-value engine

    Shallow embedding of [src/mongo/db/modules/rocks/src/rocks_record_store.cpp]:
    the key codec, the capped visibility manager, the capped deleter, record
    insertion and the record cursor, followed by the properties of those
    operations.

    Conventions.
    - A byte is a [Z] in [0, 256); a [Slice] (or [std::string]) is a list of
      bytes.
    - A [RecordId] is its 64-bit signed representation [repr], a [Z].
    - [int64_t] counters are [Z]; signed overflow is undefined behaviour in the
      source and is not modelled. Conversions that are defined in C++
      ([static_cast<uint32_t>], the byte image of an [int64_t]) are written out
      with their wrap-around.
    - Every call the store makes on a collaborator (write batch, condition
      variable, mutex, capped callback, compaction scheduler) is recorded, in
      program order, in the [trace] of the world.
    - Each operation is run by one thread from start to end; what other
      threads do shows as a change of the world between two operations, and
      as the answers of the environment ([Env]) and the states seen at the
      wake-ups of a wait. *)

From Stdlib Require Import ZArith List Bool Lia Sorted.
Import ListNotations.
Local Open Scope Z_scope.

(* ================================================================== *)
(** * Bytes, slices and record ids *)
(* ================================================================== *)

Definition Slice := list Z.

Definition is_byte (b : Z) : Prop := 0 <= b < 256.

(** [shannon::Slice::compare] / [std::string::compare]: [memcmp] on the common
    length (bytes compared as unsigned), then the shorter one first. *)
Fixpoint compare_bytes (a b : Slice) : comparison :=
  match a, b with
  | [], [] => Eq
  | [], _ :: _ => Lt
  | _ :: _, [] => Gt
  | x :: a', y :: b' =>
      match x ?= y with
      | Eq => compare_bytes a' b'
      | c => c
      end
  end.

Definition slice_lt (a b : Slice) : bool :=
  match compare_bytes a b with Lt => true | _ => false end.

Definition slice_eqb (a b : Slice) : bool :=
  match compare_bytes a b with Eq => true | _ => false end.

Definition slice_leb (a b : Slice) : bool := negb (slice_lt b a).

(** Modelled from the spec: [RecordId] ([mongo/db/record_id.h] is not in the
    sources). "A signed 64-bit integer ...; [RecordId::min()] and
    [RecordId::max()] are sentinels; compared numerically". The null id
    [RecordId()] has representation 0. *)
Definition RecordId := Z.

Definition kMinRepr : Z := - 2 ^ 63.
Definition kMaxRepr : Z := 2 ^ 63 - 1.

Definition RecordId_min : RecordId := kMinRepr.
Definition RecordId_max : RecordId := kMaxRepr.
Definition RecordId_null : RecordId := 0.

Definition isNull (r : RecordId) : bool := r =? 0.

(** The range of the representation type [int64_t]. *)
Definition int64 (z : Z) : Prop := kMinRepr <= z <= kMaxRepr.

(* ================================================================== *)
(** * KeyCodec: [_makeKey], [_makePrefixedKey], [_makeRecordId] *)
(* ================================================================== *)

(** [endian::nativeToBig(loc.repr())] viewed through
    [reinterpret_cast<const char*>]: the eight bytes of the two's complement
    image of [repr], most significant first. *)
Definition nativeToBig (repr : Z) : Slice :=
  map (fun s => Z.land (Z.shiftr repr s) 255) [56; 48; 40; 32; 24; 16; 8; 0].

(** [endian::bigToNative] applied to the [int64_t] image of [slice.data()]:
    the bytes are combined most significant first and the 64-bit pattern is
    read as a signed integer. *)
Definition be_combine (bs : Slice) : Z :=
  fold_left (fun acc b => Z.lor (Z.shiftl acc 8) b) bs 0.

Definition toSigned64 (u : Z) : Z := if u <? 2 ^ 63 then u else u - 2 ^ 64.

Definition toUnsigned64 (z : Z) : Z := z mod 2 ^ 64.

(** The value an [int64_t] holds after an addition: the result modulo
    [2 ^ 64], read as a signed number. *)
Definition wrap64 (z : Z) : Z := toSigned64 (toUnsigned64 z).

Definition _makeKey (loc : RecordId) : Slice := nativeToBig loc.

Definition _makePrefixedKey (prefix : Slice) (loc : RecordId) : Slice :=
  prefix ++ _makeKey loc.

(** [_makeRecordId]: [invariant(slice.size() == sizeof(int64_t))] fails
    ([None], the process aborts) on any other length. *)
Definition _makeRecordId (slice : Slice) : option RecordId :=
  if Nat.eqb (length slice) 8 then Some (toSigned64 (be_combine slice)) else None.

(** The last eight bytes of a key ([decodeId] of the spec's KeyCodec). *)
Definition last8 (key : Slice) : Slice := skipn (length key - 8) key.

(* ------------------------------------------------------------------ *)
(** ** Big-endian digits *)

(** The [n] low base-256 digits of [u], most significant first. *)
Fixpoint be_digits (n : nat) (u : Z) : Slice :=
  match n with
  | O => []
  | S n' => (u / 256 ^ Z.of_nat n') mod 256 :: be_digits n' u
  end.


(** [RocksOplogKeyTracker::insertKey]: [endian::nativeToLittle] of
    [static_cast<uint32_t>(len)], as four bytes. *)
Definition nativeToLittle32 (len : Z) : Slice :=
  let u := len mod 2 ^ 32 in
  map (fun s => Z.land (Z.shiftr u s) 255) [0; 8; 16; 24].

(** [RocksOplogKeyTracker::decodeSize]: the first four bytes of the value read
    as a little-endian [uint32_t], then [static_cast<int>]. A value shorter
    than four bytes is read past its end in the source; the model reads 0
    there. *)
Definition decodeSize (value : Slice) : Z :=
  let u := Z.lor (nth 0 value 0)
             (Z.lor (Z.shiftl (nth 1 value 0) 8)
                (Z.lor (Z.shiftl (nth 2 value 0) 16) (Z.shiftl (nth 3 value 0) 24))) in
  if u <? 2 ^ 31 then u else u - 2 ^ 32.

(* ================================================================== *)
(** * The ordered key-value engine *)
(* ================================================================== *)

(** Modelled from the spec: the engine ([swift/shannon_db.h] is not in the
    sources). "An ordered key-value store exposing: Put/Delete/Get, write
    batches with atomic apply, snapshot-consistent iterators scoped to a byte
    prefix, SeekToFirst/SeekToLast/Seek/Next/Prev/Valid/key/value". A database
    (or a snapshot of it) is its list of entries in key order. *)
Definition DB := list (Slice * Slice).

Fixpoint db_get (key : Slice) (db : DB) : option Slice :=
  match db with
  | [] => None
  | (k, v) :: rest => if slice_eqb key k then Some v else db_get key rest
  end.

Fixpoint db_put (key value : Slice) (db : DB) : DB :=
  match db with
  | [] => [(key, value)]
  | (k, v) :: rest =>
      match compare_bytes key k with
      | Lt => (key, value) :: (k, v) :: rest
      | Eq => (key, value) :: rest
      | Gt => (k, v) :: db_put key value rest
      end
  end.

Definition db_delete (key : Slice) (db : DB) : DB :=
  filter (fun e => negb (slice_eqb key (fst e))) db.

Inductive BatchOp : Type :=
| Put (key value : Slice)
| Delete (key : Slice).

Definition WriteBatch := list BatchOp.

Definition apply_op (db : DB) (op : BatchOp) : DB :=
  match op with
  | Put k v => db_put k v db
  | Delete k => db_delete k db
  end.

Definition apply_batch (wb : WriteBatch) (db : DB) : DB := fold_left apply_op wb db.

(** The status of a point read. *)
Inductive Status : Type := StatusOK | StatusNotFound | StatusCorruption.

(** [RocksRecoveryUnit::Get] on the transaction's snapshot ("findRecord:
    snapshot Get"). The model engine never fails, so [StatusCorruption] is
    not produced. *)
Definition Get (snapshot : DB) (key : Slice) : Status * Slice :=
  match db_get key snapshot with
  | Some v => (StatusOK, v)
  | None => (StatusNotFound, [])
  end.

(** The entries of a prefixed iterator: the keys that start with [prefix], in
    key order, with the prefix removed (so that [_makeRecordId] finds the eight
    bytes its invariant asks for). *)
Fixpoint strip_prefix (prefix key : Slice) : option Slice :=
  match prefix, key with
  | [], _ => Some key
  | _ :: _, [] => None
  | x :: p, y :: k => if x =? y then strip_prefix p k else None
  end.

Definition prefix_entries (prefix : Slice) (db : DB) : list (Slice * Slice) :=
  flat_map (fun e => match strip_prefix prefix (fst e) with
                     | Some k => [(k, snd e)]
                     | None => []
                     end) db.

(** The key space of the persisted counters: the constructor builds
    [_dataSizeKey] and [_numRecordsKey] as four zero bytes followed by
    ["datasize-"] or ["numrecords-"] and the ident of the collection. *)
Definition counter_key (key : Slice) : Prop := firstn 4 key = [0; 0; 0; 0].

Module Iterator.

(** An iterator is the list of entries it ranges over and a position;
    [None] is "not [Valid]". *)
Record t : Type := mk { entries : list (Slice * Slice); pos : option nat }.

Definition current (it : t) : option (Slice * Slice) :=
  match pos it with
  | Some i => nth_error (entries it) i
  | None => None
  end.

Definition Valid (it : t) : bool :=
  match current it with Some _ => true | None => false end.

Definition SeekToFirst (it : t) : t := mk (entries it) (Some O).

Definition SeekToLast (it : t) : t :=
  mk (entries it)
     (match entries it with [] => None | _ => Some (Nat.pred (length (entries it))) end).

Fixpoint seek_index (target : Slice) (l : list (Slice * Slice)) (i : nat) : option nat :=
  match l with
  | [] => None
  | (k, _) :: rest => if slice_leb target k then Some i else seek_index target rest (S i)
  end.

(** [Seek]: the first entry whose key is at or after [target]. *)
Definition Seek (target : Slice) (it : t) : t :=
  mk (entries it) (seek_index target (entries it) O).

Definition Next (it : t) : t :=
  mk (entries it) (match pos it with Some i => Some (S i) | None => None end).

Definition Prev (it : t) : t :=
  mk (entries it) (match pos it with Some (S i) => Some i | _ => None end).

(** The entries from the current position on: what [key()]/[value()] and
    successive [Next()] calls yield. *)
Definition remaining (it : t) : list (Slice * Slice) :=
  match pos it with
  | Some i => skipn i (entries it)
  | None => []
  end.

(** [RocksRecoveryUnit::NewIterator(prefix)] over a snapshot. *)
Definition NewIterator (prefix : Slice) (snapshot : DB) : t :=
  mk (prefix_entries prefix snapshot) None.

End Iterator.

(* ================================================================== *)
(** * Collaborator calls *)
(* ================================================================== *)

(** One entry per call on a collaborator, in program order. *)
Inductive Event : Type :=
| EvPut (key value : Slice)              (* ru->writeBatch()->Put *)
| EvDelete (key : Slice)                 (* ru->writeBatch()->Delete *)
| EvUpdateHighestSeen (id : RecordId)    (* _cappedVisibilityManager->updateHighestSeen *)
| EvAddUncommittedRecord (id : RecordId) (* _addUncommittedRecord_inlock *)
| EvRegisterChange (it : RecordId)       (* recoveryUnit()->registerChange(CappedInsertChange) *)
| EvNotifyOne_opsWaitingForJournalCV
| EvNotifyAll_opsBecameVisibleCV
| EvNotifyCappedWaitersIfNeeded
| EvWaitUntilDurable
| EvLock                                 (* lock.lock() on _cappedDeleterMutex *)
| EvTryLock (acquired : bool)            (* lock.try_lock() *)
| EvTryLockFor (ms : Z) (acquired : bool)(* lock.try_lock_for(milliseconds(ms)) *)
| EvUnlock                               (* the unique_lock releases a mutex it owns *)
| EvRegisterWrite (key : Slice) (ok : bool)
| EvAboutToDeleteCapped (id : RecordId) (data : Slice)
| EvCommit (batch : WriteBatch)          (* wuow.commit() of the deleter's sub-transaction *)
| EvCompactOplog (prefix oldestAliveKey : Slice)
| EvLog.

(* ================================================================== *)
(** * CappedVisibilityManager *)
(* ================================================================== *)

Module CappedVisibilityManager.

(** [SortedRecordIds] is a [std::list<RecordId>]; an iterator of it
    designates a node. The list is kept strictly increasing (the [dassert]
    of [_addUncommittedRecord_inlock]), so a node is designated by the id
    it holds: [SortedRecordIds::iterator] is the id, [*it] is that id and
    [erase(it)] removes the node that holds it. *)
Record t : Type := mk {
  _uncommittedRecords : list RecordId;
  _oplog_highestSeen : RecordId;
  _opsWaitingForJournal : list RecordId;
  _shuttingDown : bool
}.

(** The constructor. The journal thread of an oplog is
    [oplogJournalThreadLoop] below. *)
Definition init : t := mk [] RecordId_min [] false.

Fixpoint erase (it : RecordId) (l : list RecordId) : list RecordId :=
  match l with
  | [] => []
  | x :: rest => if x =? it then rest else x :: erase it rest
  end.

(** The [dassert] of [_addUncommittedRecord_inlock]: a debug-build check,
    the precondition of the call. *)
Definition addUncommitted_pre (record : RecordId) (vm : t) : Prop :=
  _uncommittedRecords vm = [] \/ last (_uncommittedRecords vm) 0 < record.

Definition _addUncommittedRecord_inlock (record : RecordId) (vm : t) : t * list Event :=
  (mk (_uncommittedRecords vm ++ [record]) record
      (_opsWaitingForJournal vm) (_shuttingDown vm),
   [EvAddUncommittedRecord record; EvRegisterChange record]).

Definition addUncommittedRecord (record : RecordId) (vm : t) : t * list Event :=
  _addUncommittedRecord_inlock record vm.

(** [getNextAndAddUncommittedRecord]: [nextId] is run under the mutex; here
    its result is the argument [record]. *)
Definition getNextAndAddUncommittedRecord (record : RecordId) (vm : t)
  : RecordId * (t * list Event) :=
  (record, _addUncommittedRecord_inlock record vm).

(** [dealtWithCappedRecord(it, didCommit)]; [isOplog] is [_rs->_isOplog]. *)
Definition dealtWithCappedRecord (isOplog : bool) (it : RecordId) (didCommit : bool)
           (vm : t) : t * list Event :=
  if didCommit && isOplog && negb (it =? _oplog_highestSeen vm) then
    let wasEmpty := match _opsWaitingForJournal vm with [] => true | _ => false end in
    (mk (_uncommittedRecords vm) (_oplog_highestSeen vm)
        (_opsWaitingForJournal vm ++ [it]) (_shuttingDown vm),
     if wasEmpty then [EvNotifyOne_opsWaitingForJournalCV] else [])
  else
    (mk (erase it (_uncommittedRecords vm)) (_oplog_highestSeen vm)
        (_opsWaitingForJournal vm) (_shuttingDown vm),
     [EvNotifyAll_opsBecameVisibleCV]).

(** [CappedInsertChange::commit] and [::rollback]; [hasCallback] is
    [_rs->_cappedCallback != nullptr]. *)
Definition CappedInsertChange_commit (isOplog : bool) (it : RecordId) (vm : t)
  : t * list Event :=
  dealtWithCappedRecord isOplog it true vm.

Definition CappedInsertChange_rollback (isOplog hasCallback : bool) (it : RecordId)
           (vm : t) : t * list Event :=
  let (vm', evs) := dealtWithCappedRecord isOplog it false vm in
  (vm', evs ++ (if hasCallback then [EvNotifyCappedWaitersIfNeeded] else [])).

Definition isCappedHidden (record : RecordId) (vm : t) : bool :=
  match _uncommittedRecords vm with
  | [] => false
  | front :: _ => front <=? record
  end.

Definition updateHighestSeen (record : RecordId) (vm : t) : t :=
  if record >? _oplog_highestSeen vm then
    if record >? _oplog_highestSeen vm then
      mk (_uncommittedRecords vm) record (_opsWaitingForJournal vm) (_shuttingDown vm)
    else vm
  else vm.

Definition setHighestSeen (record : RecordId) (vm : t) : t :=
  mk (_uncommittedRecords vm) record (_opsWaitingForJournal vm) (_shuttingDown vm).

Definition oplogStartHack (vm : t) : RecordId :=
  match _uncommittedRecords vm with
  | [] => _oplog_highestSeen vm
  | front :: _ => front
  end.

Definition lowestCappedHiddenRecord (vm : t) : RecordId :=
  match _uncommittedRecords vm with
  | [] => RecordId_null
  | front :: _ => front
  end.

(** One turn of [oplogJournalThreadLoop], from the point where the wait on
    [_opsWaitingForJournalCV] is over: [None] when the thread returns
    because of [_shuttingDown]. Between the swap and the erasures the mutex
    is released for [waitUntilDurable]; the model runs the turn without
    interleaving. *)
Definition oplogJournalThreadLoop (hasCallback : bool) (vm : t) : option (t * list Event) :=
  if _shuttingDown vm then None
  else
    let opsAboutToBeJournaled := _opsWaitingForJournal vm in
    Some (mk (fold_left (fun l op => erase op l) opsAboutToBeJournaled
                        (_uncommittedRecords vm))
             (_oplog_highestSeen vm) [] (_shuttingDown vm),
          [EvWaitUntilDurable; EvNotifyAll_opsBecameVisibleCV]
            ++ (if hasCallback then [EvNotifyCappedWaitersIfNeeded] else [])).

Definition joinOplogJournalThreadLoop (vm : t) : t :=
  mk (_uncommittedRecords vm) (_oplog_highestSeen vm) (_opsWaitingForJournal vm) true.

(** What the waiter finds each time it wakes up holding the mutex: the state
    other threads left, or an interruption of its operation. *)
Inductive WakeUp : Type :=
| Woken (vm : t)
| Interrupt.

Inductive WaitOutcome : Type :=
| WaitReturned (vm : t)   (* the call returned; [vm] is the state it saw *)
| WaitInterrupted         (* the interruption is thrown *)
| WaitBlocked.            (* still waiting when the observations end *)

(** Modelled from the spec: [OperationContext::waitForConditionOrInterrupt]
    ([mongo/db/operation_context.h] is not in the sources): "wait on
    [opsBecameVisibleCV] until <predicate>. Respects txn interruption". The
    predicate is tested with the mutex held, first at entry and then after
    every wake-up. *)
Fixpoint waitForConditionOrInterrupt (pred : t -> bool) (now : t) (later : list WakeUp)
  : WaitOutcome :=
  if pred now then WaitReturned now
  else match later with
       | [] => WaitBlocked
       | Interrupt :: _ => WaitInterrupted
       | Woken vm' :: rest => waitForConditionOrInterrupt pred vm' rest
       end.

(** [waitForAllEarlierOplogWritesToBeVisible]. [lockIsNoop] and
    [inAWriteUnitOfWork] are the two reads of [opCtx->lockState()]; [None]
    is the failed [invariant]. *)
Definition waitForAllEarlierOplogWritesToBeVisible
           (lockIsNoop inAWriteUnitOfWork : bool) (vm : t) (later : list WakeUp)
  : option WaitOutcome :=
  if lockIsNoop || negb inAWriteUnitOfWork then
    let waitingFor := _oplog_highestSeen vm in
    Some (waitForConditionOrInterrupt
            (fun s => match _uncommittedRecords s with
                      | [] => true
                      | front :: _ => front >? waitingFor
                      end)
            vm later)
  else None.

End CappedVisibilityManager.

(* ================================================================== *)
(** * RocksRecordStore::Cursor *)
(* ================================================================== *)

Module Cursor.

(** [mongo::Record]: an id and its payload. *)
Definition RecordT : Type := (RecordId * Slice)%type.

(** The cursor's members. The shared [_cappedVisibilityManager] is not a
    member here: each operation that reads it takes its current state, or
    [None] for the null pointer of a collection that is neither capped nor
    an oplog. The snapshot the cursor reads is the one of its transaction. *)
Record t : Type := mk {
  _prefix : Slice;
  _forward : bool;
  _isCapped : bool;
  _readUntilForOplog : RecordId;
  _eof : bool;
  _needFirstSeek : bool;
  _skipNextAdvance : bool;
  _lastLoc : RecordId;
  _iterator : option Iterator.t;
  _seekExactResult : Slice
}.

(** [positionIterator] ("requires !_eof"); [None] is a failed invariant or
    the use of a null [_iterator]. *)
Definition positionIterator (c : t) : option t :=
  match _iterator c with
  | None => None
  | Some it0 =>
      let seekTarget := _makeKey (_lastLoc c) in
      let it1 :=
        match Iterator.current it0 with
        | Some (k, _) => if slice_eqb k seekTarget then it0 else Iterator.Seek seekTarget it0
        | None => Iterator.Seek seekTarget it0
        end in
      let positioned : option (Iterator.t * bool) :=
        if _forward c then
          match Iterator.current it1 with
          | None => Some (it1, true)
          | Some (k, _) =>
              match _makeRecordId k with
              | None => None
              | Some id => Some (it1, negb (_lastLoc c =? id))
              end
          end
        else
          match Iterator.current it1 with
          | None => Some (Iterator.SeekToLast it1, true)
          | Some (k, _) =>
              match _makeRecordId k with
              | None => None
              | Some id =>
                  if negb (_lastLoc c =? id) then Some (Iterator.Prev it1, true)
                  else Some (it1, false)
              end
          end in
      match positioned with
      | None => None
      | Some (it2, skip) =>
          match Iterator.current it2 with
          | None =>
              Some (mk (_prefix c) (_forward c) (_isCapped c) (_readUntilForOplog c)
                       true (_needFirstSeek c) skip (_lastLoc c) (Some it2)
                       (_seekExactResult c))
          | Some (k, _) =>
              match _makeRecordId k with
              | None => None
              | Some id =>
                  Some (mk (_prefix c) (_forward c) (_isCapped c) (_readUntilForOplog c)
                           (_isCapped c && negb (_lastLoc c =? id))
                           (_needFirstSeek c) skip (_lastLoc c) (Some it2)
                           (_seekExactResult c))
              end
          end
      end
  end.

(** [iterator()]: the iterator is created on first use, over the
    transaction's snapshot, and positioned unless the first seek is still
    to come. *)
Definition iterator (snapshot : DB) (c : t) : option t :=
  match _iterator c with
  | Some _ => Some c
  | None =>
      let c' := mk (_prefix c) (_forward c) (_isCapped c) (_readUntilForOplog c)
                   (_eof c) (_needFirstSeek c) (_skipNextAdvance c) (_lastLoc c)
                   (Some (Iterator.NewIterator (_prefix c) snapshot))
                   (_seekExactResult c) in
      if negb (_needFirstSeek c) then positionIterator c' else Some c'
  end.

(** The constructor: the read ceiling is [getOplogReadTill()] of the
    transaction at that moment. Members without an initializer in the
    constructor start as [_eof = false], [_needFirstSeek = true],
    [_skipNextAdvance = false], [_lastLoc] null and no iterator ("next():
    on first call, SeekToFirst/SeekToLast per direction"). *)
Definition construct (snapshot : DB) (oplogReadTill : RecordId) (prefix : Slice)
           (forward isCapped : bool) (startIterator : RecordId) : option t :=
  let c := mk prefix forward isCapped oplogReadTill false true false RecordId_null None [] in
  if negb (isNull startIterator) && negb (isNull oplogReadTill) then
    match iterator snapshot
            (mk prefix forward isCapped oplogReadTill false false false startIterator None [])
    with
    | None => None
    | Some c1 =>
        Some (mk (_prefix c1) (_forward c1) (_isCapped c1) (_readUntilForOplog c1)
                 false (_needFirstSeek c1) true (_lastLoc c1) (_iterator c1)
                 (_seekExactResult c1))
    end
  else Some c.

(** [curr()]. [vm] is the state of the shared visibility manager at the
    call. The result is the record returned (or none, at EOF) and the
    cursor afterwards. *)
Definition curr (vm : option CappedVisibilityManager.t) (c : t)
  : option (option RecordT * t) :=
  match _iterator c with
  | None => None
  | Some it =>
      match Iterator.current it with
      | None =>
          Some (None,
                mk (_prefix c) (_forward c) (_isCapped c) (_readUntilForOplog c)
                   true (_needFirstSeek c) (_skipNextAdvance c) (_lastLoc c)
                   (_iterator c) (_seekExactResult c))
      | Some (k, dataSlice) =>
          match _makeRecordId k with
          | None => None
          | Some lastLoc =>
              let at_ (eof : bool) :=
                mk (_prefix c) (_forward c) (_isCapped c) (_readUntilForOplog c)
                   eof (_needFirstSeek c) (_skipNextAdvance c) lastLoc
                   (_iterator c) (_seekExactResult c) in
              let withheld :=
                match vm with
                | Some m =>
                    if _forward c then
                      if isNull (_readUntilForOplog c) then
                        CappedVisibilityManager.isCappedHidden lastLoc m
                      else
                        (lastLoc >? _readUntilForOplog c)
                        || ((lastLoc =? _readUntilForOplog c)
                            && CappedVisibilityManager.isCappedHidden lastLoc m)
                    else false
                | None => false
                end in
              if withheld then Some (None, at_ true)
              else Some (Some (lastLoc, dataSlice), at_ false)
          end
      end
  end.

(** [next()]. *)
Definition next (vm : option CappedVisibilityManager.t) (snapshot : DB) (c : t)
  : option (option RecordT * t) :=
  if _eof c then Some (None, c)
  else
    match iterator snapshot c with
    | None => None
    | Some c1 =>
        match _iterator c1 with
        | None => None
        | Some iter =>
            let moved : Iterator.t * bool :=
              if negb (_skipNextAdvance c1) then
                if _needFirstSeek c1 then
                  (if _forward c1 then Iterator.SeekToFirst iter
                   else Iterator.SeekToLast iter, false)
                else
                  (if _forward c1 then Iterator.Next iter
                   else Iterator.Prev iter, _needFirstSeek c1)
              else (iter, _needFirstSeek c1) in
            curr vm (mk (_prefix c1) (_forward c1) (_isCapped c1) (_readUntilForOplog c1)
                        (_eof c1) (snd moved) false (_lastLoc c1) (Some (fst moved))
                        (_seekExactResult c1))
        end
    end.

(** [seekExact(id)]: a point read of the snapshot. *)
Definition seekExact (snapshot : DB) (id : RecordId) (c : t)
  : option (option RecordT * t) :=
  let (status, result) := Get snapshot (_makePrefixedKey (_prefix c) id) in
  match status with
  | StatusNotFound =>
      Some (None,
            mk (_prefix c) (_forward c) (_isCapped c) (_readUntilForOplog c)
               true false false (_lastLoc c) None (_seekExactResult c))
  | StatusCorruption => None   (* invariantRocksOK(status) *)
  | StatusOK =>
      Some (Some (id, result),
            mk (_prefix c) (_forward c) (_isCapped c) (_readUntilForOplog c)
               false false false id None result)
  end.

Definition saveUnpositioned (c : t) : t :=
  mk (_prefix c) (_forward c) (_isCapped c) (_readUntilForOplog c)
     true (_needFirstSeek c) (_skipNextAdvance c) (_lastLoc c) (_iterator c)
     (_seekExactResult c).

(** [save()] has an empty body. *)
Definition save (c : t) : t := c.

(** [detachFromOperationContext()] drops the iterator;
    [reattachToOperationContext] only stores the new context ("iterator
    recreated in restore()"). *)
Definition detachFromOperationContext (c : t) : t :=
  mk (_prefix c) (_forward c) (_isCapped c) (_readUntilForOplog c)
     (_eof c) (_needFirstSeek c) (_skipNextAdvance c) (_lastLoc c) None
     (_seekExactResult c).

Definition reattachToOperationContext (c : t) : t := c.

(** [restore()]. [hasVisibilityManager] is [_cappedVisibilityManager] being
    non-null. [snapshotChanged] is the outcome of the comparison of
    [_currentSequenceNumber] with the sequence number of the transaction's
    snapshot: the number is not a member here, the cursor is told whether
    [snapshot] is another one than at its last use. *)
Definition restore (hasVisibilityManager : bool) (snapshot : DB) (snapshotChanged : bool)
           (c : t) : option (bool * t) :=
  let iter :=
    match _iterator c with
    | Some it => if snapshotChanged then Iterator.NewIterator (_prefix c) snapshot else it
    | None => Iterator.NewIterator (_prefix c) snapshot
    end in
  let c1 := mk (_prefix c) (_forward c) (_isCapped c) (_readUntilForOplog c)
               (_eof c) (_needFirstSeek c) false (_lastLoc c) (Some iter)
               (_seekExactResult c) in
  if _eof c1 then Some (true, c1)
  else if _needFirstSeek c1 then Some (true, c1)
  else
    match positionIterator c1 with
    | None => None
    | Some c2 => Some (if hasVisibilityManager && _eof c2 then false else true, c2)
    end.

End Cursor.

(* ================================================================== *)
(** * The transactional context *)
(* ================================================================== *)

Inductive ErrorCode : Type :=
| BadValue
| OtherError (code : Z).

Inductive StatusWith (A : Type) : Type :=
| SW_OK (value : A)
| SW_Error (code : ErrorCode).
Arguments SW_OK {A} value.
Arguments SW_Error {A} code.

Inductive Exception : Type :=
| WriteConflictException
| UserException.

(** How a call ends: it returns, it throws, or the process is terminated (a
    failed [invariant], a null pointer that is dereferenced). *)
Inductive Outcome (A : Type) : Type :=
| Returned (a : A)
| Threw (e : Exception)
| Aborted.
Arguments Returned {A} a.
Arguments Threw {A} e.
Arguments Aborted {A}.

(** What [CappedCallback::aboutToDeleteCapped] does: it returns an OK status,
    it returns an error status ([uassertStatusOK] then throws), or it throws
    a write conflict. *)
Inductive CallbackResult : Type :=
| CallbackOK
| CallbackError
| CallbackWriteConflict.

(** Modelled from the spec: the recovery unit ([rocks_recovery_unit.h] is not
    in the sources). "Each operation receives a txn that provides: a snapshot
    handle ...; a per-txn write batch; per-txn counter deltas; commit/rollback
    hooks". [ru_deltaDataSize] and [ru_deltaNumRecords] are
    [getDeltaCounter(_dataSizeKey)] and [getDeltaCounter(_numRecordsKey)];
    [ru_changes] holds the iterators of the registered
    [CappedInsertChange]s. *)
Record RecoveryUnit : Type := mkRU {
  ru_snapshot : option DB;
  ru_writeBatch : WriteBatch;
  ru_deltaDataSize : Z;
  ru_deltaNumRecords : Z;
  ru_changes : list RecordId;
  ru_oplogReadTill : RecordId
}.

Definition newRocksRecoveryUnit : RecoveryUnit := mkRU None [] 0 0 [] RecordId_null.

Record OperationContext : Type := mkOpCtx {
  recoveryUnit : RecoveryUnit;
  lockIsNoop : bool;                 (* lockState()->isNoop() *)
  isCollectionLockedX : bool         (* lockState()->isCollectionLockedForMode(_ns, MODE_X) *)
}.

(** What the environment answers during one call: the other threads' hold on
    the deleter mutex, the conflict detector of the deleter's
    sub-transaction, and the compaction timer. *)
Record Env : Type := mkEnv {
  env_try_lock : bool;               (* lock.try_lock() *)
  env_try_lock_for : bool;           (* lock.try_lock_for(200ms) *)
  env_registerWrite : Slice -> bool; (* ru->transaction()->registerWrite(key) *)
  env_minutes : Z                    (* _oplogSinceLastCompaction.minutes() *)
}.

(* ================================================================== *)
(** * RocksRecordStore *)
(* ================================================================== *)

(** [cappedMaxSizeSlackFromSize]; [/] on [int64_t] truncates towards zero. *)
Definition cappedMaxSizeSlackFromSize (cappedMaxSize : Z) : Z :=
  Z.min (Z.quot cappedMaxSize 10) (16 * 1024 * 1024).

Record RocksOplogKeyTracker : Type := mkTracker {
  _deletedKeysSinceCompaction : Z;
  tracker_prefix : Slice             (* RocksOplogKeyTracker::_prefix *)
}.

Module RocksRecordStore.

Record t : Type := mk {
  _prefix : Slice;
  _isCapped : bool;
  _cappedMaxSize : Z;
  _cappedMaxSizeSlack : Z;
  _cappedMaxDocs : Z;
  _cappedCallback : option (RecordId -> Slice -> CallbackResult);
  _isOplog : bool;
  _oplogKeyTracker : option RocksOplogKeyTracker;
  _cappedOldestKeyHint : RecordId;
  _cappedVisibilityManager : option CappedVisibilityManager.t;
  _nextIdNum : Z;
  _dataSize : Z;
  _numRecords : Z;
  _hasBackgroundThread : bool;
  _shuttingDown : bool
}.

(** The store, the operation context of the calling thread, the engine and
    the calls made so far. *)
Record World : Type := mkWorld {
  rs : t;
  opCtx : OperationContext;
  db : DB;
  trace : list Event
}.

Definition M (A : Type) : Type := World -> Outcome A * World.

Definition ret {A : Type} (a : A) : M A := fun w => (Returned a, w).

Definition bind {A B : Type} (m : M A) (k : A -> M B) : M B :=
  fun w =>
    match m w with
    | (Returned a, w') => k a w'
    | (Threw e, w') => (Threw e, w')
    | (Aborted, w') => (Aborted, w')
    end.

Definition throw {A : Type} (e : Exception) : M A := fun w => (Threw e, w).
Definition abort {A : Type} : M A := fun w => (Aborted, w).
Definition gets {A : Type} (f : World -> A) : M A := fun w => (Returned (f w), w).
Definition modify (f : World -> World) : M unit := fun w => (Returned tt, f w).

(** [try { body } catch (e) { handler e }]. *)
Definition try_catch {A : Type} (body : M A) (handler : Exception -> M A) : M A :=
  fun w =>
    match body w with
    | (Threw e, w') => handler e w'
    | r => r
    end.

Definition invariant (b : bool) : M unit := if b then ret tt else abort.

Declare Scope store_scope.
Delimit Scope store_scope with store.
Notation "x <- m ;; k" := (bind m (fun x => k))
  (at level 61, m at next level, right associativity) : store_scope.
Notation "m ;;; k" := (bind m (fun _ => k))
  (at level 61, right associativity) : store_scope.
Local Open Scope store_scope.

(* ---------------------------------------------------------------- *)
(** ** Field updates *)

Definition set_rs (f : t -> t) (w : World) : World :=
  mkWorld (f (rs w)) (opCtx w) (db w) (trace w).

Definition set_ru (f : RecoveryUnit -> RecoveryUnit) (w : World) : World :=
  mkWorld (rs w)
          (mkOpCtx (f (recoveryUnit (opCtx w))) (lockIsNoop (opCtx w))
                   (isCollectionLockedX (opCtx w)))
          (db w) (trace w).

Definition set_db (f : DB -> DB) (w : World) : World :=
  mkWorld (rs w) (opCtx w) (f (db w)) (trace w).

Definition emit (evs : list Event) : M unit :=
  modify (fun w => mkWorld (rs w) (opCtx w) (db w) (trace w ++ evs)).

Definition with_vm (vm : option CappedVisibilityManager.t) (s : t) : t :=
  mk (_prefix s) (_isCapped s) (_cappedMaxSize s) (_cappedMaxSizeSlack s)
     (_cappedMaxDocs s) (_cappedCallback s) (_isOplog s) (_oplogKeyTracker s)
     (_cappedOldestKeyHint s) vm (_nextIdNum s) (_dataSize s) (_numRecords s)
     (_hasBackgroundThread s) (_shuttingDown s).

Definition with_tracker (trk : option RocksOplogKeyTracker) (s : t) : t :=
  mk (_prefix s) (_isCapped s) (_cappedMaxSize s) (_cappedMaxSizeSlack s)
     (_cappedMaxDocs s) (_cappedCallback s) (_isOplog s) trk
     (_cappedOldestKeyHint s) (_cappedVisibilityManager s) (_nextIdNum s)
     (_dataSize s) (_numRecords s) (_hasBackgroundThread s) (_shuttingDown s).

Definition with_hint (hint : RecordId) (s : t) : t :=
  mk (_prefix s) (_isCapped s) (_cappedMaxSize s) (_cappedMaxSizeSlack s)
     (_cappedMaxDocs s) (_cappedCallback s) (_isOplog s) (_oplogKeyTracker s)
     hint (_cappedVisibilityManager s) (_nextIdNum s)
     (_dataSize s) (_numRecords s) (_hasBackgroundThread s) (_shuttingDown s).

Definition with_nextIdNum (n : Z) (s : t) : t :=
  mk (_prefix s) (_isCapped s) (_cappedMaxSize s) (_cappedMaxSizeSlack s)
     (_cappedMaxDocs s) (_cappedCallback s) (_isOplog s) (_oplogKeyTracker s)
     (_cappedOldestKeyHint s) (_cappedVisibilityManager s) n
     (_dataSize s) (_numRecords s) (_hasBackgroundThread s) (_shuttingDown s).

Definition with_counters (dataSize numRecords : Z) (s : t) : t :=
  mk (_prefix s) (_isCapped s) (_cappedMaxSize s) (_cappedMaxSizeSlack s)
     (_cappedMaxDocs s) (_cappedCallback s) (_isOplog s) (_oplogKeyTracker s)
     (_cappedOldestKeyHint s) (_cappedVisibilityManager s) (_nextIdNum s)
     dataSize numRecords (_hasBackgroundThread s) (_shuttingDown s).

Definition with_cappedSize (cappedSize slack : Z) (s : t) : t :=
  mk (_prefix s) (_isCapped s) cappedSize slack
     (_cappedMaxDocs s) (_cappedCallback s) (_isOplog s) (_oplogKeyTracker s)
     (_cappedOldestKeyHint s) (_cappedVisibilityManager s) (_nextIdNum s)
     (_dataSize s) (_numRecords s) (_hasBackgroundThread s) (_shuttingDown s).

(** [_cappedVisibilityManager->] and [_oplogKeyTracker->]: dereferencing a
    null member terminates the process. *)
Definition theVisibilityManager : M CappedVisibilityManager.t :=
  fun w =>
    match _cappedVisibilityManager (rs w) with
    | Some vm => (Returned vm, w)
    | None => (Aborted, w)
    end.

Definition theTracker : M RocksOplogKeyTracker :=
  fun w =>
    match _oplogKeyTracker (rs w) with
    | Some trk => (Returned trk, w)
    | None => (Aborted, w)
    end.

Definition getRU : M RecoveryUnit := gets (fun w => recoveryUnit (opCtx w)).

(* ---------------------------------------------------------------- *)
(** ** Recovery-unit calls *)

Definition writeBatch_Put (key value : Slice) : M unit :=
  modify (set_ru (fun ru =>
    mkRU (ru_snapshot ru) (ru_writeBatch ru ++ [Put key value]) (ru_deltaDataSize ru)
         (ru_deltaNumRecords ru) (ru_changes ru) (ru_oplogReadTill ru))) ;;;
  emit [EvPut key value].

Definition writeBatch_Delete (key : Slice) : M unit :=
  modify (set_ru (fun ru =>
    mkRU (ru_snapshot ru) (ru_writeBatch ru ++ [Delete key]) (ru_deltaDataSize ru)
         (ru_deltaNumRecords ru) (ru_changes ru) (ru_oplogReadTill ru))) ;;;
  emit [EvDelete key].

(** [_changeNumRecords] and [_increaseDataSize]: [ru->incrementCounter] adds
    to the transaction's delta; the atomic is updated at commit. *)
Definition _changeNumRecords (amount : Z) : M unit :=
  modify (set_ru (fun ru =>
    mkRU (ru_snapshot ru) (ru_writeBatch ru) (ru_deltaDataSize ru)
         (ru_deltaNumRecords ru + amount) (ru_changes ru) (ru_oplogReadTill ru))).

Definition _increaseDataSize (amount : Z) : M unit :=
  modify (set_ru (fun ru =>
    mkRU (ru_snapshot ru) (ru_writeBatch ru) (ru_deltaDataSize ru + amount)
         (ru_deltaNumRecords ru) (ru_changes ru) (ru_oplogReadTill ru))).

Definition registerChanges (its : list RecordId) : M unit :=
  modify (set_ru (fun ru =>
    mkRU (ru_snapshot ru) (ru_writeBatch ru) (ru_deltaDataSize ru)
         (ru_deltaNumRecords ru) (ru_changes ru ++ its) (ru_oplogReadTill ru))).

Definition setOplogReadTill (till : RecordId) : M unit :=
  modify (set_ru (fun ru =>
    mkRU (ru_snapshot ru) (ru_writeBatch ru) (ru_deltaDataSize ru)
         (ru_deltaNumRecords ru) (ru_changes ru) till)).

(** [ru->snapshot()]: the snapshot is taken at the first read. *)
Definition snapshot : M DB :=
  fun w =>
    match ru_snapshot (recoveryUnit (opCtx w)) with
    | Some s => (Returned s, w)
    | None =>
        (Returned (db w),
         set_ru (fun ru =>
           mkRU (Some (db w)) (ru_writeBatch ru) (ru_deltaDataSize ru)
                (ru_deltaNumRecords ru) (ru_changes ru) (ru_oplogReadTill ru)) w)
    end.

(** Modelled from the spec: the commit of a unit of work that registered no
    change ([WriteUnitOfWork::commit] is not in the sources): "on commit,
    the delta is applied to both the atomic and the persisted counter" and
    "the batch is applied to the engine". The engine [DB] of the model
    holds the entries under the prefixes of collections and key trackers.
    The persisted counters are the two engine keys that start with four
    zero bytes ([counter_key]); the Put the commit makes for them "in the
    same write batch as the payload mutations" changes those two keys
    only and is not shown in [DB]: nothing is stated here about the keys
    in that reserved key space. *)
Definition commitUnitOfWork : M unit :=
  ru <- getRU ;;
  modify (set_db (apply_batch (ru_writeBatch ru))) ;;;
  modify (set_rs (fun s => with_counters (_dataSize s + ru_deltaDataSize ru)
                                         (_numRecords s + ru_deltaNumRecords ru) s)) ;;;
  modify (set_ru (fun _ => mkRU None [] 0 0 [] (ru_oplogReadTill ru))) ;;;
  emit [EvCommit (ru_writeBatch ru)].

(** Modelled from the spec: the end of the caller's transaction. On commit
    the unit of work is committed and the registered changes run their
    [commit] hook in registration order ("on commit the batch is applied to
    the engine, VisibilityManager is notified"); on rollback the batch and
    the deltas are discarded and the changes run their [rollback] hook. *)
Fixpoint run_hooks (didCommit : bool) (its : list RecordId) : M unit :=
  match its with
  | [] => ret tt
  | it :: rest =>
      s <- gets rs ;;
      vm <- theVisibilityManager ;;
      let (vm', evs) :=
        if didCommit
        then CappedVisibilityManager.CappedInsertChange_commit (_isOplog s) it vm
        else CappedVisibilityManager.CappedInsertChange_rollback
               (_isOplog s)
               (match _cappedCallback s with Some _ => true | None => false end)
               it vm in
      modify (set_rs (with_vm (Some vm'))) ;;;
      emit evs ;;;
      run_hooks didCommit rest
  end.

Definition commitTransaction : M unit :=
  ru <- getRU ;;
  commitUnitOfWork ;;;
  run_hooks true (ru_changes ru).

Definition rollbackTransaction : M unit :=
  ru <- getRU ;;
  modify (set_ru (fun _ => mkRU None [] 0 0 [] (ru_oplogReadTill ru))) ;;;
  run_hooks false (ru_changes ru).

Section Operations.

(** Collaborators whose code is not in the sources:
    [oploghack::extractKey] and [oploghack::keyForOptime]
    ([mongo/db/storage/oplog_hack.h]) and the two compaction thresholds. *)
Variable extractKey : Slice -> Z -> StatusWith RecordId.
Variable keyForOptime : Z -> StatusWith RecordId.
Variable kOplogCompactEveryMins : Z.
Variable kOplogCompactEveryDeletedRecords : Z.

Variable env : Env.

(** [_nextId]: [_nextIdNum.fetchAndAdd(1)] on an [AtomicInt64] returns the
    old value and stores the sum, which wraps around at [INT64_MAX]. *)
Definition _nextId : M RecordId :=
  isOplog <- gets (fun w => _isOplog (rs w)) ;;
  invariant (negb isOplog) ;;;
  n <- gets (fun w => _nextIdNum (rs w)) ;;
  modify (set_rs (with_nextIdNum (wrap64 (n + 1)))) ;;;
  ret n.

(** Calls on the visibility manager made by the store. *)
Definition vm_updateHighestSeen (loc : RecordId) : M unit :=
  vm <- theVisibilityManager ;;
  modify (set_rs (with_vm (Some (CappedVisibilityManager.updateHighestSeen loc vm)))) ;;;
  emit [EvUpdateHighestSeen loc].

Definition vm_addUncommittedRecord (record : RecordId) : M unit :=
  vm <- theVisibilityManager ;;
  let (vm', evs) := CappedVisibilityManager.addUncommittedRecord record vm in
  modify (set_rs (with_vm (Some vm'))) ;;;
  registerChanges [record] ;;;
  emit evs.

Definition vm_getNextAndAddUncommittedRecord (nextId : M RecordId) : M RecordId :=
  _ <- theVisibilityManager ;;
  record <- nextId ;;
  vm <- theVisibilityManager ;;
  let '(loc, (vm', evs)) :=
    CappedVisibilityManager.getNextAndAddUncommittedRecord record vm in
  modify (set_rs (with_vm (Some vm'))) ;;;
  registerChanges [record] ;;;
  emit evs ;;;
  ret loc.

Definition vm_isCappedHidden (record : RecordId) : M bool :=
  vm <- theVisibilityManager ;;
  ret (CappedVisibilityManager.isCappedHidden record vm).

(** [RocksOplogKeyTracker::insertKey] and [::deleteKey]. *)
Definition insertKey (loc : RecordId) (len : Z) : M unit :=
  trk <- theTracker ;;
  writeBatch_Put (_makePrefixedKey (tracker_prefix trk) loc) (nativeToLittle32 len).

Definition deleteKey (loc : RecordId) : M unit :=
  trk <- theTracker ;;
  writeBatch_Delete (_makePrefixedKey (tracker_prefix trk) loc) ;;;
  modify (set_rs (with_tracker
    (Some (mkTracker (_deletedKeysSinceCompaction trk + 1) (tracker_prefix trk))))).

Definition cappedAndNeedDelete (dataSizeDelta numRecordsDelta : Z) : M bool :=
  s <- gets rs ;;
  invariant (_isCapped s) ;;;
  if _dataSize s + dataSizeDelta >? _cappedMaxSize s then ret true
  else if negb (_cappedMaxDocs s =? -1)
          && (_numRecords s + numRecordsDelta >? _cappedMaxDocs s) then ret true
  else ret false.

(** The [while] loop of [cappedDeleteAsNeeded_inlock]. [rest] is what the
    iterator still has to yield: its head is [iter->key()],
    [iter->value()], an empty [rest] is [!iter->Valid()], and [iter->Next()]
    moves to the tail. The result is [(sizeSaved, docsRemoved)] and the
    entries left under the iterator. *)
Fixpoint deleteLoop (justInserted : RecordId) (sizeOverCap docsOverCap : Z)
         (rest : list (Slice * Slice)) (sizeSaved docsRemoved : Z) {struct rest}
  : M (Z * Z * list (Slice * Slice)) :=
  match rest with
  | [] => ret (sizeSaved, docsRemoved, [])
  | (k, v) :: rest' =>
      if ((sizeSaved <? sizeOverCap) || (docsRemoved <? docsOverCap))
         && (docsRemoved <? 20000)
      then
        match _makeRecordId k with
        | None => abort
        | Some newestOld =>
            hidden <- vm_isCappedHidden newestOld ;;
            if hidden then ret (sizeSaved, docsRemoved, rest)
            else if newestOld >=? justInserted then ret (sizeSaved, docsRemoved, rest)
            else
              s <- gets rs ;;
              if _shuttingDown s then ret (sizeSaved, docsRemoved, rest)
              else
                let key := _makePrefixedKey (_prefix s) newestOld in
                emit [EvRegisterWrite key (env_registerWrite env key)] ;;;
                if negb (env_registerWrite env key) then
                  emit [EvLog] ;;;
                  ret (sizeSaved, docsRemoved, rest)
                else
                  let docsRemoved' := docsRemoved + 1 in
                  let oldValue := if _isOplog s then [5; 0; 0; 0; 0] else v in
                  let sizeSaved' :=
                    if _isOplog s then sizeSaved + decodeSize v
                    else sizeSaved + Z.of_nat (length oldValue) in
                  (if _isOplog s then _ <- theTracker ;; ret tt else ret tt) ;;;
                  match _cappedCallback s with
                  | Some aboutToDeleteCapped =>
                      emit [EvAboutToDeleteCapped newestOld oldValue] ;;;
                      match aboutToDeleteCapped newestOld oldValue with
                      | CallbackOK => ret tt
                      | CallbackError => throw UserException
                      | CallbackWriteConflict => throw WriteConflictException
                      end
                  | None => ret tt
                  end ;;;
                  writeBatch_Delete key ;;;
                  (if _isOplog s then deleteKey newestOld else ret tt) ;;;
                  deleteLoop justInserted sizeOverCap docsOverCap rest'
                             sizeSaved' docsRemoved'
        end
      else ret (sizeSaved, docsRemoved, rest)
  end.

(** The [try] block of [cappedDeleteAsNeeded_inlock], run in the
    sub-transaction; its result is [docsRemoved]. The model engine does
    not fail, so the test of [iter->status()] after the loop has nothing
    to log. *)
Definition cappedDeleteAsNeeded_inlock_try (justInserted : RecordId)
           (sizeOverCap docsOverCap : Z) : M Z :=
  s0 <- gets rs ;;
  snap <- snapshot ;;
  iterPrefix <-
    (if _isOplog s0 then trk <- theTracker ;; ret (tracker_prefix trk)
     else ret (_prefix s0)) ;;
  let iter :=
    Iterator.Seek (_makeKey (_cappedOldestKeyHint s0))
                  (Iterator.NewIterator iterPrefix snap) in
  r <- deleteLoop justInserted sizeOverCap docsOverCap (Iterator.remaining iter) 0 0 ;;
  let '(sizeSaved, docsRemoved, rest) := r in
  (if docsRemoved >? 0 then
     _changeNumRecords (- docsRemoved) ;;;
     _increaseDataSize (- sizeSaved) ;;;
     commitUnitOfWork
   else ret tt) ;;;
  match rest with
  | (k, _) :: _ =>
      match _makeRecordId k with
      | None => abort
      | Some oldestAliveRecordId =>
          hidden <- vm_isCappedHidden oldestAliveRecordId ;;
          if negb hidden
          then modify (set_rs (with_hint oldestAliveRecordId))
          else ret tt
      end
  | [] => ret tt
  end ;;;
  ret docsRemoved.

(** [cappedDeleteAsNeeded_inlock]. The sub-transaction is a fresh recovery
    unit put in the operation context for the duration of the pass. The
    tracker's prefix is [rocksGetNextPrefix(_prefix)], the value the
    constructor gave it; the reset of the compaction timer is not
    state of the model ([env_minutes] is read instead). *)
Definition cappedDeleteAsNeeded_inlock (justInserted : RecordId) : M Z :=
  realRecoveryUnit <- getRU ;;
  modify (set_ru (fun _ => newRocksRecoveryUnit)) ;;;
  s0 <- gets rs ;;
  let dataSize := _dataSize s0 + ru_deltaDataSize realRecoveryUnit in
  let numRecords := _numRecords s0 + ru_deltaNumRecords realRecoveryUnit in
  let sizeOverCap :=
    if dataSize >? _cappedMaxSize s0 then dataSize - _cappedMaxSize s0 else 0 in
  let docsOverCap :=
    if negb (_cappedMaxDocs s0 =? -1) && (numRecords >? _cappedMaxDocs s0)
    then numRecords - _cappedMaxDocs s0 else 0 in
  let restore := modify (set_ru (fun _ => realRecoveryUnit)) in
  docsRemoved <-
    try_catch
      (n <- cappedDeleteAsNeeded_inlock_try justInserted sizeOverCap docsOverCap ;;
       ret (Some n))
      (fun e =>
         match e with
         | WriteConflictException => restore ;;; emit [EvLog] ;;; ret None
         | _ => restore ;;; throw e
         end) ;;
  match docsRemoved with
  | None => ret 0
  | Some docsRemoved =>
      restore ;;;
      s1 <- gets rs ;;
      (if _isOplog s1 then
         trk <- theTracker ;;
         if (env_minutes env >=? kOplogCompactEveryMins)
            || (_deletedKeysSinceCompaction trk >=? kOplogCompactEveryDeletedRecords)
         then
           emit [EvLog;
                 EvCompactOplog (_prefix s1)
                   (_makePrefixedKey (_prefix s1) (_cappedOldestKeyHint s1));
                 EvCompactOplog (tracker_prefix trk)
                   (_makePrefixedKey (tracker_prefix trk) (_cappedOldestKeyHint s1))] ;;;
           modify (set_rs (with_tracker (Some (mkTracker 0 (tracker_prefix trk)))))
         else ret tt
       else ret tt) ;;;
      ret docsRemoved
  end.

(** The [unique_lock] on [_cappedDeleterMutex] is released when the call
    that acquired it ends, by return or by exception. *)
Definition holding_lock {A : Type} (body : M A) : M A :=
  r <- try_catch body (fun e => emit [EvUnlock] ;;; throw e) ;;
  emit [EvUnlock] ;;;
  ret r.

Definition cappedDeleteAsNeeded (justInserted : RecordId) : M Z :=
  s <- gets rs ;;
  if negb (_isCapped s) then ret 0
  else
    ru <- getRU ;;
    let dataSizeDelta := if negb (_isOplog s) then ru_deltaDataSize ru else 0 in
    let numRecordsDelta := if negb (_isOplog s) then ru_deltaNumRecords ru else 0 in
    need <- cappedAndNeedDelete dataSizeDelta numRecordsDelta ;;
    if negb need then ret 0
    else if negb (_cappedMaxDocs s =? -1) then
      (* Max docs has to be exact, so have to check every time. *)
      emit [EvLock] ;;;
      holding_lock (cappedDeleteAsNeeded_inlock justInserted)
    else if _hasBackgroundThread s then
      (* We are foreground, and there is a background thread. *)
      if _dataSize s - _cappedMaxSize s <? _cappedMaxSizeSlack s then ret 0
      else
        emit [EvTryLock (env_try_lock env)] ;;;
        if negb (env_try_lock env) then
          emit [EvTryLockFor 200 (env_try_lock_for env)] ;;;
          (if env_try_lock_for env then emit [EvUnlock] else ret tt) ;;;
          ret 0
        else
          emit [EvUnlock] ;;;
          ret 0
    else
      emit [EvTryLock (env_try_lock env)] ;;;
      if negb (env_try_lock env) then
        if _dataSize s - _cappedMaxSize s <? _cappedMaxSizeSlack s then ret 0
        else
          emit [EvTryLockFor 200 (env_try_lock_for env)] ;;;
          if negb (env_try_lock_for env) then ret 0
          else if _dataSize s - _cappedMaxSize s <? 2 * _cappedMaxSizeSlack s then
            emit [EvUnlock] ;;;
            ret 0
          else holding_lock (cappedDeleteAsNeeded_inlock justInserted)
      else holding_lock (cappedDeleteAsNeeded_inlock justInserted).

(** [insertRecord(opCtx, data, len, timestamp, enforceQuota)]; the payload
    put in the batch is [Slice(data, len)]. *)
Definition insertRecord (data : Slice) (len : Z) : M (StatusWith RecordId) :=
  s <- gets rs ;;
  if _isCapped s && (len >? _cappedMaxSize s) then ret (SW_Error BadValue)
  else
    allocated <-
      (if _isOplog s then
         match extractKey data len with
         | SW_Error code => ret (SW_Error code)
         | SW_OK loc => vm_updateHighestSeen loc ;;; ret (SW_OK loc)
         end
       else if _isCapped s then
         loc <- vm_getNextAndAddUncommittedRecord _nextId ;;
         ret (SW_OK loc)
       else
         loc <- _nextId ;;
         ret (SW_OK loc)) ;;
    match allocated with
    | SW_Error code => ret (SW_Error code)
    | SW_OK loc =>
        writeBatch_Put (_makePrefixedKey (_prefix s) loc) (firstn (Z.to_nat len) data) ;;;
        (if _isOplog s then insertKey loc len else ret tt) ;;;
        _changeNumRecords 1 ;;;
        _increaseDataSize len ;;;
        _ <- cappedDeleteAsNeeded loc ;;
        ret (SW_OK loc)
    end.

(** [oplogDiskLocRegister(opCtx, opTime)]; the result is
    [record.getStatus()]. *)
Definition oplogDiskLocRegister (opTime : Z) : M (StatusWith unit) :=
  s <- gets rs ;;
  invariant (_isOplog s) ;;;
  match keyForOptime opTime with
  | SW_OK record => vm_addUncommittedRecord record ;;; ret (SW_OK tt)
  | SW_Error code => ret (SW_Error code)
  end.

(** [getCursor(opCtx, forward)]. *)
Definition getCursor (forward : bool) : M Cursor.t :=
  s <- gets rs ;;
  startIterator <-
    (if _isOplog s then
       if forward then
         ctx <- gets opCtx ;;
         (if (match ru_snapshot (recoveryUnit ctx) with Some _ => true | None => false end)
             && negb (lockIsNoop ctx) && negb (isCollectionLockedX ctx)
          then throw WriteConflictException
          else ret tt) ;;;
         vm <- theVisibilityManager ;;
         setOplogReadTill (CappedVisibilityManager.oplogStartHack vm) ;;;
         ret (_cappedOldestKeyHint s)
       else
         vm <- theVisibilityManager ;;
         ret (CappedVisibilityManager.oplogStartHack vm)
     else ret RecordId_null) ;;
  ru <- getRU ;;
  snap <- snapshot ;;
  match Cursor.construct snap (ru_oplogReadTill ru) (_prefix s) forward (_isCapped s)
                         startIterator with
  | Some c => ret c
  | None => abort
  end.

Definition updateCappedSize (cappedSize : Z) : M unit :=
  s <- gets rs ;;
  if _cappedMaxSize s =? cappedSize then ret tt
  else modify (set_rs (with_cappedSize cappedSize (cappedMaxSizeSlackFromSize cappedSize))).

End Operations.

(** The constructor. [isOplog] is [NamespaceString::oplog(ns)],
    [trackerPrefix] is [rocksGetNextPrefix(prefix)], [numRecords] and
    [dataSize] are the two [loadCounter] results and [hasBackgroundThread]
    is [RocksEngine::initRsOplogBackgroundThread(ns)]: results of
    collaborators that are not in the sources. [deletedKeys] is the value
    the key tracker's [_deletedKeysSinceCompaction] starts with: the
    constructor of [RocksOplogKeyTracker] gives the atomic no initial
    value. [lastId.repr() + 1] is an addition of [int64_t], written with
    the wrap-around of the machine; C++ leaves it undefined when [lastId]
    is [INT64_MAX], and nothing is stated about a collection that stores
    that id. [None] is a failed [invariant]. *)
Definition construct (isOplog : bool) (trackerPrefix : Slice) (deletedKeys : Z)
           (engine : DB)
           (numRecords dataSize : Z) (hasBackgroundThread : bool)
           (prefix : Slice) (isCapped : bool) (cappedMaxSize cappedMaxDocs : Z)
           (cappedCallback : option (RecordId -> Slice -> CallbackResult))
  : option t :=
  let vm0 := if isCapped || isOplog then Some CappedVisibilityManager.init else None in
  let numRecords' := if numRecords <? 0 then 0 else numRecords in
  let dataSize' := if dataSize <? 0 then 0 else dataSize in
  let build vm nextIdNum :=
    mk prefix isCapped cappedMaxSize (cappedMaxSizeSlackFromSize cappedMaxSize)
       cappedMaxDocs cappedCallback isOplog
       (if isOplog then Some (mkTracker deletedKeys trackerPrefix) else None)
       0 vm nextIdNum dataSize' numRecords' hasBackgroundThread false in
  if (if isCapped
      then (cappedMaxSize >? 0) && ((cappedMaxDocs =? -1) || (cappedMaxDocs >? 0))
      else (cappedMaxSize =? -1) && (cappedMaxDocs =? -1))
  then
    match Iterator.current (Iterator.SeekToLast (Iterator.NewIterator prefix engine)) with
    | None => Some (build vm0 1)
    | Some (lastSlice, _) =>
        match _makeRecordId lastSlice with
        | None => None
        | Some lastId =>
            Some (build (match vm0 with
                         | Some vm => Some (CappedVisibilityManager.updateHighestSeen lastId vm)
                         | None => None
                         end)
                        (wrap64 (lastId + 1)))
        end
    end
  else None.

(* ---------------------------------------------------------------- *)
(** ** Reads, updates and removals *)

(** [static_cast<int>] of a size ([int oldLength = oldValue.size()]): the
    low 32 bits, read as a signed number. *)
Definition toInt (u : Z) : Z :=
  let m := u mod 2 ^ 32 in
  if m <? 2 ^ 31 then m else m - 2 ^ 32.

(** [storageSize]: [~255] is the [int] -256, widened to [long long]. *)
Definition storageSize (s : t) : Z :=
  Z.max (Z.land (_dataSize s) (Z.lnot 255)) 256.

(** [dataSize(opCtx)] and [numRecords(opCtx)]: the atomic plus the delta of
    the caller's transaction. *)
Definition dataSize : M Z :=
  s <- gets rs ;;
  ru <- getRU ;;
  ret (_dataSize s + ru_deltaDataSize ru).

Definition numRecords : M Z :=
  s <- gets rs ;;
  ru <- getRU ;;
  ret (_numRecords s + ru_deltaNumRecords ru).

(** [_getDataFor]: [None] is [RecordData(nullptr, 0)]. *)
Definition _getDataFor (prefix : Slice) (loc : RecordId) : M (option Slice) :=
  snap <- snapshot ;;
  let (status, valueStorage) := Get snap (_makePrefixedKey prefix loc) in
  match status with
  | StatusNotFound => ret None
  | StatusOK => ret (Some valueStorage)
  | StatusCorruption => abort   (* invariantRocksOK(status) *)
  end.

(** [findRecord(opCtx, loc, out)]: [Some data] is [true] with [*out] set,
    [None] is [false]. *)
Definition findRecord (loc : RecordId) : M (option Slice) :=
  s <- gets rs ;;
  _getDataFor (_prefix s) loc.

Section Maintenance.

Variable extractKey : Slice -> Z -> StatusWith RecordId.
Variable kOplogCompactEveryMins : Z.
Variable kOplogCompactEveryDeletedRecords : Z.
Variable env : Env.

(** [ru->transaction()->registerWrite(key)] of the caller's transaction (the
    one of [env] answers for the deleter's sub-transaction). *)
Variable registerWrite : Slice -> bool.

(** [deleteRecord(opCtx, dl)]. *)
Definition deleteRecord (dl : RecordId) : M unit :=
  s <- gets rs ;;
  let key := _makePrefixedKey (_prefix s) dl in
  emit [EvRegisterWrite key (registerWrite key)] ;;;
  (if negb (registerWrite key) then throw WriteConflictException else ret tt) ;;;
  snap <- snapshot ;;
  let (status, oldValue) := Get snap key in
  (match status with StatusOK => ret tt | _ => abort end) ;;;   (* invariantRocksOK *)
  let oldLength := toInt (Z.of_nat (length oldValue)) in
  writeBatch_Delete key ;;;
  (if _isOplog s then deleteKey dl else ret tt) ;;;
  _changeNumRecords (-1) ;;;
  _increaseDataSize (- oldLength).

(** [updateRecord(opCtx, loc, data, len, enforceQuota, notifier)]; the
    result is always [Status::OK()]. *)
Definition updateRecord (loc : RecordId) (data : Slice) (len : Z) : M unit :=
  s <- gets rs ;;
  let key := _makePrefixedKey (_prefix s) loc in
  emit [EvRegisterWrite key (registerWrite key)] ;;;
  (if negb (registerWrite key) then throw WriteConflictException else ret tt) ;;;
  snap <- snapshot ;;
  let (status, old_value) := Get snap key in
  (match status with StatusOK => ret tt | _ => abort end) ;;;   (* invariantRocksOK *)
  let old_length := toInt (Z.of_nat (length old_value)) in
  writeBatch_Put key (firstn (Z.to_nat len) data) ;;;
  (if _isOplog s then insertKey loc len else ret tt) ;;;
  _increaseDataSize (len - old_length) ;;;
  _ <- cappedDeleteAsNeeded kOplogCompactEveryMins kOplogCompactEveryDeletedRecords
                            env loc ;;
  ret tt.

(** [insertRecordsWithDocWriter]. A [DocWriter] is given by the bytes its
    [writeDocument] writes, [documentSize()] of them; the result carries
    [idsOut]. *)
Fixpoint insertRecords_loop (records : list Slice) (idsOut : list RecordId)
  : M (StatusWith (list RecordId)) :=
  match records with
  | [] => ret (SW_OK idsOut)
  | data :: rest =>
      s <- insertRecord extractKey kOplogCompactEveryMins kOplogCompactEveryDeletedRecords
                        env data (toInt (Z.of_nat (length data))) ;;
      match s with
      | SW_Error code => ret (SW_Error code)
      | SW_OK id => insertRecords_loop rest (idsOut ++ [id])
      end
  end.

Definition insertRecordsWithDocWriter (docs : list Slice)
  : M (StatusWith (list RecordId)) :=
  insertRecords_loop docs [].

(** [truncate(opCtx)]: the loop over the iterator, whose entries are
    [rest]. The model engine does not fail, so [iterator->status()] is OK. *)
Fixpoint truncate_loop (rest : list (Slice * Slice)) : M unit :=
  match rest with
  | [] => ret tt
  | (k, _) :: rest' =>
      match _makeRecordId k with
      | None => abort
      | Some id => deleteRecord id ;;; truncate_loop rest'
      end
  end.

Definition truncate : M unit :=
  s <- gets rs ;;
  snap <- snapshot ;;
  truncate_loop
    (Iterator.remaining (Iterator.SeekToFirst (Iterator.NewIterator (_prefix s) snap))).

End Maintenance.

(** [oplogStartHack(opCtx, startingPosition)]: [None] is [boost::none]. *)
Definition oplogStartHack (startingPosition : RecordId) : M (option RecordId) :=
  s <- gets rs ;;
  if negb (_isOplog s) then ret None
  else
    vm <- theVisibilityManager ;;
    setOplogReadTill (CappedVisibilityManager.oplogStartHack vm) ;;;
    trk <- theTracker ;;
    snap <- snapshot ;;
    let iter := Iterator.Seek (_makeKey startingPosition)
                              (Iterator.NewIterator (tracker_prefix trk) snap) in
    match Iterator.current iter with
    | None =>
        match Iterator.current (Iterator.SeekToLast iter) with
        | Some (k, _) =>
            (* startingPosition is bigger than everything else *)
            match _makeRecordId k with
            | Some id => ret (Some id)
            | None => abort
            end
        | None => ret (Some RecordId_null)   (* record store is empty *)
        end
    | Some (k, _) =>
        match _makeRecordId k with
        | None => abort
        | Some foundKey =>
            iter' <-
              (if negb (startingPosition =? foundKey) then
                 invariant (startingPosition <? foundKey) ;;;
                 ret (Iterator.Prev iter)
               else ret iter) ;;
            match Iterator.current iter' with
            | None => ret (Some RecordId_null)   (* no entries <= startingPosition *)
            | Some (k', _) =>
                match _makeRecordId k' with
                | Some id => ret (Some id)
                | None => abort
                end
            end
        end
    end.

End RocksRecordStore.

(* ================================================================== *)
(** * Specification vocabulary *)
(* ================================================================== *)

(** [m] is the minimum element of [l]. *)
Definition is_min (m : Z) (l : list Z) : Prop :=
  In m l /\ forall x, In x l -> m <= x.

(** The uncommitted ids are strictly increasing. *)
Definition uncommitted_sorted (vm : CappedVisibilityManager.t) : Prop :=
  StronglySorted Z.lt (CappedVisibilityManager._uncommittedRecords vm).

(** One call on the visibility manager, by any thread. Adding a record is
    subject to the [dassert] of [_addUncommittedRecord_inlock]. *)
Inductive vm_step (isOplog hasCallback : bool)
  : CappedVisibilityManager.t -> CappedVisibilityManager.t -> Prop :=
| step_addUncommittedRecord (record : RecordId) (vm : CappedVisibilityManager.t) :
    CappedVisibilityManager.addUncommitted_pre record vm ->
    vm_step isOplog hasCallback vm
            (fst (CappedVisibilityManager.addUncommittedRecord record vm))
| step_commit (it : RecordId) (vm : CappedVisibilityManager.t) :
    vm_step isOplog hasCallback vm
            (fst (CappedVisibilityManager.CappedInsertChange_commit isOplog it vm))
| step_rollback (it : RecordId) (vm : CappedVisibilityManager.t) :
    vm_step isOplog hasCallback vm
            (fst (CappedVisibilityManager.CappedInsertChange_rollback isOplog hasCallback it vm))
| step_updateHighestSeen (record : RecordId) (vm : CappedVisibilityManager.t) :
    vm_step isOplog hasCallback vm (CappedVisibilityManager.updateHighestSeen record vm)
| step_setHighestSeen (record : RecordId) (vm : CappedVisibilityManager.t) :
    vm_step isOplog hasCallback vm (CappedVisibilityManager.setHighestSeen record vm)
| step_journal (vm vm' : CappedVisibilityManager.t) (evs : list Event) :
    CappedVisibilityManager.oplogJournalThreadLoop hasCallback vm = Some (vm', evs) ->
    vm_step isOplog hasCallback vm vm'
| step_join (vm : CappedVisibilityManager.t) :
    vm_step isOplog hasCallback vm (CappedVisibilityManager.joinOplogJournalThreadLoop vm).

Inductive vm_reachable (isOplog hasCallback : bool) : CappedVisibilityManager.t -> Prop :=
| reach_init : vm_reachable isOplog hasCallback CappedVisibilityManager.init
| reach_step (vm vm' : CappedVisibilityManager.t) :
    vm_reachable isOplog hasCallback vm ->
    vm_step isOplog hasCallback vm vm' ->
    vm_reachable isOplog hasCallback vm'.

(** The calls as the replication layer makes them on an oplog: ids are
    registered in increasing order, each above the highest id seen so far,
    and the highest id seen is never reset ([setHighestSeen] is left to
    [cappedTruncateAfter]). *)
Inductive ordered_step (isOplog hasCallback : bool)
  : CappedVisibilityManager.t -> CappedVisibilityManager.t -> Prop :=
| ord_addUncommittedRecord (record : RecordId) (vm : CappedVisibilityManager.t) :
    CappedVisibilityManager._oplog_highestSeen vm < record ->
    ordered_step isOplog hasCallback vm
                 (fst (CappedVisibilityManager.addUncommittedRecord record vm))
| ord_commit (it : RecordId) (vm : CappedVisibilityManager.t) :
    ordered_step isOplog hasCallback vm
                 (fst (CappedVisibilityManager.CappedInsertChange_commit isOplog it vm))
| ord_rollback (it : RecordId) (vm : CappedVisibilityManager.t) :
    ordered_step isOplog hasCallback vm
                 (fst (CappedVisibilityManager.CappedInsertChange_rollback
                         isOplog hasCallback it vm))
| ord_updateHighestSeen (record : RecordId) (vm : CappedVisibilityManager.t) :
    ordered_step isOplog hasCallback vm
                 (CappedVisibilityManager.updateHighestSeen record vm)
| ord_journal (vm vm' : CappedVisibilityManager.t) (evs : list Event) :
    CappedVisibilityManager.oplogJournalThreadLoop hasCallback vm = Some (vm', evs) ->
    ordered_step isOplog hasCallback vm vm'
| ord_join (vm : CappedVisibilityManager.t) :
    ordered_step isOplog hasCallback vm
                 (CappedVisibilityManager.joinOplogJournalThreadLoop vm).

Inductive ordered_run (isOplog hasCallback : bool)
  : CappedVisibilityManager.t -> CappedVisibilityManager.t -> Prop :=
| run_here (vm : CappedVisibilityManager.t) : ordered_run isOplog hasCallback vm vm
| run_step (vm1 vm2 vm3 : CappedVisibilityManager.t) :
    ordered_run isOplog hasCallback vm1 vm2 ->
    ordered_step isOplog hasCallback vm2 vm3 ->
    ordered_run isOplog hasCallback vm1 vm3.

(** No uncommitted id is above the highest id seen. *)
Definition uncommitted_seen (vm : CappedVisibilityManager.t) : Prop :=
  Forall (fun x => x <= CappedVisibilityManager._oplog_highestSeen vm)
         (CappedVisibilityManager._uncommittedRecords vm).

(** The ceiling [c] is below every uncommitted id and the highest id seen. *)
Definition ceiling_below (c : RecordId) (vm : CappedVisibilityManager.t) : Prop :=
  Forall (fun x => c <= x) (CappedVisibilityManager._uncommittedRecords vm)
  /\ c <= CappedVisibilityManager._oplog_highestSeen vm.

(** The prefix of the oplog key tracker, when there is one. *)
Definition tracker_prefix_of (s : RocksRecordStore.t) : option Slice :=
  option_map tracker_prefix (RocksRecordStore._oplogKeyTracker s).

(** The deletions the capped deleter stages for one record: its key, and
    for an oplog its tracker key. *)
Definition del_ops (s : RocksRecordStore.t) (id : RecordId) : WriteBatch :=
  Delete (_makePrefixedKey (RocksRecordStore._prefix s) id)
  :: (if RocksRecordStore._isOplog s then
        match tracker_prefix_of s with
        | Some p => [Delete (_makePrefixedKey p id)]
        | None => []
        end
      else []).

Definition batch_of (w : RocksRecordStore.World) : WriteBatch :=
  ru_writeBatch (recoveryUnit (RocksRecordStore.opCtx w)).

(** The ids under which a list of iterator entries is decoded. *)
Definition decoded_as (entries : list (Slice * Slice)) (ids : list RecordId) : Prop :=
  map (fun e => _makeRecordId (fst e)) entries = map Some ids.

(** Calls that leave the visibility manager alone. *)
Definition quiet_event (e : Event) : Prop :=
  match e with
  | EvAddUncommittedRecord _ | EvRegisterChange _ | EvUpdateHighestSeen _ => False
  | _ => True
  end.

(** What a capped deletion leaves unchanged in the store, whatever it
    deletes. *)
Record pass_frame (w w' : RocksRecordStore.World) : Prop := mk_pass_frame {
  pf_vm : RocksRecordStore._cappedVisibilityManager (RocksRecordStore.rs w')
          = RocksRecordStore._cappedVisibilityManager (RocksRecordStore.rs w);
  pf_prefix : RocksRecordStore._prefix (RocksRecordStore.rs w')
              = RocksRecordStore._prefix (RocksRecordStore.rs w);
  pf_isOplog : RocksRecordStore._isOplog (RocksRecordStore.rs w')
               = RocksRecordStore._isOplog (RocksRecordStore.rs w);
  pf_tracker : tracker_prefix_of (RocksRecordStore.rs w')
               = tracker_prefix_of (RocksRecordStore.rs w);
  pf_shuttingDown : RocksRecordStore._shuttingDown (RocksRecordStore.rs w')
                    = RocksRecordStore._shuttingDown (RocksRecordStore.rs w);
  pf_callback : RocksRecordStore._cappedCallback (RocksRecordStore.rs w')
                = RocksRecordStore._cappedCallback (RocksRecordStore.rs w);
  pf_trace : exists evs, RocksRecordStore.trace w' = RocksRecordStore.trace w ++ evs
                         /\ Forall quiet_event evs
}.

(** The entries the capped deleter walks: the iterator over the collection
    (over the key tracker for an oplog), from [_cappedOldestKeyHint] on. *)
Definition deleter_entries (w : RocksRecordStore.World) : list (Slice * Slice) :=
  let s := RocksRecordStore.rs w in
  let iterPrefix :=
    if RocksRecordStore._isOplog s then
      match tracker_prefix_of s with Some p => p | None => [] end
    else RocksRecordStore._prefix s in
  Iterator.remaining
    (Iterator.Seek (_makeKey (RocksRecordStore._cappedOldestKeyHint s))
                   (Iterator.NewIterator iterPrefix (RocksRecordStore.db w))).

(** [m] keeps the relation [R] between the world it starts in and the world
    it leaves, however it ends, short of a terminated process. *)
Definition keeps (R : RocksRecordStore.World -> RocksRecordStore.World -> Prop)
           {A : Type} (m : RocksRecordStore.M A) : Prop :=
  forall w out w', m w = (out, w') -> out <> Aborted -> R w w'.

(** [m] never ends with the exception [e]. *)
Definition never_throws (e : Exception) {A : Type} (m : RocksRecordStore.M A) : Prop :=
  forall w out w', m w = (out, w') -> out <> Threw e.

(** A relation that holds across every step the capped deleter is made of:
    writes to the recovery unit, to the engine, to the trace, to the
    deletion count of the key tracker, to the oldest-key hint and to the
    counters. *)
Record frame_closed (R : RocksRecordStore.World -> RocksRecordStore.World -> Prop)
  : Prop := mk_frame_closed {
  fc_refl : forall w, R w w;
  fc_trans : forall w1 w2 w3, R w1 w2 -> R w2 w3 -> R w1 w3;
  fc_ru : forall f w, R w (RocksRecordStore.set_ru f w);
  fc_db : forall f w, R w (RocksRecordStore.set_db f w);
  fc_trace : forall evs w,
      R w (RocksRecordStore.mkWorld (RocksRecordStore.rs w) (RocksRecordStore.opCtx w)
                                    (RocksRecordStore.db w)
                                    (RocksRecordStore.trace w ++ evs));
  fc_tracker : forall n trk w,
      RocksRecordStore._oplogKeyTracker (RocksRecordStore.rs w) = Some trk ->
      R w (RocksRecordStore.set_rs
             (RocksRecordStore.with_tracker (Some (mkTracker n (tracker_prefix trk)))) w);
  fc_hint : forall hint w,
      R w (RocksRecordStore.set_rs (RocksRecordStore.with_hint hint) w);
  fc_counters : forall d n w,
      R w (RocksRecordStore.set_rs (RocksRecordStore.with_counters d n) w)
}.

(** The configuration of the store, its id counter, its visibility manager
    and the locks of the calling operation are the same in [w'] as in [w]. *)
Record same_config (w w' : RocksRecordStore.World) : Prop := mk_same_config {
  sc_prefix : RocksRecordStore._prefix (RocksRecordStore.rs w')
              = RocksRecordStore._prefix (RocksRecordStore.rs w);
  sc_isCapped : RocksRecordStore._isCapped (RocksRecordStore.rs w')
                = RocksRecordStore._isCapped (RocksRecordStore.rs w);
  sc_cappedMaxSize : RocksRecordStore._cappedMaxSize (RocksRecordStore.rs w')
                     = RocksRecordStore._cappedMaxSize (RocksRecordStore.rs w);
  sc_cappedMaxSizeSlack : RocksRecordStore._cappedMaxSizeSlack (RocksRecordStore.rs w')
                          = RocksRecordStore._cappedMaxSizeSlack (RocksRecordStore.rs w);
  sc_cappedMaxDocs : RocksRecordStore._cappedMaxDocs (RocksRecordStore.rs w')
                     = RocksRecordStore._cappedMaxDocs (RocksRecordStore.rs w);
  sc_cappedCallback : RocksRecordStore._cappedCallback (RocksRecordStore.rs w')
                      = RocksRecordStore._cappedCallback (RocksRecordStore.rs w);
  sc_isOplog : RocksRecordStore._isOplog (RocksRecordStore.rs w')
               = RocksRecordStore._isOplog (RocksRecordStore.rs w);
  sc_vm : RocksRecordStore._cappedVisibilityManager (RocksRecordStore.rs w')
          = RocksRecordStore._cappedVisibilityManager (RocksRecordStore.rs w);
  sc_nextIdNum : RocksRecordStore._nextIdNum (RocksRecordStore.rs w')
                 = RocksRecordStore._nextIdNum (RocksRecordStore.rs w);
  sc_hasBackgroundThread :
    RocksRecordStore._hasBackgroundThread (RocksRecordStore.rs w')
    = RocksRecordStore._hasBackgroundThread (RocksRecordStore.rs w);
  sc_shuttingDown : RocksRecordStore._shuttingDown (RocksRecordStore.rs w')
                    = RocksRecordStore._shuttingDown (RocksRecordStore.rs w);
  sc_tracker : tracker_prefix_of (RocksRecordStore.rs w')
               = tracker_prefix_of (RocksRecordStore.rs w);
  sc_lockIsNoop : lockIsNoop (RocksRecordStore.opCtx w')
                  = lockIsNoop (RocksRecordStore.opCtx w);
  sc_isCollectionLockedX : isCollectionLockedX (RocksRecordStore.opCtx w')
                           = isCollectionLockedX (RocksRecordStore.opCtx w)
}.

(** The caller's transaction is the same in [w'] as in [w]: its snapshot,
    its write batch, its counter deltas and its registered changes. *)
Definition same_transaction (w w' : RocksRecordStore.World) : Prop :=
  RocksRecordStore.opCtx w' = RocksRecordStore.opCtx w.

(** Every record of the engine in [w'] was there, with the same bytes, in
    [w]. *)
Definition nothing_added (w w' : RocksRecordStore.World) : Prop :=
  forall key value,
    db_get key (RocksRecordStore.db w') = Some value ->
    db_get key (RocksRecordStore.db w) = Some value.

(** A transaction that has read and written nothing yet. *)
Definition fresh_transaction (w : RocksRecordStore.World) : Prop :=
  let ru := recoveryUnit (RocksRecordStore.opCtx w) in
  ru_snapshot ru = None /\ ru_writeBatch ru = [] /\ ru_changes ru = []
  /\ ru_deltaDataSize ru = 0 /\ ru_deltaNumRecords ru = 0.

(** The results of [n] successive calls of [next()], and the cursor they
    leave. *)
Fixpoint next_n (n : nat) (vm : option CappedVisibilityManager.t) (snapshot : DB)
         (c : Cursor.t) : option (list (option Cursor.RecordT) * Cursor.t) :=
  match n with
  | O => Some ([], c)
  | S n' =>
      match Cursor.next vm snapshot c with
      | None => None
      | Some (r, c1) =>
          match next_n n' vm snapshot c1 with
          | None => None
          | Some (rs, c2) => Some (r :: rs, c2)
          end
      end
  end.

(** The entries of a collection that holds the records [recs], in the order
    of their keys. *)
Definition entries_of (recs : list (RecordId * Slice)) : list (Slice * Slice) :=
  map (fun r => (_makeKey (fst r), snd r)) recs.

Definition ids_of (recs : list (RecordId * Slice)) : list RecordId := map fst recs.

(** An id as it is stored: non-negative and in the range of [int64_t]. *)
Definition stored_id (id : RecordId) : Prop := 0 <= id /\ int64 id.

(** The bytes the records [recs] hold. *)
Definition data_size_of (recs : list (RecordId * Slice)) : Z :=
  fold_right (fun r acc => Z.of_nat (length (snd r)) + acc) 0 recs.

(** The deletions [deleteRecord] stages for one record: its key, and for
    an oplog with the tracker prefix [tp] its tracker key. *)
Definition delete_keys (prefix : Slice) (isOplog : bool) (tp : option Slice)
           (id : RecordId) : list Slice :=
  _makePrefixedKey prefix id
  :: (if isOplog then
        match tp with
        | Some p => [_makePrefixedKey p id]
        | None => []
        end
      else []).

(** The number of ids at the front of [ids] that are below [t]: in an
    increasing list, the number of ids below [t]. *)
Fixpoint count_below (t : RecordId) (ids : list RecordId) : nat :=
  match ids with
  | [] => O
  | id :: rest => if id <? t then S (count_below t rest) else O
  end.


(** The longest front of [l] whose elements all satisfy [f]. *)
Fixpoint take_while {A : Type} (f : A -> bool) (l : list A) : list A :=
  match l with
  | [] => []
  | x :: rest => if f x then x :: take_while f rest else []
  end.

(** The size the capped deleter counts for an entry it deletes: the length
    of the record, and for an oplog the size decoded from the entry of the
    key tracker. *)
Definition entry_size (isOplog : bool) (e : Slice * Slice) : Z :=
  if isOplog then decodeSize (snd e) else Z.of_nat (length (snd e)).

Definition entries_size (isOplog : bool) (entries : list (Slice * Slice)) : Z :=
  fold_right (fun e acc => entry_size isOplog e + acc) 0 entries.

(** Nothing stops the capped deleter on the entries [entries]: the store is
    not shutting down, the callback (if any) accepts every deletion, an
    oplog has its key tracker, and every entry is a record below
    [justInserted] that is not hidden and whose key no other transaction
    has write-locked. *)
Definition unobstructed (env : Env) (justInserted : RecordId) (s : RocksRecordStore.t)
           (entries : list (Slice * Slice)) : Prop :=
  RocksRecordStore._shuttingDown s = false
  /\ (RocksRecordStore._isOplog s = true -> RocksRecordStore._oplogKeyTracker s <> None)
  /\ (forall cb id v, RocksRecordStore._cappedCallback s = Some cb -> cb id v = CallbackOK)
  /\ exists m,
       RocksRecordStore._cappedVisibilityManager s = Some m
       /\ Forall (fun e =>
                    exists id,
                      _makeRecordId (fst e) = Some id
                      /\ id < justInserted
                      /\ CappedVisibilityManager.isCappedHidden id m = false
                      /\ env_registerWrite env
                           (_makePrefixedKey (RocksRecordStore._prefix s) id) = true)
                 entries.

(* ================================================================== *)
(** * Concrete stores *)
(* ================================================================== *)

(** An environment without contention: the deleter mutex is free and no key
    is write-locked by another transaction. *)
Definition quiet_env : Env := mkEnv true true (fun _ => true) 0.

(** Stand-ins for the oplog codec in the concrete runs below: the payload of
    an oplog entry starts with its id, big-endian, and the key of an optime
    is the optime. *)
Definition sample_extractKey (data : Slice) (len : Z) : StatusWith RecordId :=
  if len <? 8 then SW_Error BadValue else SW_OK (toSigned64 (be_combine (firstn 8 data))).

Definition sample_keyForOptime (opTime : Z) : StatusWith RecordId := SW_OK opTime.

Definition fresh_opCtx : OperationContext := mkOpCtx newRocksRecoveryUnit false false.

(** An empty collection with prefix ["P"], as the constructor builds it
    (with a key tracker whose counter happens to start at 0). *)
Definition empty_world (isOplog isCapped : bool) (cappedMaxSize cappedMaxDocs : Z)
           (hasBackgroundThread : bool) : option RocksRecordStore.World :=
  match RocksRecordStore.construct isOplog [81] 0 [] 0 0 hasBackgroundThread
                                   [80] isCapped cappedMaxSize cappedMaxDocs None with
  | Some s => Some (RocksRecordStore.mkWorld s fresh_opCtx [] [])
  | None => None
  end.

(** The world a call leaves, when it returns. *)
Definition after {A : Type} (m : RocksRecordStore.M A) (w : option RocksRecordStore.World)
  : option RocksRecordStore.World :=
  match w with
  | Some w0 => match m w0 with (Returned _, w') => Some w' | _ => None end
  | None => None
  end.

(** The ids stored under a prefix. *)
Definition stored_ids (prefix : Slice) (d : DB) : list (option RecordId) :=
  map (fun e => _makeRecordId (fst e)) (prefix_entries prefix d).

(** The same store seen from another thread: another operation context. *)
Definition switch_thread (ctx : OperationContext) (w : option RocksRecordStore.World)
  : option RocksRecordStore.World :=
  match w with
  | Some w0 =>
      Some (RocksRecordStore.mkWorld (RocksRecordStore.rs w0) ctx
                                     (RocksRecordStore.db w0) (RocksRecordStore.trace w0))
  | None => None
  end.

(** One turn of the journal thread on the store's visibility manager. *)
Definition journal_turn (w : option RocksRecordStore.World) : option RocksRecordStore.World :=
  match w with
  | Some w0 =>
      match RocksRecordStore._cappedVisibilityManager (RocksRecordStore.rs w0) with
      | Some vm =>
          match CappedVisibilityManager.oplogJournalThreadLoop false vm with
          | Some (vm', evs) =>
              Some (RocksRecordStore.mkWorld
                      (RocksRecordStore.with_vm (Some vm') (RocksRecordStore.rs w0))
                      (RocksRecordStore.opCtx w0) (RocksRecordStore.db w0)
                      (RocksRecordStore.trace w0 ++ evs))
          | None => None
          end
      | None => None
      end
  | None => None
  end.

(** An insert followed by the commit of its transaction. *)
Definition insert_and_commit (data : Slice) : RocksRecordStore.M unit :=
  RocksRecordStore.bind
    (RocksRecordStore.insertRecord sample_extractKey 60 1000000 quiet_env data
                                   (Z.of_nat (length data)))
    (fun _ => RocksRecordStore.commitTransaction).

Definition insert_and_rollback (data : Slice) : RocksRecordStore.M unit :=
  RocksRecordStore.bind
    (RocksRecordStore.insertRecord sample_extractKey 60 1000000 quiet_env data
                                   (Z.of_nat (length data)))
    (fun _ => RocksRecordStore.rollbackTransaction).

(** An oplog entry and its insertion as the replication layer does it: the
    optime is registered, then the entry is inserted. *)
Definition oplog_entry (id : RecordId) : Slice := nativeToBig id ++ [1; 2; 3].

Definition oplog_insert (id : RecordId) : RocksRecordStore.M unit :=
  RocksRecordStore.bind
    (RocksRecordStore.oplogDiskLocRegister sample_keyForOptime id)
    (fun _ =>
       RocksRecordStore.bind
         (RocksRecordStore.insertRecord sample_extractKey 60 1000000 quiet_env
                                        (oplog_entry id) 11)
         (fun _ => RocksRecordStore.ret tt)).

(** What a forward cursor opened now, in a new transaction, returns on its
    first three calls of [next()]. *)
Definition read_three (w : option RocksRecordStore.World)
  : option (list (option Cursor.RecordT)) :=
  match w with
  | Some w0 =>
      match RocksRecordStore.getCursor true
              (RocksRecordStore.mkWorld (RocksRecordStore.rs w0) fresh_opCtx
                                        (RocksRecordStore.db w0) (RocksRecordStore.trace w0))
      with
      | (Returned c, w1) =>
          let vm := RocksRecordStore._cappedVisibilityManager (RocksRecordStore.rs w1) in
          let snap := RocksRecordStore.db w1 in
          match Cursor.next vm snap c with
          | Some (r1, c1) =>
              match Cursor.next vm snap c1 with
              | Some (r2, c2) =>
                  match Cursor.next vm snap c2 with
                  | Some (r3, _) => Some [r1; r2; r3]
                  | None => None
                  end
              | None => None
              end
          | None => None
          end
      | _ => None
      end
  | None => None
  end.

(** A capped collection of at most 10 bytes that holds ten one-byte records
    (ids 1 to 10), in the transaction that has just staged the three-byte
    record 11: the state in which [insertRecord] calls the capped deleter. *)
Definition full_capped_world : RocksRecordStore.World :=
  RocksRecordStore.mkWorld
    (RocksRecordStore.mk [80] true 10 1 (-1) None false None 0
       (Some (CappedVisibilityManager.mk [11] 11 [] false)) 12 10 10 false false)
    (mkOpCtx (mkRU None [Put (_makePrefixedKey [80] 11) [99; 99; 99]] 3 1 [11] RecordId_null)
             false false)
    (map (fun i => (_makePrefixedKey [80] i, [97])) [1; 2; 3; 4; 5; 6; 7; 8; 9; 10])
    [].

(** A capped collection with a background deleter thread, 100 bytes over its
    cap of 100. *)
Definition backlogged_world : RocksRecordStore.World :=
  RocksRecordStore.mkWorld
    (RocksRecordStore.mk [80] true 100 10 (-1) None false None 0
       (Some CappedVisibilityManager.init) 1 200 5 true false)
    fresh_opCtx [] [].

(** An empty oplog and an empty capped collection of at most 10 bytes. *)
Definition oplog_world : RocksRecordStore.World :=
  RocksRecordStore.mkWorld
    (RocksRecordStore.mk [80] true 1000 100 (-1) None true (Some (mkTracker 0 [81])) 0
       (Some CappedVisibilityManager.init) 1 0 0 false false)
    fresh_opCtx [] [].

Definition capped_world : RocksRecordStore.World :=
  RocksRecordStore.mkWorld
    (RocksRecordStore.mk [80] true 10 1 (-1) None false None 0
       (Some CappedVisibilityManager.init) 1 0 0 false false)
    fresh_opCtx [] [].

(** A collection that is neither capped nor the oplog, holding the records
    1 ("a"), 2 ("bc") and 4 ("def"). *)
Definition plain_world : RocksRecordStore.World :=
  RocksRecordStore.mkWorld
    (RocksRecordStore.mk [80] false (-1) 0 (-1) None false None 0 None 5 6 3 false false)
    fresh_opCtx
    [(_makePrefixedKey [80] 1, [97]); (_makePrefixedKey [80] 2, [98; 99]);
     (_makePrefixedKey [80] 4, [100; 101; 102])]
    [].

(** An oplog that holds the entries 10, 20 and 30, all committed, with
    their sizes in the key tracker. *)
Definition oplog_three_world : RocksRecordStore.World :=
  RocksRecordStore.mkWorld
    (RocksRecordStore.mk [80] true 1000 100 (-1) None true (Some (mkTracker 0 [81])) 0
       (Some (CappedVisibilityManager.mk [] 30 [] false)) 1 33 3 false false)
    fresh_opCtx
    (map (fun id => (_makePrefixedKey [80] id, oplog_entry id)) [10; 20; 30]
     ++ map (fun id => (_makePrefixedKey [81] id, nativeToLittle32 11)) [10; 20; 30])
    [].

Module VM := CappedVisibilityManager.
Module RS := RocksRecordStore.

(** The ids stored, [numRecords] and [dataSize]. *)
Definition summary (w : option RS.World) : option (list (option RecordId) * Z * Z) :=
  match w with
  | Some w0 => Some (stored_ids [80] (RS.db w0), RS._numRecords (RS.rs w0),
                     RS._dataSize (RS.rs w0))
  | None => None
  end.

(* ================================================================== *)
(** * Properties of the key codec *)
(* ================================================================== *)

Lemma nativeToBig_digits (z : Z) : nativeToBig z = be_digits 8 z.
Proof.
  unfold nativeToBig, be_digits, map.
  change 255 with (Z.ones 8).
  repeat rewrite Z.land_ones by lia.
  repeat rewrite Z.shiftr_div_pow2 by lia.
  reflexivity.
Qed.

Lemma be_digits_length (n : nat) (u : Z) : length (be_digits n u) = n.
Proof. induction n; simpl; congruence. Qed.

Lemma be_digits_bytes (n : nat) (u : Z) : Forall is_byte (be_digits n u).
Proof.
  induction n; simpl; constructor; auto.
  unfold is_byte. apply Z.mod_pos_bound. lia.
Qed.

Lemma pow256_pos (n : nat) : 0 < 256 ^ Z.of_nat n.
Proof. apply Z.pow_pos_nonneg; lia. Qed.

Lemma mod_pow256_succ (n : nat) (u : Z) :
  u mod 256 ^ Z.of_nat (S n) =
  ((u / 256 ^ Z.of_nat n) mod 256) * 256 ^ Z.of_nat n + u mod 256 ^ Z.of_nat n.
Proof.
  rewrite Nat2Z.inj_succ, Z.pow_succ_r by lia.
  pose proof (pow256_pos n) as Hp.
  rewrite (Z.mul_comm 256), Z.rem_mul_r by lia.
  lia.
Qed.

Lemma land_shiftl8_byte (acc b : Z) : is_byte b -> Z.land (acc * 2 ^ 8) b = 0.
Proof.
  intros [Hb0 Hb1].
  apply Z.bits_inj'; intros n Hn.
  rewrite Z.land_spec, Z.bits_0.
  destruct (Z_lt_ge_dec n 8) as [Hlt | Hge].
  - rewrite Z.mul_pow2_bits_low by lia. reflexivity.
  - destruct (Z.eq_dec b 0) as [-> | Hnz].
    + rewrite Z.bits_0. apply andb_false_r.
    + rewrite (Z.bits_above_log2 b n), andb_false_r; auto.
      apply Z.lt_le_trans with 8; [ | lia ].
      apply Z.log2_lt_pow2; simpl; lia.
Qed.

Lemma lor_shiftl8 (acc b : Z) :
  is_byte b -> Z.lor (Z.shiftl acc 8) b = acc * 256 + b.
Proof.
  intros Hb. rewrite Z.shiftl_mul_pow2 by lia.
  pose proof (land_shiftl8_byte acc b Hb) as Hz.
  rewrite <- Z.lxor_lor, <- Z.add_nocarry_lxor by exact Hz.
  reflexivity.
Qed.

Lemma be_combine_digits_acc (n : nat) (u acc : Z) :
  fold_left (fun a b => Z.lor (Z.shiftl a 8) b) (be_digits n u) acc
  = acc * 256 ^ Z.of_nat n + u mod 256 ^ Z.of_nat n.
Proof.
  revert acc. induction n as [| n IH]; intros acc.
  - simpl. rewrite Z.mod_1_r. lia.
  - cbn [be_digits fold_left].
    rewrite lor_shiftl8 by (apply Z.mod_pos_bound; lia).
    rewrite IH, mod_pow256_succ.
    rewrite Nat2Z.inj_succ, Z.pow_succ_r by lia. ring.
Qed.

Lemma be_combine_digits (n : nat) (u : Z) :
  be_combine (be_digits n u) = u mod 256 ^ Z.of_nat n.
Proof. unfold be_combine. rewrite be_combine_digits_acc. lia. Qed.

Lemma compare_bytes_digits (n : nat) (u v : Z) :
  compare_bytes (be_digits n u) (be_digits n v)
  = (u mod 256 ^ Z.of_nat n ?= v mod 256 ^ Z.of_nat n).
Proof.
  induction n as [| n IH].
  - simpl. now rewrite !Z.mod_1_r.
  - cbn [be_digits compare_bytes].
    rewrite !mod_pow256_succ.
    pose proof (pow256_pos n) as Hp.
    pose proof (Z.mod_pos_bound u (256 ^ Z.of_nat n) Hp) as Hu.
    pose proof (Z.mod_pos_bound v (256 ^ Z.of_nat n) Hp) as Hv.
    set (du := (u / 256 ^ Z.of_nat n) mod 256) in *.
    set (dv := (v / 256 ^ Z.of_nat n) mod 256) in *.
    destruct (Z.compare_spec du dv) as [Heq | Hlt | Hgt].
    + rewrite IH, Heq. symmetry.
      destruct (Z.compare_spec (u mod 256 ^ Z.of_nat n) (v mod 256 ^ Z.of_nat n)).
      * apply Z.compare_eq_iff. lia.
      * apply Z.compare_lt_iff. lia.
      * apply Z.compare_gt_iff. lia.
    + symmetry. apply Z.compare_lt_iff. nia.
    + symmetry. apply Z.compare_gt_iff. nia.
Qed.

Lemma compare_bytes_app (p a b : Slice) :
  compare_bytes (p ++ a) (p ++ b) = compare_bytes a b.
Proof.
  induction p as [| x p IH]; simpl; auto.
  now rewrite Z.compare_refl.
Qed.

Lemma compare_bytes_refl (a : Slice) : compare_bytes a a = Eq.
Proof. induction a as [| x a IH]; simpl; auto. now rewrite Z.compare_refl. Qed.

Lemma compare_bytes_eq (a b : Slice) : compare_bytes a b = Eq -> a = b.
Proof.
  revert b. induction a as [| x a IH]; intros [| y b]; simpl; try discriminate; auto.
  destruct (Z.compare_spec x y) as [Hxy | Hxy | Hxy]; try discriminate.
  intros Hrest. f_equal; auto.
Qed.

Lemma slice_eqb_eq (a b : Slice) : slice_eqb a b = true <-> a = b.
Proof.
  unfold slice_eqb. split.
  - destruct (compare_bytes a b) eqn:E; try discriminate. intros _. now apply compare_bytes_eq.
  - intros ->. now rewrite compare_bytes_refl.
Qed.

(** The byte order of keys is the order of the ids read as unsigned 64-bit
    numbers. *)
Lemma makePrefixedKey_compare (prefix : Slice) (a b : RecordId) :
  compare_bytes (_makePrefixedKey prefix a) (_makePrefixedKey prefix b)
  = (toUnsigned64 a ?= toUnsigned64 b).
Proof.
  unfold _makePrefixedKey, _makeKey, toUnsigned64.
  rewrite compare_bytes_app, !nativeToBig_digits, compare_bytes_digits.
  reflexivity.
Qed.

Lemma makeKey_length (a : RecordId) : length (_makeKey a) = 8%nat.
Proof. reflexivity. Qed.

Lemma toSigned64_toUnsigned64 (a : Z) : int64 a -> toSigned64 (toUnsigned64 a) = a.
Proof.
  unfold int64, kMinRepr, kMaxRepr, toSigned64, toUnsigned64. intros H.
  destruct (Z_lt_ge_dec a 0) as [Hneg | Hpos].
  - replace (a mod 2 ^ 64) with (a + 2 ^ 64).
    + destruct (Z.ltb_spec (a + 2 ^ 64) (2 ^ 63)); lia.
    + apply Z.mod_unique with (q := -1); lia.
  - rewrite Z.mod_small by lia.
    destruct (Z.ltb_spec a (2 ^ 63)); lia.
Qed.

Lemma makeRecordId_makeKey (a : RecordId) : int64 a -> _makeRecordId (_makeKey a) = Some a.
Proof.
  intros H. unfold _makeRecordId. rewrite makeKey_length. simpl Nat.eqb. cbv iota.
  unfold _makeKey. rewrite nativeToBig_digits, be_combine_digits.
  change (256 ^ Z.of_nat 8) with (2 ^ 64).
  f_equal. now apply toSigned64_toUnsigned64.
Qed.

Lemma last8_makePrefixedKey (prefix : Slice) (a : RecordId) :
  last8 (_makePrefixedKey prefix a) = _makeKey a.
Proof.
  unfold last8, _makePrefixedKey.
  rewrite length_app, makeKey_length.
  replace (length prefix + 8 - 8)%nat with (length prefix) by lia.
  rewrite skipn_app, skipn_all, Nat.sub_diag.
  reflexivity.
Qed.

(** C9 (as amended). For a fixed prefix and two record ids of the same sign
    (in particular two non-negative ids, as all live ids are), the key of [a]
    is before the key of [b] in byte order exactly when [a < b]; and for
    every id the last eight bytes of its key decode to it. *)
Theorem makePrefixedKey_order_same_sign (prefix : Slice) (a b : RecordId) :
  int64 a -> int64 b -> (0 <= a <-> 0 <= b) ->
  (slice_lt (_makePrefixedKey prefix a) (_makePrefixedKey prefix b) = true <-> a < b)
  /\ _makeRecordId (last8 (_makePrefixedKey prefix a)) = Some a.
Proof.
  intros Ha Hb Hsign. split.
  - unfold slice_lt. rewrite makePrefixedKey_compare.
    unfold toUnsigned64, int64, kMinRepr, kMaxRepr in *.
    assert (Hmod : forall z, - 2 ^ 63 <= z <= 2 ^ 63 - 1 ->
                     z mod 2 ^ 64 = if z <? 0 then z + 2 ^ 64 else z).
    { intros z Hz. destruct (Z.ltb_spec z 0).
      - symmetry. apply Z.mod_unique with (q := -1); lia.
      - apply Z.mod_small. lia. }
    rewrite (Hmod a Ha), (Hmod b Hb).
    destruct (Z.ltb_spec a 0), (Z.ltb_spec b 0); try lia.
    + destruct (Z.compare_spec (a + 2 ^ 64) (b + 2 ^ 64)); split; intros; try discriminate; lia.
    + destruct (Z.compare_spec a b); split; intros; try discriminate; lia.
  - rewrite last8_makePrefixedKey. now apply makeRecordId_makeKey.
Qed.

Lemma makePrefixedKey_order_same_sign_witness :
  (slice_lt (_makePrefixedKey [80] 3) (_makePrefixedKey [80] 11) = true <-> 3 < 11)
  /\ _makeRecordId (last8 (_makePrefixedKey [80] 3)) = Some 3.
Proof.
  apply (makePrefixedKey_order_same_sign [80] 3 11);
    unfold int64, kMinRepr, kMaxRepr; lia.
Defined.

(** C9, as stated, fails across signs: [RecordId::min()] is below the id 1 but
    its key is after the key of 1. *)
Lemma makePrefixedKey_order_fails_across_signs :
  int64 RecordId_min /\ int64 1 /\
  ~ (slice_lt (_makePrefixedKey [80] RecordId_min) (_makePrefixedKey [80] 1) = true
     <-> RecordId_min < 1).
Proof.
  split; [ unfold int64, RecordId_min, kMinRepr, kMaxRepr; lia | ].
  split; [ unfold int64, kMinRepr, kMaxRepr; lia | ].
  intros [_ H].
  assert (Hlt : RecordId_min < 1) by (unfold RecordId_min, kMinRepr; lia).
  specialize (H Hlt). vm_compute in H. discriminate.
Qed.

(* ================================================================== *)
(** * Properties of the visibility manager *)
(* ================================================================== *)

Lemma sorted_front_is_min (x : Z) (l : list Z) :
  StronglySorted Z.lt (x :: l) -> is_min x (x :: l).
Proof.
  intros H. inversion H as [| ? ? Hs Hall]; subst. split.
  - now left.
  - intros y [-> | Hy]; [ lia | ].
    rewrite Forall_forall in Hall. specialize (Hall y Hy). lia.
Qed.

Lemma is_min_unique (m m' : Z) (l : list Z) : is_min m l -> is_min m' l -> m = m'.
Proof. intros [Hm Hle] [Hm' Hle']. specialize (Hle m' Hm'). specialize (Hle' m Hm). lia. Qed.

Lemma erase_incl (it : RecordId) (l : list RecordId) (x : RecordId) :
  In x (VM.erase it l) -> In x l.
Proof.
  induction l as [| y l IH]; simpl; auto.
  destruct (Z.eqb_spec y it); simpl; intuition.
Qed.

Lemma erase_sorted (it : RecordId) (l : list RecordId) :
  StronglySorted Z.lt l -> StronglySorted Z.lt (VM.erase it l).
Proof.
  induction 1 as [| y l Hs IH Hall]; simpl.
  - constructor.
  - destruct (Z.eqb_spec y it); auto.
    constructor; auto.
    rewrite Forall_forall in *. intros x Hx. apply Hall. eapply erase_incl; eauto.
Qed.

Lemma erase_not_in (it : RecordId) (l : list RecordId) :
  StronglySorted Z.lt l -> ~ In it (VM.erase it l).
Proof.
  induction 1 as [| y l Hs IH Hall]; simpl; auto.
  destruct (Z.eqb_spec y it) as [-> | Hne].
  - rewrite Forall_forall in Hall. intros Hin. specialize (Hall it Hin). lia.
  - simpl. intros [Heq | Hin]; [ congruence | auto ].
Qed.

Lemma last_bound (l : list Z) (d r : Z) :
  l <> [] -> StronglySorted Z.lt l -> last l d < r -> Forall (fun x => x < r) l.
Proof.
  induction l as [| y l IH]; [ congruence | ].
  intros _ Hs Hlast. inversion Hs as [| ? ? Hs' Hall]; subst.
  destruct l as [| z l'].
  - simpl in Hlast. constructor; auto.
  - assert (Hrest : Forall (fun x => x < r) (z :: l')).
    { apply IH; auto. congruence. }
    constructor; auto.
    rewrite Forall_forall in Hall, Hrest.
    specialize (Hall z (or_introl eq_refl)). specialize (Hrest z (or_introl eq_refl)). lia.
Qed.

Lemma sorted_snoc (l : list Z) (r : Z) :
  StronglySorted Z.lt l -> Forall (fun x => x < r) l -> StronglySorted Z.lt (l ++ [r]).
Proof.
  induction 1 as [| y l Hs IH Hall]; intros Hlt; simpl.
  - repeat constructor.
  - inversion Hlt; subst. constructor; auto.
    apply Forall_app. split; auto.
Qed.

Lemma addUncommittedRecord_sorted (record : RecordId) (vm : VM.t) :
  uncommitted_sorted vm -> VM.addUncommitted_pre record vm ->
  uncommitted_sorted (fst (VM.addUncommittedRecord record vm)).
Proof.
  unfold uncommitted_sorted, VM.addUncommitted_pre. simpl. intros Hs [Hnil | Hlast].
  - rewrite Hnil. repeat constructor.
  - destruct (VM._uncommittedRecords vm) as [| y l] eqn:E.
    + repeat constructor.
    + apply sorted_snoc; auto. apply last_bound with (d := 0); auto. congruence.
Qed.

Lemma dealtWithCappedRecord_sorted (isOplog : bool) (it : RecordId) (didCommit : bool)
      (vm : VM.t) :
  uncommitted_sorted vm ->
  uncommitted_sorted (fst (VM.dealtWithCappedRecord isOplog it didCommit vm)).
Proof.
  unfold uncommitted_sorted, VM.dealtWithCappedRecord. intros Hs.
  destruct (didCommit && isOplog && negb (it =? VM._oplog_highestSeen vm)); simpl; auto.
  now apply erase_sorted.
Qed.

Lemma fold_erase_sorted (ops l : list RecordId) :
  StronglySorted Z.lt l -> StronglySorted Z.lt (fold_left (fun l op => VM.erase op l) ops l).
Proof.
  revert l. induction ops as [| op ops IH]; simpl; auto.
  intros l Hs. apply IH. now apply erase_sorted.
Qed.

(** The uncommitted ids stay strictly increasing under every call, so the
    front of the list is its minimum. *)
Lemma vm_step_sorted (isOplog hasCallback : bool) (vm vm' : VM.t) :
  vm_step isOplog hasCallback vm vm' -> uncommitted_sorted vm -> uncommitted_sorted vm'.
Proof.
  intros Hstep Hs. destruct Hstep.
  - now apply addUncommittedRecord_sorted.
  - now apply dealtWithCappedRecord_sorted.
  - unfold VM.CappedInsertChange_rollback.
    pose proof (dealtWithCappedRecord_sorted isOplog it false vm Hs) as Hd.
    destruct (VM.dealtWithCappedRecord isOplog it false vm). exact Hd.
  - unfold VM.updateHighestSeen.
    destruct (record >? VM._oplog_highestSeen vm); auto.
  - exact Hs.
  - unfold VM.oplogJournalThreadLoop in H.
    destruct (VM._shuttingDown vm); [ discriminate | ].
    injection H as <- _. unfold uncommitted_sorted. simpl.
    now apply fold_erase_sorted.
  - exact Hs.
Qed.

Lemma vm_reachable_sorted (isOplog hasCallback : bool) (vm : VM.t) :
  vm_reachable isOplog hasCallback vm -> uncommitted_sorted vm.
Proof.
  induction 1 as [| vm vm' Hr IH Hstep].
  - constructor.
  - eapply vm_step_sorted; eauto.
Qed.

Lemma isCappedHidden_front (id : RecordId) (vm : VM.t) :
  VM.isCappedHidden id vm = true <->
  exists front rest, VM._uncommittedRecords vm = front :: rest /\ front <= id.
Proof.
  unfold VM.isCappedHidden. destruct (VM._uncommittedRecords vm) as [| f l].
  - split; [ discriminate | intros (? & ? & ? & _); discriminate ].
  - rewrite Z.leb_le. split.
    + intros H. now exists f, l.
    + intros (f' & l' & Heq & Hle). injection Heq as -> ->. exact Hle.
Qed.

Lemma isCappedHidden_min (id : RecordId) (vm : VM.t) :
  uncommitted_sorted vm ->
  (VM.isCappedHidden id vm = true <->
   VM._uncommittedRecords vm <> [] /\
   exists m, is_min m (VM._uncommittedRecords vm) /\ m <= id).
Proof.
  unfold uncommitted_sorted. intros Hs. rewrite isCappedHidden_front. split.
  - intros (f & l & Heq & Hle). rewrite Heq in *. split; [ congruence | ].
    exists f. split; auto. now apply sorted_front_is_min.
  - intros (Hne & m & Hmin & Hle).
    destruct (VM._uncommittedRecords vm) as [| f l]; [ congruence | ].
    exists f, l. split; auto.
    pose proof (sorted_front_is_min f l Hs) as Hf.
    rewrite (is_min_unique f m (f :: l)); auto.
Qed.

(* ------------------------------------------------------------------ *)
(** ** Read ceilings under ordered registration *)

Lemma Forall_erase (P : Z -> Prop) (it : RecordId) (l : list RecordId) :
  Forall P l -> Forall P (VM.erase it l).
Proof.
  rewrite !Forall_forall. intros H x Hx. apply H. eapply erase_incl; eauto.
Qed.

Lemma Forall_fold_erase (P : Z -> Prop) (ops l : list RecordId) :
  Forall P l -> Forall P (fold_left (fun l op => VM.erase op l) ops l).
Proof.
  revert l. induction ops as [| op ops IH]; simpl; auto.
  intros l H. apply IH. now apply Forall_erase.
Qed.

Lemma ordered_step_seen (isOplog hasCallback : bool) (vm vm' : VM.t) :
  ordered_step isOplog hasCallback vm vm' -> uncommitted_seen vm -> uncommitted_seen vm'.
Proof.
  unfold uncommitted_seen. intros Hstep H. destruct Hstep.
  - cbn. apply Forall_app. split.
    + eapply Forall_impl; [ | exact H ]. cbn. intros x Hx. lia.
    + constructor; [ lia | constructor ].
  - unfold VM.CappedInsertChange_commit, VM.dealtWithCappedRecord.
    destruct (true && isOplog && negb (it =? VM._oplog_highestSeen vm)); cbn; auto.
    now apply Forall_erase.
  - unfold VM.CappedInsertChange_rollback, VM.dealtWithCappedRecord. cbn.
    now apply Forall_erase.
  - unfold VM.updateHighestSeen.
    destruct (Z.gtb_spec record (VM._oplog_highestSeen vm)); cbn; auto.
    eapply Forall_impl; [ | exact H ]. cbn. intros x Hx. lia.
  - unfold VM.oplogJournalThreadLoop in H0.
    destruct (VM._shuttingDown vm); [ discriminate | ].
    injection H0 as <- _. cbn. now apply Forall_fold_erase.
  - exact H.
Qed.

Lemma ordered_step_ceiling (c : RecordId) (isOplog hasCallback : bool) (vm vm' : VM.t) :
  ordered_step isOplog hasCallback vm vm' -> ceiling_below c vm -> ceiling_below c vm'.
Proof.
  unfold ceiling_below. intros Hstep [Hall Hc]. destruct Hstep.
  - cbn. split; [ | lia ]. apply Forall_app. split; auto.
    constructor; [ lia | constructor ].
  - unfold VM.CappedInsertChange_commit, VM.dealtWithCappedRecord.
    destruct (true && isOplog && negb (it =? VM._oplog_highestSeen vm)); cbn; auto.
    split; auto. now apply Forall_erase.
  - unfold VM.CappedInsertChange_rollback, VM.dealtWithCappedRecord. cbn.
    split; auto. now apply Forall_erase.
  - unfold VM.updateHighestSeen.
    destruct (Z.gtb_spec record (VM._oplog_highestSeen vm)); cbn; auto.
    split; auto. lia.
  - unfold VM.oplogJournalThreadLoop in H.
    destruct (VM._shuttingDown vm); [ discriminate | ].
    injection H as <- _. cbn. split; auto. now apply Forall_fold_erase.
  - split; auto.
Qed.

Lemma ordered_step_is_vm_step (isOplog hasCallback : bool) (vm vm' : VM.t) :
  uncommitted_sorted vm -> uncommitted_seen vm ->
  ordered_step isOplog hasCallback vm vm' -> vm_step isOplog hasCallback vm vm'.
Proof.
  intros Hs Hseen Hstep. destruct Hstep; try (econstructor; eauto; fail).
  constructor. unfold VM.addUncommitted_pre.
  destruct (VM._uncommittedRecords vm) as [| y l] eqn:E; [ now left | right ].
  unfold uncommitted_seen in Hseen. rewrite E in Hseen.
  rewrite Forall_forall in Hseen.
  assert (Hin : In (last (y :: l) 0) (y :: l)).
  { destruct (exists_last (l := y :: l)) as (l' & a & Heq); [ discriminate | ].
    rewrite Heq, last_last. apply in_or_app. right. now left. }
  specialize (Hseen _ Hin). lia.
Qed.

Lemma ordered_run_invariants (isOplog hasCallback : bool) (vm : VM.t) :
  ordered_run isOplog hasCallback VM.init vm ->
  uncommitted_sorted vm /\ uncommitted_seen vm.
Proof.
  intros Hrun. remember VM.init as s0 eqn:Hs0.
  induction Hrun as [vm | vm1 vm2 vm3 Hrun IH Hstep]; subst.
  - split; constructor.
  - destruct (IH eq_refl) as [Hs Hseen]. split.
    + eapply vm_step_sorted; [ | exact Hs ].
      eapply ordered_step_is_vm_step; eauto.
    + eapply ordered_step_seen; eauto.
Qed.

(** Under ordered registration the minimum uncommitted id never drops below
    a read ceiling taken earlier: the ceiling [oplogStartHack()] taken in the
    state [vm0] is at or below every id uncommitted in any later state. *)
Lemma ceiling_stays_below_uncommitted (isOplog hasCallback : bool) (vm0 vm : VM.t) :
  ordered_run isOplog hasCallback VM.init vm0 ->
  ordered_run isOplog hasCallback vm0 vm ->
  forall m, is_min m (VM._uncommittedRecords vm) -> VM.oplogStartHack vm0 <= m.
Proof.
  intros Hinit Hrun.
  destruct (ordered_run_invariants _ _ _ Hinit) as [Hs Hseen].
  assert (H0 : ceiling_below (VM.oplogStartHack vm0) vm0).
  { unfold ceiling_below, VM.oplogStartHack, uncommitted_sorted, uncommitted_seen in *.
    destruct (VM._uncommittedRecords vm0) as [| f l].
    - split; [ constructor | lia ].
    - inversion Hs as [| ? ? Hs' Hall]; subst. inversion Hseen; subst. split; auto.
      constructor; [ lia | ].
      eapply Forall_impl; [ | exact Hall ]. cbn. intros x Hx. lia. }
  assert (H : ceiling_below (VM.oplogStartHack vm0) vm).
  { clear Hinit Hs Hseen. induction Hrun as [vm | vm1 vm2 vm3 Hrun IH Hstep]; auto.
    eapply ordered_step_ceiling; eauto. }
  intros m [Hin _]. destruct H as [Hall _].
  rewrite Forall_forall in Hall. now apply Hall.
Qed.

(* ------------------------------------------------------------------ *)
(** ** The commit/rollback hook *)

(** C3 (as amended). In [dealtWithCappedRecord]: when the transaction
    committed, the collection is the oplog and the id differs from
    [_oplog_highestSeen], the id stays in the uncommitted list and is appended
    to [_opsWaitingForJournal], and the journal condition variable is
    notified exactly when that queue was empty before; in every other case
    the id is erased from the uncommitted list at once and
    [_opsBecameVisibleCV] is notified. *)
Theorem dealtWithCappedRecord_cases (isOplog : bool) (it : RecordId) (didCommit : bool)
        (vm : VM.t) :
  let vm' := fst (VM.dealtWithCappedRecord isOplog it didCommit vm) in
  let evs := snd (VM.dealtWithCappedRecord isOplog it didCommit vm) in
  ((didCommit = true /\ isOplog = true /\ it <> VM._oplog_highestSeen vm) ->
     VM._uncommittedRecords vm' = VM._uncommittedRecords vm
     /\ VM._opsWaitingForJournal vm' = VM._opsWaitingForJournal vm ++ [it]
     /\ (VM._opsWaitingForJournal vm = [] -> evs = [EvNotifyOne_opsWaitingForJournalCV])
     /\ (VM._opsWaitingForJournal vm <> [] -> evs = []))
  /\
  ((didCommit = false \/ isOplog = false \/ it = VM._oplog_highestSeen vm) ->
     VM._uncommittedRecords vm' = VM.erase it (VM._uncommittedRecords vm)
     /\ (uncommitted_sorted vm -> ~ In it (VM._uncommittedRecords vm'))
     /\ VM._opsWaitingForJournal vm' = VM._opsWaitingForJournal vm
     /\ evs = [EvNotifyAll_opsBecameVisibleCV]).
Proof.
  unfold VM.dealtWithCappedRecord. split.
  - intros (-> & -> & Hne).
    destruct (Z.eqb_spec it (VM._oplog_highestSeen vm)); [ contradiction | ].
    simpl. repeat split; auto.
    + intros ->. reflexivity.
    + destruct (VM._opsWaitingForJournal vm); [ congruence | reflexivity ].
  - intros Hcase.
    assert (Hcond : didCommit && isOplog && negb (it =? VM._oplog_highestSeen vm) = false).
    { destruct Hcase as [-> | [-> | ->]].
      - reflexivity.
      - now rewrite andb_false_r.
      - now rewrite Z.eqb_refl, andb_false_r. }
    rewrite Hcond. simpl. repeat split; auto.
    intros Hs. now apply erase_not_in.
Qed.

Lemma dealtWithCappedRecord_cases_witness :
  let vm := VM.mk [7; 8] 8 [] false in
  VM._uncommittedRecords (fst (VM.dealtWithCappedRecord true 7 true vm)) = [7; 8]
  /\ VM._opsWaitingForJournal (fst (VM.dealtWithCappedRecord true 7 true vm)) = [7]
  /\ snd (VM.dealtWithCappedRecord true 7 true vm) = [EvNotifyOne_opsWaitingForJournalCV]
  /\ VM._uncommittedRecords (fst (VM.dealtWithCappedRecord true 8 true vm)) = [7]
  /\ snd (VM.dealtWithCappedRecord true 8 true vm) = [EvNotifyAll_opsBecameVisibleCV].
Proof.
  intros vm.
  assert (Hne : 7 <> VM._oplog_highestSeen vm) by (simpl; lia).
  pose proof (proj1 (dealtWithCappedRecord_cases true 7 true vm)
                    (conj eq_refl (conj eq_refl Hne))) as (H1 & H2 & H3 & _).
  pose proof (proj2 (dealtWithCappedRecord_cases true 8 true vm)
                    (or_intror (or_intror eq_refl))) as (H4 & _ & _ & H5).
  exact (conj H1 (conj H2 (conj (H3 eq_refl) (conj H4 H5)))).
Defined.

(** C3, as stated, fails when the journal queue already holds an entry: the
    ids 7, 8 and 9 are uncommitted, 8 committed first and waits for the
    journal; the commit of 7 is deferred too, and nothing is notified. *)
Lemma dealtWithCappedRecord_deferred_without_signal :
  let vm := VM.mk [7; 8; 9] 9 [8] false in
  7 <> VM._oplog_highestSeen vm
  /\ VM._opsWaitingForJournal (fst (VM.dealtWithCappedRecord true 7 true vm)) = [8; 7]
  /\ ~ In EvNotifyOne_opsWaitingForJournalCV (snd (VM.dealtWithCappedRecord true 7 true vm)).
Proof.
  simpl. repeat split; auto. lia.
Qed.

(** The hooks of [CappedInsertChange]: [commit] is the call with
    [didCommit = true]; [rollback] erases and then notifies the capped
    waiters when there is a callback. *)
Lemma CappedInsertChange_rollback_erases (isOplog hasCallback : bool) (it : RecordId)
      (vm : VM.t) :
  VM._uncommittedRecords (fst (VM.CappedInsertChange_rollback isOplog hasCallback it vm))
  = VM.erase it (VM._uncommittedRecords vm)
  /\ snd (VM.CappedInsertChange_rollback isOplog hasCallback it vm)
     = EvNotifyAll_opsBecameVisibleCV
         :: (if hasCallback then [EvNotifyCappedWaitersIfNeeded] else []).
Proof.
  unfold VM.CappedInsertChange_rollback, VM.dealtWithCappedRecord. simpl. auto.
Qed.

(* ------------------------------------------------------------------ *)
(** ** Waiting for earlier oplog writes *)


(** The wait ends at the first observed state that satisfies the predicate. *)
Lemma waitForConditionOrInterrupt_first (pred : VM.t -> bool) (now : VM.t)
      (before : list VM.t) (s : VM.t) (after : list VM.WakeUp) :
  pred now = false ->
  Forall (fun x => pred x = false) before ->
  pred s = true ->
  VM.waitForConditionOrInterrupt pred now (map VM.Woken before ++ VM.Woken s :: after)
  = VM.WaitReturned s.
Proof.
  revert now. induction before as [| b before IH]; intros now Hnow Hbefore Hs; simpl.
  - rewrite Hnow. destruct after; simpl; now rewrite Hs.
  - rewrite Hnow. inversion Hbefore; subst. now apply IH.
Qed.



(** The call does return once the condition holds, for every caller that
    passes the [invariant] (a no-op locker, or a locker that is not in a
    write unit of work): when the condition holds at entry the call
    returns at once, and otherwise it returns in the first state observed
    at a wake-up in which it holds, whatever happens later. *)
Lemma waitForAllEarlierOplogWritesToBeVisible_progress
      (lockIsNoop inAWriteUnitOfWork : bool)
      (vm : VM.t) (before : list VM.t) (s : VM.t) (after : list VM.WakeUp) :
  let visible (x : VM.t) :=
    match VM._uncommittedRecords x with
    | [] => true
    | front :: _ => front >? VM._oplog_highestSeen vm
    end in
  lockIsNoop || negb inAWriteUnitOfWork = true ->
  (visible vm = true ->
   VM.waitForAllEarlierOplogWritesToBeVisible lockIsNoop inAWriteUnitOfWork vm after
   = Some (VM.WaitReturned vm))
  /\ (visible vm = false ->
      Forall (fun x => visible x = false) before ->
      visible s = true ->
      VM.waitForAllEarlierOplogWritesToBeVisible lockIsNoop inAWriteUnitOfWork vm
          (map VM.Woken before ++ VM.Woken s :: after)
      = Some (VM.WaitReturned s)).
Proof.
  intros visible Hinv.
  unfold VM.waitForAllEarlierOplogWritesToBeVisible. rewrite Hinv. fold visible. split.
  - intros Hvm. f_equal. destruct after; simpl; now rewrite Hvm.
  - intros Hvm Hbefore Hs. f_equal.
    now apply waitForConditionOrInterrupt_first.
Qed.

(* ================================================================== *)
(** * Properties of the cursor *)
(* ================================================================== *)

(** What [curr()] does with a record under the iterator, for a cursor that has
    a visibility manager. *)
Lemma curr_positioned (vm : VM.t) (c : Cursor.t) (it : Iterator.t) (k data : Slice)
      (id : RecordId) :
  Cursor._iterator c = Some it ->
  Iterator.current it = Some (k, data) ->
  _makeRecordId k = Some id ->
  let withheld :=
    if Cursor._forward c then
      if isNull (Cursor._readUntilForOplog c) then VM.isCappedHidden id vm
      else (id >? Cursor._readUntilForOplog c)
           || ((id =? Cursor._readUntilForOplog c) && VM.isCappedHidden id vm)
    else false in
  exists c',
    Cursor.curr (Some vm) c
    = Some (if withheld then None else Some (id, data), c')
    /\ Cursor._eof c' = withheld
    /\ Cursor._lastLoc c' = id.
Proof.
  intros Hit Hcur Hid withheld. unfold Cursor.curr.
  rewrite Hit, Hcur, Hid. fold withheld.
  destruct withheld; eexists; repeat split.
Qed.

(** C1. A forward cursor with a visibility manager (the oplog has one) and a
    non-null read ceiling, positioned on the record [id]: [curr()] reports EOF
    instead of the record exactly when [id] is above the ceiling, or equal to
    it and capped-hidden in the current state of the manager; otherwise it
    returns the record, so every record below the ceiling is returned. *)
Theorem curr_oplog_withheld_iff (vm : VM.t) (c : Cursor.t) (it : Iterator.t)
        (k data : Slice) (id : RecordId) :
  Cursor._forward c = true ->
  isNull (Cursor._readUntilForOplog c) = false ->
  Cursor._iterator c = Some it ->
  Iterator.current it = Some (k, data) ->
  _makeRecordId k = Some id ->
  let readUntil := Cursor._readUntilForOplog c in
  exists res c',
    Cursor.curr (Some vm) c = Some (res, c')
    /\ (res = None <->
        (id > readUntil \/ (id = readUntil /\ VM.isCappedHidden id vm = true)))
    /\ (res = None -> Cursor._eof c' = true)
    /\ (res <> None -> res = Some (id, data) /\ Cursor._eof c' = false)
    /\ (id < readUntil -> res = Some (id, data)).
Proof.
  intros Hfwd Hnull Hit Hcur Hid readUntil.
  destruct (curr_positioned vm c it k data id Hit Hcur Hid) as (c' & Hcurr & Heof & _).
  rewrite Hfwd, Hnull in Hcurr, Heof. fold readUntil in Hcurr, Heof.
  assert (Hw : (id >? readUntil) || ((id =? readUntil) && VM.isCappedHidden id vm) = true
               <-> (id > readUntil \/ (id = readUntil /\ VM.isCappedHidden id vm = true))).
  { rewrite orb_true_iff, andb_true_iff, Z.eqb_eq, Z.gtb_lt. intuition lia. }
  destruct ((id >? readUntil) || ((id =? readUntil) && VM.isCappedHidden id vm)) eqn:E.
  - exists None, c'. split; [ exact Hcurr | ]. split; [ | split; [ | split ] ].
    + split; intros _; [ apply Hw; reflexivity | reflexivity ].
    + intros _. exact Heof.
    + intros Hne. congruence.
    + intros Hlt. destruct Hw as [Hw _]. specialize (Hw eq_refl). lia.
  - exists (Some (id, data)), c'. split; [ exact Hcurr | ]. split; [ | split; [ | split ] ].
    + split; [ discriminate | ]. intros Hcond. apply Hw in Hcond. discriminate.
    + discriminate.
    + intros _. split; [ reflexivity | exact Heof ].
    + intros _. reflexivity.
Qed.

Lemma curr_oplog_withheld_iff_witness :
  let vm := VM.mk [100; 101] 101 [] false in
  let it := Iterator.mk [(_makeKey 99, [1]); (_makeKey 100, [2])] (Some 1%nat) in
  let c := Cursor.mk [80] true true 100 false false false 99 (Some it) [] in
  exists res c',
    Cursor.curr (Some vm) c = Some (res, c')
    /\ (res = None <-> (100 > 100 \/ (100 = 100 /\ VM.isCappedHidden 100 vm = true)))
    /\ (res = None -> Cursor._eof c' = true)
    /\ (res <> None -> res = Some (100, [2]) /\ Cursor._eof c' = false)
    /\ (100 < 100 -> res = Some (100, [2])).
Proof.
  intros vm it c.
  apply (curr_oplog_withheld_iff vm c it (_makeKey 100) [2] 100); reflexivity.
Defined.

(** C2 (as amended). [isCappedHidden(id)] holds exactly when the uncommitted
    list is not empty and [id] is at or above its minimum. A forward cursor
    without a read ceiling never returns a record that is capped-hidden when
    it is emitted. A forward cursor with a read ceiling returns no record
    above the ceiling, and the record at the ceiling only when it is not
    hidden; so it returns no record at or above the minimum uncommitted id
    as long as that minimum is not below the ceiling, which is the case when
    the ceiling is [oplogStartHack()] of an earlier state and ids are
    registered in increasing order above the highest id seen. *)
Theorem isCappedHidden_min_and_cursor_filter (vm : VM.t) :
  uncommitted_sorted vm ->
  (forall id,
     VM.isCappedHidden id vm = true <->
     VM._uncommittedRecords vm <> [] /\
     exists m, is_min m (VM._uncommittedRecords vm) /\ m <= id)
  /\
  (forall c id data c',
     Cursor._forward c = true ->
     Cursor.curr (Some vm) c = Some (Some (id, data), c') ->
     let readUntil := Cursor._readUntilForOplog c in
     (isNull readUntil = true -> VM.isCappedHidden id vm = false)
     /\ (isNull readUntil = false ->
         id <= readUntil /\ (id = readUntil -> VM.isCappedHidden id vm = false))
     /\ ((isNull readUntil = true
          \/ forall m, is_min m (VM._uncommittedRecords vm) -> readUntil <= m) ->
         forall m, is_min m (VM._uncommittedRecords vm) -> id < m)
     /\ (forall isOplog hasCallback vm0,
           ordered_run isOplog hasCallback VM.init vm0 ->
           ordered_run isOplog hasCallback vm0 vm ->
           readUntil = VM.oplogStartHack vm0 ->
           forall m, is_min m (VM._uncommittedRecords vm) -> id < m)).
Proof.
  intros Hs. split; [ intros id; now apply isCappedHidden_min | ].
  intros c id data c' Hfwd Hcurr readUntil.
  unfold Cursor.curr in Hcurr.
  destruct (Cursor._iterator c) as [it |]; [ | discriminate ].
  destruct (Iterator.current it) as [[k v] |]; [ | discriminate ].
  destruct (_makeRecordId k) as [lastLoc |]; [ | discriminate ].
  rewrite Hfwd in Hcurr. fold readUntil in Hcurr.
  assert (Hnot : forall x, VM.isCappedHidden x vm = false ->
                   forall m, is_min m (VM._uncommittedRecords vm) -> x < m).
  { intros x Hx m Hmin.
    destruct (Z_lt_ge_dec x m) as [Hlt | Hge]; auto.
    assert (Hhid : VM.isCappedHidden x vm = true).
    { apply isCappedHidden_min; auto. split.
      - destruct Hmin as [Hin _]. intros Hnil. rewrite Hnil in Hin. destruct Hin.
      - exists m. split; auto. lia. }
    congruence. }
  destruct (isNull readUntil) eqn:Hnull.
  - destruct (VM.isCappedHidden lastLoc vm) eqn:Hhid; [ discriminate | ].
    injection Hcurr as <- _ _.
    split; [ intros _; exact Hhid | ].
    split; [ discriminate | ].
    split; [ intros _; now apply Hnot | ].
    intros _ _ _ _ _ _. now apply Hnot.
  - destruct ((lastLoc >? readUntil)
              || ((lastLoc =? readUntil) && VM.isCappedHidden lastLoc vm)) eqn:Hw;
      [ discriminate | ].
    injection Hcurr as <- _ _.
    apply orb_false_iff in Hw. destruct Hw as [Hgt Heq].
    assert (Hle : lastLoc <= readUntil).
    { destruct (Z.gtb_spec lastLoc readUntil); [ discriminate | lia ]. }
    assert (Hat : lastLoc = readUntil -> VM.isCappedHidden lastLoc vm = false).
    { intros Heq'. rewrite Heq', Z.eqb_refl in Heq. simpl in Heq. now rewrite Heq'. }
    split; [ discriminate | ].
    split; [ intros _; split; assumption | ].
    assert (Hbelow : (forall m, is_min m (VM._uncommittedRecords vm) -> readUntil <= m) ->
                     forall m, is_min m (VM._uncommittedRecords vm) -> lastLoc < m).
    { intros Hceil m Hmin.
      destruct (Z.eq_dec lastLoc readUntil) as [Heq' | Hne].
      - apply Hnot; auto.
      - specialize (Hceil m Hmin). lia. }
    split.
    + intros [Hcontra | Hceil]; [ discriminate | now apply Hbelow ].
    + intros isOplog hasCallback vm0 Hinit Hrun Hru. apply Hbelow.
      rewrite Hru. eapply ceiling_stays_below_uncommitted; eauto.
Qed.

Lemma isCappedHidden_min_and_cursor_filter_witness :
  let vm := VM.mk [100; 101] 101 [] false in
  (forall id,
     VM.isCappedHidden id vm = true <->
     VM._uncommittedRecords vm <> [] /\
     exists m, is_min m (VM._uncommittedRecords vm) /\ m <= id)
  /\
  (forall c id data c',
     Cursor._forward c = true ->
     Cursor.curr (Some vm) c = Some (Some (id, data), c') ->
     let readUntil := Cursor._readUntilForOplog c in
     (isNull readUntil = true -> VM.isCappedHidden id vm = false)
     /\ (isNull readUntil = false ->
         id <= readUntil /\ (id = readUntil -> VM.isCappedHidden id vm = false))
     /\ ((isNull readUntil = true
          \/ forall m, is_min m (VM._uncommittedRecords vm) -> readUntil <= m) ->
         forall m, is_min m (VM._uncommittedRecords vm) -> id < m)
     /\ (forall isOplog hasCallback vm0,
           ordered_run isOplog hasCallback VM.init vm0 ->
           ordered_run isOplog hasCallback vm0 vm ->
           readUntil = VM.oplogStartHack vm0 ->
           forall m, is_min m (VM._uncommittedRecords vm) -> id < m)).
Proof.
  intros vm.
  apply (isCappedHidden_min_and_cursor_filter vm).
  unfold uncommitted_sorted. simpl.
  repeat constructor; lia.
Defined.

(** C2, as stated, fails for a cursor with a read ceiling. Nothing is
    uncommitted and the highest id seen is 10 when the ceiling is taken;
    [cappedTruncateAfter] then resets the highest id seen to 5, the ids 7 and
    8 are registered, and the commit of 7 is deferred. The cursor, reading a
    snapshot that holds 7 and 8, returns 7, which is the minimum uncommitted
    id at that moment. *)
Lemma cursor_with_ceiling_returns_hidden_record :
  let vm0 := VM.mk [] 10 [] false in
  let readUntil := VM.oplogStartHack vm0 in
  let vm1 := VM.setHighestSeen 5 vm0 in
  let vm2 := fst (VM.addUncommittedRecord 7 vm1) in
  let vm3 := fst (VM.addUncommittedRecord 8 vm2) in
  let vm4 := fst (VM.CappedInsertChange_commit true 7 vm3) in
  let snapshot := [(_makePrefixedKey [80] 7, [1]); (_makePrefixedKey [80] 8, [2])] in
  exists c c',
    Cursor.construct snapshot readUntil [80] true true RecordId_null = Some c
    /\ Cursor.next (Some vm4) snapshot c = Some (Some (7, [1]), c')
    /\ is_min 7 (VM._uncommittedRecords vm4)
    /\ VM.isCappedHidden 7 vm4 = true.
Proof.
  cbv zeta. eexists. eexists.
  split; [ reflexivity | ].
  split; [ vm_compute; reflexivity | ].
  split; [ | reflexivity ].
  simpl. split; [ now left | ].
  intros x [<- | [<- | []]]; lia.
Qed.

(** C10. [seekExact(id)] is a point read of the snapshot; the visibility
    manager is not among its inputs and the read ceiling of the cursor [c] is
    arbitrary. When the key of [id] is in the snapshot it returns the record
    and its payload, so also when [id] is capped-hidden or above the ceiling;
    when the key is absent it returns no record and leaves the cursor at EOF;
    in both cases it returns normally. *)
Theorem seekExact_bypasses_visibility (snapshot : DB) (id : RecordId) (c : Cursor.t) :
  (forall payload,
     db_get (_makePrefixedKey (Cursor._prefix c) id) snapshot = Some payload ->
     exists c',
       Cursor.seekExact snapshot id c = Some (Some (id, payload), c')
       /\ Cursor._eof c' = false
       /\ Cursor._lastLoc c' = id)
  /\
  (db_get (_makePrefixedKey (Cursor._prefix c) id) snapshot = None ->
   exists c',
     Cursor.seekExact snapshot id c = Some (None, c')
     /\ Cursor._eof c' = true).
Proof.
  unfold Cursor.seekExact, Get. split.
  - intros payload Hget. rewrite Hget. eexists. repeat split.
  - intros Hget. rewrite Hget. eexists. repeat split.
Qed.

(** A hidden record above the ceiling: [curr()] withholds it, [seekExact]
    returns it. *)
Lemma seekExact_bypasses_visibility_witness :
  let vm := VM.mk [100; 101] 101 [100] false in
  let snapshot := [(_makePrefixedKey [80] 100, [1]); (_makePrefixedKey [80] 101, [2])] in
  let it := Iterator.mk (prefix_entries [80] snapshot) (Some 1%nat) in
  let c := Cursor.mk [80] true true 100 false false false 100 (Some it) [] in
  VM.isCappedHidden 101 vm = true
  /\ 101 > Cursor._readUntilForOplog c
  /\ (exists c', Cursor.curr (Some vm) c = Some (None, c'))
  /\ (exists c', Cursor.seekExact snapshot 101 c = Some (Some (101, [2]), c')
                 /\ Cursor._eof c' = false /\ Cursor._lastLoc c' = 101).
Proof.
  intros vm snapshot it c.
  split; [ reflexivity | ].
  split; [ simpl; lia | ].
  split; [ eexists; vm_compute; reflexivity | ].
  apply (proj1 (seekExact_bypasses_visibility snapshot 101 c) [2] eq_refl).
Defined.

(* ================================================================== *)
(** * Properties of the record store *)
(* ================================================================== *)

(** C5. On a capped collection, [insertRecord] of a payload whose length
    exceeds [_cappedMaxSize] returns [BadValue] and leaves the whole world as
    it was: nothing is put in the write batch, [_nextIdNum] is not advanced,
    no id is added to the uncommitted list, and the counters and their
    deltas are unchanged. *)
Theorem insertRecord_exceeds_cappedMaxSize
        (extractKey : Slice -> Z -> StatusWith RecordId)
        (kOplogCompactEveryMins kOplogCompactEveryDeletedRecords : Z) (env : Env)
        (data : Slice) (len : Z) (w : RS.World) :
  RS._isCapped (RS.rs w) = true ->
  len > RS._cappedMaxSize (RS.rs w) ->
  RS.insertRecord extractKey kOplogCompactEveryMins kOplogCompactEveryDeletedRecords env
                  data len w
  = (Returned (SW_Error BadValue), w).
Proof.
  intros Hcapped Hlen.
  unfold RS.insertRecord, RS.bind, RS.gets, RS.ret.
  rewrite Hcapped.
  destruct (Z.gtb_spec len (RS._cappedMaxSize (RS.rs w))); [ reflexivity | lia ].
Qed.

(** C8. On a capped collection without a document cap and with a background
    deleter thread, [cappedDeleteAsNeeded] returns 0 and changes neither the
    store, nor the engine, nor the transaction. When no deletion is needed
    ([cappedAndNeedDelete] is false), or when [_dataSize - _cappedMaxSize]
    is below the slack, which is [min(cappedMaxSize / 10, 16 MiB)], it
    returns at once and does not touch the deleter mutex. When a deletion
    is needed and the collection is at or over the slack it does apply the
    back-pressure: it calls [try_lock] and, if that fails,
    [try_lock_for(200ms)] on the deleter mutex, and releases the mutex
    before returning if one of the two acquired it. *)
Theorem cappedDeleteAsNeeded_with_background_thread
        (kOplogCompactEveryMins kOplogCompactEveryDeletedRecords : Z) (env : Env)
        (justInserted : RecordId) (w : RS.World) :
  RS._isCapped (RS.rs w) = true ->
  RS._cappedMaxDocs (RS.rs w) = -1 ->
  RS._hasBackgroundThread (RS.rs w) = true ->
  RS._cappedMaxSizeSlack (RS.rs w) = cappedMaxSizeSlackFromSize (RS._cappedMaxSize (RS.rs w)) ->
  let dataSizeDelta :=
    if RS._isOplog (RS.rs w) then 0 else ru_deltaDataSize (recoveryUnit (RS.opCtx w)) in
  let slack := Z.min (Z.quot (RS._cappedMaxSize (RS.rs w)) 10) (16 * 1024 * 1024) in
  exists w' evs,
    RS.cappedDeleteAsNeeded kOplogCompactEveryMins kOplogCompactEveryDeletedRecords env
                            justInserted w
    = (Returned 0, w')
    /\ RS.rs w' = RS.rs w
    /\ RS.opCtx w' = RS.opCtx w
    /\ RS.db w' = RS.db w
    /\ RS.trace w' = RS.trace w ++ evs
    /\ (evs = []
        \/ evs = [EvTryLock true; EvUnlock]
        \/ evs = [EvTryLock false; EvTryLockFor 200 true; EvUnlock]
        \/ evs = [EvTryLock false; EvTryLockFor 200 false])
    /\ (RS._dataSize (RS.rs w) - RS._cappedMaxSize (RS.rs w) < slack -> evs = [])
    /\ (RS._dataSize (RS.rs w) + dataSizeDelta <= RS._cappedMaxSize (RS.rs w) -> evs = [])
    /\ (RS._cappedMaxSize (RS.rs w) < RS._dataSize (RS.rs w) + dataSizeDelta ->
        slack <= RS._dataSize (RS.rs w) - RS._cappedMaxSize (RS.rs w) ->
        evs = EvTryLock (env_try_lock env)
              :: (if env_try_lock env then [EvUnlock]
                  else EvTryLockFor 200 (env_try_lock_for env)
                       :: (if env_try_lock_for env then [EvUnlock] else []))).
Proof.
  intros Hcapped Hdocs Hbg Hslack dataSizeDelta slack.
  unfold RS.cappedDeleteAsNeeded, RS.cappedAndNeedDelete, RS.getRU, RS.invariant,
    RS.bind, RS.gets, RS.ret, RS.emit, RS.modify.
  cbv beta. rewrite Hcapped. cbn [negb]. cbv beta iota. rewrite Hcapped. cbv beta iota.
  rewrite Hdocs, Hbg, Hslack. unfold cappedMaxSizeSlackFromSize.
  change (-1 =? -1) with true. cbn [negb andb]. cbv beta iota.
  fold slack.
  replace (if negb (RS._isOplog (RS.rs w))
           then ru_deltaDataSize (recoveryUnit (RS.opCtx w)) else 0)
    with dataSizeDelta by (unfold dataSizeDelta; now destruct (RS._isOplog (RS.rs w))).
  destruct (Z.gtb_spec (RS._dataSize (RS.rs w) + dataSizeDelta) (RS._cappedMaxSize (RS.rs w)))
    as [Hneed | Hnoneed].
  - cbn [negb]. cbv beta iota.
    destruct (Z.ltb_spec (RS._dataSize (RS.rs w) - RS._cappedMaxSize (RS.rs w)) slack)
      as [Hlt | Hge].
    + exists w, []. rewrite app_nil_r. repeat split; auto. intros; lia.
    + destruct (env_try_lock env) eqn:Htry; cbn [negb]; cbv beta iota.
      * eexists. exists [EvTryLock true; EvUnlock]. cbn.
        rewrite <- app_assoc. repeat split; auto; intros; lia.
      * destruct (env_try_lock_for env) eqn:Hfor; cbn.
        -- eexists. exists [EvTryLock false; EvTryLockFor 200 true; EvUnlock]. cbn.
           rewrite <- !app_assoc. repeat split; auto; intros; lia.
        -- eexists. exists [EvTryLock false; EvTryLockFor 200 false]. cbn.
           rewrite <- !app_assoc. repeat split; auto 6; intros; lia.
  - cbn [negb]. cbv beta iota. exists w, []. rewrite app_nil_r.
    repeat split; auto. intros; lia.
Qed.

(* ------------------------------------------------------------------ *)
(** ** The capped deletion pass *)

Lemma pass_frame_refl (w : RS.World) : pass_frame w w.
Proof.
  constructor; auto. exists []. split; [ now rewrite app_nil_r | constructor ].
Qed.

Lemma pass_frame_trans (w1 w2 w3 : RS.World) :
  pass_frame w1 w2 -> pass_frame w2 w3 -> pass_frame w1 w3.
Proof.
  intros [a1 b1 c1 d1 e1 f1 (evs1 & t1 & q1)] [a2 b2 c2 d2 e2 f2 (evs2 & t2 & q2)].
  constructor; try congruence.
  exists (evs1 ++ evs2). split.
  - rewrite t2, t1. now rewrite app_assoc.
  - apply Forall_app. now split.
Qed.

Lemma del_ops_frame (w w' : RS.World) (id : RecordId) :
  pass_frame w w' -> del_ops (RS.rs w') id = del_ops (RS.rs w) id.
Proof.
  intros F. unfold del_ops. now rewrite (pf_prefix _ _ F), (pf_isOplog _ _ F), (pf_tracker _ _ F).
Qed.

Lemma flat_map_del_ops_frame (w w' : RS.World) (ids : list RecordId) :
  pass_frame w w' ->
  flat_map (del_ops (RS.rs w')) ids = flat_map (del_ops (RS.rs w)) ids.
Proof.
  intros F. induction ids as [| id ids IH]; cbn [flat_map]; auto.
  now rewrite IH, (del_ops_frame w w' id F).
Qed.

(** The loop deletes a prefix of what the iterator yields, every deleted id
    is below [justInserted] and not hidden, and [docsRemoved] never exceeds
    20000. *)
Lemma deleteLoop_spec (env : Env) (j : RecordId) (soc doc : Z) :
  forall (rest : list (Slice * Slice)) (ss dr : Z) (w : RS.World)
         (out : Outcome (Z * Z * list (Slice * Slice))) (w' : RS.World),
    RS.deleteLoop env j soc doc rest ss dr w = (out, w') ->
    dr <= 20000 ->
    exists pre post ds,
      rest = pre ++ post
      /\ decoded_as pre ds
      /\ Forall (fun id => id < j
                           /\ exists vm, RS._cappedVisibilityManager (RS.rs w) = Some vm
                                         /\ VM.isCappedHidden id vm = false) ds
      /\ pass_frame w w'
      /\ RS.db w' = RS.db w
      /\ batch_of w' = batch_of w ++ flat_map (del_ops (RS.rs w)) ds
      /\ dr + Z.of_nat (length ds) <= 20000
      /\ match out with
         | Returned (_, dr', post') => post' = post /\ dr' = dr + Z.of_nat (length ds)
         | _ => True
         end.
Proof.
  induction rest as [| [k v] rest' IH]; intros ss dr w out w' H Hdr.
  - cbn in H. injection H as <- <-.
    exists [], [], [].
    split; [ reflexivity | ]. split; [ reflexivity | ]. split; [ constructor | ].
    split; [ apply pass_frame_refl | ]. split; [ reflexivity | ].
    split; [ unfold batch_of; now rewrite app_nil_r | ].
    split; [ simpl; lia | ]. split; [ reflexivity | simpl; lia ].
  - (* the ways the loop ends at this entry without deleting it *)
    assert (Hstop : forall o evs,
              Forall quiet_event evs ->
              match o with
              | Returned (_, dr', post') => post' = (k, v) :: rest' /\ dr' = dr
              | _ => True
              end ->
              (o, RS.mkWorld (RS.rs w) (RS.opCtx w) (RS.db w) (RS.trace w ++ evs)) = (out, w') ->
              exists pre post ds,
                (k, v) :: rest' = pre ++ post
                /\ decoded_as pre ds
                /\ Forall (fun id => id < j
                             /\ exists vm, RS._cappedVisibilityManager (RS.rs w) = Some vm
                                           /\ VM.isCappedHidden id vm = false) ds
                /\ pass_frame w w'
                /\ RS.db w' = RS.db w
                /\ batch_of w' = batch_of w ++ flat_map (del_ops (RS.rs w)) ds
                /\ dr + Z.of_nat (length ds) <= 20000
                /\ match out with
                   | Returned (_, dr', post') => post' = post /\ dr' = dr + Z.of_nat (length ds)
                   | _ => True
                   end).
    { intros o evs Hq Ho Heq. injection Heq as <- <-.
      exists [], ((k, v) :: rest'), [].
      split; [ reflexivity | ]. split; [ reflexivity | ]. split; [ constructor | ].
      split; [ constructor; try reflexivity; exists evs; split; auto | ].
      split; [ reflexivity | ].
      split; [ unfold batch_of; cbn; now rewrite app_nil_r | ].
      split; [ simpl; lia | ].
      destruct o as [[[? ?] ?] | |]; auto. simpl. destruct Ho. split; auto. lia. }
    assert (Hw : w = RS.mkWorld (RS.rs w) (RS.opCtx w) (RS.db w) (RS.trace w ++ [])).
    { rewrite app_nil_r. now destruct w. }
    cbn [RS.deleteLoop] in H.
    destruct (((ss <? soc) || (dr <? doc)) && (dr <? 20000)) eqn:Hcond.
    2:{ unfold RS.ret in H. rewrite Hw in H at 1. eapply Hstop; eauto. simpl; auto. }
    apply andb_true_iff in Hcond. destruct Hcond as [_ Hcap]. apply Z.ltb_lt in Hcap.
    destruct (_makeRecordId k) as [id |] eqn:Hid.
    2:{ unfold RS.abort in H. rewrite Hw in H at 1. eapply Hstop; eauto. simpl; auto. }
    unfold RS.vm_isCappedHidden, RS.theVisibilityManager in H. unfold RS.bind at 1 2 in H.
    destruct (RS._cappedVisibilityManager (RS.rs w)) as [vm |] eqn:Hvm.
    2:{ rewrite Hw in H at 1. eapply Hstop; eauto. simpl; auto. }
    unfold RS.ret at 1 in H.
    destruct (VM.isCappedHidden id vm) eqn:Hhid.
    { unfold RS.ret in H. rewrite Hw in H at 1. eapply Hstop; eauto. simpl; auto. }
    destruct (id >=? j) eqn:Hj.
    { unfold RS.ret in H. rewrite Hw in H at 1. eapply Hstop; eauto. simpl; auto. }
    assert (Hlt : id < j).
    { destruct (Z.geb_spec id j); [ discriminate | lia ]. }
    unfold RS.bind at 1, RS.gets at 1 in H.
    destruct (RS._shuttingDown (RS.rs w)) eqn:Hsd.
    { unfold RS.ret in H. rewrite Hw in H at 1. eapply Hstop; eauto. simpl; auto. }
    unfold RS.bind at 1, RS.emit at 1, RS.modify at 1 in H.
    set (key := _makePrefixedKey (RS._prefix (RS.rs w)) id) in *.
    destruct (env_registerWrite env key) eqn:Hrw; cbn [negb] in H.
    2:{ cbn in H. rewrite <- app_assoc in H.
        eapply (Hstop _ ([EvRegisterWrite key false] ++ [EvLog])); [ | | exact H ].
        - repeat constructor.
        - simpl; auto. }
    (* the entry is deleted and the loop goes on *)
    assert (Hrec : forall w1 ss1,
              pass_frame w w1 ->
              RS.db w1 = RS.db w ->
              batch_of w1 = batch_of w ++ del_ops (RS.rs w) id ->
              RS.deleteLoop env j soc doc rest' ss1 (dr + 1) w1 = (out, w') ->
              exists pre post ds,
                (k, v) :: rest' = pre ++ post
                /\ decoded_as pre ds
                /\ Forall (fun id => id < j
                             /\ exists vm, RS._cappedVisibilityManager (RS.rs w) = Some vm
                                           /\ VM.isCappedHidden id vm = false) ds
                /\ pass_frame w w'
                /\ RS.db w' = RS.db w
                /\ batch_of w' = batch_of w ++ flat_map (del_ops (RS.rs w)) ds
                /\ dr + Z.of_nat (length ds) <= 20000
                /\ match out with
                   | Returned (_, dr', post') => post' = post /\ dr' = dr + Z.of_nat (length ds)
                   | _ => True
                   end).
    { rewrite Hvm. intros w1 ss1 F1 Hdb1 Hb1 Hloop.
      destruct (IH ss1 (dr + 1) w1 out w' Hloop ltac:(lia))
        as (pre & post & ds & Hrest & Hdec & Hall & F & Hdb & Hb & Hbound & Hout).
      exists ((k, v) :: pre), post, (id :: ds).
      split; [ now rewrite Hrest | ].
      split; [ unfold decoded_as in *; cbn [map fst]; now rewrite Hid, Hdec | ].
      split.
      { constructor.
        - split; auto. exists vm. split; auto.
        - rewrite (pf_vm _ _ F1), Hvm in Hall. exact Hall. }
      split; [ eapply pass_frame_trans; eauto | ].
      split; [ congruence | ].
      split.
      { rewrite Hb, Hb1, (flat_map_del_ops_frame w w1 ds F1). cbn [flat_map].
        now rewrite <- app_assoc. }
      split; [ rewrite length_cons, Nat2Z.inj_succ; lia | ].
      destruct out as [[[? ?] ?] | |]; auto.
      destruct Hout as [-> ->]. split; auto.
      rewrite length_cons, Nat2Z.inj_succ. lia. }
    rewrite Hvm in Hrec.
    unfold RS.bind at 1 in H.
    destruct (RS._isOplog (RS.rs w)) eqn:Hop.
    + (* oplog: the tracker supplies the size and is updated *)
      unfold RS.bind at 1, RS.theTracker at 1 in H. cbn [RS.rs] in H.
      destruct (RS._oplogKeyTracker (RS.rs w)) as [trk |] eqn:Htrk.
      2:{ eapply (Hstop _ [EvRegisterWrite key true]); [ | | exact H ].
          - repeat constructor.
          - exact I. }
      unfold RS.ret at 1 in H.
      destruct (RS._cappedCallback (RS.rs w)) as [cb |] eqn:Hcb.
      * unfold RS.bind at 1 2, RS.emit at 1, RS.modify at 1 in H.
        cbn [RS.rs RS.opCtx RS.db RS.trace] in H.
        destruct (cb id [5; 0; 0; 0; 0]) eqn:Hres.
        -- cbn in H. unfold RS.deleteKey, RS.theTracker in H. unfold RS.bind at 1 2 in H.
           cbn [RS.rs] in H. rewrite Htrk in H. cbn in H.
           eapply Hrec; [ | | | exact H ].
           ++ constructor; cbn; try reflexivity.
              ** unfold tracker_prefix_of. cbn. now rewrite Htrk.
              ** eexists. split; [ rewrite <- !app_assoc; reflexivity | repeat constructor ].
           ++ reflexivity.
           ++ unfold batch_of, del_ops, tracker_prefix_of. cbn. rewrite Hop, Htrk. cbn.
              now rewrite <- app_assoc.
        -- cbn in H. rewrite <- app_assoc in H.
           eapply (Hstop _ ([EvRegisterWrite key true] ++ [EvAboutToDeleteCapped id [5; 0; 0; 0; 0]]));
             [ | | exact H ].
           ++ repeat constructor.
           ++ exact I.
        -- cbn in H. rewrite <- app_assoc in H.
           eapply (Hstop _ ([EvRegisterWrite key true] ++ [EvAboutToDeleteCapped id [5; 0; 0; 0; 0]]));
             [ | | exact H ].
           ++ repeat constructor.
           ++ exact I.
      * cbn in H. unfold RS.deleteKey, RS.theTracker in H. unfold RS.bind at 1 2 in H.
        cbn [RS.rs] in H. rewrite Htrk in H. cbn in H.
        eapply Hrec; [ | | | exact H ].
        -- constructor; cbn; try reflexivity.
           ++ unfold tracker_prefix_of. cbn. now rewrite Htrk.
           ++ eexists. split; [ rewrite <- !app_assoc; reflexivity | repeat constructor ].
        -- reflexivity.
        -- unfold batch_of, del_ops, tracker_prefix_of. cbn. rewrite Hop, Htrk. cbn.
           now rewrite <- app_assoc.
    + (* plain capped collection *)
      unfold RS.ret at 1 in H.
      destruct (RS._cappedCallback (RS.rs w)) as [cb |] eqn:Hcb.
      * unfold RS.bind at 1 2, RS.emit at 1, RS.modify at 1 in H.
        cbn [RS.rs RS.opCtx RS.db RS.trace] in H.
        destruct (cb id v) eqn:Hres.
        -- cbn in H.
           eapply Hrec; [ | | | exact H ].
           ++ constructor; cbn; try reflexivity.
              eexists. split; [ rewrite <- !app_assoc; reflexivity | repeat constructor ].
           ++ reflexivity.
           ++ unfold batch_of, del_ops. cbn. rewrite Hop. reflexivity.
        -- cbn in H. rewrite <- app_assoc in H.
           eapply (Hstop _ ([EvRegisterWrite key true] ++ [EvAboutToDeleteCapped id v]));
             [ | | exact H ].
           ++ repeat constructor.
           ++ exact I.
        -- cbn in H. rewrite <- app_assoc in H.
           eapply (Hstop _ ([EvRegisterWrite key true] ++ [EvAboutToDeleteCapped id v]));
             [ | | exact H ].
           ++ repeat constructor.
           ++ exact I.
      * cbn in H.
        eapply Hrec; [ | | | exact H ].
        -- constructor; cbn; try reflexivity.
           eexists. split; [ rewrite <- !app_assoc; reflexivity | repeat constructor ].
        -- reflexivity.
        -- unfold batch_of, del_ops. cbn. rewrite Hop. reflexivity.
Qed.

(** The [try] block, run in a fresh sub-transaction: what it commits to the
    engine are the deletions of a prefix of the entries it walks. *)
Lemma cappedDeleteAsNeeded_inlock_try_spec (env : Env) (j : RecordId) (soc doc : Z)
      (w : RS.World) (out : Outcome Z) (w' : RS.World) :
  recoveryUnit (RS.opCtx w) = newRocksRecoveryUnit ->
  RS.cappedDeleteAsNeeded_inlock_try env j soc doc w = (out, w') ->
  exists pre post ds,
    deleter_entries w = pre ++ post
    /\ decoded_as pre ds
    /\ Forall (fun id => id < j
                         /\ exists vm, RS._cappedVisibilityManager (RS.rs w) = Some vm
                                       /\ VM.isCappedHidden id vm = false) ds
    /\ Z.of_nat (length ds) <= 20000
    /\ RS.db w' = apply_batch (flat_map (del_ops (RS.rs w)) ds) (RS.db w)
    /\ pass_frame w w'
    /\ match out with
                 | Returned n => n = Z.of_nat (length ds)
                 | Threw _ => ds = []
                 | Aborted => True
                 end.
Proof.
  intros Hru H.
  unfold RS.cappedDeleteAsNeeded_inlock_try in H.
  unfold RS.bind at 1, RS.gets at 1 in H.
  unfold RS.bind at 1, RS.snapshot at 1 in H. rewrite Hru in H. cbn [ru_snapshot newRocksRecoveryUnit] in H.
  set (w0 := RS.set_ru _ w) in H.
  assert (F0 : pass_frame w w0).
  { constructor; try reflexivity. exists []. split; [ cbn; now rewrite app_nil_r | constructor ]. }
  assert (Hdb0 : RS.db w0 = RS.db w) by reflexivity.
  assert (Hb0 : batch_of w0 = []).
  { unfold batch_of, w0. cbn. now rewrite Hru. }
  assert (Hnone : forall o : Outcome Z,
            (forall n, o <> Returned n) ->
            forall w1, pass_frame w w1 -> RS.db w1 = RS.db w ->
            (o, w1) = (out, w') ->
            exists pre post ds,
              deleter_entries w = pre ++ post
              /\ decoded_as pre ds
              /\ Forall (fun id => id < j
                           /\ exists vm, RS._cappedVisibilityManager (RS.rs w) = Some vm
                                         /\ VM.isCappedHidden id vm = false) ds
              /\ Z.of_nat (length ds) <= 20000
              /\ RS.db w' = apply_batch (flat_map (del_ops (RS.rs w)) ds) (RS.db w)
              /\ pass_frame w w'
              /\ match out with
                 | Returned n => n = Z.of_nat (length ds)
                 | Threw _ => ds = []
                 | Aborted => True
                 end).
  { intros o Ho w1 F1 Hdb1 Heq. injection Heq as <- <-.
    exists [], (deleter_entries w), [].
    split; [ reflexivity | ]. split; [ reflexivity | ]. split; [ constructor | ].
    split; [ simpl; lia | ]. split; [ exact Hdb1 | ]. split; [ exact F1 | ].
    destruct o; auto. exfalso. now apply (Ho a). }
  (* the iterator *)
  assert (Hiter : (exists o1 w1,
             RS.deleteLoop env j soc doc (deleter_entries w) 0 0 w0 = (o1, w1)
             /\ match o1 with
                | Returned (sizeSaved, docsRemoved, rest) =>
                    RS.bind
                      (if docsRemoved >? 0
                       then
                         RS.bind (RS._changeNumRecords (- docsRemoved))
                           (fun _ : unit =>
                              RS.bind (RS._increaseDataSize (- sizeSaved))
                                (fun _ : unit => RS.commitUnitOfWork))
                       else RS.ret tt)
                      (fun _ : unit =>
                         RS.bind
                           match rest with
                           | [] => RS.ret tt
                           | (k, _) :: _ =>
                               match _makeRecordId k with
                               | Some oldestAliveRecordId =>
                                   RS.bind (RS.vm_isCappedHidden oldestAliveRecordId)
                                     (fun hidden : bool =>
                                        if negb hidden
                                        then RS.modify (RS.set_rs (RS.with_hint oldestAliveRecordId))
                                        else RS.ret tt)
                               | None => RS.abort
                               end
                           end (fun _ : unit => RS.ret docsRemoved)) w1 = (out, w')
                | Threw e => (Threw e, w1) = (out, w')
                | Aborted => (Aborted, w1) = (out, w')
                end)
           \/ (@Aborted Z, w0) = (out, w')).
  { unfold RS.bind at 1 in H. unfold deleter_entries, tracker_prefix_of.
    destruct (RS._isOplog (RS.rs w)) eqn:Hop.
    - unfold RS.bind at 1, RS.theTracker at 1 in H. cbn [RS.rs w0 RS.set_ru] in H.
      destruct (RS._oplogKeyTracker (RS.rs w)) as [trk |] eqn:Htrk.
      + unfold RS.ret at 1 in H. cbn [option_map]. unfold RS.bind at 1 in H.
        destruct (RS.deleteLoop env j soc doc _ 0 0 w0) as [o1 w1] eqn:Hloop.
        left. exists o1, w1. split; [ reflexivity | ].
        destruct o1 as [[[ss dr] rest] | e |]; exact H.
      + right. exact H.
    - unfold RS.ret at 1 in H. unfold RS.bind at 1 in H.
      destruct (RS.deleteLoop env j soc doc _ 0 0 w0) as [o1 w1] eqn:Hloop.
      left. exists o1, w1. split; [ reflexivity | ].
      destruct o1 as [[[ss dr] rest] | e |]; exact H. }
  clear H.
  destruct Hiter as [(o1 & w1 & Hloop & H) | Habort].
  2:{ eapply (Hnone Aborted); [ discriminate | exact F0 | exact Hdb0 | exact Habort ]. }
  apply deleteLoop_spec in Hloop; [ | lia ].
  destruct Hloop as (pre & post & ds & Hent & Hdec & Hall & F1 & Hdb1 & Hb1 & Hbound & Hout).
  assert (F01 : pass_frame w w1) by (eapply pass_frame_trans; eauto).
  destruct o1 as [[[ss dr] rest] | e |].
  2:{ eapply (Hnone (Threw e)); [ discriminate | exact F01 | congruence | exact H ]. }
  2:{ eapply (Hnone Aborted); [ discriminate | exact F01 | congruence | exact H ]. }
  destruct Hout as [-> ->].
  rewrite Hb0 in Hb1. cbn [app] in Hb1. change (RS.rs w0) with (RS.rs w) in *.
  assert (Hfin : forall (o : Outcome Z) w3,
            pass_frame w w3 ->
            RS.db w3 = apply_batch (flat_map (del_ops (RS.rs w)) ds) (RS.db w) ->
            match o with
            | Returned n => n = Z.of_nat (length ds)
            | Threw _ => False
            | Aborted => True
            end ->
            (o, w3) = (out, w') ->
            exists pre post ds,
              deleter_entries w = pre ++ post
              /\ decoded_as pre ds
              /\ Forall (fun id => id < j
                           /\ exists vm, RS._cappedVisibilityManager (RS.rs w) = Some vm
                                         /\ VM.isCappedHidden id vm = false) ds
              /\ Z.of_nat (length ds) <= 20000
              /\ RS.db w' = apply_batch (flat_map (del_ops (RS.rs w)) ds) (RS.db w)
              /\ pass_frame w w'
              /\ match out with
                 | Returned n => n = Z.of_nat (length ds)
                 | Threw _ => ds = []
                 | Aborted => True
                 end).
  { intros o w3 F3 Hdb3 Ho Heq. injection Heq as <- <-.
    exists pre, post, ds. repeat (split; [ assumption || lia | ]).
    destruct o; auto. contradiction. }
  assert (Hcommit : exists w2,
            (if 0 + Z.of_nat (length ds) >? 0
             then
               RS.bind (RS._changeNumRecords (- (0 + Z.of_nat (length ds))))
                 (fun _ : unit =>
                    RS.bind (RS._increaseDataSize (- ss))
                      (fun _ : unit => RS.commitUnitOfWork))
             else RS.ret tt) w1 = (Returned tt, w2)
            /\ pass_frame w1 w2
            /\ RS.db w2 = apply_batch (flat_map (del_ops (RS.rs w)) ds) (RS.db w)).
  { destruct (Z.gtb_spec (0 + Z.of_nat (length ds)) 0) as [Hpos | Hzero].
    - eexists. split; [ reflexivity | ]. split.
      + constructor; try reflexivity.
        eexists. split; [ reflexivity | repeat constructor ].
      + cbn. fold (batch_of w1). now rewrite Hb1, Hdb1, Hdb0.
    - exists w1. split; [ reflexivity | ]. split; [ apply pass_frame_refl | ].
      destruct ds; [ | simpl in Hzero; lia ]. cbn. congruence. }
  destruct Hcommit as (w2 & Hc & F2 & Hdb2).
  unfold RS.bind at 1 in H. rewrite Hc in H.
  assert (F02 : pass_frame w w2) by (eapply pass_frame_trans; eauto).
  unfold RS.bind at 1 in H.
  assert (Hn : 0 + Z.of_nat (length ds) = Z.of_nat (length ds)) by lia.
  destruct post as [| [k v] post'].
  - cbn in H. unfold RS.ret in H. exact (Hfin (Returned _) _ F02 Hdb2 Hn H).
  - destruct (_makeRecordId k) as [oldest |].
    2:{ cbn in H. unfold RS.abort in H. exact (Hfin Aborted _ F02 Hdb2 I H). }
    unfold RS.vm_isCappedHidden, RS.theVisibilityManager in H. unfold RS.bind at 1 2 in H.
    destruct (RS._cappedVisibilityManager (RS.rs w2)) as [vm |].
    2:{ exact (Hfin Aborted _ F02 Hdb2 I H). }
    unfold RS.ret at 1 in H.
    destruct (VM.isCappedHidden oldest vm); cbn in H; unfold RS.ret in H.
    + exact (Hfin (Returned _) _ F02 Hdb2 Hn H).
    + refine (Hfin (Returned _) (RS.set_rs (RS.with_hint oldest) w2) _ Hdb2 Hn H).
      eapply pass_frame_trans; [ exact F02 | ].
      constructor; try reflexivity.
      exists []. split; [ cbn; now rewrite app_nil_r | constructor ].
Qed.

(** The whole pass: the engine changes by the deletions of a prefix of the
    entries walked, all below [justInserted] and not hidden, at most 20000 of
    them, and the result is their number. *)
Lemma cappedDeleteAsNeeded_inlock_spec (kM kD : Z) (env : Env) (j : RecordId) (w : RS.World)
      (out : Outcome Z) (w' : RS.World) :
  RS.cappedDeleteAsNeeded_inlock kM kD env j w = (out, w') ->
  exists pre post ds,
    deleter_entries w = pre ++ post
    /\ decoded_as pre ds
    /\ RS.db w' = apply_batch (flat_map (del_ops (RS.rs w)) ds) (RS.db w)
    /\ Forall (fun id => id < j
                         /\ exists vm, RS._cappedVisibilityManager (RS.rs w) = Some vm
                                       /\ VM.isCappedHidden id vm = false) ds
    /\ Z.of_nat (length ds) <= 20000
    /\ pass_frame w w'
    /\ (forall n, out = Returned n -> n = Z.of_nat (length ds)).
Proof.
  intros H.
  unfold RS.cappedDeleteAsNeeded_inlock in H.
  unfold RS.bind at 1, RS.getRU at 1, RS.gets at 1 in H.
  unfold RS.bind at 1, RS.modify at 1 in H.
  unfold RS.bind at 1, RS.gets at 1 in H.
  set (w0 := RS.set_ru (fun _ => newRocksRecoveryUnit) w) in H.
  unfold RS.bind at 1, RS.try_catch at 1 in H. unfold RS.bind at 1 in H.
  cbv zeta in H.
  match type of H with
  | context [RS.cappedDeleteAsNeeded_inlock_try env j ?a ?b w0] =>
      destruct (RS.cappedDeleteAsNeeded_inlock_try env j a b w0) as [o1 w1] eqn:Hbody
  end.
  apply cappedDeleteAsNeeded_inlock_try_spec in Hbody; [ | reflexivity ].
  destruct Hbody as (pre & post & ds & Hent & Hdec & Hall & Hbound & Hdb1 & F1 & Hout).
  change (deleter_entries w0) with (deleter_entries w) in Hent.
  change (RS.rs w0) with (RS.rs w) in *. change (RS.db w0) with (RS.db w) in *.
  assert (F0 : pass_frame w w0).
  { constructor; try reflexivity. exists []. split; [ cbn; now rewrite app_nil_r | constructor ]. }
  assert (F01 : pass_frame w w1) by (eapply pass_frame_trans; eauto).
  assert (Hfin : forall (o : Outcome Z) wf,
            pass_frame w1 wf ->
            RS.db wf = RS.db w1 ->
            (forall n, o = Returned n -> n = Z.of_nat (length ds)) ->
            (o, wf) = (out, w') ->
            exists pre post ds,
              deleter_entries w = pre ++ post
              /\ decoded_as pre ds
              /\ RS.db w' = apply_batch (flat_map (del_ops (RS.rs w)) ds) (RS.db w)
              /\ Forall (fun id => id < j
                           /\ exists vm, RS._cappedVisibilityManager (RS.rs w) = Some vm
                                         /\ VM.isCappedHidden id vm = false) ds
              /\ Z.of_nat (length ds) <= 20000
              /\ pass_frame w w'
              /\ (forall n, out = Returned n -> n = Z.of_nat (length ds))).
  { intros o wf Ff Hdbf Ho Heq. injection Heq as <- <-.
    exists pre, post, ds.
    split; [ exact Hent | ]. split; [ exact Hdec | ]. split; [ congruence | ].
    split; [ exact Hall | ]. split; [ exact Hbound | ].
    split; [ eapply pass_frame_trans; eauto | exact Ho ]. }
  assert (Frestore : forall evs, Forall quiet_event evs ->
            pass_frame w1
              (RS.mkWorld (RS.rs w1)
                 (mkOpCtx (recoveryUnit (RS.opCtx w)) (lockIsNoop (RS.opCtx w1))
                          (isCollectionLockedX (RS.opCtx w1)))
                 (RS.db w1) (RS.trace w1 ++ evs))).
  { intros evs Hq. constructor; try reflexivity. exists evs. split; auto. }
  destruct o1 as [n | e |].
  - (* the pass returned: restore, then the oplog compaction check *)
    subst n. cbn in H.
    destruct (RS._isOplog (RS.rs w1)) eqn:Hop.
    + unfold RS.bind, RS.theTracker in H. cbn [RS.rs RS.set_ru] in H.
      destruct (RS._oplogKeyTracker (RS.rs w1)) as [trk |] eqn:Htrk.
      * destruct ((env_minutes env >=? kM) || (_deletedKeysSinceCompaction trk >=? kD)).
        -- cbn in H. refine (Hfin (Returned _) _ _ _ _ H).
           ++ constructor; try reflexivity.
              ** unfold tracker_prefix_of. cbn. now rewrite Htrk.
              ** eexists. split; [ reflexivity | repeat constructor ].
           ++ reflexivity.
           ++ intros n Hn. now injection Hn as <-.
        -- cbn in H. refine (Hfin (Returned _) _ _ _ _ H).
           ++ pose proof (Frestore [] (Forall_nil _)) as Fr.
              rewrite app_nil_r in Fr. exact Fr.
           ++ reflexivity.
           ++ intros n Hn. now injection Hn as <-.
      * refine (Hfin Aborted _ _ _ _ H).
        -- pose proof (Frestore [] (Forall_nil _)) as Fr.
           rewrite app_nil_r in Fr. exact Fr.
        -- reflexivity.
        -- discriminate.
    + cbn in H. refine (Hfin (Returned _) _ _ _ _ H).
      * pose proof (Frestore [] (Forall_nil _)) as Fr.
        rewrite app_nil_r in Fr. exact Fr.
      * reflexivity.
      * intros n Hn. now injection Hn as <-.
  - subst ds. destruct e; cbn in H.
    + refine (Hfin (Returned 0) _ _ _ _ H).
      * apply Frestore. repeat constructor.
      * reflexivity.
      * intros n Hn. now injection Hn as <-.
    + refine (Hfin (Threw UserException) _ _ _ _ H).
      * pose proof (Frestore [] (Forall_nil _)) as Fr.
        rewrite app_nil_r in Fr. exact Fr.
      * reflexivity.
      * discriminate.
  - cbn in H. refine (Hfin Aborted _ _ _ _ H).
    + apply pass_frame_refl.
    + reflexivity.
    + discriminate.
Qed.

Lemma decoded_as_length (entries : list (Slice * Slice)) (ids : list RecordId) :
  decoded_as entries ids -> length entries = length ids.
Proof.
  unfold decoded_as. intros H.
  apply (f_equal (@length _)) in H. now rewrite !length_map in H.
Qed.

Lemma decoded_as_nth (entries : list (Slice * Slice)) (ids : list RecordId)
      (i : nat) (e : Slice * Slice) (id : RecordId) :
  decoded_as entries ids ->
  nth_error entries i = Some e ->
  _makeRecordId (fst e) = Some id ->
  nth_error ids i = Some id.
Proof.
  unfold decoded_as. intros Hdec He Hid.
  apply (f_equal (fun l => nth_error l i)) in Hdec.
  rewrite !nth_error_map, He in Hdec. cbn in Hdec. rewrite Hid in Hdec.
  destruct (nth_error ids i); cbn in Hdec; congruence.
Qed.

(** C6. One pass of [cappedDeleteAsNeeded_inlock] with argument
    [justInserted], however it ends: what it removes from the engine are the
    keys of the ids [ds] of a prefix of the entries its iterator yields; every
    id in [ds] is below [justInserted] and was not capped-hidden; there are
    at most 20000 of them; and the pass stops at the first entry that is at or
    above [justInserted] or hidden: no entry from that one on is deleted. *)
Theorem cappedDeleteAsNeeded_inlock_bounds
        (kOplogCompactEveryMins kOplogCompactEveryDeletedRecords : Z) (env : Env)
        (justInserted : RecordId) (w : RS.World) (out : Outcome Z) (w' : RS.World) :
  RS.cappedDeleteAsNeeded_inlock kOplogCompactEveryMins kOplogCompactEveryDeletedRecords
                                 env justInserted w = (out, w') ->
  exists pre post ds,
    deleter_entries w = pre ++ post
    /\ decoded_as pre ds
    /\ RS.db w' = apply_batch (flat_map (del_ops (RS.rs w)) ds) (RS.db w)
    /\ Forall (fun id => id < justInserted
                         /\ exists vm, RS._cappedVisibilityManager (RS.rs w) = Some vm
                                       /\ VM.isCappedHidden id vm = false) ds
    /\ Z.of_nat (length ds) <= 20000
    /\ (forall n, out = Returned n -> n = Z.of_nat (length ds))
    /\ (forall i e id vm,
          nth_error (deleter_entries w) i = Some e ->
          _makeRecordId (fst e) = Some id ->
          RS._cappedVisibilityManager (RS.rs w) = Some vm ->
          justInserted <= id \/ VM.isCappedHidden id vm = true ->
          (length ds <= i)%nat).
Proof.
  intros H. apply cappedDeleteAsNeeded_inlock_spec in H.
  destruct H as (pre & post & ds & Hent & Hdec & Hdb & Hall & Hbound & _ & Hout).
  exists pre, post, ds.
  repeat (split; [ assumption | ]).
  intros i e id vm He Hid Hvm Hviol.
  destruct (Nat.le_gt_cases (length ds) i) as [Hle | Hgt]; [ exact Hle | exfalso ].
  pose proof (decoded_as_length pre ds Hdec) as Hlen.
  rewrite Hent, nth_error_app1 in He by lia.
  pose proof (decoded_as_nth pre ds i e id Hdec He Hid) as Hnth.
  apply nth_error_In in Hnth.
  rewrite Forall_forall in Hall. destruct (Hall id Hnth) as (Hlt & vm' & Hvm' & Hhid).
  rewrite Hvm in Hvm'. injection Hvm' as <-.
  destruct Hviol as [Hge | Hh]; [ lia | congruence ].
Qed.

(* ------------------------------------------------------------------ *)
(** ** What capped deletion leaves alone *)

Lemma pass_frame_emit (w : RS.World) (evs : list Event) :
  Forall quiet_event evs ->
  pass_frame w (RS.mkWorld (RS.rs w) (RS.opCtx w) (RS.db w) (RS.trace w ++ evs)).
Proof. intros Hq. constructor; try reflexivity. exists evs. now split. Qed.

Lemma holding_lock_frame (A : Type) (body : RS.M A) :
  (forall w out w', body w = (out, w') -> pass_frame w w') ->
  forall w out w', RS.holding_lock body w = (out, w') -> pass_frame w w'.
Proof.
  intros Hbody w out w' H.
  unfold RS.holding_lock, RS.try_catch in H. unfold RS.bind at 1 in H.
  destruct (body w) as [o1 w1] eqn:Hb. apply Hbody in Hb.
  destruct o1 as [a | e |]; cbn in H; injection H as <- <-.
  - eapply pass_frame_trans; [ exact Hb | ]. apply pass_frame_emit. repeat constructor.
  - eapply pass_frame_trans; [ exact Hb | ]. apply pass_frame_emit. repeat constructor.
  - exact Hb.
Qed.

Lemma cappedDeleteAsNeeded_inlock_frame (kM kD : Z) (env : Env) (j : RecordId)
      (w : RS.World) (out : Outcome Z) (w' : RS.World) :
  RS.cappedDeleteAsNeeded_inlock kM kD env j w = (out, w') -> pass_frame w w'.
Proof.
  intros H. apply cappedDeleteAsNeeded_inlock_spec in H.
  destruct H as (pre & post & ds & _ & _ & _ & _ & _ & F & _). exact F.
Qed.

Lemma cappedDeleteAsNeeded_frame (kM kD : Z) (env : Env) (j : RecordId)
      (w : RS.World) (out : Outcome Z) (w' : RS.World) :
  RS.cappedDeleteAsNeeded kM kD env j w = (out, w') -> pass_frame w w'.
Proof.
  intros H.
  pose proof (holding_lock_frame Z (RS.cappedDeleteAsNeeded_inlock kM kD env j)
                (cappedDeleteAsNeeded_inlock_frame kM kD env j)) as Hlock.
  unfold RS.cappedDeleteAsNeeded in H.
  unfold RS.bind at 1, RS.gets at 1 in H.
  destruct (RS._isCapped (RS.rs w)) eqn:Hcap; cbn [negb] in H.
  2:{ injection H as <- <-. apply pass_frame_refl. }
  unfold RS.bind at 1, RS.getRU at 1, RS.gets at 1 in H.
  unfold RS.bind at 1, RS.cappedAndNeedDelete at 1 in H.
  unfold RS.bind at 1, RS.gets at 1 in H. unfold RS.bind at 1, RS.invariant in H.
  rewrite Hcap in H. unfold RS.ret at 1 in H.
  assert (Hbranches :
            (if negb (RS._cappedMaxDocs (RS.rs w) =? -1)
             then
               RS.bind (RS.emit [EvLock])
                 (fun _ : unit =>
                    RS.holding_lock (RS.cappedDeleteAsNeeded_inlock kM kD env j))
             else
               if RS._hasBackgroundThread (RS.rs w)
               then
                 if RS._dataSize (RS.rs w) - RS._cappedMaxSize (RS.rs w)
                    <? RS._cappedMaxSizeSlack (RS.rs w)
                 then RS.ret 0
                 else
                   RS.bind (RS.emit [EvTryLock (env_try_lock env)])
                     (fun _ : unit =>
                        if negb (env_try_lock env)
                        then
                          RS.bind (RS.emit [EvTryLockFor 200 (env_try_lock_for env)])
                            (fun _ : unit =>
                               RS.bind
                                 (if env_try_lock_for env
                                  then RS.emit [EvUnlock]
                                  else RS.ret tt)
                                 (fun _ : unit => RS.ret 0))
                        else RS.bind (RS.emit [EvUnlock]) (fun _ : unit => RS.ret 0))
               else
                 RS.bind (RS.emit [EvTryLock (env_try_lock env)])
                   (fun _ : unit =>
                      if negb (env_try_lock env)
                      then
                        if RS._dataSize (RS.rs w) - RS._cappedMaxSize (RS.rs w)
                           <? RS._cappedMaxSizeSlack (RS.rs w)
                        then RS.ret 0
                        else
                          RS.bind (RS.emit [EvTryLockFor 200 (env_try_lock_for env)])
                            (fun _ : unit =>
                               if negb (env_try_lock_for env)
                               then RS.ret 0
                               else
                                 if RS._dataSize (RS.rs w) - RS._cappedMaxSize (RS.rs w)
                                    <? 2 * RS._cappedMaxSizeSlack (RS.rs w)
                                 then
                                   RS.bind (RS.emit [EvUnlock]) (fun _ : unit => RS.ret 0)
                                 else
                                   RS.holding_lock
                                     (RS.cappedDeleteAsNeeded_inlock kM kD env j))
                      else
                        RS.holding_lock (RS.cappedDeleteAsNeeded_inlock kM kD env j)))
              w = (out, w') ->
            pass_frame w w').
  { clear H. intros H.
    assert (Hlock' : forall evs, Forall quiet_event evs ->
              RS.holding_lock (RS.cappedDeleteAsNeeded_inlock kM kD env j)
                (RS.mkWorld (RS.rs w) (RS.opCtx w) (RS.db w) (RS.trace w ++ evs))
              = (out, w') -> pass_frame w w').
    { intros evs Hq Hh. apply Hlock in Hh.
      eapply pass_frame_trans; [ apply (pass_frame_emit w evs Hq) | exact Hh ]. }
    assert (Hret : forall evs (n : Z), Forall quiet_event evs ->
              (Returned n, RS.mkWorld (RS.rs w) (RS.opCtx w) (RS.db w) (RS.trace w ++ evs))
              = (out, w') -> pass_frame w w').
    { intros evs n Hq Hh. injection Hh as <- <-. now apply pass_frame_emit. }
    destruct (negb (RS._cappedMaxDocs (RS.rs w) =? -1)).
    - cbn in H. apply (Hlock' [EvLock]); [ repeat constructor | exact H ].
    - destruct (RS._hasBackgroundThread (RS.rs w)).
      + destruct (RS._dataSize (RS.rs w) - RS._cappedMaxSize (RS.rs w)
                  <? RS._cappedMaxSizeSlack (RS.rs w)).
        * injection H as <- <-. apply pass_frame_refl.
        * destruct (env_try_lock env); cbn in H.
          -- rewrite <- app_assoc in H. eapply Hret; [ | exact H ]. repeat constructor.
          -- destruct (env_try_lock_for env); cbn in H.
             ++ rewrite <- !app_assoc in H. eapply Hret; [ | exact H ]. repeat constructor.
             ++ rewrite <- !app_assoc in H. eapply Hret; [ | exact H ]. repeat constructor.
      + destruct (env_try_lock env); cbn in H.
        * apply (Hlock' [EvTryLock true]); [ repeat constructor | exact H ].
        * destruct (RS._dataSize (RS.rs w) - RS._cappedMaxSize (RS.rs w)
                    <? RS._cappedMaxSizeSlack (RS.rs w)).
          -- cbn in H. eapply Hret; [ | exact H ]. repeat constructor.
          -- cbn in H. destruct (env_try_lock_for env); cbn in H.
             ++ match type of H with
                | context [if ?c then RS.bind (RS.emit [EvUnlock]) _ else _] => destruct c
                end.
                ** cbn in H. rewrite <- !app_assoc in H.
                   eapply Hret; [ | exact H ]. repeat constructor.
                ** rewrite <- !app_assoc in H.
                   apply (Hlock' ([EvTryLock false] ++ [EvTryLockFor 200 true]));
                     [ repeat constructor | exact H ].
             ++ rewrite <- !app_assoc in H. eapply Hret; [ | exact H ]. repeat constructor. }
  match type of H with
  | context [if ?c then RS.ret true else _] => destruct c
  end.
  - unfold RS.ret at 1 in H. cbn [negb] in H. exact (Hbranches H).
  - match type of H with
    | context [if ?c then RS.ret true else _] => destruct c
    end.
    + unfold RS.ret at 1 in H. cbn [negb] in H. exact (Hbranches H).
    + cbn in H. injection H as <- <-. apply pass_frame_refl.
Qed.

(* ------------------------------------------------------------------ *)
(** ** Insertion into the oplog *)

Lemma insertRecord_oplog_calls (extractKey : Slice -> Z -> StatusWith RecordId)
      (kM kD : Z) (env : Env) (data : Slice) (len : Z) (w : RS.World)
      (vm : VM.t) (trk : RocksOplogKeyTracker) (loc : RecordId)
      (out : Outcome (StatusWith RecordId)) (w' : RS.World) :
  RS._isOplog (RS.rs w) = true ->
  RS._cappedVisibilityManager (RS.rs w) = Some vm ->
  RS._oplogKeyTracker (RS.rs w) = Some trk ->
  RS._isCapped (RS.rs w) && (len >? RS._cappedMaxSize (RS.rs w)) = false ->
  extractKey data len = SW_OK loc ->
  RS.insertRecord extractKey kM kD env data len w = (out, w') ->
  (exists later,
     RS.trace w' = RS.trace w
                   ++ [EvUpdateHighestSeen loc;
                       EvPut (_makePrefixedKey (RS._prefix (RS.rs w)) loc)
                             (firstn (Z.to_nat len) data);
                       EvPut (_makePrefixedKey (tracker_prefix trk) loc)
                             (nativeToLittle32 len)]
                   ++ later
     /\ Forall quiet_event later)
  /\ RS._cappedVisibilityManager (RS.rs w') = Some (VM.updateHighestSeen loc vm).
Proof.
  intros Hop Hvm Htrk Hsize Hkey H.
  unfold RS.insertRecord in H.
  unfold RS.bind at 1, RS.gets at 1 in H. rewrite Hsize, Hop, Hkey in H.
  unfold RS.bind at 1 in H. unfold RS.bind at 1 in H.
  unfold RS.vm_updateHighestSeen, RS.theVisibilityManager in H.
  unfold RS.bind at 1 2 in H. rewrite Hvm in H.
  cbn [RS.modify RS.emit RS.set_rs RS.ret] in H.
  remember (RS.cappedDeleteAsNeeded kM kD env loc) as cd eqn:Hcd.
  remember (nativeToLittle32 len) as le32 eqn:Hle32.
  remember (firstn (Z.to_nat len) data) as payload eqn:Hpayload.
  unfold RS.insertKey, RS.theTracker, RS.writeBatch_Put, RS._changeNumRecords,
    RS._increaseDataSize, RS.bind, RS.modify, RS.emit in H.
  cbn in H. rewrite Htrk in H. cbn in H.
  match type of H with
  | context [cd ?x] => remember x as w1 eqn:Hw1
  end.
  destruct (cd w1) as [o2 w2] eqn:Hcall. subst cd.
  apply cappedDeleteAsNeeded_frame in Hcall.
  destruct Hcall as [Fvm _ _ _ _ _ (evs & Htrace & Hquiet)].
  assert (Hw' : w' = w2).
  { destruct o2; cbn in H; unfold RS.ret in H; injection H as _ Hw2; congruence. }
  subst w'. split.
  - exists evs. split; [ | exact Hquiet ].
    rewrite Htrace, Hw1, Hpayload, Hle32. cbn [RS.trace RS.set_ru].
    now rewrite <- !app_assoc.
  - rewrite Fvm, Hw1. reflexivity.
Qed.

Lemma updateHighestSeen_uncommitted (record : RecordId) (vm : VM.t) :
  VM._uncommittedRecords (VM.updateHighestSeen record vm) = VM._uncommittedRecords vm.
Proof. unfold VM.updateHighestSeen. destruct (record >? VM._oplog_highestSeen vm); reflexivity. Qed.

Lemma oplogDiskLocRegister_adds (keyForOptime : Z -> StatusWith RecordId) (opTime : Z)
      (w : RS.World) (vm : VM.t) (record : RecordId) :
  RS._isOplog (RS.rs w) = true ->
  RS._cappedVisibilityManager (RS.rs w) = Some vm ->
  keyForOptime opTime = SW_OK record ->
  exists w1,
    RS.oplogDiskLocRegister keyForOptime opTime w = (Returned (SW_OK tt), w1)
    /\ RS._cappedVisibilityManager (RS.rs w1) = Some (fst (VM.addUncommittedRecord record vm))
    /\ RS.trace w1 = RS.trace w ++ [EvAddUncommittedRecord record; EvRegisterChange record]
    /\ batch_of w1 = batch_of w.
Proof.
  intros Hop Hvm Hkey.
  unfold RS.oplogDiskLocRegister, RS.vm_addUncommittedRecord, RS.theVisibilityManager,
    RS.invariant, RS.bind, RS.gets.
  rewrite Hop, Hkey. cbn. rewrite Hvm. cbn.
  eexists. repeat split.
Qed.

(** C7 (as amended). On an insert into the oplog the store itself extracts the
    id from the payload ([oploghack::extractKey]) and calls
    [updateHighestSeen(id)] before it stages the Put of the record and of the
    tracker entry; [insertRecord] makes no call that adds to the uncommitted
    list, which it leaves as it was. The id is added to the uncommitted list
    (and its change registered) by [oplogDiskLocRegister], a separate call
    that stages nothing. *)
Theorem insertRecord_oplog_updateHighestSeen_then_Put
        (extractKey : Slice -> Z -> StatusWith RecordId)
        (keyForOptime : Z -> StatusWith RecordId)
        (kOplogCompactEveryMins kOplogCompactEveryDeletedRecords : Z) (env : Env)
        (data : Slice) (len : Z) (w : RS.World)
        (vm : VM.t) (trk : RocksOplogKeyTracker) (loc : RecordId) :
  RS._isOplog (RS.rs w) = true ->
  RS._cappedVisibilityManager (RS.rs w) = Some vm ->
  RS._oplogKeyTracker (RS.rs w) = Some trk ->
  RS._isCapped (RS.rs w) && (len >? RS._cappedMaxSize (RS.rs w)) = false ->
  extractKey data len = SW_OK loc ->
  (forall out w',
     RS.insertRecord extractKey kOplogCompactEveryMins kOplogCompactEveryDeletedRecords
                     env data len w = (out, w') ->
     (exists later,
        RS.trace w' = RS.trace w
                      ++ [EvUpdateHighestSeen loc;
                          EvPut (_makePrefixedKey (RS._prefix (RS.rs w)) loc)
                                (firstn (Z.to_nat len) data);
                          EvPut (_makePrefixedKey (tracker_prefix trk) loc)
                                (nativeToLittle32 len)]
                      ++ later
        /\ Forall quiet_event later)
     /\ (exists vm',
           RS._cappedVisibilityManager (RS.rs w') = Some vm'
           /\ VM._uncommittedRecords vm' = VM._uncommittedRecords vm
           /\ VM._oplog_highestSeen vm' = Z.max (VM._oplog_highestSeen vm) loc))
  /\
  (forall opTime,
     keyForOptime opTime = SW_OK loc ->
     exists w1 vm1,
       RS.oplogDiskLocRegister keyForOptime opTime w = (Returned (SW_OK tt), w1)
       /\ RS._cappedVisibilityManager (RS.rs w1) = Some vm1
       /\ VM._uncommittedRecords vm1 = VM._uncommittedRecords vm ++ [loc]
       /\ RS.trace w1 = RS.trace w ++ [EvAddUncommittedRecord loc; EvRegisterChange loc]
       /\ batch_of w1 = batch_of w).
Proof.
  intros Hop Hvm Htrk Hsize Hkey. split.
  - intros out w' H.
    destruct (insertRecord_oplog_calls extractKey _ _ env data len w vm trk loc out w'
                Hop Hvm Htrk Hsize Hkey H) as [Htrace Hvm'].
    split; [ exact Htrace | ].
    exists (VM.updateHighestSeen loc vm). split; [ exact Hvm' | ].
    split; [ apply updateHighestSeen_uncommitted | ].
    unfold VM.updateHighestSeen.
    destruct (Z.gtb_spec loc (VM._oplog_highestSeen vm)); cbn; lia.
  - intros opTime Hopt.
    destruct (oplogDiskLocRegister_adds keyForOptime opTime w vm loc Hop Hvm Hopt)
      as (w1 & Hrun & Hvm1 & Htrace & Hbatch).
    exists w1, (fst (VM.addUncommittedRecord loc vm)).
    repeat split; assumption || reflexivity.
Qed.

Lemma insertRecord_oplog_updateHighestSeen_then_Put_witness :
  (forall out w',
     RS.insertRecord sample_extractKey 60 1000000 quiet_env (oplog_entry 100) 11 oplog_world
     = (out, w') ->
     (exists later,
        RS.trace w' = RS.trace oplog_world
                      ++ [EvUpdateHighestSeen 100;
                          EvPut (_makePrefixedKey [80] 100)
                                (firstn (Z.to_nat 11) (oplog_entry 100));
                          EvPut (_makePrefixedKey [81] 100) (nativeToLittle32 11)]
                      ++ later
        /\ Forall quiet_event later)
     /\ (exists vm',
           RS._cappedVisibilityManager (RS.rs w') = Some vm'
           /\ VM._uncommittedRecords vm' = VM._uncommittedRecords VM.init
           /\ VM._oplog_highestSeen vm' = Z.max (VM._oplog_highestSeen VM.init) 100))
  /\
  (forall opTime,
     sample_keyForOptime opTime = SW_OK 100 ->
     exists w1 vm1,
       RS.oplogDiskLocRegister sample_keyForOptime opTime oplog_world
       = (Returned (SW_OK tt), w1)
       /\ RS._cappedVisibilityManager (RS.rs w1) = Some vm1
       /\ VM._uncommittedRecords vm1 = VM._uncommittedRecords VM.init ++ [100]
       /\ RS.trace w1 = RS.trace oplog_world
                        ++ [EvAddUncommittedRecord 100; EvRegisterChange 100]
       /\ batch_of w1 = batch_of oplog_world).
Proof.
  apply (insertRecord_oplog_updateHighestSeen_then_Put
           sample_extractKey sample_keyForOptime 60 1000000 quiet_env
           (oplog_entry 100) 11 oplog_world VM.init (mkTracker 0 [81]) 100);
    reflexivity.
Defined.

(** C7, as stated, fails: an insert into the empty oplog stages its two Puts
    and returns the id 100, and the uncommitted list is still empty; no call
    of [insertRecord] added the id. *)
Lemma insertRecord_oplog_does_not_add_uncommitted :
  let r := RS.insertRecord sample_extractKey 60 1000000 quiet_env
                           (oplog_entry 100) 11 oplog_world in
  fst r = Returned (SW_OK 100)
  /\ RS.trace (snd r)
     = [EvUpdateHighestSeen 100;
        EvPut (_makePrefixedKey [80] 100) (oplog_entry 100);
        EvPut (_makePrefixedKey [81] 100) (nativeToLittle32 11)]
  /\ option_map VM._uncommittedRecords (RS._cappedVisibilityManager (RS.rs (snd r)))
     = Some []
  /\ ~ In (EvAddUncommittedRecord 100) (RS.trace (snd r)).
Proof.
  cbv zeta. split; [ vm_compute; reflexivity | ].
  split; [ vm_compute; reflexivity | ].
  split; [ vm_compute; reflexivity | ].
  vm_compute. intros [H | [H | [H | []]]]; discriminate.
Qed.

(* ------------------------------------------------------------------ *)
(** ** Instances *)

Lemma insertRecord_exceeds_cappedMaxSize_witness :
  RS.insertRecord sample_extractKey 60 1000000 quiet_env (repeat 97 11) 11 capped_world
  = (Returned (SW_Error BadValue), capped_world).
Proof.
  apply (insertRecord_exceeds_cappedMaxSize
           sample_extractKey 60 1000000 quiet_env (repeat 97 11) 11 capped_world).
  - reflexivity.
  - simpl. lia.
Defined.

Lemma cappedDeleteAsNeeded_with_background_thread_witness :
  let env := mkEnv false true (fun _ => true) 0 in
  let w := backlogged_world in
  let dataSizeDelta :=
    if RS._isOplog (RS.rs w) then 0 else ru_deltaDataSize (recoveryUnit (RS.opCtx w)) in
  let slack := Z.min (Z.quot (RS._cappedMaxSize (RS.rs w)) 10) (16 * 1024 * 1024) in
  exists w' evs,
    RS.cappedDeleteAsNeeded 60 1000000 env 11 w = (Returned 0, w')
    /\ RS.rs w' = RS.rs w
    /\ RS.opCtx w' = RS.opCtx w
    /\ RS.db w' = RS.db w
    /\ RS.trace w' = RS.trace w ++ evs
    /\ (evs = []
        \/ evs = [EvTryLock true; EvUnlock]
        \/ evs = [EvTryLock false; EvTryLockFor 200 true; EvUnlock]
        \/ evs = [EvTryLock false; EvTryLockFor 200 false])
    /\ (RS._dataSize (RS.rs w) - RS._cappedMaxSize (RS.rs w) < slack -> evs = [])
    /\ (RS._dataSize (RS.rs w) + dataSizeDelta <= RS._cappedMaxSize (RS.rs w) -> evs = [])
    /\ (RS._cappedMaxSize (RS.rs w) < RS._dataSize (RS.rs w) + dataSizeDelta ->
        slack <= RS._dataSize (RS.rs w) - RS._cappedMaxSize (RS.rs w) ->
        evs = EvTryLock (env_try_lock env)
              :: (if env_try_lock env then [EvUnlock]
                  else EvTryLockFor 200 (env_try_lock_for env)
                       :: (if env_try_lock_for env then [EvUnlock] else []))).
Proof.
  intros env w.
  apply (cappedDeleteAsNeeded_with_background_thread 60 1000000 env 11 w);
    reflexivity.
Defined.

Lemma cappedDeleteAsNeeded_inlock_bounds_witness :
  let w := full_capped_world in
  let r := RS.cappedDeleteAsNeeded_inlock 60 1000000 quiet_env 11 w in
  exists pre post ds,
    deleter_entries w = pre ++ post
    /\ decoded_as pre ds
    /\ RS.db (snd r) = apply_batch (flat_map (del_ops (RS.rs w)) ds) (RS.db w)
    /\ Forall (fun id => id < 11
                         /\ exists vm, RS._cappedVisibilityManager (RS.rs w) = Some vm
                                       /\ VM.isCappedHidden id vm = false) ds
    /\ Z.of_nat (length ds) <= 20000
    /\ (forall n, fst r = Returned n -> n = Z.of_nat (length ds))
    /\ (forall i e id vm,
          nth_error (deleter_entries w) i = Some e ->
          _makeRecordId (fst e) = Some id ->
          RS._cappedVisibilityManager (RS.rs w) = Some vm ->
          11 <= id \/ VM.isCappedHidden id vm = true ->
          (length ds <= i)%nat).
Proof.
  intros w r.
  apply (cappedDeleteAsNeeded_inlock_bounds 60 1000000 quiet_env 11 w (fst r) (snd r)).
  vm_compute. reflexivity.
Defined.

(** The pass on the full capped collection: 3 bytes over the cap, it deletes
    the records 1, 2 and 3 and moves the hint to 4. *)
Example cappedDeleteAsNeeded_inlock_trims :
  let r := RS.cappedDeleteAsNeeded_inlock 60 1000000 quiet_env 11 full_capped_world in
  fst r = Returned 3
  /\ stored_ids [80] (RS.db (snd r)) = map Some [4; 5; 6; 7; 8; 9; 10]
  /\ RS._cappedOldestKeyHint (RS.rs (snd r)) = 4
  /\ RS._dataSize (RS.rs (snd r)) = 7
  /\ RS._numRecords (RS.rs (snd r)) = 7
  /\ RS.opCtx (snd r) = RS.opCtx full_capped_world.
Proof. vm_compute. repeat split. Qed.

(** With a pass that stops at [justInserted]: nothing at or above it goes. *)
Example cappedDeleteAsNeeded_inlock_stops_at_justInserted :
  let r := RS.cappedDeleteAsNeeded_inlock 60 1000000 quiet_env 3 full_capped_world in
  fst r = Returned 2
  /\ stored_ids [80] (RS.db (snd r)) = map Some [3; 4; 5; 6; 7; 8; 9; 10].
Proof. vm_compute. repeat split. Qed.

(* ------------------------------------------------------------------ *)
(** ** The scenarios of the specification, run on the model *)

Example S1_monotonic_ids :
  summary (after (insert_and_commit [99; 99; 99])
             (after (insert_and_commit [98; 98])
                (after (insert_and_commit [97]) (empty_world false false (-1) (-1) false))))
  = Some ([Some 1; Some 2; Some 3], 3, 6).
Proof. vm_compute. reflexivity. Qed.

Example S2_rollback :
  let w := after (insert_and_commit [122])
             (after (insert_and_rollback [121; 121])
                (after (insert_and_commit [120]) (empty_world false false (-1) (-1) false))) in
  summary (after (insert_and_rollback [121; 121])
             (after (insert_and_commit [120]) (empty_world false false (-1) (-1) false)))
  = Some ([Some 1], 1, 1)
  /\ summary w = Some ([Some 1; Some 3], 2, 2).
Proof. vm_compute. split; reflexivity. Qed.

Example S3_capped_trim :
  summary (after (insert_and_commit [99; 99; 99])
             (fold_left (fun w _ => after (insert_and_commit [97]) w) (seq 0 10)
                        (empty_world false true 10 (-1) false)))
  = Some (map Some [4; 5; 6; 7; 8; 9; 10; 11], 8, 10).
Proof. vm_compute. reflexivity. Qed.

Example S4_capped_doc_cap :
  summary (fold_left (fun w _ => after (insert_and_commit [97]) w) (seq 0 4)
                     (empty_world false true (2 ^ 30) 3 false))
  = Some (map Some [2; 3; 4], 3, 3).
Proof. vm_compute. reflexivity. Qed.

(** S5. Thread A inserts 100; thread B inserts 101 and commits: a forward
    cursor returns nothing. Thread A commits: its removal is deferred, and
    still nothing is returned. After the journal thread's turn a forward
    cursor returns 100, then 101. *)
Example S5_oplog_visibility :
  let w0 := empty_world true true 1000 (-1) false in
  let wA := after (oplog_insert 100) w0 in
  let ctxA := match wA with Some w => RS.opCtx w | None => fresh_opCtx end in
  let wB := after RS.commitTransaction
              (after (oplog_insert 101) (switch_thread fresh_opCtx wA)) in
  let wA' := after RS.commitTransaction (switch_thread ctxA wB) in
  read_three wB = Some [None; None; None]
  /\ read_three wA' = Some [None; None; None]
  /\ read_three (journal_turn wA')
     = Some [Some (100, oplog_entry 100); Some (101, oplog_entry 101); None].
Proof. vm_compute. repeat split. Qed.

Example empty_world_is_oplog_world :
  empty_world true true 1000 (-1) false = Some oplog_world
  /\ empty_world false true 10 (-1) false = Some capped_world.
Proof. vm_compute. split; reflexivity. Qed.

(* ------------------------------------------------------------------ *)
(** ** What the constructor establishes *)

Lemma construct_slack (isOplog : bool) (trackerPrefix : Slice) (deletedKeys : Z)
      (engine : DB)
      (numRecords dataSize : Z) (hasBackgroundThread : bool) (prefix : Slice)
      (isCapped : bool) (cappedMaxSize cappedMaxDocs : Z)
      (cappedCallback : option (RecordId -> Slice -> CallbackResult)) (s : RS.t) :
  RS.construct isOplog trackerPrefix deletedKeys engine numRecords dataSize
               hasBackgroundThread
               prefix isCapped cappedMaxSize cappedMaxDocs cappedCallback = Some s ->
  RS._cappedMaxSizeSlack s = cappedMaxSizeSlackFromSize (RS._cappedMaxSize s)
  /\ (RS._cappedVisibilityManager s <> None <-> isCapped || isOplog = true)
  /\ (RS._oplogKeyTracker s <> None <-> isOplog = true)
  /\ 0 <= RS._dataSize s /\ 0 <= RS._numRecords s.
Proof.
  unfold RS.construct. intros H.
  match type of H with (if ?c then _ else _) = _ => destruct c; [ | discriminate ] end.
  assert (Hd : 0 <= (if dataSize <? 0 then 0 else dataSize))
    by (destruct (Z.ltb_spec dataSize 0); lia).
  assert (Hn : 0 <= (if numRecords <? 0 then 0 else numRecords))
    by (destruct (Z.ltb_spec numRecords 0); lia).
  destruct (Iterator.current _) as [[lastSlice v] |].
  - destruct (_makeRecordId lastSlice); [ | discriminate ].
    injection H as <-. cbn.
    destruct isCapped, isOplog; cbn; repeat split; auto; try discriminate; congruence.
  - injection H as <-. cbn.
    destruct isCapped, isOplog; cbn; repeat split; auto; try discriminate; congruence.
Qed.

Lemma updateCappedSize_slack (cappedSize : Z) (w : RS.World) :
  RS._cappedMaxSizeSlack (RS.rs w) = cappedMaxSizeSlackFromSize (RS._cappedMaxSize (RS.rs w)) ->
  let w' := snd (RS.updateCappedSize cappedSize w) in
  RS._cappedMaxSize (RS.rs w') = cappedSize
  /\ RS._cappedMaxSizeSlack (RS.rs w') = cappedMaxSizeSlackFromSize cappedSize.
Proof.
  intros Hs. unfold RS.updateCappedSize, RS.bind, RS.gets. cbn.
  destruct (Z.eqb_spec (RS._cappedMaxSize (RS.rs w)) cappedSize) as [Heq | Hne]; cbn.
  - split; congruence.
  - split; reflexivity.
Qed.

(* ------------------------------------------------------------------ *)
(** ** What a batch of deletions does to the engine *)

Lemma db_get_delete (key k : Slice) (d : DB) :
  db_get key (db_delete k d) = if slice_eqb key k then None else db_get key d.
Proof.
  unfold db_delete. induction d as [| [k' v] d IH]; cbn.
  - now destruct (slice_eqb key k).
  - destruct (slice_eqb k k') eqn:Ekk'; cbn.
    + apply slice_eqb_eq in Ekk'. subst k'. rewrite IH.
      now destruct (slice_eqb key k).
    + destruct (slice_eqb key k') eqn:Ekey.
      * apply slice_eqb_eq in Ekey. subst k'.
        destruct (slice_eqb key k) eqn:E; auto.
        apply slice_eqb_eq in E. subst k.
        rewrite (proj2 (slice_eqb_eq key key) eq_refl) in Ekk'. discriminate.
      * exact IH.
Qed.

Lemma db_get_after_deletes (key : Slice) (ks : list Slice) (d : DB) :
  db_get key (apply_batch (map Delete ks) d)
  = if existsb (slice_eqb key) ks then None else db_get key d.
Proof.
  unfold apply_batch. revert d. induction ks as [| k ks IH]; intros d; cbn; auto.
  rewrite IH, db_get_delete.
  destruct (slice_eqb key k); cbn; auto.
  now destruct (existsb (slice_eqb key) ks).
Qed.

(** The keys a pass deletes for the ids [ds]. *)
Lemma del_ops_are_deletes (s : RS.t) (ds : list RecordId) :
  exists ks, flat_map (del_ops s) ds = map Delete ks
             /\ forall k, In k ks ->
                  exists id, In id ds
                             /\ (k = _makePrefixedKey (RS._prefix s) id
                                 \/ exists p, tracker_prefix_of s = Some p
                                              /\ k = _makePrefixedKey p id).
Proof.
  induction ds as [| id ds (ks & Hks & Hin)].
  - exists []. split; [ reflexivity | intros k [] ].
  - cbn [flat_map]. unfold del_ops at 1.
    destruct (RS._isOplog s); [ destruct (tracker_prefix_of s) as [p |] eqn:Ep | ].
    + exists (_makePrefixedKey (RS._prefix s) id :: _makePrefixedKey p id :: ks).
      split; [ cbn; now rewrite Hks | ].
      intros k [<- | [<- | Hk]].
      * exists id. split; [ now left | now left ].
      * exists id. split; [ now left | right; now exists p ].
      * destruct (Hin k Hk) as (id' & Hid' & Hcase). exists id'. split; [ now right | exact Hcase ].
    + exists (_makePrefixedKey (RS._prefix s) id :: ks).
      split; [ cbn; now rewrite Hks | ].
      intros k [<- | Hk].
      * exists id. split; [ now left | now left ].
      * destruct (Hin k Hk) as (id' & Hid' & Hcase). exists id'. split; [ now right | exact Hcase ].
    + exists (_makePrefixedKey (RS._prefix s) id :: ks).
      split; [ cbn; now rewrite Hks | ].
      intros k [<- | Hk].
      * exists id. split; [ now left | now left ].
      * destruct (Hin k Hk) as (id' & Hid' & Hcase). exists id'. split; [ now right | exact Hcase ].
Qed.

(** A pass adds nothing to the engine and changes no value; a key it removes
    is the key (or the tracker key) of an id below [justInserted] that was
    not hidden. *)
Lemma cappedDeleteAsNeeded_inlock_removes_only (kM kD : Z) (env : Env) (j : RecordId)
      (w : RS.World) (out : Outcome Z) (w' : RS.World) (key value : Slice) :
  RS.cappedDeleteAsNeeded_inlock kM kD env j w = (out, w') ->
  (db_get key (RS.db w') = Some value -> db_get key (RS.db w) = Some value)
  /\ (db_get key (RS.db w) = Some value ->
      db_get key (RS.db w') = Some value
      \/ exists id vm,
           id < j
           /\ RS._cappedVisibilityManager (RS.rs w) = Some vm
           /\ VM.isCappedHidden id vm = false
           /\ (key = _makePrefixedKey (RS._prefix (RS.rs w)) id
               \/ exists p, tracker_prefix_of (RS.rs w) = Some p
                            /\ key = _makePrefixedKey p id)).
Proof.
  intros H. apply cappedDeleteAsNeeded_inlock_spec in H.
  destruct H as (pre & post & ds & _ & _ & Hdb & Hall & _).
  destruct (del_ops_are_deletes (RS.rs w) ds) as (ks & Hks & Hin).
  rewrite Hks in Hdb. rewrite Hdb, db_get_after_deletes.
  destruct (existsb (slice_eqb key) ks) eqn:E.
  - split; [ discriminate | ]. intros _. right.
    apply existsb_exists in E. destruct E as (k & Hk & Heq).
    apply slice_eqb_eq in Heq. subst k.
    destruct (Hin key Hk) as (id & Hid & Hcase).
    rewrite Forall_forall in Hall. destruct (Hall id Hid) as (Hlt & vm & Hvm & Hhid).
    exists id, vm. repeat split; assumption.
  - split; [ auto | ]. intros Hget. now left.
Qed.

(* ================================================================== *)
(** * Storage statistics and the size codec *)
(* ================================================================== *)

Lemma land_lnot_255 (x : Z) : Z.land x (Z.lnot 255) = 256 * (x / 256).
Proof.
  change 255 with (Z.ones 8).
  rewrite <- Z.ldiff_land, Z.ldiff_ones_r by lia.
  rewrite Z.shiftl_mul_pow2, Z.shiftr_div_pow2 by lia.
  change (2 ^ 8) with 256. lia.
Qed.

(** [storageSize] is the multiple of 256 at or just below the data size,
    and 256 for a data size below 256. *)
Theorem storageSize_multiple_of_256 (s : RS.t) :
  RS.storageSize s mod 256 = 0
  /\ Z.max 256 (RS._dataSize s) - 255 <= RS.storageSize s <= Z.max 256 (RS._dataSize s).
Proof.
  unfold RS.storageSize. rewrite land_lnot_255.
  pose proof (Z.div_mod (RS._dataSize s) 256 ltac:(lia)) as Hdm.
  pose proof (Z.mod_pos_bound (RS._dataSize s) 256 ltac:(lia)) as Hb.
  destruct (Z.max_spec (256 * (RS._dataSize s / 256)) 256) as [[Hlt ->] | [Hge ->]].
  - split; [ reflexivity | lia ].
  - split; [ | lia ].
    rewrite Z.mul_comm. apply Z.mod_mul. lia.
Qed.

Lemma byte_at_bit (u s n : Z) :
  0 <= s -> 0 <= n ->
  Z.testbit (Z.shiftl (Z.land (Z.shiftr u s) 255) s) n
  = Z.testbit u n && (s <=? n) && (n <? s + 8).
Proof.
  intros Hs Hn. change 255 with (Z.ones 8).
  destruct (Z.leb_spec s n) as [Hle | Hlt].
  - rewrite Z.shiftl_spec, Z.land_spec, Z.shiftr_spec by lia.
    rewrite Z.testbit_ones_nonneg by lia.
    replace (n - s + s) with n by lia.
    rewrite andb_true_r. f_equal.
    destruct (Z.ltb_spec (n - s) 8), (Z.ltb_spec n (s + 8)); auto; lia.
  - rewrite Z.shiftl_spec_low by lia. now rewrite andb_false_r.
Qed.

Lemma little32_recombine (u : Z) :
  0 <= u < 2 ^ 32 ->
  Z.lor (Z.land (Z.shiftr u 0) 255)
        (Z.lor (Z.shiftl (Z.land (Z.shiftr u 8) 255) 8)
               (Z.lor (Z.shiftl (Z.land (Z.shiftr u 16) 255) 16)
                      (Z.shiftl (Z.land (Z.shiftr u 24) 255) 24))) = u.
Proof.
  intros Hu. apply Z.bits_inj'. intros n Hn.
  rewrite <- (Z.shiftl_0_r (Z.land (Z.shiftr u 0) 255)).
  rewrite !Z.lor_spec, !byte_at_bit by lia.
  destruct (Z.testbit u n) eqn:Hb; cbn [andb].
  - assert (Hlt : n < 32).
    { destruct (Z_lt_ge_dec n 32) as [Hlt | Hge]; auto.
      rewrite <- (Z.mod_small u (2 ^ 32)) in Hb by lia.
      rewrite Z.mod_pow2_bits_high in Hb by lia. discriminate. }
    destruct (Z.leb_spec 0 n), (Z.ltb_spec n (0 + 8)), (Z.leb_spec 8 n),
      (Z.ltb_spec n (8 + 8)), (Z.leb_spec 16 n), (Z.ltb_spec n (16 + 8)),
      (Z.leb_spec 24 n), (Z.ltb_spec n (24 + 8)); cbn; auto; lia.
  - reflexivity.
Qed.

(** The size the oplog key tracker stores under a key is read back as
    written: [decodeSize] undoes the four-byte little-endian value that
    [insertKey] writes, for every [int] length. *)
Theorem decodeSize_nativeToLittle32 (len : Z) :
  - 2 ^ 31 <= len < 2 ^ 31 ->
  decodeSize (nativeToLittle32 len) = len
  /\ length (nativeToLittle32 len) = 4%nat
  /\ Forall is_byte (nativeToLittle32 len).
Proof.
  intros Hlen. split; [ | split ].
  - unfold decodeSize, nativeToLittle32. cbn [map nth].
    assert (Hu : 0 <= len mod 2 ^ 32 < 2 ^ 32) by (apply Z.mod_pos_bound; lia).
    rewrite little32_recombine by exact Hu.
    destruct (Z_lt_ge_dec len 0) as [Hneg | Hpos].
    + assert (Hm : len mod 2 ^ 32 = len + 2 ^ 32).
      { symmetry. apply Z.mod_unique with (q := -1); lia. }
      rewrite Hm. destruct (Z.ltb_spec (len + 2 ^ 32) (2 ^ 31)); lia.
    + rewrite Z.mod_small by lia. destruct (Z.ltb_spec len (2 ^ 31)); lia.
  - reflexivity.
  - unfold nativeToLittle32. cbn [map].
    repeat constructor; unfold is_byte; change 255 with (Z.ones 8);
      rewrite Z.land_ones by lia; apply Z.mod_pos_bound; lia.
Qed.

Lemma decodeSize_nativeToLittle32_witness :
  decodeSize (nativeToLittle32 11) = 11
  /\ length (nativeToLittle32 11) = 4%nat
  /\ Forall is_byte (nativeToLittle32 11).
Proof. apply (decodeSize_nativeToLittle32 11). lia. Defined.

(* ================================================================== *)
(** * Further properties of the visibility manager *)
(* ================================================================== *)

Lemma sorted_NoDup (l : list Z) : StronglySorted Z.lt l -> NoDup l.
Proof.
  induction 1 as [| x l Hs IH Hall]; constructor; auto.
  intros Hin. rewrite Forall_forall in Hall. specialize (Hall x Hin). lia.
Qed.

(** In every state the manager reaches from its initial one by calls that
    respect the [dassert] of [_addUncommittedRecord_inlock], the uncommitted
    ids are strictly increasing: no id is listed twice, and the front of the
    list, which [lowestCappedHiddenRecord] returns, is the lowest
    uncommitted id. *)
Theorem uncommittedRecords_strictly_increasing (isOplog hasCallback : bool) (vm : VM.t) :
  vm_reachable isOplog hasCallback vm ->
  StronglySorted Z.lt (VM._uncommittedRecords vm)
  /\ NoDup (VM._uncommittedRecords vm)
  /\ (VM._uncommittedRecords vm <> [] ->
      is_min (VM.lowestCappedHiddenRecord vm) (VM._uncommittedRecords vm)).
Proof.
  intros Hr. pose proof (vm_reachable_sorted _ _ _ Hr) as Hs.
  unfold uncommitted_sorted in Hs. split; [ exact Hs | ].
  split; [ now apply sorted_NoDup | ].
  unfold VM.lowestCappedHiddenRecord.
  destruct (VM._uncommittedRecords vm) as [| f l]; [ congruence | ].
  intros _. now apply sorted_front_is_min.
Qed.

Lemma uncommittedRecords_strictly_increasing_witness :
  let vm := fst (VM.CappedInsertChange_rollback false false 5
                   (fst (VM.addUncommittedRecord 7
                           (fst (VM.addUncommittedRecord 5 VM.init))))) in
  StronglySorted Z.lt (VM._uncommittedRecords vm)
  /\ NoDup (VM._uncommittedRecords vm)
  /\ (VM._uncommittedRecords vm <> [] ->
      is_min (VM.lowestCappedHiddenRecord vm) (VM._uncommittedRecords vm)).
Proof.
  intros vm.
  apply (uncommittedRecords_strictly_increasing false false vm).
  unfold vm. apply reach_step with (vm := fst (VM.addUncommittedRecord 7
                                                 (fst (VM.addUncommittedRecord 5 VM.init)))).
  - apply reach_step with (vm := fst (VM.addUncommittedRecord 5 VM.init)).
    + apply reach_step with (vm := VM.init).
      * apply reach_init.
      * apply step_addUncommittedRecord. left. reflexivity.
    + apply step_addUncommittedRecord. right. simpl. lia.
  - apply step_rollback.
Defined.

Lemma erase_in_iff (it : RecordId) (l : list RecordId) (x : RecordId) :
  StronglySorted Z.lt l -> (In x (VM.erase it l) <-> In x l /\ x <> it).
Proof.
  induction 1 as [| y l Hs IH Hall]; simpl.
  - tauto.
  - rewrite Forall_forall in Hall.
    destruct (Z.eqb_spec y it) as [-> | Hne]; simpl.
    + split.
      * intros Hin. specialize (Hall x Hin). split; [ now right | lia ].
      * intros [[Heq | Hin] Hx]; [ congruence | exact Hin ].
    + rewrite IH. split.
      * intros [Heq | [Hin Hx]]; [ subst; split; [ now left | congruence ] | split; [ now right | exact Hx ] ].
      * intros [[Heq | Hin] Hx]; [ now left | right; now split ].
Qed.

Lemma fold_erase_in_iff (ops l : list RecordId) (x : RecordId) :
  StronglySorted Z.lt l ->
  (In x (fold_left (fun l op => VM.erase op l) ops l) <-> In x l /\ ~ In x ops).
Proof.
  revert l. induction ops as [| op ops IH]; simpl; intros l Hs.
  - tauto.
  - rewrite IH by now apply erase_sorted. rewrite erase_in_iff by exact Hs.
    split.
    + intros [[Hin Hx] Hn]. split; [ exact Hin | ]. intros [Heq | Hin']; [ congruence | auto ].
    + intros [Hin Hn]. split; [ split; [ exact Hin | ] | ]; intros H; apply Hn; [ left; congruence | now right ].
Qed.

(** One turn of the journal thread makes visible exactly the records whose
    commit was waiting for the journal: after [waitUntilDurable] the ids
    left uncommitted are those that were uncommitted and not in the queue,
    the queue is empty, the highest id seen is unchanged and the waiters on
    [_opsBecameVisibleCV] are notified. *)
Theorem oplogJournalThreadLoop_erases_journaled (hasCallback : bool) (vm vm' : VM.t)
        (evs : list Event) :
  uncommitted_sorted vm ->
  VM.oplogJournalThreadLoop hasCallback vm = Some (vm', evs) ->
  (forall x, In x (VM._uncommittedRecords vm')
             <-> In x (VM._uncommittedRecords vm) /\ ~ In x (VM._opsWaitingForJournal vm))
  /\ uncommitted_sorted vm'
  /\ VM._opsWaitingForJournal vm' = []
  /\ VM._oplog_highestSeen vm' = VM._oplog_highestSeen vm
  /\ evs = EvWaitUntilDurable :: EvNotifyAll_opsBecameVisibleCV
             :: (if hasCallback then [EvNotifyCappedWaitersIfNeeded] else []).
Proof.
  unfold VM.oplogJournalThreadLoop, uncommitted_sorted. intros Hs H.
  destruct (VM._shuttingDown vm); [ discriminate | ].
  injection H as <- <-. cbn.
  split; [ intros x; now apply fold_erase_in_iff | ].
  split; [ now apply fold_erase_sorted | auto ].
Qed.

Lemma oplogJournalThreadLoop_erases_journaled_witness :
  let vm := VM.mk [100; 101; 102] 102 [101; 100] false in
  let vm' := VM.mk [102] 102 [] false in
  (forall x, In x (VM._uncommittedRecords vm')
             <-> In x (VM._uncommittedRecords vm) /\ ~ In x (VM._opsWaitingForJournal vm))
  /\ uncommitted_sorted vm'
  /\ VM._opsWaitingForJournal vm' = []
  /\ VM._oplog_highestSeen vm' = VM._oplog_highestSeen vm
  /\ [EvWaitUntilDurable; EvNotifyAll_opsBecameVisibleCV; EvNotifyCappedWaitersIfNeeded]
     = EvWaitUntilDurable :: EvNotifyAll_opsBecameVisibleCV
         :: (if true then [EvNotifyCappedWaitersIfNeeded] else []).
Proof.
  intros vm vm'.
  apply (oplogJournalThreadLoop_erases_journaled true vm vm').
  - unfold uncommitted_sorted. simpl. repeat constructor; lia.
  - reflexivity.
Defined.

Lemma ordered_run_ceiling (isOplog hasCallback : bool) (vm0 vm : VM.t) :
  ordered_run isOplog hasCallback VM.init vm0 ->
  ordered_run isOplog hasCallback vm0 vm ->
  ceiling_below (VM.oplogStartHack vm0) vm.
Proof.
  intros Hinit Hrun.
  destruct (ordered_run_invariants _ _ _ Hinit) as [Hs Hseen].
  assert (H0 : ceiling_below (VM.oplogStartHack vm0) vm0).
  { unfold ceiling_below, VM.oplogStartHack, uncommitted_sorted, uncommitted_seen in *.
    destruct (VM._uncommittedRecords vm0) as [| f l].
    - split; [ constructor | lia ].
    - inversion Hs as [| ? ? Hs' Hall]; subst. inversion Hseen; subst. split; auto.
      constructor; [ lia | ].
      eapply Forall_impl; [ | exact Hall ]. cbn. intros x Hx. lia. }
  clear Hinit Hs Hseen. induction Hrun as [vm | vm1 vm2 vm3 Hrun IH Hstep]; auto.
  eapply ordered_step_ceiling; eauto.
Qed.

(** The read frontier of the oplog never moves back: when ids are
    registered in increasing order above the highest id seen,
    [oplogStartHack()] of a later state is at or above [oplogStartHack()]
    of an earlier one, whatever commits, rollbacks and journal turns
    happen in between. *)
Theorem oplogStartHack_never_moves_back (isOplog hasCallback : bool) (vm0 vm : VM.t) :
  ordered_run isOplog hasCallback VM.init vm0 ->
  ordered_run isOplog hasCallback vm0 vm ->
  VM.oplogStartHack vm0 <= VM.oplogStartHack vm.
Proof.
  intros Hinit Hrun.
  destruct (ordered_run_ceiling _ _ _ _ Hinit Hrun) as [Hall Hhs].
  unfold VM.oplogStartHack at 2.
  destruct (VM._uncommittedRecords vm) as [| f l]; [ exact Hhs | ].
  now inversion Hall.
Qed.

Lemma oplogStartHack_never_moves_back_witness :
  VM.oplogStartHack (fst (VM.addUncommittedRecord 5 VM.init))
  <= VM.oplogStartHack
       (fst (VM.CappedInsertChange_commit true 5
               (fst (VM.addUncommittedRecord 8 (fst (VM.addUncommittedRecord 5 VM.init)))))).
Proof.
  apply (oplogStartHack_never_moves_back true false).
  - eapply run_step; [ apply run_here | ].
    apply ord_addUncommittedRecord. vm_compute. reflexivity.
  - eapply run_step; [ eapply run_step; [ apply run_here | ] | ].
    + apply (ord_addUncommittedRecord true false 8). vm_compute. reflexivity.
    + apply ord_commit.
Defined.

Lemma waitForAllEarlierOplogWritesToBeVisible_progress_witness :
  let vm := VM.mk [100; 101] 101 [100] false in
  let before := [VM.mk [101] 101 [] false] in
  let s := VM.mk [] 101 [] false in
  let after := [VM.Interrupt] in
  VM.waitForAllEarlierOplogWritesToBeVisible false false s after
  = Some (VM.WaitReturned s)
  /\ VM.waitForAllEarlierOplogWritesToBeVisible false false vm
        (map VM.Woken before ++ VM.Woken s :: after)
     = Some (VM.WaitReturned s).
Proof.
  intros vm before s after. split.
  - apply (proj1 (waitForAllEarlierOplogWritesToBeVisible_progress
                    false false s [] s after eq_refl)).
    reflexivity.
  - apply (proj2 (waitForAllEarlierOplogWritesToBeVisible_progress
                    false false vm before s after eq_refl)).
    + reflexivity.
    + repeat constructor.
    + reflexivity.
Defined.

(* ================================================================== *)
(** * What an operation leaves unchanged *)
(* ================================================================== *)

Lemma keeps_ret (R : RS.World -> RS.World -> Prop) (A : Type) (a : A) :
  (forall w, R w w) -> keeps R (RS.ret a).
Proof. intros Hr w out w' H _. injection H as _ <-. apply Hr. Qed.

Lemma keeps_throw (R : RS.World -> RS.World -> Prop) (A : Type) (e : Exception) :
  (forall w, R w w) -> keeps R (@RS.throw A e).
Proof. intros Hr w out w' H _. injection H as _ <-. apply Hr. Qed.

Lemma keeps_abort (R : RS.World -> RS.World -> Prop) (A : Type) : keeps R (@RS.abort A).
Proof. intros w out w' H Hna. injection H as <- _. congruence. Qed.

Lemma keeps_gets (R : RS.World -> RS.World -> Prop) (A : Type) (f : RS.World -> A) :
  (forall w, R w w) -> keeps R (RS.gets f).
Proof. intros Hr w out w' H _. injection H as _ <-. apply Hr. Qed.

Lemma keeps_modify (R : RS.World -> RS.World -> Prop) (f : RS.World -> RS.World) :
  (forall w, R w (f w)) -> keeps R (RS.modify f).
Proof. intros Hf w out w' H _. injection H as _ <-. apply Hf. Qed.

Lemma keeps_bind (R : RS.World -> RS.World -> Prop) (A B : Type) (m : RS.M A)
      (k : A -> RS.M B) :
  (forall w1 w2 w3, R w1 w2 -> R w2 w3 -> R w1 w3) ->
  keeps R m -> (forall a, keeps R (k a)) -> keeps R (RS.bind m k).
Proof.
  intros Ht Hm Hk w out w' H Hna. unfold RS.bind in H.
  destruct (m w) as [[a | e |] w1] eqn:E.
  - eapply Ht; [ eapply Hm; [ exact E | discriminate ] | eapply Hk; eauto ].
  - injection H as <- <-. eapply Hm; [ exact E | discriminate ].
  - injection H as <- _. congruence.
Qed.

Lemma keeps_try_catch (R : RS.World -> RS.World -> Prop) (A : Type) (body : RS.M A)
      (handler : Exception -> RS.M A) :
  (forall w1 w2 w3, R w1 w2 -> R w2 w3 -> R w1 w3) ->
  keeps R body -> (forall e, keeps R (handler e)) -> keeps R (RS.try_catch body handler).
Proof.
  intros Ht Hm Hk w out w' H Hna. unfold RS.try_catch in H.
  destruct (body w) as [[a | e |] w1] eqn:E.
  - injection H as <- <-. eapply Hm; [ exact E | discriminate ].
  - eapply Ht; [ eapply Hm; [ exact E | discriminate ] | eapply Hk; eauto ].
  - injection H as <- _. congruence.
Qed.

Lemma keeps_theVisibilityManager (R : RS.World -> RS.World -> Prop) :
  (forall w, R w w) -> keeps R RS.theVisibilityManager.
Proof.
  intros Hr w out w' H Hna. unfold RS.theVisibilityManager in H.
  destruct (RS._cappedVisibilityManager (RS.rs w)); injection H as _ <-; apply Hr.
Qed.

Lemma keeps_theTracker (R : RS.World -> RS.World -> Prop) :
  (forall w, R w w) -> keeps R RS.theTracker.
Proof.
  intros Hr w out w' H Hna. unfold RS.theTracker in H.
  destruct (RS._oplogKeyTracker (RS.rs w)); injection H as _ <-; apply Hr.
Qed.

(** Splits a goal [keeps R m] along the shape of [m]. *)
Ltac keeps_split Hrefl Htrans :=
  repeat lazymatch goal with
    | |- keeps _ (RS.bind _ _) => apply keeps_bind; [ exact Htrans | | intros ? ]
    | |- keeps _ (RS.try_catch _ _) => apply keeps_try_catch; [ exact Htrans | | intros ? ]
    | |- keeps _ (RS.ret _) => apply keeps_ret; exact Hrefl
    | |- keeps _ (RS.throw _) => apply keeps_throw; exact Hrefl
    | |- keeps _ RS.abort => apply keeps_abort
    | |- keeps _ (RS.gets _) => apply keeps_gets; exact Hrefl
    | |- keeps _ RS.getRU => apply keeps_gets; exact Hrefl
    | |- keeps _ RS.theVisibilityManager => apply keeps_theVisibilityManager; exact Hrefl
    | |- keeps _ RS.theTracker => apply keeps_theTracker; exact Hrefl
    | |- keeps _ (RS.invariant ?b) => unfold RS.invariant; destruct b
    | |- keeps _ (if ?b then _ else _) => destruct b
    | |- keeps _ (match ?x with _ => _ end) => destruct x
    end.

Section FrameClosed.

Variable R : RS.World -> RS.World -> Prop.
Hypothesis FC : frame_closed R.

Let Hrefl := fc_refl R FC.
Let Htrans := fc_trans R FC.

Lemma keeps_emit (evs : list Event) : keeps R (RS.emit evs).
Proof. apply keeps_modify. intros w. apply (fc_trace R FC). Qed.

Lemma keeps_set_ru (f : RecoveryUnit -> RecoveryUnit) : keeps R (RS.modify (RS.set_ru f)).
Proof. apply keeps_modify. intros w. apply (fc_ru R FC). Qed.

Lemma keeps_snapshot : keeps R RS.snapshot.
Proof.
  intros w out w' H _. unfold RS.snapshot in H.
  destruct (ru_snapshot (recoveryUnit (RS.opCtx w))); injection H as _ <-.
  - apply Hrefl.
  - apply (fc_ru R FC).
Qed.

Lemma keeps_writeBatch_Delete (key : Slice) : keeps R (RS.writeBatch_Delete key).
Proof.
  unfold RS.writeBatch_Delete. keeps_split Hrefl Htrans;
    [ apply keeps_set_ru | apply keeps_emit ].
Qed.

Lemma keeps_writeBatch_Put (key value : Slice) : keeps R (RS.writeBatch_Put key value).
Proof.
  unfold RS.writeBatch_Put. keeps_split Hrefl Htrans;
    [ apply keeps_set_ru | apply keeps_emit ].
Qed.

Lemma keeps_deleteKey (loc : RecordId) : keeps R (RS.deleteKey loc).
Proof.
  intros w out w' H Hna. unfold RS.deleteKey, RS.theTracker in H.
  unfold RS.bind at 1 in H.
  destruct (RS._oplogKeyTracker (RS.rs w)) as [trk |] eqn:Htrk.
  - unfold RS.bind in H.
    destruct (RS.writeBatch_Delete (_makePrefixedKey (tracker_prefix trk) loc) w)
      as [[[] | e |] w1] eqn:E.
    + assert (Hrs : RS.rs w1 = RS.rs w).
      { unfold RS.writeBatch_Delete, RS.bind, RS.modify, RS.emit in E.
        injection E as <-. reflexivity. }
      unfold RS.modify in H. injection H as _ <-.
      eapply Htrans; [ eapply keeps_writeBatch_Delete; [ exact E | discriminate ] | ].
      apply (fc_tracker R FC). now rewrite Hrs.
    + injection H as _ <-. eapply keeps_writeBatch_Delete; [ exact E | discriminate ].
    + injection H as <- _. congruence.
  - injection H as <- _. congruence.
Qed.

Lemma keeps_commitUnitOfWork : keeps R RS.commitUnitOfWork.
Proof.
  unfold RS.commitUnitOfWork. keeps_split Hrefl Htrans.
  - apply keeps_modify. intros w. apply (fc_db R FC).
  - apply keeps_modify. intros w.
    exact (fc_counters R FC _ _ w).
  - apply keeps_set_ru.
  - apply keeps_emit.
Qed.

Lemma keeps_deleteLoop (env : Env) (j : RecordId) (soc doc : Z) (rest : list (Slice * Slice)) :
  forall ss dr, keeps R (RS.deleteLoop env j soc doc rest ss dr).
Proof.
  induction rest as [| [k v] rest IH]; intros ss dr; cbn [RS.deleteLoop].
  - apply keeps_ret. exact Hrefl.
  - unfold RS.vm_isCappedHidden.
    keeps_split Hrefl Htrans;
      try apply keeps_emit; try apply keeps_writeBatch_Delete; try apply keeps_deleteKey;
      try apply IH.
Qed.

Lemma keeps_cappedDeleteAsNeeded_inlock_try (env : Env) (j : RecordId) (soc doc : Z) :
  keeps R (RS.cappedDeleteAsNeeded_inlock_try env j soc doc).
Proof.
  unfold RS.cappedDeleteAsNeeded_inlock_try, RS.vm_isCappedHidden,
    RS._changeNumRecords, RS._increaseDataSize.
  keeps_split Hrefl Htrans;
    try apply keeps_snapshot; try apply keeps_deleteLoop; try apply keeps_set_ru;
    try apply keeps_commitUnitOfWork.
  apply keeps_modify. intros w. apply (fc_hint R FC).
Qed.

Lemma keeps_compaction (kM kD : Z) (env : Env) (s1 : RS.t) :
  keeps R
    (RS.bind RS.theTracker (fun trk =>
       if (env_minutes env >=? kM) || (_deletedKeysSinceCompaction trk >=? kD)
       then
         RS.bind
           (RS.emit [EvLog;
                     EvCompactOplog (RS._prefix s1)
                       (_makePrefixedKey (RS._prefix s1) (RS._cappedOldestKeyHint s1));
                     EvCompactOplog (tracker_prefix trk)
                       (_makePrefixedKey (tracker_prefix trk) (RS._cappedOldestKeyHint s1))])
           (fun _ => RS.modify (RS.set_rs (RS.with_tracker
                                  (Some (mkTracker 0 (tracker_prefix trk))))))
       else RS.ret tt)).
Proof.
  intros w out w' H Hna. unfold RS.bind at 1, RS.theTracker in H.
  destruct (RS._oplogKeyTracker (RS.rs w)) as [trk |] eqn:Htrk.
  - destruct ((env_minutes env >=? kM) || (_deletedKeysSinceCompaction trk >=? kD)).
    + cbn in H. injection H as _ <-.
      eapply Htrans; [ apply (fc_trace R FC) | ].
      apply (fc_tracker R FC 0 trk
               (RS.mkWorld (RS.rs w) (RS.opCtx w) (RS.db w) (RS.trace w ++ _))).
      exact Htrk.
    + injection H as _ <-. apply Hrefl.
  - injection H as <- _. congruence.
Qed.

Lemma keeps_cappedDeleteAsNeeded_inlock (kM kD : Z) (env : Env) (j : RecordId) :
  keeps R (RS.cappedDeleteAsNeeded_inlock kM kD env j).
Proof.
  unfold RS.cappedDeleteAsNeeded_inlock.
  apply keeps_bind; [ exact Htrans | apply keeps_gets; exact Hrefl | intros real ].
  apply keeps_bind; [ exact Htrans | apply keeps_set_ru | intros _ ].
  apply keeps_bind; [ exact Htrans | apply keeps_gets; exact Hrefl | intros s0 ].
  cbv zeta.
  apply keeps_bind; [ exact Htrans | | intros docsRemoved ].
  - keeps_split Hrefl Htrans;
      try apply keeps_cappedDeleteAsNeeded_inlock_try; try apply keeps_set_ru;
      try apply keeps_emit.
  - destruct docsRemoved as [n |]; [ | apply keeps_ret; exact Hrefl ].
    apply keeps_bind; [ exact Htrans | apply keeps_set_ru | intros _ ].
    apply keeps_bind; [ exact Htrans | apply keeps_gets; exact Hrefl | intros s1 ].
    apply keeps_bind; [ exact Htrans | | intros _; apply keeps_ret; exact Hrefl ].
    destruct (RS._isOplog s1); [ apply keeps_compaction | apply keeps_ret; exact Hrefl ].
Qed.

End FrameClosed.

Lemma keeps_holding_lock (R : RS.World -> RS.World -> Prop) (A : Type) (body : RS.M A) :
  (forall w, R w w) ->
  (forall w1 w2 w3, R w1 w2 -> R w2 w3 -> R w1 w3) ->
  (forall evs, keeps R (RS.emit evs)) ->
  keeps R body -> keeps R (RS.holding_lock body).
Proof.
  intros Hrefl Htrans Hemit Hbody. unfold RS.holding_lock.
  keeps_split Hrefl Htrans; try apply Hemit. exact Hbody.
Qed.

(** [cappedDeleteAsNeeded] adds nothing but lock calls to what the pass
    does. *)
Lemma keeps_cappedDeleteAsNeeded (R : RS.World -> RS.World -> Prop) (kM kD : Z) (env : Env)
      (j : RecordId) :
  (forall w, R w w) ->
  (forall w1 w2 w3, R w1 w2 -> R w2 w3 -> R w1 w3) ->
  (forall evs, keeps R (RS.emit evs)) ->
  keeps R (RS.cappedDeleteAsNeeded_inlock kM kD env j) ->
  keeps R (RS.cappedDeleteAsNeeded kM kD env j).
Proof.
  intros Hrefl Htrans Hemit Hpass.
  unfold RS.cappedDeleteAsNeeded, RS.cappedAndNeedDelete.
  keeps_split Hrefl Htrans;
    try apply Hemit; try (apply keeps_holding_lock; assumption).
Qed.

Lemma same_config_refl (w : RS.World) : same_config w w.
Proof. constructor; reflexivity. Qed.

Lemma same_config_trans (w1 w2 w3 : RS.World) :
  same_config w1 w2 -> same_config w2 w3 -> same_config w1 w3.
Proof. intros [] []. constructor; congruence. Qed.

Lemma same_config_closed : frame_closed same_config.
Proof.
  constructor.
  - exact same_config_refl.
  - exact same_config_trans.
  - intros f w. constructor; reflexivity.
  - intros f w. constructor; reflexivity.
  - intros evs w. constructor; reflexivity.
  - intros n trk w Htrk. constructor; try reflexivity.
    unfold tracker_prefix_of. cbn. now rewrite Htrk.
  - intros hint w. constructor; reflexivity.
  - intros d n w. constructor; reflexivity.
Qed.

(** A pass puts the caller's recovery unit back, however it ends. *)
Lemma cappedDeleteAsNeeded_inlock_restores (kM kD : Z) (env : Env) (j : RecordId) :
  keeps same_transaction (RS.cappedDeleteAsNeeded_inlock kM kD env j).
Proof.
  intros w out w' H Hna.
  unfold RS.cappedDeleteAsNeeded_inlock in H.
  unfold RS.bind at 1, RS.getRU at 1, RS.gets at 1 in H.
  unfold RS.bind at 1, RS.modify at 1 in H.
  unfold RS.bind at 1, RS.gets at 1 in H.
  set (w0 := RS.set_ru (fun _ => newRocksRecoveryUnit) w) in H.
  unfold RS.bind at 1, RS.try_catch at 1 in H. unfold RS.bind at 1 in H.
  cbv zeta in H.
  match type of H with
  | context [RS.cappedDeleteAsNeeded_inlock_try env j ?a ?b w0] =>
      destruct (RS.cappedDeleteAsNeeded_inlock_try env j a b w0) as [o1 w1] eqn:Hbody
  end.
  assert (Hlocks : o1 <> Aborted ->
            lockIsNoop (RS.opCtx w1) = lockIsNoop (RS.opCtx w)
            /\ isCollectionLockedX (RS.opCtx w1) = isCollectionLockedX (RS.opCtx w)).
  { intros Ho.
    pose proof (keeps_cappedDeleteAsNeeded_inlock_try same_config same_config_closed
                  env j _ _ w0 o1 w1 Hbody Ho) as F.
    split; [ exact (sc_lockIsNoop _ _ F) | exact (sc_isCollectionLockedX _ _ F) ]. }
  assert (Hback : o1 <> Aborted ->
            mkOpCtx (recoveryUnit (RS.opCtx w)) (lockIsNoop (RS.opCtx w1))
                    (isCollectionLockedX (RS.opCtx w1)) = RS.opCtx w).
  { intros Ho. destruct (Hlocks Ho) as [-> ->]. now destruct (RS.opCtx w). }
  unfold same_transaction.
  destruct o1 as [n | e |].
  - specialize (Hback ltac:(discriminate)). cbn in H.
    destruct (RS._isOplog (RS.rs w1)).
    + unfold RS.bind, RS.theTracker in H. cbn [RS.rs RS.set_ru] in H.
      destruct (RS._oplogKeyTracker (RS.rs w1)) as [trk |].
      * destruct ((env_minutes env >=? kM) || (_deletedKeysSinceCompaction trk >=? kD));
          cbn in H; injection H as _ <-; exact Hback.
      * injection H as <- _. congruence.
    + cbn in H. injection H as _ <-. exact Hback.
  - specialize (Hback ltac:(discriminate)).
    destruct e; cbn in H; injection H as _ <-; exact Hback.
  - cbn in H. injection H as <- _. congruence.
Qed.

Lemma cappedDeleteAsNeeded_isolated (kM kD : Z) (env : Env) (j : RecordId) (w : RS.World)
      (out : Outcome Z) (w' : RS.World) :
  RS.cappedDeleteAsNeeded kM kD env j w = (out, w') ->
  out <> Aborted ->
  same_transaction w w' /\ same_config w w'.
Proof.
  intros H Hna. split.
  - refine (keeps_cappedDeleteAsNeeded same_transaction kM kD env j _ _ _ _ w out w' H Hna).
    + intros w0. reflexivity.
    + unfold same_transaction. intros w1 w2 w3 H12 H23. congruence.
    + intros evs. apply keeps_modify. intros w0. reflexivity.
    + apply cappedDeleteAsNeeded_inlock_restores.
  - refine (keeps_cappedDeleteAsNeeded same_config kM kD env j _ _ _ _ w out w' H Hna).
    + exact same_config_refl.
    + exact same_config_trans.
    + intros evs. apply keeps_emit. exact same_config_closed.
    + apply keeps_cappedDeleteAsNeeded_inlock. exact same_config_closed.
Qed.

Lemma cappedDeleteAsNeeded_not_capped (kM kD : Z) (env : Env) (j : RecordId) (w : RS.World) :
  RS._isCapped (RS.rs w) = false ->
  RS.cappedDeleteAsNeeded kM kD env j w = (Returned 0, w).
Proof.
  intros Hcap. unfold RS.cappedDeleteAsNeeded, RS.bind at 1, RS.gets at 1.
  now rewrite Hcap.
Qed.

Lemma cappedDeleteAsNeeded_adds_nothing (kM kD : Z) (env : Env) (j : RecordId) :
  keeps nothing_added (RS.cappedDeleteAsNeeded kM kD env j).
Proof.
  apply keeps_cappedDeleteAsNeeded.
  - intros w key value H. exact H.
  - intros w1 w2 w3 H12 H23 key value H. apply H12, H23, H.
  - intros evs. apply keeps_modify. intros w key value H. exact H.
  - intros w out w' H _ key value.
    exact (proj1 (cappedDeleteAsNeeded_inlock_removes_only kM kD env j w out w' key value H)).
Qed.

(** Whatever a capped deletion does (it deletes, it meets a write conflict,
    the callback fails, the deleter mutex is busy), it returns or throws
    with the caller's transaction as it found it: the same snapshot, write
    batch, counter deltas and registered changes; and with the store's
    configuration, id counter and visibility manager unchanged. What it
    deletes it commits in a transaction of its own. *)
Theorem cappedDeleteAsNeeded_leaves_caller_transaction
        (kM kD : Z) (env : Env) (j : RecordId) (w : RS.World) (out : Outcome Z)
        (w' : RS.World) :
  RS.cappedDeleteAsNeeded kM kD env j w = (out, w') ->
  out <> Aborted ->
  same_transaction w w' /\ same_config w w'.
Proof. apply cappedDeleteAsNeeded_isolated. Qed.

Lemma cappedDeleteAsNeeded_leaves_caller_transaction_witness :
  let r := RS.cappedDeleteAsNeeded 60 1000000 quiet_env 11 full_capped_world in
  same_transaction full_capped_world (snd r) /\ same_config full_capped_world (snd r).
Proof.
  intros r.
  apply (cappedDeleteAsNeeded_leaves_caller_transaction 60 1000000 quiet_env 11
           full_capped_world (fst r) (snd r)).
  - vm_compute. reflexivity.
  - vm_compute. discriminate.
Defined.

(* ================================================================== *)
(** * Inserting, finding, updating and removing a record *)
(* ================================================================== *)

(** What [insertRecord] and [updateRecord] do once the key is known: the
    record is staged, the deltas are moved, and the capped deleter is
    called. *)
Lemma stage_then_cappedDelete (kM kD : Z) (env : Env) (key payload : Slice)
      (isOplog : bool) (loc : RecordId) (len dNum dSize : Z) (A : Type) (a : A)
      (wa : RS.World) (r : A) (w' : RS.World) :
  RS.bind (RS.writeBatch_Put key payload)
    (fun _ => RS.bind (if isOplog then RS.insertKey loc len else RS.ret tt)
      (fun _ => RS.bind (RS._changeNumRecords dNum)
        (fun _ => RS.bind (RS._increaseDataSize dSize)
          (fun _ => RS.bind (RS.cappedDeleteAsNeeded kM kD env loc)
                            (fun _ => RS.ret a))))) wa
  = (Returned r, w') ->
  let ru := recoveryUnit (RS.opCtx wa) in
  let ru' := recoveryUnit (RS.opCtx w') in
  r = a
  /\ ru_writeBatch ru'
     = ru_writeBatch ru
         ++ Put key payload
         :: (if isOplog then
               match tracker_prefix_of (RS.rs wa) with
               | Some p => [Put (_makePrefixedKey p loc) (nativeToLittle32 len)]
               | None => []
               end
             else [])
  /\ ru_deltaNumRecords ru' = ru_deltaNumRecords ru + dNum
  /\ ru_deltaDataSize ru' = ru_deltaDataSize ru + dSize
  /\ ru_snapshot ru' = ru_snapshot ru
  /\ ru_changes ru' = ru_changes ru
  /\ same_config wa w'
  /\ nothing_added wa w'
  /\ (RS._isCapped (RS.rs wa) = false ->
      RS.db w' = RS.db wa
      /\ RS._dataSize (RS.rs w') = RS._dataSize (RS.rs wa)
      /\ RS._numRecords (RS.rs w') = RS._numRecords (RS.rs wa)).
Proof.
  intros H.
  remember (RS.cappedDeleteAsNeeded kM kD env loc) as cd eqn:Hcd.
  remember (nativeToLittle32 len) as le32 eqn:Hle32.
  assert (Hcall : forall w1 : RS.World,
            RS.bind cd (fun _ => RS.ret a) w1 = (Returned r, w') ->
            r = a /\ RS.opCtx w' = RS.opCtx w1 /\ same_config w1 w'
            /\ nothing_added w1 w'
            /\ (RS._isCapped (RS.rs w1) = false -> w' = w1)).
  { intros w1 Hb. unfold RS.bind in Hb.
    destruct (cd w1) as [[n | e |] w2] eqn:E; try discriminate.
    injection Hb as <- <-. subst cd.
    destruct (cappedDeleteAsNeeded_isolated _ _ _ _ _ _ _ E ltac:(discriminate)) as [Ht Hc].
    repeat (split; [ assumption || reflexivity | ]).
    split; [ exact (cappedDeleteAsNeeded_adds_nothing _ _ _ _ _ _ _ E ltac:(discriminate)) | ].
    intros Hcap. rewrite (cappedDeleteAsNeeded_not_capped _ _ _ _ _ Hcap) in E. congruence. }
  remember (RS.bind cd (fun _ => RS.ret a)) as tail eqn:Htail.
  destruct isOplog.
  - unfold RS.insertKey in H.
    cbn [RS.bind RS.modify RS.emit RS.ret RS.set_ru RS.writeBatch_Put
         RS._changeNumRecords RS._increaseDataSize RS.rs RS.opCtx RS.db RS.trace] in H.
    unfold RS.bind at 1 2, RS.theTracker in H. cbn [RS.rs] in H.
    destruct (RS._oplogKeyTracker (RS.rs wa)) as [trk |] eqn:Htrk; [ | discriminate ].
    remember (_makePrefixedKey (tracker_prefix trk) loc) as tkey eqn:Htkey.
    cbn [RS.bind RS.modify RS.emit RS.ret RS.set_ru RS.writeBatch_Put
         RS._changeNumRecords RS._increaseDataSize RS.rs RS.opCtx RS.db RS.trace
         recoveryUnit lockIsNoop isCollectionLockedX ru_snapshot ru_writeBatch
         ru_deltaDataSize ru_deltaNumRecords ru_changes ru_oplogReadTill] in H.
    apply Hcall in H. destruct H as (-> & Hctx & Hc & Hadd & Hplain).
    cbv zeta. rewrite Hctx. cbn [RS.opCtx recoveryUnit ru_snapshot ru_writeBatch
         ru_deltaDataSize ru_deltaNumRecords ru_changes].
    unfold tracker_prefix_of. rewrite Htrk. cbn [option_map].
    rewrite <- app_assoc, <- Htkey, <- Hle32. cbn [app].
    repeat (split; [ reflexivity | ]).
    split; [ destruct Hc; constructor; assumption | ].
    split; [ exact Hadd | ].
    intros Hcap. rewrite (Hplain Hcap). auto.
  - cbn [RS.bind RS.modify RS.emit RS.ret RS.set_ru RS.writeBatch_Put
         RS._changeNumRecords RS._increaseDataSize RS.rs RS.opCtx RS.db RS.trace
         recoveryUnit lockIsNoop isCollectionLockedX ru_snapshot ru_writeBatch
         ru_deltaDataSize ru_deltaNumRecords ru_changes ru_oplogReadTill] in H.
    apply Hcall in H. destruct H as (-> & Hctx & Hc & Hadd & Hplain).
    cbv zeta. rewrite Hctx. cbn [RS.opCtx recoveryUnit ru_snapshot ru_writeBatch
         ru_deltaDataSize ru_deltaNumRecords ru_changes].
    repeat (split; [ reflexivity | ]).
    split; [ destruct Hc; constructor; assumption | ].
    split; [ exact Hadd | ].
    intros Hcap. rewrite (Hplain Hcap). auto.
Qed.

Lemma nextId_run (w : RS.World) :
  RS._isOplog (RS.rs w) = false ->
  RS._nextId w
  = (Returned (RS._nextIdNum (RS.rs w)),
     RS.set_rs (RS.with_nextIdNum (wrap64 (RS._nextIdNum (RS.rs w) + 1))) w).
Proof.
  intros Hop. unfold RS._nextId, RS.bind, RS.gets, RS.invariant, RS.modify, RS.ret.
  rewrite Hop. reflexivity.
Qed.

Lemma getNextAndAddUncommittedRecord_run (w : RS.World) (vm : VM.t) :
  RS._isOplog (RS.rs w) = false ->
  RS._cappedVisibilityManager (RS.rs w) = Some vm ->
  let n := RS._nextIdNum (RS.rs w) in
  RS.vm_getNextAndAddUncommittedRecord RS._nextId w
  = (Returned n,
     RS.mkWorld
       (RS.with_vm (Some (fst (VM.addUncommittedRecord n vm)))
                   (RS.with_nextIdNum (wrap64 (n + 1)) (RS.rs w)))
       (mkOpCtx (mkRU (ru_snapshot (recoveryUnit (RS.opCtx w)))
                      (ru_writeBatch (recoveryUnit (RS.opCtx w)))
                      (ru_deltaDataSize (recoveryUnit (RS.opCtx w)))
                      (ru_deltaNumRecords (recoveryUnit (RS.opCtx w)))
                      (ru_changes (recoveryUnit (RS.opCtx w)) ++ [n])
                      (ru_oplogReadTill (recoveryUnit (RS.opCtx w))))
                (lockIsNoop (RS.opCtx w)) (isCollectionLockedX (RS.opCtx w)))
       (RS.db w)
       (RS.trace w ++ [EvAddUncommittedRecord n; EvRegisterChange n])).
Proof.
  intros Hop Hvm n. unfold RS.vm_getNextAndAddUncommittedRecord.
  unfold RS.bind at 1. unfold RS.theVisibilityManager at 1. rewrite Hvm.
  unfold RS.bind at 1. rewrite (nextId_run w Hop).
  unfold RS.bind at 1. unfold RS.theVisibilityManager at 1. cbn [RS.rs RS.set_rs].
  change (RS._cappedVisibilityManager
            (RS.with_nextIdNum (wrap64 (RS._nextIdNum (RS.rs w) + 1)) (RS.rs w)))
    with (RS._cappedVisibilityManager (RS.rs w)).
  rewrite Hvm. reflexivity.
Qed.

Lemma insertRecord_returns (extractKey : Slice -> Z -> StatusWith RecordId)
      (kM kD : Z) (env : Env) (data : Slice) (len : Z) (w : RS.World)
      (loc : RecordId) (w' : RS.World) :
  RS.insertRecord extractKey kM kD env data len w = (Returned (SW_OK loc), w') ->
  let s := RS.rs w in
  let ru := recoveryUnit (RS.opCtx w) in
  let ru' := recoveryUnit (RS.opCtx w') in
  ru_writeBatch ru'
  = ru_writeBatch ru
      ++ Put (_makePrefixedKey (RS._prefix s) loc) (firstn (Z.to_nat len) data)
      :: (if RS._isOplog s then
            match tracker_prefix_of s with
            | Some p => [Put (_makePrefixedKey p loc) (nativeToLittle32 len)]
            | None => []
            end
          else [])
  /\ ru_deltaNumRecords ru' = ru_deltaNumRecords ru + 1
  /\ ru_deltaDataSize ru' = ru_deltaDataSize ru + len
  /\ ru_snapshot ru' = ru_snapshot ru
  /\ ru_changes ru'
     = ru_changes ru ++ (if RS._isOplog s then [] else if RS._isCapped s then [loc] else [])
  /\ (if RS._isOplog s
      then extractKey data len = SW_OK loc /\ RS._nextIdNum (RS.rs w') = RS._nextIdNum s
      else loc = RS._nextIdNum s /\ RS._nextIdNum (RS.rs w') = wrap64 (loc + 1))
  /\ RS._prefix (RS.rs w') = RS._prefix s
  /\ RS._isOplog (RS.rs w') = RS._isOplog s
  /\ RS._isCapped (RS.rs w') = RS._isCapped s
  /\ tracker_prefix_of (RS.rs w') = tracker_prefix_of s
  /\ nothing_added w w'
  /\ (RS._isCapped s = false ->
      RS.db w' = RS.db w
      /\ RS._dataSize (RS.rs w') = RS._dataSize s
      /\ RS._numRecords (RS.rs w') = RS._numRecords s).
Proof.
  intros H. cbv zeta.
  unfold RS.insertRecord in H. unfold RS.bind at 1, RS.gets at 1 in H.
  destruct (RS._isCapped (RS.rs w) && (len >? RS._cappedMaxSize (RS.rs w))) eqn:Hsize;
    [ discriminate | ].
  unfold RS.bind at 1 in H.
  destruct (RS._isOplog (RS.rs w)) eqn:Hop.
  - destruct (extractKey data len) as [loc0 | code] eqn:Hkey; [ | discriminate ].
    unfold RS.vm_updateHighestSeen, RS.theVisibilityManager in H.
    unfold RS.bind at 1 2 in H.
    destruct (RS._cappedVisibilityManager (RS.rs w)) as [vm |] eqn:Hvm; [ | discriminate ].
    cbn [RS.modify RS.emit RS.set_rs RS.ret RS.bind] in H.
    match type of H with
    | _ ?wa = _ =>
        pose proof (stage_then_cappedDelete kM kD env _ _ true loc0 len 1 len _
                      (SW_OK loc0) wa _ w' H) as Hs
    end.
    cbv zeta in Hs. cbn [RS.rs RS.opCtx RS.set_rs] in Hs.
    destruct Hs as (Hloc & Hb & Hn & Hd & Hsn & Hch & Hc & Hadd & Hplain).
    injection Hloc as <-.
    destruct Hc as [Hp Hcap _ _ _ _ Ho _ Hid _ _ Ht _ _].
    rewrite app_nil_r.
    repeat (split; [ assumption || reflexivity | ]).
    split; [ split; [ reflexivity | exact Hid ] | ].
    split; [ exact Hp | ].
    split; [ etransitivity; [ exact Ho | exact Hop ] | ].
    split; [ exact Hcap | ]. split; [ exact Ht | ]. split; [ exact Hadd | exact Hplain ].
  - destruct (RS._isCapped (RS.rs w)) eqn:Hcapped.
    + unfold RS.bind at 1 in H.
      destruct (RS._cappedVisibilityManager (RS.rs w)) as [vm |] eqn:Hvm.
      2:{ unfold RS.vm_getNextAndAddUncommittedRecord, RS.bind at 1,
            RS.theVisibilityManager at 1 in H. rewrite Hvm in H. discriminate. }
      rewrite (getNextAndAddUncommittedRecord_run w vm Hop Hvm) in H.
      unfold RS.ret at 1 in H. cbv beta iota zeta in H.
      match type of H with
      | _ ?wa = _ =>
          pose proof (stage_then_cappedDelete kM kD env _ _ false
                        (RS._nextIdNum (RS.rs w)) len 1 len _
                        (SW_OK (RS._nextIdNum (RS.rs w))) wa _ w' H) as Hs
      end.
      cbv zeta in Hs.
      cbn [RS.rs RS.opCtx RS.set_rs recoveryUnit ru_snapshot ru_writeBatch
           ru_deltaDataSize ru_deltaNumRecords ru_changes] in Hs.
      destruct Hs as (Hloc & Hb & Hn & Hd & Hsn & Hch & Hc & Hadd & Hplain).
      injection Hloc as ->.
      destruct Hc as [Hp Hcap _ _ _ _ Ho _ Hid _ _ Ht _ _].
      repeat (split; [ assumption || reflexivity | ]).
      split; [ split; [ reflexivity | exact Hid ] | ].
      split; [ exact Hp | ].
      split; [ etransitivity; [ exact Ho | exact Hop ] | ].
      split; [ etransitivity; [ exact Hcap | exact Hcapped ] | ]. split; [ exact Ht | ].
      split; [ exact Hadd | discriminate ].
    + unfold RS.bind at 1 in H. rewrite (nextId_run w Hop) in H.
      unfold RS.ret at 1 in H. cbv beta iota zeta in H.
      match type of H with
      | _ ?wa = _ =>
          pose proof (stage_then_cappedDelete kM kD env _ _ false
                        (RS._nextIdNum (RS.rs w)) len 1 len _
                        (SW_OK (RS._nextIdNum (RS.rs w))) wa _ w' H) as Hs
      end.
      cbv zeta in Hs.
      cbn [RS.rs RS.opCtx RS.set_rs recoveryUnit ru_snapshot ru_writeBatch
           ru_deltaDataSize ru_deltaNumRecords ru_changes] in Hs.
      destruct Hs as (Hloc & Hb & Hn & Hd & Hsn & Hch & Hc & Hadd & Hplain).
      injection Hloc as ->.
      destruct Hc as [Hp Hcap _ _ _ _ Ho _ Hid _ _ Ht _ _].
      rewrite app_nil_r.
      repeat (split; [ assumption || reflexivity | ]).
      split; [ split; [ reflexivity | exact Hid ] | ].
      split; [ exact Hp | ].
      split; [ etransitivity; [ exact Ho | exact Hop ] | ].
      split; [ etransitivity; [ exact Hcap | exact Hcapped ] | ]. split; [ exact Ht | ].
      split; [ exact Hadd | intros _; apply Hplain; exact Hcapped ].
Qed.

(* ------------------------------------------------------------------ *)
(** ** Point reads of the engine after a write *)


Lemma slice_eqb_refl (a : Slice) : slice_eqb a a = true.
Proof. now apply slice_eqb_eq. Qed.

Lemma slice_eqb_neq (a b : Slice) : a <> b -> slice_eqb a b = false.
Proof.
  intros Hne. destruct (slice_eqb a b) eqn:E; auto.
  apply slice_eqb_eq in E. contradiction.
Qed.


(* ------------------------------------------------------------------ *)
(** ** The end of a transaction *)

(** The hooks of the registered changes touch the visibility manager and
    the trace only. *)
Lemma run_hooks_frame (didCommit : bool) (its : list RecordId) :
  forall (w : RS.World) (out : Outcome unit) (w' : RS.World),
    RS.run_hooks didCommit its w = (out, w') ->
    RS.rs w' = RS.with_vm (RS._cappedVisibilityManager (RS.rs w')) (RS.rs w)
    /\ RS.opCtx w' = RS.opCtx w
    /\ RS.db w' = RS.db w.
Proof.
  induction its as [| it its IH]; intros w out w' H; cbn [RS.run_hooks] in H.
  - injection H as _ <-. split; [ now destruct (RS.rs w) | auto ].
  - unfold RS.bind at 1, RS.gets at 1 in H.
    unfold RS.bind at 1, RS.theVisibilityManager at 1 in H.
    destruct (RS._cappedVisibilityManager (RS.rs w)) as [vm |] eqn:Hvm.
    + match type of H with
      | context [let (_, _) := ?x in _] => destruct x as [vm' evs]
      end.
      cbn [RS.bind RS.modify RS.emit RS.set_rs RS.rs RS.opCtx RS.db RS.trace] in H.
      apply IH in H. cbn [RS.rs RS.opCtx RS.db] in H.
      destruct H as (Hrs & Hctx & Hdb). auto.
    + injection H as _ <-. split; [ now destruct (RS.rs w) | auto ].
Qed.

Lemma commitTransaction_returns (w : RS.World) (out : Outcome unit) (w' : RS.World) :
  RS.commitTransaction w = (out, w') ->
  let ru := recoveryUnit (RS.opCtx w) in
  RS.db w' = apply_batch (ru_writeBatch ru) (RS.db w)
  /\ RS.rs w'
     = RS.with_vm (RS._cappedVisibilityManager (RS.rs w'))
         (RS.with_counters (RS._dataSize (RS.rs w) + ru_deltaDataSize ru)
                           (RS._numRecords (RS.rs w) + ru_deltaNumRecords ru) (RS.rs w))
  /\ recoveryUnit (RS.opCtx w') = mkRU None [] 0 0 [] (ru_oplogReadTill ru)
  /\ (ru_changes ru = [] -> out = Returned tt).
Proof.
  intros H. cbv zeta. unfold RS.commitTransaction, RS.commitUnitOfWork in H.
  cbn [RS.bind RS.getRU RS.gets RS.modify RS.emit RS.set_rs RS.set_ru RS.set_db
       RS.rs RS.opCtx RS.db RS.trace] in H.
  pose proof (run_hooks_frame _ _ _ _ _ H) as (Hrs & Hctx & Hdb).
  cbn [RS.rs RS.opCtx RS.db] in Hrs, Hctx, Hdb.
  split; [ exact Hdb | ]. split; [ exact Hrs | ].
  split; [ now rewrite Hctx | ].
  intros Hnil. rewrite Hnil in H. cbn in H. now injection H as <- _.
Qed.

Lemma rollbackTransaction_returns (w : RS.World) (out : Outcome unit) (w' : RS.World) :
  RS.rollbackTransaction w = (out, w') ->
  let ru := recoveryUnit (RS.opCtx w) in
  RS.db w' = RS.db w
  /\ RS.rs w' = RS.with_vm (RS._cappedVisibilityManager (RS.rs w')) (RS.rs w)
  /\ recoveryUnit (RS.opCtx w') = mkRU None [] 0 0 [] (ru_oplogReadTill ru).
Proof.
  intros H. cbv zeta. unfold RS.rollbackTransaction in H.
  cbn [RS.bind RS.getRU RS.gets RS.modify RS.emit RS.set_rs RS.set_ru RS.set_db
       RS.rs RS.opCtx RS.db RS.trace] in H.
  pose proof (run_hooks_frame _ _ _ _ _ H) as (Hrs & Hctx & Hdb).
  cbn [RS.rs RS.opCtx RS.db] in Hrs, Hctx, Hdb.
  split; [ exact Hdb | ]. split; [ exact Hrs | now rewrite Hctx ].
Qed.

Lemma findRecord_run (loc : RecordId) (w : RS.World) :
  ru_snapshot (recoveryUnit (RS.opCtx w)) = None ->
  fst (RS.findRecord loc w)
  = Returned (db_get (_makePrefixedKey (RS._prefix (RS.rs w)) loc) (RS.db w)).
Proof.
  intros Hsnap. unfold RS.findRecord, RS._getDataFor, RS.snapshot.
  cbn [RS.bind RS.gets]. unfold RS.bind. rewrite Hsnap. unfold Get.
  destruct (db_get (_makePrefixedKey (RS._prefix (RS.rs w)) loc) (RS.db w)); reflexivity.
Qed.



Lemma end_of_transaction_ids (didCommit : bool) (w : RS.World) (out : Outcome unit)
      (w' : RS.World) :
  (if didCommit then RS.commitTransaction else RS.rollbackTransaction) w = (out, w') ->
  RS._nextIdNum (RS.rs w') = RS._nextIdNum (RS.rs w)
  /\ RS._isOplog (RS.rs w') = RS._isOplog (RS.rs w).
Proof.
  intros H. destruct didCommit.
  - apply commitTransaction_returns in H. destruct H as (_ & -> & _). auto.
  - apply rollbackTransaction_returns in H. destruct H as (_ & -> & _). auto.
Qed.

Lemma wrap64_int64 (z : Z) : int64 z -> wrap64 z = z.
Proof. intros H. unfold wrap64. now apply toSigned64_toUnsigned64. Qed.

Lemma wrap64_range (z : Z) : int64 (wrap64 z).
Proof.
  unfold wrap64, toSigned64, toUnsigned64, int64, kMinRepr, kMaxRepr.
  pose proof (Z.mod_pos_bound z (2 ^ 64) ltac:(lia)) as H.
  destruct (Z.ltb_spec (z mod 2 ^ 64) (2 ^ 63)); lia.
Qed.

(** Record ids are handed out by a 64-bit counter: on a collection that is
    not the oplog, the id of an insert is the value of the id counter and
    the next insert gets the value [fetchAndAdd(1)] left, whether the
    transaction of the first one was committed or rolled back. Below
    [INT64_MAX] that is the next id, so that ids increase and none is
    handed out twice; at [INT64_MAX] the counter wraps around and the next
    id is [INT64_MIN]. *)
Theorem insertRecord_ids_increase_until_wrap
        (extractKey : Slice -> Z -> StatusWith RecordId) (kM kD : Z) (env : Env)
        (didCommit : bool) (data1 : Slice) (len1 : Z) (data2 : Slice) (len2 : Z)
        (w : RS.World) (id1 : RecordId) (w1 w2 : RS.World) (id2 : RecordId)
        (w3 : RS.World) :
  RS._isOplog (RS.rs w) = false ->
  int64 (RS._nextIdNum (RS.rs w)) ->
  RS.insertRecord extractKey kM kD env data1 len1 w = (Returned (SW_OK id1), w1) ->
  (if didCommit then RS.commitTransaction else RS.rollbackTransaction) w1
  = (Returned tt, w2) ->
  RS.insertRecord extractKey kM kD env data2 len2 w2 = (Returned (SW_OK id2), w3) ->
  id1 = RS._nextIdNum (RS.rs w)
  /\ id2 = wrap64 (id1 + 1)
  /\ RS._nextIdNum (RS.rs w3) = wrap64 (id2 + 1)
  /\ int64 id2
  /\ (id1 < kMaxRepr -> id2 = id1 + 1)
  /\ (id1 = kMaxRepr -> id2 = kMinRepr).
Proof.
  intros Hop Hrange H1 Hend H2.
  apply insertRecord_returns in H1. cbv zeta in H1.
  destruct H1 as (_ & _ & _ & _ & _ & Hid1 & _ & Hop1 & _).
  rewrite Hop in Hid1, Hop1. destruct Hid1 as [Hid1 Hnext1].
  apply end_of_transaction_ids in Hend. destruct Hend as [Hnext2 Hop2].
  apply insertRecord_returns in H2. cbv zeta in H2.
  destruct H2 as (_ & _ & _ & _ & _ & Hid2 & _).
  rewrite Hop2, Hop1 in Hid2. destruct Hid2 as [Hid2 Hnext3].
  assert (Hid2' : id2 = wrap64 (id1 + 1)) by congruence.
  split; [ exact Hid1 | ]. split; [ exact Hid2' | ]. split; [ exact Hnext3 | ].
  split; [ rewrite Hid2'; apply wrap64_range | ].
  rewrite <- Hid1 in Hrange. split.
  - intros Hlt. rewrite Hid2'. apply wrap64_int64.
    unfold int64 in *. lia.
  - intros ->. rewrite Hid2'. reflexivity.
Qed.

Lemma insertRecord_ids_increase_until_wrap_witness :
  let w := RS.set_rs (RS.with_nextIdNum kMaxRepr) capped_world in
  let ins := RS.insertRecord sample_extractKey 60 1000000 quiet_env [97; 98] 2 in
  let r1 := ins w in
  let r2 := RS.rollbackTransaction (snd r1) in
  let r3 := ins (snd r2) in
  kMaxRepr = RS._nextIdNum (RS.rs w)
  /\ kMinRepr = wrap64 (kMaxRepr + 1)
  /\ RS._nextIdNum (RS.rs (snd r3)) = wrap64 (kMinRepr + 1)
  /\ int64 kMinRepr
  /\ (kMaxRepr < kMaxRepr -> kMinRepr = kMaxRepr + 1)
  /\ (kMaxRepr = kMaxRepr -> kMinRepr = kMinRepr).
Proof.
  intros w ins r1 r2 r3.
  apply (insertRecord_ids_increase_until_wrap sample_extractKey 60 1000000 quiet_env false
           [97; 98] 2 [97; 98] 2 w kMaxRepr (snd r1) (snd r2) kMinRepr (snd r3)).
  - reflexivity.
  - vm_compute. split; discriminate.
  - vm_compute. reflexivity.
  - vm_compute. reflexivity.
  - vm_compute. reflexivity.
Defined.

(** A rollback discards the inserted record: nothing is added to the
    engine, the counters stay as they were, and the transaction is fresh
    again. On a collection that is not capped the engine and both counters
    are exactly as before the insert. *)
Theorem insertRecord_rollback_discards
        (extractKey : Slice -> Z -> StatusWith RecordId) (kM kD : Z) (env : Env)
        (data : Slice) (len : Z) (w : RS.World) (loc : RecordId) (w1 w2 : RS.World) :
  RS.insertRecord extractKey kM kD env data len w = (Returned (SW_OK loc), w1) ->
  RS.rollbackTransaction w1 = (Returned tt, w2) ->
  nothing_added w w2
  /\ fresh_transaction w2
  /\ RS._numRecords (RS.rs w2) = RS._numRecords (RS.rs w1)
  /\ RS._dataSize (RS.rs w2) = RS._dataSize (RS.rs w1)
  /\ (RS._isCapped (RS.rs w) = false ->
      RS.db w2 = RS.db w
      /\ RS._numRecords (RS.rs w2) = RS._numRecords (RS.rs w)
      /\ RS._dataSize (RS.rs w2) = RS._dataSize (RS.rs w)).
Proof.
  intros Hins Hroll.
  apply insertRecord_returns in Hins. cbv zeta in Hins.
  destruct Hins as (_ & _ & _ & _ & _ & _ & _ & _ & _ & _ & Hadd & Hplain).
  apply rollbackTransaction_returns in Hroll. cbv zeta in Hroll.
  destruct Hroll as (Hdb & Hrs & Hru).
  split; [ | split; [ | split; [ | split ] ] ].
  - unfold nothing_added in *. rewrite Hdb. exact Hadd.
  - unfold fresh_transaction. rewrite Hru. cbn. auto.
  - now rewrite Hrs.
  - now rewrite Hrs.
  - intros Hcap. destruct (Hplain Hcap) as (Hdb1 & Hd1 & Hn1).
    rewrite Hdb, Hrs. cbn [RS._numRecords RS._dataSize RS.with_vm]. auto.
Qed.

Lemma insertRecord_rollback_discards_witness :
  let r1 := RS.insertRecord sample_extractKey 60 1000000 quiet_env [97; 98] 2 plain_world in
  let r2 := RS.rollbackTransaction (snd r1) in
  nothing_added plain_world (snd r2)
  /\ fresh_transaction (snd r2)
  /\ RS._numRecords (RS.rs (snd r2)) = RS._numRecords (RS.rs (snd r1))
  /\ RS._dataSize (RS.rs (snd r2)) = RS._dataSize (RS.rs (snd r1))
  /\ (RS._isCapped (RS.rs plain_world) = false ->
      RS.db (snd r2) = RS.db plain_world
      /\ RS._numRecords (RS.rs (snd r2)) = RS._numRecords (RS.rs plain_world)
      /\ RS._dataSize (RS.rs (snd r2)) = RS._dataSize (RS.rs plain_world)).
Proof.
  intros r1 r2.
  apply (insertRecord_rollback_discards sample_extractKey 60 1000000 quiet_env
           [97; 98] 2 plain_world 5 (snd r1) (snd r2)).
  - vm_compute. reflexivity.
  - vm_compute. reflexivity.
Defined.

Lemma toInt_small (n : Z) : 0 <= n < 2 ^ 31 -> RS.toInt n = n.
Proof.
  intros H. unfold RS.toInt. rewrite Z.mod_small by lia.
  destruct (Z.ltb_spec n (2 ^ 31)); lia.
Qed.

Lemma snapshot_run (w : RS.World) :
  let snap := match ru_snapshot (recoveryUnit (RS.opCtx w)) with
              | Some d => d
              | None => RS.db w
              end in
  RS.snapshot w
  = (Returned snap,
     RS.set_ru (fun ru => mkRU (Some snap) (ru_writeBatch ru) (ru_deltaDataSize ru)
                               (ru_deltaNumRecords ru) (ru_changes ru)
                               (ru_oplogReadTill ru)) w).
Proof.
  unfold RS.snapshot. destruct w as [s [[sn b d n c t] l x] db tr]. cbn.
  destruct sn; reflexivity.
Qed.

(** How [deleteRecord] ends, and what it leaves. *)
Lemma deleteRecord_cases (registerWrite : Slice -> bool) (dl : RecordId) (w : RS.World)
      (out : Outcome unit) (w1 : RS.World) :
  RS.deleteRecord registerWrite dl w = (out, w1) ->
  let s := RS.rs w in
  let key := _makePrefixedKey (RS._prefix s) dl in
  let ru := recoveryUnit (RS.opCtx w) in
  let snap := match ru_snapshot ru with Some d => d | None => RS.db w end in
  RS.db w1 = RS.db w
  /\ ((registerWrite key = false /\ out = Threw WriteConflictException
       /\ RS.rs w1 = RS.rs w /\ RS.opCtx w1 = RS.opCtx w)
      \/ (registerWrite key = true /\ db_get key snap = None /\ out = Aborted)
      \/ (registerWrite key = true
          /\ exists oldValue,
               db_get key snap = Some oldValue
               /\ ((RS._isOplog s = true /\ RS._oplogKeyTracker s = None /\ out = Aborted)
                   \/ (out = Returned tt
                       /\ recoveryUnit (RS.opCtx w1)
                          = mkRU (Some snap)
                                 (ru_writeBatch ru
                                    ++ Delete key
                                    :: (if RS._isOplog s then
                                          match tracker_prefix_of s with
                                          | Some p => [Delete (_makePrefixedKey p dl)]
                                          | None => []
                                          end
                                        else []))
                                 (ru_deltaDataSize ru
                                  + - RS.toInt (Z.of_nat (length oldValue)))
                                 (ru_deltaNumRecords ru + -1)
                                 (ru_changes ru) (ru_oplogReadTill ru)
                       /\ RS.rs w1 = RS.with_tracker (RS._oplogKeyTracker (RS.rs w1)) (RS.rs w)
                       /\ tracker_prefix_of (RS.rs w1) = tracker_prefix_of s)))).
Proof.
  intros H. cbv zeta. unfold RS.deleteRecord in H.
  cbn [RS.bind RS.gets RS.emit RS.modify RS.rs RS.opCtx RS.db RS.trace] in H.
  destruct (registerWrite (_makePrefixedKey (RS._prefix (RS.rs w)) dl)) eqn:Hreg.
  2:{ cbn in H. injection H as <- <-. split; [ reflexivity | ]. left. auto. }
  cbn [negb RS.bind RS.ret] in H.
  unfold RS.bind at 1 in H. rewrite snapshot_run in H. cbv beta iota zeta in H.
  cbn [RS.opCtx RS.db] in H.
  set (snap := match ru_snapshot (recoveryUnit (RS.opCtx w)) with
               | Some d => d
               | None => RS.db w
               end) in *.
  unfold Get in H.
  destruct (db_get (_makePrefixedKey (RS._prefix (RS.rs w)) dl) snap) as [oldValue |] eqn:Hget.
  2:{ cbn in H. injection H as <- <-. split; [ reflexivity | ]. right. left. auto. }
  remember (_makePrefixedKey (RS._prefix (RS.rs w)) dl) as key eqn:Hkey.
  remember (RS.toInt (Z.of_nat (length oldValue))) as oldLength eqn:HoldLength.
  cbn [RS.bind RS.ret RS.writeBatch_Delete RS.modify RS.emit RS.set_ru
       RS.rs RS.opCtx RS.db RS.trace] in H.
  destruct (RS._isOplog (RS.rs w)) eqn:Hop.
  - unfold RS.deleteKey in H. unfold RS.bind at 1 2, RS.theTracker in H. cbn [RS.rs] in H.
    destruct (RS._oplogKeyTracker (RS.rs w)) as [trk |] eqn:Htrk.
    + remember (_makePrefixedKey (tracker_prefix trk) dl) as tkey eqn:Htkey.
      cbn [RS.bind RS.ret RS.writeBatch_Delete RS.modify RS.emit RS.set_ru RS.set_rs
           RS._changeNumRecords RS._increaseDataSize
           RS.rs RS.opCtx RS.db RS.trace recoveryUnit lockIsNoop isCollectionLockedX
           ru_snapshot ru_writeBatch ru_deltaDataSize ru_deltaNumRecords ru_changes
           ru_oplogReadTill] in H.
      injection H as <- <-. split; [ reflexivity | ]. right. right.
      split; [ reflexivity | ]. exists oldValue. split; [ reflexivity | ]. right.
      split; [ reflexivity | ].
      cbn [RS.rs RS.opCtx recoveryUnit RS._oplogKeyTracker RS.with_tracker].
      unfold tracker_prefix_of. rewrite Htrk. cbn [option_map RS._oplogKeyTracker RS.with_tracker tracker_prefix].
      rewrite <- app_assoc. cbn [app]. rewrite <- Htkey. subst oldLength.
      repeat split.
    + cbn in H. injection H as <- <-. split; [ reflexivity | ]. right. right.
      split; [ reflexivity | ]. exists oldValue. split; [ reflexivity | ]. left. auto.
  - cbn [RS.bind RS.ret RS.writeBatch_Delete RS.modify RS.emit RS.set_ru RS.set_rs
         RS._changeNumRecords RS._increaseDataSize
         RS.rs RS.opCtx RS.db RS.trace recoveryUnit lockIsNoop isCollectionLockedX
         ru_snapshot ru_writeBatch ru_deltaDataSize ru_deltaNumRecords ru_changes
         ru_oplogReadTill] in H.
    injection H as <- <-. split; [ reflexivity | ]. right. right.
    split; [ reflexivity | ]. exists oldValue. split; [ reflexivity | ]. right.
    split; [ reflexivity | ].
    subst oldLength. cbn [RS.rs RS.opCtx recoveryUnit RS.set_ru].
    split; [ reflexivity | ]. split; [ now destruct (RS.rs w) | reflexivity ].
Qed.

(** A record that is in the engine is gone once [deleteRecord] and the
    commit of its transaction are done: the call returns, the record is no
    longer found, the counters go down by one record and by its length, on
    the oplog the key of the record in the key tracker is gone as well, and
    every other key of the engine outside the key space of the persisted
    counters keeps its value. *)
Theorem deleteRecord_commit_removes (registerWrite : Slice -> bool) (dl : RecordId)
        (w : RS.World) (oldValue : Slice) :
  let key := _makePrefixedKey (RS._prefix (RS.rs w)) dl in
  fresh_transaction w ->
  registerWrite key = true ->
  db_get key (RS.db w) = Some oldValue ->
  Z.of_nat (length oldValue) < 2 ^ 31 ->
  (RS._isOplog (RS.rs w) = true -> RS._oplogKeyTracker (RS.rs w) <> None) ->
  exists w1 w2,
    RS.deleteRecord registerWrite dl w = (Returned tt, w1)
    /\ RS.commitTransaction w1 = (Returned tt, w2)
    /\ fst (RS.findRecord dl w2) = Returned None
    /\ RS._numRecords (RS.rs w2) = RS._numRecords (RS.rs w) - 1
    /\ RS._dataSize (RS.rs w2) = RS._dataSize (RS.rs w) - Z.of_nat (length oldValue)
    /\ (RS._isOplog (RS.rs w) = true ->
        forall p, tracker_prefix_of (RS.rs w) = Some p ->
                  db_get (_makePrefixedKey p dl) (RS.db w2) = None)
    /\ (forall k,
          k <> key ->
          (forall p, tracker_prefix_of (RS.rs w) = Some p -> k <> _makePrefixedKey p dl) ->
          ~ counter_key k ->
          db_get k (RS.db w2) = db_get k (RS.db w)).
Proof.
  intros key (Hsnap & Hbatch & Hchanges & Hd0 & Hn0) Hreg Hget Hlen Htrk.
  destruct (RS.deleteRecord registerWrite dl w) as [out w1] eqn:E.
  pose proof (deleteRecord_cases _ _ _ _ _ E) as Hc. cbv zeta in Hc.
  fold key in Hc. rewrite Hsnap, Hreg, Hget in Hc.
  destruct Hc as (Hdb1 & [(Hcontra & _) | [(_ & Hcontra & _) | (_ & v & Hv & Hcase)]]);
    try discriminate.
  injection Hv as <-.
  destruct Hcase as [(Hop & Hnone & _) | (-> & Hru1 & Hrs1 & Htp1)];
    [ exfalso; now apply (Htrk Hop) | ].
  destruct (RS.commitTransaction w1) as [out2 w2] eqn:E2.
  pose proof (commitTransaction_returns _ _ _ E2) as Hc2. cbv zeta in Hc2.
  rewrite Hru1 in Hc2. cbn [ru_writeBatch ru_deltaDataSize ru_deltaNumRecords ru_changes
                            ru_oplogReadTill] in Hc2.
  destruct Hc2 as (Hdb2 & Hrs2 & Hru2 & Hout2).
  exists w1, w2. rewrite E2, (Hout2 Hchanges).
  assert (Hprefix : RS._prefix (RS.rs w2) = RS._prefix (RS.rs w)).
  { rewrite Hrs2. cbn [RS._prefix RS.with_vm RS.with_counters]. now rewrite Hrs1. }
  assert (Hdb : forall k, db_get k (RS.db w2)
                          = if slice_eqb k key then None
                            else if RS._isOplog (RS.rs w) then
                                   match tracker_prefix_of (RS.rs w) with
                                   | Some p => if slice_eqb k (_makePrefixedKey p dl) then None
                                               else db_get k (RS.db w)
                                   | None => db_get k (RS.db w)
                                   end
                                 else db_get k (RS.db w)).
  { intros k. rewrite Hdb2, Hdb1, Hbatch. cbn [app].
    destruct (RS._isOplog (RS.rs w)); [ destruct (tracker_prefix_of (RS.rs w)) | ];
      cbn [apply_batch fold_left apply_op]; rewrite ?db_get_delete;
      repeat match goal with
             | |- context [slice_eqb ?a ?b] => destruct (slice_eqb a b)
             end; reflexivity. }
  split; [ reflexivity | ]. split; [ reflexivity | ].
  split; [ | split; [ | split; [ | split ] ] ].
  - rewrite findRecord_run by (rewrite Hru2; reflexivity).
    rewrite Hprefix. fold key. now rewrite Hdb, slice_eqb_refl.
  - rewrite Hrs2. cbn [RS._numRecords RS.with_vm RS.with_counters]. rewrite Hrs1.
    cbn [RS._numRecords RS.with_tracker]. lia.
  - rewrite Hrs2. cbn [RS._dataSize RS.with_vm RS.with_counters]. rewrite Hrs1.
    cbn [RS._dataSize RS.with_tracker]. rewrite toInt_small by lia. lia.
  - intros Hop p Hp. rewrite Hdb, Hop, Hp, slice_eqb_refl.
    now destruct (slice_eqb (_makePrefixedKey p dl) key).
  - intros k Hk Hkt _. rewrite Hdb, (slice_eqb_neq _ _ Hk).
    destruct (RS._isOplog (RS.rs w)); auto.
    destruct (tracker_prefix_of (RS.rs w)) as [p |]; auto.
    now rewrite (slice_eqb_neq _ _ (Hkt p eq_refl)).
Qed.

Lemma deleteRecord_commit_removes_witness :
  let w := oplog_three_world in
  exists w1 w2,
    RS.deleteRecord (fun _ => true) 20 w = (Returned tt, w1)
    /\ RS.commitTransaction w1 = (Returned tt, w2)
    /\ fst (RS.findRecord 20 w2) = Returned None
    /\ RS._numRecords (RS.rs w2) = RS._numRecords (RS.rs w) - 1
    /\ RS._dataSize (RS.rs w2) = RS._dataSize (RS.rs w) - Z.of_nat (length (oplog_entry 20))
    /\ (RS._isOplog (RS.rs w) = true ->
        forall p, tracker_prefix_of (RS.rs w) = Some p ->
                  db_get (_makePrefixedKey p 20) (RS.db w2) = None)
    /\ (forall k,
          k <> _makePrefixedKey (RS._prefix (RS.rs w)) 20 ->
          (forall p, tracker_prefix_of (RS.rs w) = Some p -> k <> _makePrefixedKey p 20) ->
          ~ counter_key k ->
          db_get k (RS.db w2) = db_get k (RS.db w)).
Proof.
  intros w.
  apply (deleteRecord_commit_removes (fun _ => true) 20 w (oplog_entry 20)).
  - vm_compute. repeat split; reflexivity.
  - reflexivity.
  - vm_compute. reflexivity.
  - vm_compute. reflexivity.
  - discriminate.
Defined.

(** A write the conflict detector rejects changes nothing: [deleteRecord]
    and [updateRecord] throw [WriteConflictException] with the store, the
    caller's transaction and the engine as they were. *)
Theorem rejected_write_changes_nothing (kM kD : Z) (env : Env)
        (registerWrite : Slice -> bool) (loc : RecordId) (data : Slice) (len : Z)
        (w : RS.World) :
  registerWrite (_makePrefixedKey (RS._prefix (RS.rs w)) loc) = false ->
  let rd := RS.deleteRecord registerWrite loc w in
  let ru := RS.updateRecord kM kD env registerWrite loc data len w in
  fst rd = Threw WriteConflictException
  /\ fst ru = Threw WriteConflictException
  /\ RS.rs (snd rd) = RS.rs w /\ RS.opCtx (snd rd) = RS.opCtx w /\ RS.db (snd rd) = RS.db w
  /\ RS.rs (snd ru) = RS.rs w /\ RS.opCtx (snd ru) = RS.opCtx w /\ RS.db (snd ru) = RS.db w.
Proof.
  intros Hreg. cbv zeta. unfold RS.deleteRecord, RS.updateRecord.
  cbn [RS.bind RS.gets RS.emit RS.modify RS.rs RS.opCtx RS.db RS.trace].
  rewrite Hreg. cbn. repeat split.
Qed.

Lemma rejected_write_changes_nothing_witness :
  let rd := RS.deleteRecord (fun _ => false) 2 plain_world in
  let ru := RS.updateRecord 60 1000000 quiet_env (fun _ => false) 2 [120] 1 plain_world in
  fst rd = Threw WriteConflictException
  /\ fst ru = Threw WriteConflictException
  /\ RS.rs (snd rd) = RS.rs plain_world /\ RS.opCtx (snd rd) = RS.opCtx plain_world
  /\ RS.db (snd rd) = RS.db plain_world
  /\ RS.rs (snd ru) = RS.rs plain_world /\ RS.opCtx (snd ru) = RS.opCtx plain_world
  /\ RS.db (snd ru) = RS.db plain_world.
Proof.
  apply (rejected_write_changes_nothing 60 1000000 quiet_env (fun _ => false) 2 [120] 1
           plain_world).
  reflexivity.
Defined.





(* ================================================================== *)
(** * Iterators over a collection *)
(* ================================================================== *)

Lemma makeKey_compare (a b : RecordId) :
  0 <= a -> int64 a -> 0 <= b -> int64 b ->
  compare_bytes (_makeKey a) (_makeKey b) = (a ?= b).
Proof.
  intros Ha0 Ha Hb0 Hb.
  pose proof (makePrefixedKey_compare [] a b) as H. cbn [_makePrefixedKey app] in H.
  rewrite H. unfold toUnsigned64, int64, kMaxRepr in *.
  rewrite !Z.mod_small by lia. reflexivity.
Qed.

Lemma slice_leb_makeKey (t id : RecordId) :
  0 <= t -> int64 t -> 0 <= id -> int64 id ->
  slice_leb (_makeKey t) (_makeKey id) = (t <=? id).
Proof.
  intros Ht0 Ht Hi0 Hi. unfold slice_leb, slice_lt.
  rewrite makeKey_compare by assumption.
  destruct (Z.compare_spec id t), (Z.leb_spec t id); cbn; auto; lia.
Qed.

Lemma slice_eqb_makeKey (a b : RecordId) :
  int64 a -> int64 b -> slice_eqb (_makeKey a) (_makeKey b) = (a =? b).
Proof.
  intros Ha Hb. destruct (Z.eqb_spec a b) as [-> | Hne].
  - apply slice_eqb_refl.
  - apply slice_eqb_neq. intros Heq.
    apply (f_equal _makeRecordId) in Heq.
    rewrite !makeRecordId_makeKey in Heq by assumption. congruence.
Qed.

Lemma nth_error_entries_of (recs : list (RecordId * Slice)) (i : nat) :
  nth_error (entries_of recs) i
  = option_map (fun r => (_makeKey (fst r), snd r)) (nth_error recs i).
Proof. unfold entries_of. apply nth_error_map. Qed.

Lemma length_entries_of (recs : list (RecordId * Slice)) :
  length (entries_of recs) = length recs.
Proof. unfold entries_of. apply length_map. Qed.

Lemma seek_index_entries_of (t : RecordId) (recs : list (RecordId * Slice)) :
  stored_id t -> Forall stored_id (ids_of recs) ->
  forall i,
    Iterator.seek_index (_makeKey t) (entries_of recs) i
    = if (count_below t (ids_of recs) <? length recs)%nat
      then Some (i + count_below t (ids_of recs))%nat else None.
Proof.
  intros [Ht0 Ht]. unfold entries_of, ids_of.
  induction recs as [| [id v] recs IH]; intros Hall i;
    cbn [map Iterator.seek_index count_below fst snd length].
  - reflexivity.
  - inversion Hall as [| ? ? [Hi0 Hi] Hrest]; subst.
    rewrite slice_leb_makeKey by assumption.
    destruct (Z.leb_spec t id) as [Hle | Hgt].
    + destruct (Z.ltb_spec id t); [ lia | ]. cbn. f_equal. lia.
    + destruct (Z.ltb_spec id t); [ | lia ].
      rewrite IH by assumption.
      change (S (count_below t (map fst recs)) <? S (length recs))%nat
        with (count_below t (map fst recs) <? length recs)%nat.
      destruct (count_below t (map fst recs) <? length recs)%nat; [ f_equal; lia | reflexivity ].
Qed.

Lemma count_below_le (t : RecordId) (ids : list RecordId) :
  (count_below t ids <= length ids)%nat.
Proof.
  induction ids as [| id ids IH]; cbn; [ lia | ].
  destruct (id <? t); lia.
Qed.

Lemma count_below_before (t : RecordId) (ids : list RecordId) (j : nat) (x : RecordId) :
  (j < count_below t ids)%nat -> nth_error ids j = Some x -> x < t.
Proof.
  revert j. induction ids as [| id ids IH]; intros j; cbn; [ lia | ].
  destruct (Z.ltb_spec id t) as [Hlt | Hge]; [ | lia ].
  destruct j as [| j]; cbn.
  - intros _ Heq. injection Heq as <-. exact Hlt.
  - intros Hj. apply IH. lia.
Qed.

Lemma count_below_at (t : RecordId) (ids : list RecordId) (x : RecordId) :
  nth_error ids (count_below t ids) = Some x -> t <= x.
Proof.
  induction ids as [| id ids IH]; cbn; [ discriminate | ].
  destruct (Z.ltb_spec id t) as [Hlt | Hge]; cbn; auto.
  intros Heq. injection Heq as <-. exact Hge.
Qed.

Lemma sorted_nth_lt (l : list Z) :
  StronglySorted Z.lt l ->
  forall i j a b, (i < j)%nat -> nth_error l i = Some a -> nth_error l j = Some b -> a < b.
Proof.
  induction 1 as [| x l Hs IH Hall]; intros i j a b Hij Ha Hb.
  - destruct i; discriminate.
  - destruct j as [| j]; [ lia | ]. cbn in Hb.
    destruct i as [| i]; cbn in Ha.
    + injection Ha as <-. rewrite Forall_forall in Hall.
      apply Hall. eapply nth_error_In; eauto.
    + eapply IH; [ | exact Ha | exact Hb ]. lia.
Qed.

Lemma sorted_nth_le (l : list Z) :
  StronglySorted Z.lt l ->
  forall i j a b, (i <= j)%nat -> nth_error l i = Some a -> nth_error l j = Some b -> a <= b.
Proof.
  intros Hs i j a b Hij Ha Hb.
  destruct (Nat.eq_dec i j) as [-> | Hne].
  - rewrite Ha in Hb. injection Hb as <-. lia.
  - pose proof (sorted_nth_lt l Hs i j a b ltac:(lia) Ha Hb). lia.
Qed.

(** In an increasing list the ids from index [count_below t] on are at or
    above [t]. *)
Lemma count_below_after (t : RecordId) (ids : list RecordId) (j : nat) (x : RecordId) :
  StronglySorted Z.lt ids ->
  (count_below t ids <= j)%nat -> nth_error ids j = Some x -> t <= x.
Proof.
  intros Hs Hj Hx.
  destruct (nth_error ids (count_below t ids)) as [y |] eqn:Ey.
  - pose proof (count_below_at _ _ _ Ey) as Hy.
    pose proof (sorted_nth_le _ Hs _ _ _ _ Hj Ey Hx). lia.
  - apply nth_error_None in Ey.
    assert (nth_error ids j <> None) by congruence.
    apply nth_error_Some in H. lia.
Qed.

Lemma nth_error_ids_of (recs : list (RecordId * Slice)) (i : nat) :
  nth_error (ids_of recs) i = option_map fst (nth_error recs i).
Proof. unfold ids_of. apply nth_error_map. Qed.

Lemma makeRecordId_stored (id : RecordId) : stored_id id -> _makeRecordId (_makeKey id) = Some id.
Proof. intros [_ H]. now apply makeRecordId_makeKey. Qed.

(** A key made of a negative id is above the key of every id that is not
    negative: the bytes are those of the unsigned value. *)
Lemma seek_index_entries_of_negative (t : RecordId) (recs : list (RecordId * Slice)) :
  t < 0 -> int64 t -> Forall stored_id (ids_of recs) ->
  forall i, Iterator.seek_index (_makeKey t) (entries_of recs) i = None.
Proof.
  intros Ht0 Ht. unfold entries_of, ids_of.
  induction recs as [| [id v] recs IH]; intros Hall i;
    cbn [map Iterator.seek_index fst snd].
  - reflexivity.
  - inversion Hall as [| ? ? [Hi0 Hi] Hrest]; subst.
    unfold slice_leb, slice_lt.
    pose proof (makePrefixedKey_compare [] id t) as H. cbn [_makePrefixedKey app] in H.
    rewrite H. unfold toUnsigned64, int64, kMinRepr, kMaxRepr in *.
    rewrite (Z.mod_small id) by lia.
    replace (t mod 2 ^ 64) with (t + 2 ^ 64)
      by (apply Z.mod_unique_pos with (q := -1); lia).
    destruct (Z.compare_spec id (t + 2 ^ 64)); try lia.
    cbn [negb]. now apply IH.
Qed.

Lemma oplogStartHack_from_stored_id
        (startingPosition : RecordId) (w : RS.World) (vm : VM.t)
        (trk : RocksOplogKeyTracker) (recs : list (RecordId * Slice)) :
  RS._isOplog (RS.rs w) = true ->
  RS._cappedVisibilityManager (RS.rs w) = Some vm ->
  RS._oplogKeyTracker (RS.rs w) = Some trk ->
  prefix_entries (tracker_prefix trk)
                 (match ru_snapshot (recoveryUnit (RS.opCtx w)) with
                  | Some d => d
                  | None => RS.db w
                  end) = entries_of recs ->
  StronglySorted Z.lt (ids_of recs) ->
  Forall stored_id (ids_of recs) ->
  stored_id startingPosition ->
  exists r w',
    RS.oplogStartHack startingPosition w = (Returned (Some r), w')
    /\ ru_oplogReadTill (recoveryUnit (RS.opCtx w')) = VM.oplogStartHack vm
    /\ ((In r (ids_of recs) /\ r <= startingPosition
         /\ forall x, In x (ids_of recs) -> x <= startingPosition -> x <= r)
        \/ (r = RecordId_null /\ forall x, In x (ids_of recs) -> startingPosition < x)).
Proof.
  intros Hop Hvm Htrk Hent Hs Hall Hsp.
  unfold RS.oplogStartHack.
  cbn [RS.bind RS.gets]. rewrite Hop. cbn [negb].
  unfold RS.bind at 1, RS.theVisibilityManager. rewrite Hvm.
  cbn [RS.bind RS.setOplogReadTill RS.modify].
  unfold RS.bind at 1, RS.theTracker. cbn [RS.rs RS.set_ru]. rewrite Htrk.
  unfold RS.bind at 1. rewrite snapshot_run. cbv beta iota zeta.
  cbn [RS.opCtx RS.db RS.set_ru recoveryUnit ru_snapshot].
  match goal with
  | |- context [RS.set_ru ?f (RS.set_ru ?g w)] => remember (RS.set_ru f (RS.set_ru g w)) as wf eqn:Hwf
  end.
  assert (Htill : ru_oplogReadTill (recoveryUnit (RS.opCtx wf)) = VM.oplogStartHack vm).
  { rewrite Hwf. reflexivity. }
  clear Hwf.
  unfold Iterator.NewIterator. rewrite Hent.
  unfold Iterator.Seek. cbn [Iterator.entries].
  rewrite seek_index_entries_of by assumption. cbn [Nat.add].
  set (c := count_below startingPosition (ids_of recs)) in *.
  assert (Hin : forall x, In x (ids_of recs) -> exists j, nth_error (ids_of recs) j = Some x).
  { intros x Hx. apply In_nth_error in Hx. exact Hx. }
  assert (Hstored : forall j x, nth_error (ids_of recs) j = Some x -> stored_id x).
  { intros j x Hx. rewrite Forall_forall in Hall. apply Hall. eapply nth_error_In; eauto. }
  destruct (Nat.ltb_spec c (length recs)) as [Hlt | Hge].
  - (* Seek lands on an entry, at or after the target *)
    destruct (nth_error recs c) as [[idc vc] |] eqn:Ec;
      [ | apply nth_error_None in Ec; lia ].
    assert (Eidc : nth_error (ids_of recs) c = Some idc).
    { rewrite nth_error_ids_of, Ec. reflexivity. }
    pose proof (count_below_at _ _ _ Eidc) as Hidc.
    unfold Iterator.current at 1. cbn [Iterator.pos Iterator.entries].
    rewrite nth_error_entries_of, Ec. cbn [option_map fst snd].
    rewrite (makeRecordId_stored idc (Hstored _ _ Eidc)).
    destruct (Z.eqb_spec startingPosition idc) as [Heq | Hne]; cbn [negb].
    + (* at the target *)
      cbn [RS.bind RS.ret]. unfold Iterator.current. cbn [Iterator.pos Iterator.entries].
      rewrite nth_error_entries_of, Ec. cbn [option_map fst snd].
      rewrite (makeRecordId_stored idc (Hstored _ _ Eidc)).
      exists idc, wf. split; [ reflexivity | ]. split; [ exact Htill | ]. left.
      split; [ eapply nth_error_In; eauto | ]. split; [ lia | ].
      intros x _ Hx. lia.
    + (* past the target: Prev *)
      destruct (Z.ltb_spec startingPosition idc) as [Hlt' | Hge']; [ | lia ].
      cbn [RS.invariant RS.bind RS.ret]. unfold Iterator.Prev, Iterator.current.
      cbn [Iterator.pos Iterator.entries].
      destruct c as [| c'] eqn:Hc.
      * exists RecordId_null, wf. split; [ reflexivity | ]. split; [ exact Htill | ]. right.
        split; [ reflexivity | ]. intros x Hx. destruct (Hin x Hx) as (j & Hj).
        pose proof (sorted_nth_le _ Hs 0%nat j idc x ltac:(lia) Eidc Hj). lia.
      * destruct (nth_error recs c') as [[idp vp] |] eqn:Ep;
          [ | apply nth_error_None in Ep; lia ].
        assert (Eidp : nth_error (ids_of recs) c' = Some idp).
        { rewrite nth_error_ids_of, Ep. reflexivity. }
        rewrite nth_error_entries_of, Ep. cbn [option_map fst snd].
        rewrite (makeRecordId_stored idp (Hstored _ _ Eidp)).
        assert (Hidp : idp < startingPosition).
        { apply (count_below_before startingPosition (ids_of recs) c'); [ | exact Eidp ].
          fold c. lia. }
        exists idp, wf. split; [ reflexivity | ]. split; [ exact Htill | ]. left.
        split; [ eapply nth_error_In; eauto | ]. split; [ lia | ].
        intros x Hx Hxsp. destruct (Hin x Hx) as (j & Hj).
        destruct (Nat.le_gt_cases j c') as [Hjc | Hjc].
        -- exact (sorted_nth_le _ Hs j c' x idp Hjc Hj Eidp).
        -- pose proof (sorted_nth_le _ Hs (S c') j idc x ltac:(lia) Eidc Hj). lia.
  - (* every id is below the target: SeekToLast *)
    unfold Iterator.current at 1. cbn [Iterator.pos].
    unfold Iterator.SeekToLast, Iterator.current. cbn [Iterator.pos Iterator.entries].
    assert (Hbelow : forall j x, nth_error (ids_of recs) j = Some x -> x < startingPosition).
    { intros j x Hx. apply (count_below_before startingPosition (ids_of recs) j); [ | exact Hx ].
      fold c. assert (nth_error (ids_of recs) j <> None) by congruence.
      apply nth_error_Some in H. unfold ids_of in H. rewrite length_map in H. lia. }
    destruct recs as [| r0 recs'] eqn:Hrecs.
    + cbn. exists RecordId_null, wf. split; [ reflexivity | ]. split; [ exact Htill | ]. right.
      split; [ reflexivity | ]. intros x [].
    + rewrite <- Hrecs in *.
      assert (Hne : entries_of recs <> []) by (rewrite Hrecs; discriminate).
      destruct (entries_of recs) as [| e0 es] eqn:Ees; [ congruence | ].
      rewrite <- Ees. rewrite length_entries_of.
      destruct (nth_error recs (Nat.pred (length recs))) as [[idl vl] |] eqn:El;
        [ | apply nth_error_None in El; rewrite Hrecs in El; cbn in El; lia ].
      assert (Eidl : nth_error (ids_of recs) (Nat.pred (length recs)) = Some idl).
      { rewrite nth_error_ids_of, El. reflexivity. }
      rewrite nth_error_entries_of, El. cbn [option_map fst snd].
      rewrite (makeRecordId_stored idl (Hstored _ _ Eidl)).
      exists idl, wf. split; [ reflexivity | ]. split; [ exact Htill | ]. left.
      split; [ eapply nth_error_In; eauto | ].
      split; [ pose proof (Hbelow _ _ Eidl); lia | ].
      intros x Hx _. destruct (Hin x Hx) as (j & Hj).
      assert (Hjl : (j <= Nat.pred (length recs))%nat).
      { assert (nth_error (ids_of recs) j <> None) by congruence.
        apply nth_error_Some in H. unfold ids_of in H. rewrite length_map in H. lia. }
      exact (sorted_nth_le _ Hs j _ x idl Hjl Hj Eidl).
Qed.

Lemma oplogStartHack_from_negative
        (startingPosition : RecordId) (w : RS.World) (vm : VM.t)
        (trk : RocksOplogKeyTracker) (recs : list (RecordId * Slice)) :
  RS._isOplog (RS.rs w) = true ->
  RS._cappedVisibilityManager (RS.rs w) = Some vm ->
  RS._oplogKeyTracker (RS.rs w) = Some trk ->
  prefix_entries (tracker_prefix trk)
                 (match ru_snapshot (recoveryUnit (RS.opCtx w)) with
                  | Some d => d
                  | None => RS.db w
                  end) = entries_of recs ->
  StronglySorted Z.lt (ids_of recs) ->
  Forall stored_id (ids_of recs) ->
  startingPosition < 0 ->
  int64 startingPosition ->
  exists r w',
    RS.oplogStartHack startingPosition w = (Returned (Some r), w')
    /\ ru_oplogReadTill (recoveryUnit (RS.opCtx w')) = VM.oplogStartHack vm
    /\ ((In r (ids_of recs) /\ forall x, In x (ids_of recs) -> x <= r)
        \/ (r = RecordId_null /\ recs = [])).
Proof.
  intros Hop Hvm Htrk Hent Hs Hall Hneg Hsp.
  unfold RS.oplogStartHack.
  cbn [RS.bind RS.gets]. rewrite Hop. cbn [negb].
  unfold RS.bind at 1, RS.theVisibilityManager. rewrite Hvm.
  cbn [RS.bind RS.setOplogReadTill RS.modify].
  unfold RS.bind at 1, RS.theTracker. cbn [RS.rs RS.set_ru]. rewrite Htrk.
  unfold RS.bind at 1. rewrite snapshot_run. cbv beta iota zeta.
  cbn [RS.opCtx RS.db RS.set_ru recoveryUnit ru_snapshot].
  match goal with
  | |- context [RS.set_ru ?f (RS.set_ru ?g w)] => remember (RS.set_ru f (RS.set_ru g w)) as wf eqn:Hwf
  end.
  assert (Htill : ru_oplogReadTill (recoveryUnit (RS.opCtx wf)) = VM.oplogStartHack vm).
  { rewrite Hwf. reflexivity. }
  clear Hwf.
  unfold Iterator.NewIterator. rewrite Hent.
  unfold Iterator.Seek. cbn [Iterator.entries].
  rewrite seek_index_entries_of_negative by assumption.
  assert (Hin : forall x, In x (ids_of recs) -> exists j, nth_error (ids_of recs) j = Some x).
  { intros x Hx. apply In_nth_error in Hx. exact Hx. }
  assert (Hstored : forall j x, nth_error (ids_of recs) j = Some x -> stored_id x).
  { intros j x Hx. rewrite Forall_forall in Hall. apply Hall. eapply nth_error_In; eauto. }
  unfold Iterator.current at 1. cbn [Iterator.pos].
  unfold Iterator.SeekToLast, Iterator.current. cbn [Iterator.pos Iterator.entries].
  destruct recs as [| r0 recs'] eqn:Hrecs.
  - cbn. exists RecordId_null, wf. split; [ reflexivity | ]. split; [ exact Htill | ]. right.
    split; reflexivity.
  - rewrite <- Hrecs in *.
    assert (Hne : entries_of recs <> []) by (rewrite Hrecs; discriminate).
    destruct (entries_of recs) as [| e0 es] eqn:Ees; [ congruence | ].
    rewrite <- Ees. rewrite length_entries_of.
    destruct (nth_error recs (Nat.pred (length recs))) as [[idl vl] |] eqn:El;
      [ | apply nth_error_None in El; rewrite Hrecs in El; cbn in El; lia ].
    assert (Eidl : nth_error (ids_of recs) (Nat.pred (length recs)) = Some idl).
    { rewrite nth_error_ids_of, El. reflexivity. }
    rewrite nth_error_entries_of, El. cbn [option_map fst snd].
    rewrite (makeRecordId_stored idl (Hstored _ _ Eidl)).
    exists idl, wf. split; [ reflexivity | ]. split; [ exact Htill | ]. left.
    split; [ eapply nth_error_In; eauto | ].
    intros x Hx. destruct (Hin x Hx) as (j & Hj).
    assert (Hjl : (j <= Nat.pred (length recs))%nat).
    { assert (nth_error (ids_of recs) j <> None) by congruence.
      apply nth_error_Some in H. unfold ids_of in H. rewrite length_map in H. lia. }
    exact (sorted_nth_le _ Hs j _ x idl Hjl Hj Eidl).
Qed.

(** [oplogStartHack(startingPosition)] on an oplog whose key tracker holds
    the ids [ids], none of them negative, in increasing order. For a
    [startingPosition] that is not negative the result is the greatest id
    at or below it, and the null id when every id is above it ("as close to
    startingPosition as possible without being higher"). For a negative
    [startingPosition] the key sought is above the key of every id held, so
    the result is the greatest id of the tracker, which is above
    [startingPosition], and the null id only when the tracker is empty.
    In both cases the call sets the read ceiling of the transaction to
    [oplogStartHack()] of the visibility manager. *)
Theorem oplogStartHack_greatest_at_or_below
        (startingPosition : RecordId) (w : RS.World) (vm : VM.t)
        (trk : RocksOplogKeyTracker) (recs : list (RecordId * Slice)) :
  RS._isOplog (RS.rs w) = true ->
  RS._cappedVisibilityManager (RS.rs w) = Some vm ->
  RS._oplogKeyTracker (RS.rs w) = Some trk ->
  prefix_entries (tracker_prefix trk)
                 (match ru_snapshot (recoveryUnit (RS.opCtx w)) with
                  | Some d => d
                  | None => RS.db w
                  end) = entries_of recs ->
  StronglySorted Z.lt (ids_of recs) ->
  Forall stored_id (ids_of recs) ->
  int64 startingPosition ->
  exists r w',
    RS.oplogStartHack startingPosition w = (Returned (Some r), w')
    /\ ru_oplogReadTill (recoveryUnit (RS.opCtx w')) = VM.oplogStartHack vm
    /\ (0 <= startingPosition ->
        (In r (ids_of recs) /\ r <= startingPosition
         /\ forall x, In x (ids_of recs) -> x <= startingPosition -> x <= r)
        \/ (r = RecordId_null /\ forall x, In x (ids_of recs) -> startingPosition < x))
    /\ (startingPosition < 0 ->
        (In r (ids_of recs) /\ startingPosition < r
         /\ forall x, In x (ids_of recs) -> x <= r)
        \/ (r = RecordId_null /\ recs = [])).
Proof.
  intros Hop Hvm Htrk Hent Hs Hall Hsp.
  destruct (Z.lt_ge_cases startingPosition 0) as [Hneg | Hpos].
  - destruct (oplogStartHack_from_negative startingPosition w vm trk recs
                Hop Hvm Htrk Hent Hs Hall Hneg Hsp) as (r & w' & Hrun & Htill & Hres).
    exists r, w'. split; [ exact Hrun | ]. split; [ exact Htill | ].
    split; [ intros; lia | ]. intros _.
    destruct Hres as [[Hin Hmax] | Hnull]; [ left | right; exact Hnull ].
    split; [ exact Hin | ]. split; [ | exact Hmax ].
    rewrite Forall_forall in Hall. destruct (Hall r Hin) as [Hr0 _]. lia.
  - destruct (oplogStartHack_from_stored_id startingPosition w vm trk recs
                Hop Hvm Htrk Hent Hs Hall (conj Hpos Hsp)) as (r & w' & Hrun & Htill & Hres).
    exists r, w'. split; [ exact Hrun | ]. split; [ exact Htill | ].
    split; [ intros _; exact Hres | intros; lia ].
Qed.

(* ================================================================== *)
(** * Scans and repositioning of a cursor *)
(* ================================================================== *)

Lemma skipn_cons_nth (A : Type) (l : list A) (p : nat) (x : A) (rest : list A) :
  skipn p l = x :: rest -> nth_error l p = Some x /\ skipn (S p) l = rest.
Proof.
  revert p. induction l as [| y l IH]; intros p H.
  - destruct p; discriminate.
  - destruct p as [| p]; cbn in *.
    + injection H as -> ->. auto.
    + apply IH in H. exact H.
Qed.

Lemma skipn_nil_nth (A : Type) (l : list A) (p : nat) :
  skipn p l = [] -> nth_error l p = None.
Proof.
  revert p. induction l as [| y l IH]; intros p H.
  - now destruct p.
  - destruct p as [| p]; cbn in *; [ discriminate | auto ].
Qed.






Lemma find_count_below (t : RecordId) (recs : list (RecordId * Slice)) :
  nth_error recs (count_below (t + 1) (ids_of recs)) = find (fun r => t <? fst r) recs.
Proof.
  unfold ids_of. induction recs as [| [id v] recs IH]; cbn [map count_below find fst].
  - reflexivity.
  - destruct (Z.ltb_spec id (t + 1)), (Z.ltb_spec t id); try lia; cbn; auto.
Qed.

(** In an increasing list, the index at which a seek for [t] lands holds
    [t] exactly when [t] is in the list, and then the first id above [t]
    is the next one. *)
Lemma count_below_present (t : RecordId) (ids : list RecordId) :
  StronglySorted Z.lt ids ->
  (nth_error ids (count_below t ids) = Some t <-> In t ids).
Proof.
  intros Hs. split.
  - apply nth_error_In.
  - intros Hin. apply In_nth_error in Hin. destruct Hin as (j & Hj).
    destruct (Nat.lt_trichotomy j (count_below t ids)) as [Hlt | [-> | Hgt]].
    + pose proof (count_below_before _ _ _ _ Hlt Hj). lia.
    + exact Hj.
    + destruct (nth_error ids (count_below t ids)) as [y |] eqn:Ey.
      * pose proof (count_below_at _ _ _ Ey).
        pose proof (sorted_nth_lt _ Hs _ _ _ _ Hgt Ey Hj). lia.
      * apply nth_error_None in Ey.
        assert (nth_error ids j <> None) by congruence.
        apply nth_error_Some in H. lia.
Qed.

Lemma count_below_succ (t : RecordId) (ids : list RecordId) :
  StronglySorted Z.lt ids ->
  count_below (t + 1) ids
  = match nth_error ids (count_below t ids) with
    | Some x => if t =? x then S (count_below t ids) else count_below t ids
    | None => count_below t ids
    end.
Proof.
  unfold RecordId in *.
  induction 1 as [| id ids Hs IH Hall]; cbn [count_below nth_error].
  - reflexivity.
  - destruct (Z.ltb_spec id t) as [Hlt | Hge].
    + destruct (Z.ltb_spec id (t + 1)); [ | lia ]. cbn [nth_error]. rewrite IH.
      destruct (nth_error ids (count_below t ids)) as [x |]; [ | reflexivity ].
      destruct (t =? x); reflexivity.
    + cbn [nth_error]. destruct (Z.eqb_spec t id) as [<- | Hne].
      * destruct (Z.ltb_spec t (t + 1)); [ | lia ]. f_equal.
        destruct ids as [| y ids']; [ reflexivity | ]. cbn [count_below].
        inversion Hall; subst. destruct (Z.ltb_spec y (t + 1)); [ lia | reflexivity ].
      * destruct (Z.ltb_spec id (t + 1)); [ lia | reflexivity ].
Qed.

(** [restore()] after the snapshot has changed re-seeks to the last record
    returned. On a collection that is not capped the cursor goes on with
    the first record above it, whether that last record is still there or
    not: no record is skipped and none is returned twice. On a capped
    collection the cursor is at its end exactly when the last record
    returned is gone, and [restore()] then returns false if there is a
    visibility manager; a cursor at its end returns nothing. *)
Theorem restore_resumes_after_lastLoc (hasVisibilityManager : bool) (snapshot : DB)
        (c : Cursor.t) (recs : list (RecordId * Slice)) :
  Cursor._forward c = true ->
  Cursor._eof c = false ->
  Cursor._needFirstSeek c = false ->
  prefix_entries (Cursor._prefix c) snapshot = entries_of recs ->
  StronglySorted Z.lt (ids_of recs) ->
  Forall stored_id (ids_of recs) ->
  stored_id (Cursor._lastLoc c) ->
  exists ok c1,
    Cursor.restore hasVisibilityManager snapshot true c = Some (ok, c1)
    /\ ok = negb (hasVisibilityManager && Cursor._eof c1)
    /\ (Cursor._isCapped c = false ->
        exists c2, Cursor.next None snapshot c1
                   = Some (find (fun r => Cursor._lastLoc c <? fst r) recs, c2))
    /\ (Cursor._isCapped c = true ->
        (Cursor._eof c1 = false <-> In (Cursor._lastLoc c) (ids_of recs)))
    /\ (Cursor._eof c1 = true -> forall vm, Cursor.next vm snapshot c1 = Some (None, c1)).
Proof.
  intros Hfwd Heof Hneed Hent Hs Hall Ht.
  destruct c as [prefix forward isCapped readUntil eof needFirstSeek skip t it sr].
  cbn [Cursor._forward Cursor._eof Cursor._needFirstSeek Cursor._prefix Cursor._lastLoc
       Cursor._isCapped] in *.
  subst forward eof needFirstSeek.
  pose proof (find_count_below t recs) as Hfind.
  pose proof (count_below_succ t (ids_of recs) Hs) as Hsucc.
  pose proof (count_below_present t (ids_of recs) Hs) as Hpresent.
  assert (Hstored : forall j x, nth_error (ids_of recs) j = Some x -> stored_id x).
  { intros j x Hx. rewrite Forall_forall in Hall. apply Hall. eapply nth_error_In; eauto. }
  unfold Cursor.restore.
  assert (Hiter : match it with
                  | Some it0 => if true then Iterator.NewIterator prefix snapshot else it0
                  | None => Iterator.NewIterator prefix snapshot
                  end = Iterator.mk (entries_of recs) None).
  { unfold Iterator.NewIterator. rewrite Hent. now destruct it. }
  cbn [Cursor._iterator Cursor._prefix]. rewrite Hiter. clear Hiter.
  cbn [Cursor._eof Cursor._needFirstSeek Cursor._forward Cursor._isCapped
       Cursor._readUntilForOplog Cursor._lastLoc Cursor._seekExactResult Cursor._prefix].
  unfold Cursor.positionIterator.
  cbn [Cursor._iterator Cursor._lastLoc Cursor._forward Cursor._prefix Cursor._isCapped
       Cursor._readUntilForOplog Cursor._needFirstSeek Cursor._seekExactResult].
  unfold Iterator.current at 1. cbn [Iterator.pos].
  unfold Iterator.Seek. cbn [Iterator.entries].
  rewrite seek_index_entries_of by assumption. cbn [Nat.add].
  set (n := count_below t (ids_of recs)) in *.
  destruct (Nat.ltb_spec n (length recs)) as [Hlt | Hge].
  - destruct (nth_error recs n) as [[idn vn] |] eqn:En;
      [ | apply nth_error_None in En; lia ].
    assert (Eidn : nth_error (ids_of recs) n = Some idn).
    { rewrite nth_error_ids_of, En. reflexivity. }
    rewrite Eidn in Hsucc, Hpresent.
    unfold Iterator.current. cbn [Iterator.pos Iterator.entries].
    rewrite nth_error_entries_of, En. cbn [option_map fst snd].
    rewrite (makeRecordId_stored idn (Hstored _ _ Eidn)).
    cbn [Iterator.pos Iterator.entries].
    rewrite nth_error_entries_of, En. cbn [option_map fst snd].
    rewrite (makeRecordId_stored idn (Hstored _ _ Eidn)).
    eexists. eexists. split; [ reflexivity | ].
    cbn [Cursor._eof]. split; [ now destruct (hasVisibilityManager && _) | ].
    split; [ | split ].
    + intros ->. cbn [andb].
      unfold Cursor.next.
      cbn [Cursor._eof Cursor.iterator Cursor._iterator Cursor._skipNextAdvance
           Cursor._needFirstSeek Cursor._forward Cursor._prefix Cursor._isCapped
           Cursor._readUntilForOplog Cursor._lastLoc Cursor._seekExactResult].
      rewrite <- Hfind, Hsucc.
      destruct (Z.eqb_spec t idn) as [Heq | Hne]; cbn [negb fst snd].
      * unfold Cursor.curr. cbn [Cursor._iterator]. unfold Iterator.Next, Iterator.current.
        cbn [Iterator.pos Iterator.entries]. rewrite nth_error_entries_of.
        destruct (nth_error recs (S n)) as [[idm vm'] |] eqn:Em; cbn [option_map fst snd].
        -- assert (Eidm : nth_error (ids_of recs) (S n) = Some idm).
           { rewrite nth_error_ids_of, Em. reflexivity. }
           rewrite (makeRecordId_stored idm (Hstored _ _ Eidm)).
           eexists. reflexivity.
        -- eexists. reflexivity.
      * unfold Cursor.curr. cbn [Cursor._iterator]. unfold Iterator.current.
        cbn [Iterator.pos Iterator.entries]. rewrite nth_error_entries_of, En.
        cbn [option_map fst snd].
        rewrite (makeRecordId_stored idn (Hstored _ _ Eidn)).
        eexists. reflexivity.
    + intros ->. cbn [andb]. rewrite <- Hpresent.
      destruct (Z.eqb_spec t idn) as [Heq | Hne]; cbn [negb].
      * split; [ intros _; now rewrite Heq | reflexivity ].
      * split; [ discriminate | intros Heq; congruence ].
    + intros Heof vm. unfold Cursor.next. cbn [Cursor._eof] in *. now rewrite Heof.
  - unfold Iterator.current. cbn [Iterator.pos].
    eexists. eexists. split; [ reflexivity | ].
    cbn [Cursor._eof]. split; [ reflexivity | ].
    split; [ | split ].
    + intros _. unfold Cursor.next. cbn [Cursor._eof].
      rewrite <- Hfind, Hsucc.
      assert (En : nth_error (ids_of recs) n = None).
      { apply nth_error_None. unfold ids_of. rewrite length_map. exact Hge. }
      rewrite En.
      assert (En' : nth_error recs n = None) by (apply nth_error_None; exact Hge).
      rewrite En'. eexists. reflexivity.
    + intros _. split; [ discriminate | ].
      intros Hin. apply Hpresent in Hin.
      assert (nth_error (ids_of recs) n <> None) by congruence.
      apply nth_error_Some in H. unfold ids_of in H. rewrite length_map in H. lia.
    + intros _ vm. reflexivity.
Qed.

Lemma oplogStartHack_greatest_at_or_below_witness :
  let recs := [(10, nativeToLittle32 11); (20, nativeToLittle32 11);
               (30, nativeToLittle32 11)] in
  exists r w',
    RS.oplogStartHack (-1) oplog_three_world = (Returned (Some r), w')
    /\ ru_oplogReadTill (recoveryUnit (RS.opCtx w')) = VM.oplogStartHack (VM.mk [] 30 [] false)
    /\ (0 <= -1 ->
        (In r (ids_of recs) /\ r <= -1
         /\ forall x, In x (ids_of recs) -> x <= -1 -> x <= r)
        \/ (r = RecordId_null /\ forall x, In x (ids_of recs) -> -1 < x))
    /\ (-1 < 0 ->
        (In r (ids_of recs) /\ -1 < r
         /\ forall x, In x (ids_of recs) -> x <= r)
        \/ (r = RecordId_null /\ recs = [])).
Proof.
  intros recs.
  apply (oplogStartHack_greatest_at_or_below (-1) oplog_three_world (VM.mk [] 30 [] false)
           (mkTracker 0 [81]) recs).
  - reflexivity.
  - reflexivity.
  - reflexivity.
  - vm_compute. reflexivity.
  - cbn. repeat constructor; lia.
  - unfold stored_id, int64, kMinRepr, kMaxRepr. cbn. repeat constructor; lia.
  - unfold int64, kMinRepr, kMaxRepr. lia.
Defined.

Lemma restore_resumes_after_lastLoc_witness :
  let c := Cursor.mk [80] true false RecordId_null false false false 2 None [] in
  let recs := [(1, [97]); (4, [100; 101; 102])] in
  let snapshot := [(_makePrefixedKey [80] 1, [97]); (_makePrefixedKey [80] 4, [100; 101; 102])] in
  exists ok c1,
    Cursor.restore false snapshot true c = Some (ok, c1)
    /\ ok = negb (false && Cursor._eof c1)
    /\ (Cursor._isCapped c = false ->
        exists c2, Cursor.next None snapshot c1
                   = Some (find (fun r => Cursor._lastLoc c <? fst r) recs, c2))
    /\ (Cursor._isCapped c = true ->
        (Cursor._eof c1 = false <-> In (Cursor._lastLoc c) (ids_of recs)))
    /\ (Cursor._eof c1 = true -> forall vm, Cursor.next vm snapshot c1 = Some (None, c1)).
Proof.
  intros c recs snapshot.
  apply (restore_resumes_after_lastLoc false snapshot c recs).
  - reflexivity.
  - reflexivity.
  - reflexivity.
  - vm_compute. reflexivity.
  - cbn. repeat constructor; lia.
  - unfold stored_id, int64, kMinRepr, kMaxRepr. cbn. repeat constructor; lia.
  - unfold stored_id, int64, kMinRepr, kMaxRepr. cbn. lia.
Defined.

(* ================================================================== *)
(** * Opening a collection and inserting several records *)
(* ================================================================== *)

Lemma sorted_last_max (l : list Z) (i : nat) (x last : Z) :
  StronglySorted Z.lt l ->
  nth_error l i = Some x -> nth_error l (Nat.pred (length l)) = Some last -> x <= last.
Proof.
  intros Hs Hx Hlast.
  assert (Hi : nth_error l i <> None) by congruence.
  apply nth_error_Some in Hi.
  exact (sorted_nth_le l Hs i (Nat.pred (length l)) x last ltac:(lia) Hx Hlast).
Qed.

(** The constructor accepts only a consistent configuration. On a
    collection whose stored ids are not negative (the order of the keys is
    then the order of the ids) and all below [INT64_MAX] (the addition
    [lastId.repr() + 1] does not overflow) it sets the id counter above
    every id stored, and to 1 when the collection is empty, so that no id
    handed out later meets a stored record. The counters it loads are
    clamped at 0, the slack is the one of the size cap, a visibility manager
    has seen the last id stored, and the counter of a key tracker starts
    with the value its uninitialised atomic holds. *)
Theorem construct_establishes
        (isOplog : bool) (trackerPrefix : Slice) (deletedKeys : Z) (engine : DB)
        (numRecords dataSize : Z)
        (hasBackgroundThread : bool) (prefix : Slice) (isCapped : bool)
        (cappedMaxSize cappedMaxDocs : Z)
        (cappedCallback : option (RecordId -> Slice -> CallbackResult)) (s : RS.t)
        (recs : list (RecordId * Slice)) :
  RS.construct isOplog trackerPrefix deletedKeys engine numRecords dataSize
               hasBackgroundThread
               prefix isCapped cappedMaxSize cappedMaxDocs cappedCallback = Some s ->
  prefix_entries prefix engine = entries_of recs ->
  StronglySorted Z.lt (ids_of recs) ->
  Forall stored_id (ids_of recs) ->
  (Forall (fun id => id < kMaxRepr) (ids_of recs) ->
   Forall (fun id => id < RS._nextIdNum s) (ids_of recs))
  /\ (recs = [] -> RS._nextIdNum s = 1)
  /\ (if isCapped
      then 0 < cappedMaxSize /\ (cappedMaxDocs = -1 \/ 0 < cappedMaxDocs)
      else cappedMaxSize = -1 /\ cappedMaxDocs = -1)
  /\ RS._numRecords s = Z.max 0 numRecords
  /\ RS._dataSize s = Z.max 0 dataSize
  /\ RS._cappedMaxSizeSlack s = cappedMaxSizeSlackFromSize cappedMaxSize
  /\ (forall vm, RS._cappedVisibilityManager s = Some vm ->
        VM._uncommittedRecords vm = []
        /\ Forall (fun id => id <= VM._oplog_highestSeen vm) (ids_of recs))
  /\ RS._oplogKeyTracker s
     = (if isOplog then Some (mkTracker deletedKeys trackerPrefix) else None).
Proof.
  unfold RS.construct. intros H Hent Hs Hstored.
  assert (Hall : Forall int64 (ids_of recs)).
  { eapply Forall_impl; [ | exact Hstored ]. intros a [_ Ha]. exact Ha. }
  match type of H with (if ?c then _ else _) = _ => destruct c eqn:Hcfg; [ | discriminate ] end.
  assert (Hconfig : if isCapped
                    then 0 < cappedMaxSize /\ (cappedMaxDocs = -1 \/ 0 < cappedMaxDocs)
                    else cappedMaxSize = -1 /\ cappedMaxDocs = -1).
  { destruct isCapped.
    - apply andb_true_iff in Hcfg. destruct Hcfg as [H1 H2].
      apply Z.gtb_lt in H1. apply orb_true_iff in H2.
      split; [ lia | ]. destruct H2 as [H2 | H2]; [ left; now apply Z.eqb_eq | right ].
      apply Z.gtb_lt in H2. lia.
    - apply andb_true_iff in Hcfg. destruct Hcfg as [H1 H2].
      split; now apply Z.eqb_eq. }
  assert (Hn : (if numRecords <? 0 then 0 else numRecords) = Z.max 0 numRecords)
    by (destruct (Z.ltb_spec numRecords 0); lia).
  assert (Hd : (if dataSize <? 0 then 0 else dataSize) = Z.max 0 dataSize)
    by (destruct (Z.ltb_spec dataSize 0); lia).
  unfold Iterator.SeekToLast, Iterator.NewIterator, Iterator.current in H.
  cbn [Iterator.entries Iterator.pos] in H. rewrite Hent in H.
  destruct recs as [| r0 recs'] eqn:Hrecs.
  - cbn in H. injection H as <-. cbn [RS._nextIdNum RS._numRecords RS._dataSize
                                       RS._cappedMaxSizeSlack RS._cappedVisibilityManager
                                       RS._oplogKeyTracker].
    split; [ constructor | ]. split; [ reflexivity | ].
    repeat (split; [ assumption || reflexivity | ]).
    split; [ | reflexivity ].
    intros vm Hvm. destruct (isCapped || isOplog); [ | discriminate ].
    injection Hvm as <-. split; [ reflexivity | constructor ].
  - rewrite <- Hrecs in *.
    assert (Hne : entries_of recs <> []) by (rewrite Hrecs; discriminate).
    destruct (entries_of recs) as [| e0 es] eqn:Ees; [ congruence | ].
    rewrite <- Ees in H. rewrite length_entries_of, nth_error_entries_of in H.
    destruct (nth_error recs (Nat.pred (length recs))) as [[idl vl] |] eqn:El;
      [ | apply nth_error_None in El; rewrite Hrecs in El; cbn in El; lia ].
    assert (Eidl : nth_error (ids_of recs) (Nat.pred (length recs)) = Some idl).
    { rewrite nth_error_ids_of, El. reflexivity. }
    assert (Hlen : length (ids_of recs) = length recs) by (unfold ids_of; apply length_map).
    assert (Hmax : Forall (fun id => id <= idl) (ids_of recs)).
    { apply Forall_forall. intros x Hx. apply In_nth_error in Hx. destruct Hx as (j & Hj).
      refine (sorted_last_max (ids_of recs) j x idl Hs Hj _).
      etransitivity; [ | exact Eidl ]. f_equal. f_equal. exact Hlen. }
    assert (Hidl : In idl (ids_of recs)) by (eapply nth_error_In; eauto).
    assert (Hidl64 : int64 idl) by (rewrite Forall_forall in Hall; now apply Hall).
    cbn [option_map fst snd] in H.
    rewrite makeRecordId_makeKey in H by exact Hidl64.
    injection H as <-. cbn [RS._nextIdNum RS._numRecords RS._dataSize
                             RS._cappedMaxSizeSlack RS._cappedVisibilityManager
                             RS._oplogKeyTracker].
    split.
    { intros Hbelow.
      assert (Hlt : idl < kMaxRepr) by (rewrite Forall_forall in Hbelow; now apply Hbelow).
      rewrite wrap64_int64 by (unfold int64 in *; lia).
      eapply Forall_impl; [ | exact Hmax ]; cbn; intros; lia. }
    split; [ intros Hcontra; rewrite Hcontra in Hrecs; discriminate | ].
    repeat (split; [ assumption || reflexivity | ]).
    split; [ | reflexivity ].
    intros vm Hvm. destruct (isCapped || isOplog); [ | discriminate ].
    injection Hvm as <-. split; [ apply updateHighestSeen_uncommitted | ].
    assert (Hhs : idl <= VM._oplog_highestSeen (VM.updateHighestSeen idl VM.init)).
    { unfold VM.updateHighestSeen.
      destruct (Z.gtb_spec idl (VM._oplog_highestSeen VM.init)) as [Hgt | Hle];
        cbn [VM._oplog_highestSeen]; lia. }
    eapply Forall_impl; [ | exact Hmax ]. cbn beta. intros a Ha. lia.
Qed.

Lemma construct_establishes_witness :
  let recs := map (fun id => (id, oplog_entry id)) [10; 20; 30] in
  let s := RS.mk [80] true 1000 100 (-1) None true (Some (mkTracker 77 [81])) 0
                 (Some (VM.mk [] 30 [] false)) 31 0 3 false false in
  (Forall (fun id => id < kMaxRepr) (ids_of recs) ->
   Forall (fun id => id < RS._nextIdNum s) (ids_of recs))
  /\ (recs = [] -> RS._nextIdNum s = 1)
  /\ (if true
      then 0 < 1000 /\ (-1 = -1 \/ 0 < -1)
      else 1000 = -1 /\ -1 = -1)
  /\ RS._numRecords s = Z.max 0 3
  /\ RS._dataSize s = Z.max 0 (-7)
  /\ RS._cappedMaxSizeSlack s = cappedMaxSizeSlackFromSize 1000
  /\ (forall vm, RS._cappedVisibilityManager s = Some vm ->
        VM._uncommittedRecords vm = []
        /\ Forall (fun id => id <= VM._oplog_highestSeen vm) (ids_of recs))
  /\ RS._oplogKeyTracker s
     = (if true then Some (mkTracker 77 [81]) else None).
Proof.
  intros recs s.
  apply (construct_establishes true [81] 77 (RS.db oplog_three_world) 3 (-7) false [80] true
           1000 (-1) None s recs).
  - vm_compute. reflexivity.
  - vm_compute. reflexivity.
  - cbn. repeat constructor; lia.
  - unfold stored_id, int64, kMinRepr, kMaxRepr. cbn. repeat constructor; lia.
Defined.

Lemma wrap64_add_l (a b : Z) : wrap64 (wrap64 a + b) = wrap64 (a + b).
Proof.
  unfold wrap64. f_equal. unfold toSigned64, toUnsigned64.
  destruct (Z.ltb_spec (a mod 2 ^ 64) (2 ^ 63)).
  - apply Z.add_mod_idemp_l. lia.
  - replace (a mod 2 ^ 64 - 2 ^ 64 + b) with (a mod 2 ^ 64 + b + (-1) * 2 ^ 64) by lia.
    rewrite Z.mod_add by lia. apply Z.add_mod_idemp_l. lia.
Qed.

Lemma insertRecords_loop_ids (extractKey : Slice -> Z -> StatusWith RecordId) (kM kD : Z)
      (env : Env) (docs : list Slice) :
  forall (idsOut : list RecordId) (w : RS.World) (ids : list RecordId) (w' : RS.World),
    RS._isOplog (RS.rs w) = false ->
    int64 (RS._nextIdNum (RS.rs w)) ->
    RS.insertRecords_loop extractKey kM kD env docs idsOut w = (Returned (SW_OK ids), w') ->
    ids = idsOut ++ map (fun i => wrap64 (RS._nextIdNum (RS.rs w) + Z.of_nat i))
                        (seq 0 (length docs))
    /\ RS._nextIdNum (RS.rs w') = wrap64 (RS._nextIdNum (RS.rs w) + Z.of_nat (length docs))
    /\ ru_deltaNumRecords (recoveryUnit (RS.opCtx w'))
       = ru_deltaNumRecords (recoveryUnit (RS.opCtx w)) + Z.of_nat (length docs).
Proof.
  induction docs as [| data docs IH]; intros idsOut w ids w' Hop Hrange H;
    cbn [RS.insertRecords_loop] in H.
  - injection H as <- <-. cbn [length seq map]. rewrite app_nil_r, !Z.add_0_r.
    rewrite wrap64_int64 by exact Hrange. repeat split; lia.
  - unfold RS.bind in H.
    destruct (RS.insertRecord extractKey kM kD env data _ w) as [[[id | code] | e |] w1] eqn:E;
      try discriminate.
    apply insertRecord_returns in E. cbv zeta in E.
    destruct E as (_ & Hn & _ & _ & _ & Hid & _ & Hop1 & _).
    rewrite Hop in Hid, Hop1. destruct Hid as [Hid Hnext].
    apply IH in H; [ | exact Hop1 | rewrite Hnext; apply wrap64_range ].
    destruct H as (Hids & Hnext' & Hn').
    split; [ | split ].
    + rewrite Hids, <- app_assoc. f_equal. cbn [length seq map app].
      rewrite Z.add_0_r, <- Hid, (wrap64_int64 id) by (rewrite Hid; exact Hrange).
      f_equal.
      rewrite <- seq_shift, map_map. apply map_ext. intros i.
      rewrite Hnext, wrap64_add_l. f_equal. lia.
    + rewrite Hnext', Hnext, wrap64_add_l, Hid. cbn [length]. f_equal. lia.
    + rewrite Hn', Hn. cbn [length]. lia.
Qed.

(** [insertRecordsWithDocWriter] on a collection that is not the oplog:
    when it returns OK, the documents were given, in their order, the
    values the 64-bit id counter took from its start value on, one record
    each. As long as the counter stays within [INT64_MAX] these are
    consecutive ids; beyond it the counter wraps around. *)
Theorem insertRecordsWithDocWriter_consecutive_ids
        (extractKey : Slice -> Z -> StatusWith RecordId) (kM kD : Z) (env : Env)
        (docs : list Slice) (w : RS.World) (ids : list RecordId) (w' : RS.World) :
  RS._isOplog (RS.rs w) = false ->
  int64 (RS._nextIdNum (RS.rs w)) ->
  RS.insertRecordsWithDocWriter extractKey kM kD env docs w = (Returned (SW_OK ids), w') ->
  ids = map (fun i => wrap64 (RS._nextIdNum (RS.rs w) + Z.of_nat i)) (seq 0 (length docs))
  /\ RS._nextIdNum (RS.rs w') = wrap64 (RS._nextIdNum (RS.rs w) + Z.of_nat (length docs))
  /\ ru_deltaNumRecords (recoveryUnit (RS.opCtx w'))
     = ru_deltaNumRecords (recoveryUnit (RS.opCtx w)) + Z.of_nat (length docs)
  /\ (RS._nextIdNum (RS.rs w) + Z.of_nat (length docs) <= kMaxRepr ->
      ids = map (fun i => RS._nextIdNum (RS.rs w) + Z.of_nat i) (seq 0 (length docs))
      /\ RS._nextIdNum (RS.rs w') = RS._nextIdNum (RS.rs w) + Z.of_nat (length docs)).
Proof.
  intros Hop Hrange H. unfold RS.insertRecordsWithDocWriter in H.
  destruct (insertRecords_loop_ids extractKey kM kD env docs [] w ids w' Hop Hrange H)
    as (Hids & Hnext & Hdelta).
  cbn [app] in Hids.
  split; [ exact Hids | ]. split; [ exact Hnext | ]. split; [ exact Hdelta | ].
  intros Hfit. split.
  - rewrite Hids. apply map_ext_in. intros i Hi. apply in_seq in Hi.
    apply wrap64_int64. unfold int64 in *. lia.
  - rewrite Hnext. apply wrap64_int64. unfold int64 in *. lia.
Qed.

Lemma insertRecordsWithDocWriter_consecutive_ids_witness :
  let docs := [[97]; [98; 99]; [100]] in
  let w := RS.set_rs (RS.with_nextIdNum (kMaxRepr - 1)) plain_world in
  let r := RS.insertRecordsWithDocWriter sample_extractKey 60 1000000 quiet_env docs w in
  let ids := [kMaxRepr - 1; kMaxRepr; kMinRepr] in
  ids = map (fun i => wrap64 (RS._nextIdNum (RS.rs w) + Z.of_nat i)) (seq 0 (length docs))
  /\ RS._nextIdNum (RS.rs (snd r))
     = wrap64 (RS._nextIdNum (RS.rs w) + Z.of_nat (length docs))
  /\ ru_deltaNumRecords (recoveryUnit (RS.opCtx (snd r)))
     = ru_deltaNumRecords (recoveryUnit (RS.opCtx w)) + Z.of_nat (length docs)
  /\ (RS._nextIdNum (RS.rs w) + Z.of_nat (length docs) <= kMaxRepr ->
      ids = map (fun i => RS._nextIdNum (RS.rs w) + Z.of_nat i) (seq 0 (length docs))
      /\ RS._nextIdNum (RS.rs (snd r))
         = RS._nextIdNum (RS.rs w) + Z.of_nat (length docs)).
Proof.
  intros docs w r ids.
  apply (insertRecordsWithDocWriter_consecutive_ids sample_extractKey 60 1000000 quiet_env
           docs w ids (snd r)).
  - reflexivity.
  - vm_compute. split; discriminate.
  - vm_compute. reflexivity.
Defined.

(** The slack of the size cap follows the size cap: [updateCappedSize]
    sets both, and a capped deletion changes neither. *)
Theorem cappedMaxSizeSlack_follows_cappedMaxSize (kM kD : Z) (env : Env) (j : RecordId)
        (cappedSize : Z) (w : RS.World) :
  RS._cappedMaxSizeSlack (RS.rs w) = cappedMaxSizeSlackFromSize (RS._cappedMaxSize (RS.rs w)) ->
  let w1 := snd (RS.updateCappedSize cappedSize w) in
  let r2 := RS.cappedDeleteAsNeeded kM kD env j w1 in
  RS._cappedMaxSize (RS.rs w1) = cappedSize
  /\ RS._cappedMaxSizeSlack (RS.rs w1) = cappedMaxSizeSlackFromSize cappedSize
  /\ (fst r2 <> Aborted ->
      RS._cappedMaxSize (RS.rs (snd r2)) = cappedSize
      /\ RS._cappedMaxSizeSlack (RS.rs (snd r2)) = cappedMaxSizeSlackFromSize cappedSize).
Proof.
  intros Hs w1 r2.
  destruct (updateCappedSize_slack cappedSize w Hs) as [H1 H2].
  fold w1 in H1, H2. split; [ exact H1 | ]. split; [ exact H2 | ].
  intros Hna.
  assert (Hr : RS.cappedDeleteAsNeeded kM kD env j w1 = (fst r2, snd r2))
    by (subst r2; apply surjective_pairing).
  destruct (cappedDeleteAsNeeded_isolated kM kD env j w1 (fst r2) (snd r2) Hr Hna) as [_ Hc].
  rewrite (sc_cappedMaxSize _ _ Hc), (sc_cappedMaxSizeSlack _ _ Hc). auto.
Qed.

Lemma cappedMaxSizeSlack_follows_cappedMaxSize_witness :
  let w1 := snd (RS.updateCappedSize 5 full_capped_world) in
  let r2 := RS.cappedDeleteAsNeeded 60 1000000 quiet_env 11 w1 in
  RS._cappedMaxSize (RS.rs w1) = 5
  /\ RS._cappedMaxSizeSlack (RS.rs w1) = cappedMaxSizeSlackFromSize 5
  /\ (fst r2 <> Aborted ->
      RS._cappedMaxSize (RS.rs (snd r2)) = 5
      /\ RS._cappedMaxSizeSlack (RS.rs (snd r2)) = cappedMaxSizeSlackFromSize 5).
Proof.
  apply (cappedMaxSizeSlack_follows_cappedMaxSize 60 1000000 quiet_env 11 5 full_capped_world).
  reflexivity.
Defined.

(* ================================================================== *)
(** * Truncating a collection *)
(* ================================================================== *)

Lemma strip_prefix_app (p k : Slice) : strip_prefix p (p ++ k) = Some k.
Proof.
  induction p as [| x p IH]; cbn; [ now destruct k | ].
  now rewrite Z.eqb_refl.
Qed.

Lemma strip_prefix_some (p key k : Slice) : strip_prefix p key = Some k -> key = p ++ k.
Proof.
  revert key. induction p as [| x p IH]; intros key H.
  - destruct key; cbn in H; now injection H as <-.
  - destruct key as [| y key]; cbn in H; [ discriminate | ].
    destruct (Z.eqb_spec x y) as [-> | Hne]; [ | discriminate ].
    cbn. f_equal. now apply IH.
Qed.

(** A point read finds the entry the prefixed iterator shows, when no key
    is shown twice. *)
Lemma prefix_entries_get (p : Slice) (d : DB) (k v : Slice) :
  NoDup (map fst (prefix_entries p d)) ->
  In (k, v) (prefix_entries p d) ->
  db_get (p ++ k) d = Some v.
Proof.
  induction d as [| [key val] d IH]; intros Hnd Hin; [ destruct Hin | ].
  cbn [prefix_entries flat_map fst snd] in Hnd, Hin. cbn [db_get].
  fold (prefix_entries p d) in Hnd, Hin.
  destruct (strip_prefix p key) as [k0 |] eqn:Ek0.
  - apply strip_prefix_some in Ek0. subst key.
    cbn [app map fst] in Hnd, Hin. inversion Hnd as [| ? ? Hnotin Hnd']; subst.
    destruct Hin as [Heq | Hin].
    + injection Heq as -> ->. now rewrite slice_eqb_refl.
    + rewrite slice_eqb_neq; [ now apply IH | ].
      intros Heq. apply app_inv_head in Heq. subst k0.
      apply Hnotin. change k with (fst (k, v)). now apply in_map.
  - cbn [app] in Hnd, Hin.
    rewrite slice_eqb_neq; [ now apply IH | ].
    intros Heq. subst key. rewrite strip_prefix_app in Ek0. discriminate.
Qed.

Lemma makeKey_inj (a b : RecordId) : int64 a -> int64 b -> _makeKey a = _makeKey b -> a = b.
Proof.
  intros Ha Hb Heq. apply (f_equal _makeRecordId) in Heq.
  rewrite !makeRecordId_makeKey in Heq by assumption. congruence.
Qed.

Lemma entries_of_keys_NoDup (recs : list (RecordId * Slice)) :
  Forall int64 (ids_of recs) -> NoDup (ids_of recs) -> NoDup (map fst (entries_of recs)).
Proof.
  unfold entries_of, ids_of. induction recs as [| [id v] recs IH]; cbn; intros Hall Hnd.
  - constructor.
  - inversion Hall as [| ? ? Hid Hrest]; subst. inversion Hnd as [| ? ? Hnotin Hnd']; subst.
    constructor; [ | now apply IH ].
    intros Hin. apply in_map_iff in Hin. destruct Hin as ([k' v'] & Hk & Hin').
    apply in_map_iff in Hin'. destruct Hin' as ([id' v''] & Heq & Hin'').
    cbn [fst snd] in Heq. apply pair_equal_spec in Heq. destruct Heq as [<- <-].
    cbn [fst] in Hk.
    rewrite Forall_forall in Hrest.
    assert (Hid' : int64 id') by (apply Hrest; change id' with (fst (id', v'')); now apply in_map).
    apply makeKey_inj in Hk; auto. subst id'.
    apply Hnotin. change id with (fst (id, v'')). now apply in_map.
Qed.

(** The loop of [truncate] over the records [recs], in a transaction whose
    snapshot holds them and meets no write conflict. *)
Lemma truncate_loop_run (registerWrite : Slice -> bool) (snap : DB) (prefix : Slice)
      (isOplog : bool) (tp : option Slice) (recs : list (RecordId * Slice)) :
  forall w : RS.World,
    RS._prefix (RS.rs w) = prefix ->
    RS._isOplog (RS.rs w) = isOplog ->
    tracker_prefix_of (RS.rs w) = tp ->
    (isOplog = true -> tp <> None) ->
    ru_snapshot (recoveryUnit (RS.opCtx w)) = Some snap ->
    Forall (fun r => int64 (fst r)
                     /\ registerWrite (_makePrefixedKey prefix (fst r)) = true
                     /\ db_get (_makePrefixedKey prefix (fst r)) snap = Some (snd r)
                     /\ Z.of_nat (length (snd r)) < 2 ^ 31) recs ->
    exists w',
      RS.truncate_loop registerWrite (entries_of recs) w = (Returned tt, w')
      /\ ru_writeBatch (recoveryUnit (RS.opCtx w'))
         = ru_writeBatch (recoveryUnit (RS.opCtx w))
             ++ map Delete (flat_map (delete_keys prefix isOplog tp) (ids_of recs))
      /\ ru_deltaNumRecords (recoveryUnit (RS.opCtx w'))
         = ru_deltaNumRecords (recoveryUnit (RS.opCtx w)) - Z.of_nat (length recs)
      /\ ru_deltaDataSize (recoveryUnit (RS.opCtx w'))
         = ru_deltaDataSize (recoveryUnit (RS.opCtx w)) - data_size_of recs
      /\ ru_changes (recoveryUnit (RS.opCtx w')) = ru_changes (recoveryUnit (RS.opCtx w))
      /\ RS.db w' = RS.db w
      /\ RS.rs w' = RS.with_tracker (RS._oplogKeyTracker (RS.rs w')) (RS.rs w).
Proof.
  induction recs as [| [id v] recs IH]; intros w Hp Hop Htp Htrk Hsnap Hall.
  - exists w.
    cbn [entries_of map RS.truncate_loop RS.ret ids_of flat_map length data_size_of
         fold_right].
    rewrite app_nil_r. repeat split; try lia. now destruct (RS.rs w).
  - inversion Hall as [| ? ? (Hid & Hreg & Hget & Hlen) Hrest]; subst. cbn [fst snd] in *.
    cbn [entries_of map fst snd RS.truncate_loop].
    rewrite (makeRecordId_makeKey id Hid).
    unfold RS.bind.
    destruct (RS.deleteRecord registerWrite id w) as [out w1] eqn:E.
    pose proof (deleteRecord_cases _ _ _ _ _ E) as Hc. cbv zeta in Hc.
    rewrite Hsnap, Hreg, Hget in Hc.
    destruct Hc as (Hdb1 & [(Hcontra & _) | [(_ & Hcontra & _) | (_ & v' & Hv & Hcase)]]);
      try discriminate.
    injection Hv as <-.
    destruct Hcase as [(Hop' & Hnone & _) | (-> & Hru1 & Hrs1 & Htp1)].
    { exfalso. apply (Htrk Hop'). unfold tracker_prefix_of. now rewrite Hnone. }
    assert (Hp1 : RS._prefix (RS.rs w1) = RS._prefix (RS.rs w)) by now rewrite Hrs1.
    assert (Hop1 : RS._isOplog (RS.rs w1) = RS._isOplog (RS.rs w)) by now rewrite Hrs1.
    destruct (IH w1) as (w' & Hrun & Hb & Hn & Hd & Hch & Hdb & Hrs); auto.
    { now rewrite Hru1. }
    exists w'. split; [ exact Hrun | ].
    rewrite Hru1 in Hb, Hn, Hd, Hch.
    cbn [ru_writeBatch ru_deltaNumRecords ru_deltaDataSize ru_changes] in Hb, Hn, Hd, Hch.
    split; [ | split; [ | split; [ | split; [ | split ] ] ] ].
    + rewrite Hb, <- app_assoc. f_equal.
      cbn [ids_of map fst flat_map]. fold (ids_of recs).
      rewrite map_app. f_equal.
      unfold delete_keys.
      destruct (RS._isOplog (RS.rs w)); [ destruct (tracker_prefix_of (RS.rs w)) | ];
        reflexivity.
    + rewrite Hn. cbn [length]. lia.
    + rewrite Hd. cbn [data_size_of fold_right snd]. fold (data_size_of recs).
      rewrite toInt_small by lia. lia.
    + exact Hch.
    + congruence.
    + rewrite Hrs. rewrite Hrs1. reflexivity.
Qed.

Lemma in_apply_deletes (e : Slice * Slice) (ks : list Slice) :
  forall d : DB, In e (apply_batch (map Delete ks) d) -> In e d /\ ~ In (fst e) ks.
Proof.
  unfold apply_batch. induction ks as [| k ks IH]; intros d H; cbn [map fold_left] in H.
  - split; [ exact H | intros [] ].
  - apply IH in H. destruct H as [Hin Hnot]. cbn [apply_op] in Hin.
    unfold db_delete in Hin. apply filter_In in Hin. destruct Hin as [Hin Hne].
    split; [ exact Hin | ]. intros [Heq | Hin']; [ | contradiction ].
    subst k. rewrite slice_eqb_refl in Hne. discriminate.
Qed.

Lemma in_prefix_entries (p : Slice) (d : DB) (e : Slice * Slice) (k : Slice) :
  In e d -> strip_prefix p (fst e) = Some k -> In (k, snd e) (prefix_entries p d).
Proof.
  intros Hin Hk. unfold prefix_entries. apply in_flat_map. exists e.
  split; [ exact Hin | ]. rewrite Hk. now left.
Qed.

Lemma prefix_entries_nil (p : Slice) (d : DB) :
  (forall e, In e d -> strip_prefix p (fst e) = None) -> prefix_entries p d = [].
Proof.
  induction d as [| e d IH]; intros H; [ reflexivity | ].
  cbn [prefix_entries flat_map]. rewrite (H e (or_introl eq_refl)). cbn [app].
  apply IH. intros e' He'. apply H. now right.
Qed.

Lemma in_delete_keys (prefix : Slice) (isOplog : bool) (tp : option Slice)
      (ids : list RecordId) (k : Slice) :
  In k (flat_map (delete_keys prefix isOplog tp) ids) ->
  exists id, In id ids
             /\ (k = _makePrefixedKey prefix id
                 \/ exists p, tp = Some p /\ k = _makePrefixedKey p id).
Proof.
  intros H. apply in_flat_map in H. destruct H as (id & Hid & Hk).
  exists id. split; [ exact Hid | ]. unfold delete_keys in Hk.
  destruct Hk as [<- | Hk]; [ now left | ].
  destruct isOplog; [ | destruct Hk ].
  destruct tp as [p |]; [ | destruct Hk ].
  destruct Hk as [<- | []]. right. now exists p.
Qed.

(** [truncate] followed by the commit of its transaction leaves the
    collection empty: when no key of the collection is write-locked by
    another transaction, the call returns, the prefix of the collection
    holds no record any more, on the oplog the keys of the records in the
    key tracker are gone as well, the counters go down by the number of
    records and by the bytes they held (to 0 when they were exact), and no
    key outside the collection, its key tracker and the key space of the
    persisted counters is touched. *)
Theorem truncate_commit_empties (registerWrite : Slice -> bool) (w : RS.World)
        (recs : list (RecordId * Slice)) :
  let prefix := RS._prefix (RS.rs w) in
  fresh_transaction w ->
  prefix_entries prefix (RS.db w) = entries_of recs ->
  NoDup (ids_of recs) ->
  Forall int64 (ids_of recs) ->
  Forall (fun r => registerWrite (_makePrefixedKey prefix (fst r)) = true
                   /\ Z.of_nat (length (snd r)) < 2 ^ 31) recs ->
  (RS._isOplog (RS.rs w) = true -> RS._oplogKeyTracker (RS.rs w) <> None) ->
  exists w1 w2,
    RS.truncate registerWrite w = (Returned tt, w1)
    /\ RS.commitTransaction w1 = (Returned tt, w2)
    /\ prefix_entries prefix (RS.db w2) = []
    /\ RS._numRecords (RS.rs w2) = RS._numRecords (RS.rs w) - Z.of_nat (length recs)
    /\ RS._dataSize (RS.rs w2) = RS._dataSize (RS.rs w) - data_size_of recs
    /\ (RS._isOplog (RS.rs w) = true ->
        forall p r, tracker_prefix_of (RS.rs w) = Some p -> In r recs ->
                    db_get (_makePrefixedKey p (fst r)) (RS.db w2) = None)
    /\ (forall key,
          strip_prefix prefix key = None ->
          (forall p, tracker_prefix_of (RS.rs w) = Some p -> strip_prefix p key = None) ->
          ~ counter_key key ->
          db_get key (RS.db w2) = db_get key (RS.db w)).
Proof.
  intros prefix (Hsnap & Hbatch & Hchanges & Hd0 & Hn0) Hent Hnd Hall Hrecs Htrk.
  pose proof (entries_of_keys_NoDup recs Hall Hnd) as Hkeys.
  unfold RS.truncate.
  cbn [RS.bind RS.gets]. unfold RS.bind at 1. rewrite snapshot_run. cbv beta iota zeta.
  rewrite Hsnap.
  unfold Iterator.remaining, Iterator.SeekToFirst, Iterator.NewIterator.
  cbn [Iterator.pos Iterator.entries skipn]. fold prefix. rewrite Hent.
  match goal with
  | |- context [RS.truncate_loop _ _ ?w0] => set (w0' := w0)
  end.
  destruct (truncate_loop_run registerWrite (RS.db w) prefix (RS._isOplog (RS.rs w))
              (tracker_prefix_of (RS.rs w)) recs w0')
    as (w1 & Hrun & Hb & Hn & Hd & Hch & Hdb1 & Hrs1); try reflexivity.
  { intros Hop. specialize (Htrk Hop). unfold tracker_prefix_of.
    destruct (RS._oplogKeyTracker (RS.rs w)); [ discriminate | congruence ]. }
  { rewrite Forall_forall in *. intros [id v] Hin. cbn [fst snd].
    destruct (Hrecs _ Hin) as [Hreg Hlen]. cbn [fst snd] in Hreg, Hlen.
    split; [ apply Hall; change id with (fst (id, v)); unfold ids_of; now apply in_map | ].
    split; [ exact Hreg | ]. split; [ | exact Hlen ].
    unfold _makePrefixedKey. apply prefix_entries_get.
    - fold prefix. now rewrite Hent.
    - fold prefix. rewrite Hent. unfold entries_of.
      change (_makeKey id, v) with ((fun r : RecordId * Slice => (_makeKey (fst r), snd r)) (id, v)).
      now apply in_map. }
  subst w0'. cbn [RS.opCtx RS.set_ru recoveryUnit ru_writeBatch ru_deltaNumRecords
                  ru_deltaDataSize ru_changes RS.db RS.rs] in Hb, Hn, Hd, Hch, Hdb1, Hrs1.
  rewrite Hbatch in Hb. rewrite Hn0 in Hn. rewrite Hd0 in Hd. rewrite Hchanges in Hch.
  cbn [app] in Hb.
  destruct (RS.commitTransaction w1) as [out2 w2] eqn:E2.
  pose proof (commitTransaction_returns _ _ _ E2) as Hc2. cbv zeta in Hc2.
  rewrite Hb, Hn, Hd in Hc2. destruct Hc2 as (Hdb2 & Hrs2 & Hru2 & Hout2).
  exists w1, w2.
  split; [ exact Hrun | ]. rewrite E2, (Hout2 Hch). split; [ reflexivity | ].
  rewrite Hdb1 in Hdb2.
  split; [ | split; [ | split; [ | split ] ] ].
  - apply prefix_entries_nil. intros e He. rewrite Hdb2 in He.
    apply in_apply_deletes in He. destruct He as [He Hnot].
    destruct (strip_prefix prefix (fst e)) as [k |] eqn:Ek; [ exfalso | reflexivity ].
    pose proof (in_prefix_entries _ _ _ _ He Ek) as Hin. rewrite Hent in Hin.
    unfold entries_of in Hin. apply in_map_iff in Hin. destruct Hin as ([id v] & Heq & Hin).
    cbn [fst snd] in Heq. apply pair_equal_spec in Heq. destruct Heq as [Hk _].
    apply strip_prefix_some in Ek. apply Hnot. apply in_flat_map. exists id.
    split; [ change id with (fst (id, v)); unfold ids_of; now apply in_map | ].
    unfold delete_keys. left. unfold _makePrefixedKey. now rewrite Hk.
  - rewrite Hrs2. cbn [RS._numRecords RS.with_vm RS.with_counters]. rewrite Hrs1.
    cbn [RS._numRecords RS.with_tracker]. lia.
  - rewrite Hrs2. cbn [RS._dataSize RS.with_vm RS.with_counters]. rewrite Hrs1.
    cbn [RS._dataSize RS.with_tracker]. lia.
  - intros Hop p r Hp Hin. rewrite Hdb2, db_get_after_deletes.
    replace (existsb (slice_eqb (_makePrefixedKey p (fst r))) _) with true;
      [ reflexivity | ].
    symmetry. apply existsb_exists. exists (_makePrefixedKey p (fst r)).
    split; [ | apply slice_eqb_refl ].
    apply in_flat_map. exists (fst r).
    split; [ unfold ids_of; now apply in_map | ].
    unfold delete_keys. rewrite Hop, Hp. right. left. reflexivity.
  - intros key Hkey Htkey _. rewrite Hdb2, db_get_after_deletes.
    destruct (existsb (slice_eqb key) _) eqn:Ex; [ exfalso | reflexivity ].
    apply existsb_exists in Ex. destruct Ex as (k & Hk & Heq).
    apply slice_eqb_eq in Heq. subst k.
    apply in_delete_keys in Hk. destruct Hk as (id & _ & [Hk | (p & Hp & Hk)]).
    + subst key. unfold _makePrefixedKey in Hkey. rewrite strip_prefix_app in Hkey.
      discriminate.
    + specialize (Htkey p Hp). subst key. unfold _makePrefixedKey in Htkey.
      rewrite strip_prefix_app in Htkey. discriminate.
Qed.

Lemma truncate_commit_empties_witness :
  let w := oplog_three_world in
  let recs := map (fun id => (id, oplog_entry id)) [10; 20; 30] in
  exists w1 w2,
    RS.truncate (fun _ => true) w = (Returned tt, w1)
    /\ RS.commitTransaction w1 = (Returned tt, w2)
    /\ prefix_entries (RS._prefix (RS.rs w)) (RS.db w2) = []
    /\ RS._numRecords (RS.rs w2) = RS._numRecords (RS.rs w) - Z.of_nat (length recs)
    /\ RS._dataSize (RS.rs w2) = RS._dataSize (RS.rs w) - data_size_of recs
    /\ (RS._isOplog (RS.rs w) = true ->
        forall p r, tracker_prefix_of (RS.rs w) = Some p -> In r recs ->
                    db_get (_makePrefixedKey p (fst r)) (RS.db w2) = None)
    /\ (forall key,
          strip_prefix (RS._prefix (RS.rs w)) key = None ->
          (forall p, tracker_prefix_of (RS.rs w) = Some p -> strip_prefix p key = None) ->
          ~ counter_key key ->
          db_get key (RS.db w2) = db_get key (RS.db w)).
Proof.
  intros w recs.
  apply (truncate_commit_empties (fun _ => true) w recs).
  - vm_compute. repeat split; reflexivity.
  - vm_compute. reflexivity.
  - cbn. repeat constructor; cbn; intuition lia.
  - unfold int64, kMinRepr, kMaxRepr. cbn. repeat constructor; lia.
  - repeat constructor; cbn; lia.
  - discriminate.
Defined.

(* ================================================================== *)
(** * Decoding a key and encoding it again *)
(* ================================================================== *)

Lemma be_digits_add (n : nat) (a r : Z) :
  be_digits n (a * 256 ^ Z.of_nat n + r) = be_digits n r.
Proof.
  revert a. induction n as [| n IH]; intros a; [ reflexivity | ].
  cbn [be_digits]. pose proof (pow256_pos n) as Hp.
  rewrite Nat2Z.inj_succ, Z.pow_succ_r by lia.
  replace (a * (256 * 256 ^ Z.of_nat n) + r) with ((a * 256) * 256 ^ Z.of_nat n + r) by ring.
  rewrite IH. f_equal.
  rewrite Z.div_add_l by lia.
  rewrite Z.add_comm, Z.mod_add by lia. reflexivity.
Qed.

Lemma be_combine_acc (bs : Slice) (acc : Z) :
  Forall is_byte bs ->
  fold_left (fun a b => Z.lor (Z.shiftl a 8) b) bs acc
  = acc * 256 ^ Z.of_nat (length bs) + be_combine bs
  /\ 0 <= be_combine bs < 256 ^ Z.of_nat (length bs).
Proof.
  unfold be_combine. revert acc. induction bs as [| b bs IH]; intros acc Hall.
  - cbn. split; lia.
  - inversion Hall as [| ? ? Hb Hrest]; subst. cbn [fold_left length].
    rewrite !lor_shiftl8 by exact Hb.
    destruct (IH (acc * 256 + b) Hrest) as [-> Hrange].
    destruct (IH (0 * 256 + b) Hrest) as [-> _].
    rewrite Nat2Z.inj_succ, Z.pow_succ_r by lia.
    pose proof (pow256_pos (length bs)) as Hp. unfold is_byte in Hb.
    split; [ ring | nia ].
Qed.

Lemma be_digits_combine (bs : Slice) :
  Forall is_byte bs -> be_digits (length bs) (be_combine bs) = bs.
Proof.
  induction bs as [| b bs IH]; intros Hall; [ reflexivity | ].
  inversion Hall as [| ? ? Hb Hrest]; subst.
  destruct (be_combine_acc bs 0 Hrest) as [_ Hrange].
  assert (Hc : be_combine (b :: bs) = b * 256 ^ Z.of_nat (length bs) + be_combine bs).
  { unfold be_combine at 1. cbn [fold_left]. rewrite lor_shiftl8 by exact Hb.
    destruct (be_combine_acc bs (0 * 256 + b) Hrest) as [-> _]. ring. }
  rewrite Hc. cbn [length be_digits]. pose proof (pow256_pos (length bs)) as Hp.
  rewrite be_digits_add, (IH Hrest). f_equal.
  rewrite Z.div_add_l by lia. rewrite Z.div_small by lia.
  unfold is_byte in Hb. rewrite Z.add_0_r. apply Z.mod_small. lia.
Qed.

(** Decoding is the inverse of encoding on both sides: a slice of eight
    bytes that [_makeRecordId] decodes to [id] is the key [_makeKey id], so
    two different slices never decode to the same id, and two different ids
    never have the same key. *)
Theorem makeKey_makeRecordId (slice : Slice) (id : RecordId) :
  Forall is_byte slice ->
  _makeRecordId slice = Some id ->
  _makeKey id = slice
  /\ int64 id
  /\ (forall prefix, strip_prefix prefix (_makePrefixedKey prefix id) = Some slice)
  /\ (forall other, int64 other -> _makeKey other = slice -> other = id).
Proof.
  intros Hall H. unfold _makeRecordId in H.
  destruct (Nat.eqb_spec (length slice) 8) as [Hlen | Hlen]; [ | discriminate ].
  injection H as <-.
  destruct (be_combine_acc slice 0 Hall) as [_ Hrange]. rewrite Hlen in Hrange.
  change (256 ^ Z.of_nat 8) with (2 ^ 64) in Hrange.
  assert (Hkey : _makeKey (toSigned64 (be_combine slice)) = slice).
  { unfold _makeKey. rewrite nativeToBig_digits. unfold toSigned64.
    destruct (Z.ltb_spec (be_combine slice) (2 ^ 63)).
    - rewrite <- Hlen. now apply be_digits_combine.
    - replace (be_combine slice - 2 ^ 64)
        with ((-1) * 256 ^ Z.of_nat 8 + be_combine slice)
        by (change (256 ^ Z.of_nat 8) with (2 ^ 64); ring).
      rewrite be_digits_add, <- Hlen. now apply be_digits_combine. }
  assert (Hint : int64 (toSigned64 (be_combine slice))).
  { unfold int64, kMinRepr, kMaxRepr, toSigned64.
    destruct (Z.ltb_spec (be_combine slice) (2 ^ 63)); lia. }
  split; [ exact Hkey | ]. split; [ exact Hint | ]. split.
  - intros prefix. unfold _makePrefixedKey. rewrite Hkey. apply strip_prefix_app.
  - intros other Ho Heq. apply makeKey_inj; auto. congruence.
Qed.

Lemma makeKey_makeRecordId_witness :
  _makeKey 258 = [0; 0; 0; 0; 0; 0; 1; 2]
  /\ int64 258
  /\ (forall prefix, strip_prefix prefix (_makePrefixedKey prefix 258)
                     = Some [0; 0; 0; 0; 0; 0; 1; 2])
  /\ (forall other, int64 other -> _makeKey other = [0; 0; 0; 0; 0; 0; 1; 2] -> other = 258).
Proof.
  apply (makeKey_makeRecordId [0; 0; 0; 0; 0; 0; 1; 2] 258).
  - unfold is_byte. repeat constructor; lia.
  - reflexivity.
Defined.

(* ================================================================== *)
(** * Counters seen by a transaction, and a cursor after [seekExact] *)
(* ================================================================== *)

(** A transaction sees its own insert in [numRecords(opCtx)] and
    [dataSize(opCtx)] before it commits: on a collection that is not
    capped, one record and [len] bytes more than before the insert. *)
Theorem counters_include_own_insert
        (extractKey : Slice -> Z -> StatusWith RecordId) (kM kD : Z) (env : Env)
        (data : Slice) (len : Z) (w : RS.World) (loc : RecordId) (w1 : RS.World) :
  RS._isCapped (RS.rs w) = false ->
  RS.insertRecord extractKey kM kD env data len w = (Returned (SW_OK loc), w1) ->
  exists n d,
    RS.numRecords w = (Returned n, w)
    /\ RS.dataSize w = (Returned d, w)
    /\ RS.numRecords w1 = (Returned (n + 1), w1)
    /\ RS.dataSize w1 = (Returned (d + len), w1).
Proof.
  intros Hcap H. apply insertRecord_returns in H. cbv zeta in H.
  destruct H as (_ & Hn & Hd & _ & _ & _ & _ & _ & _ & _ & _ & Hplain).
  destruct (Hplain Hcap) as (_ & Hds & Hnr).
  exists (RS._numRecords (RS.rs w) + ru_deltaNumRecords (recoveryUnit (RS.opCtx w))),
    (RS._dataSize (RS.rs w) + ru_deltaDataSize (recoveryUnit (RS.opCtx w))).
  split; [ reflexivity | ]. split; [ reflexivity | ].
  change (RS.numRecords w1)
    with (Returned (RS._numRecords (RS.rs w1)
                    + ru_deltaNumRecords (recoveryUnit (RS.opCtx w1))), w1).
  change (RS.dataSize w1)
    with (Returned (RS._dataSize (RS.rs w1)
                    + ru_deltaDataSize (recoveryUnit (RS.opCtx w1))), w1).
  rewrite Hn, Hd, Hds, Hnr.
  split; (apply f_equal2; [ | reflexivity ]); apply f_equal; lia.
Qed.

Lemma counters_include_own_insert_witness :
  let r := RS.insertRecord sample_extractKey 60 1000000 quiet_env [120; 121] 2 plain_world in
  exists n d,
    RS.numRecords plain_world = (Returned n, plain_world)
    /\ RS.dataSize plain_world = (Returned d, plain_world)
    /\ RS.numRecords (snd r) = (Returned (n + 1), snd r)
    /\ RS.dataSize (snd r) = (Returned (d + 2), snd r).
Proof.
  intros r.
  apply (counters_include_own_insert sample_extractKey 60 1000000 quiet_env [120; 121] 2
           plain_world 5 (snd r)).
  - reflexivity.
  - vm_compute. reflexivity.
Defined.

(* ================================================================== *)
(** * Exceptions that escape an insert *)
(* ================================================================== *)

Lemma never_throws_ret (e : Exception) (A : Type) (a : A) : never_throws e (RS.ret a).
Proof. intros w out w' H. injection H as <- _. discriminate. Qed.

Lemma never_throws_abort (e : Exception) (A : Type) : never_throws e (@RS.abort A).
Proof. intros w out w' H. injection H as <- _. discriminate. Qed.

Lemma never_throws_gets (e : Exception) (A : Type) (f : RS.World -> A) :
  never_throws e (RS.gets f).
Proof. intros w out w' H. injection H as <- _. discriminate. Qed.

Lemma never_throws_modify (e : Exception) (f : RS.World -> RS.World) :
  never_throws e (RS.modify f).
Proof. intros w out w' H. injection H as <- _. discriminate. Qed.

Lemma never_throws_throw (e e' : Exception) (A : Type) :
  e' <> e -> never_throws e (@RS.throw A e').
Proof. intros Hne w out w' H. injection H as <- _. congruence. Qed.

Lemma never_throws_bind (e : Exception) (A B : Type) (m : RS.M A) (k : A -> RS.M B) :
  never_throws e m -> (forall a, never_throws e (k a)) -> never_throws e (RS.bind m k).
Proof.
  intros Hm Hk w out w' H. unfold RS.bind in H.
  destruct (m w) as [[a | e' |] w1] eqn:E.
  - exact (Hk a w1 out w' H).
  - injection H as <- _. pose proof (Hm w (Threw e') w1 E) as Hne.
    intros Heq. apply Hne. injection Heq as ->. reflexivity.
  - injection H as <- _. discriminate.
Qed.

(** Whatever the body does, what escapes a [try] block is what its handler
    lets through. *)
Lemma never_throws_try_catch (e : Exception) (A : Type) (body : RS.M A)
      (handler : Exception -> RS.M A) :
  (forall e', never_throws e (handler e')) -> never_throws e (RS.try_catch body handler).
Proof.
  intros Hh w out w' H. unfold RS.try_catch in H.
  destruct (body w) as [[a | e' |] w1] eqn:E.
  - injection H as <- _. discriminate.
  - exact (Hh e' w1 out w' H).
  - injection H as <- _. discriminate.
Qed.

Lemma never_throws_theVisibilityManager (e : Exception) :
  never_throws e RS.theVisibilityManager.
Proof.
  intros w out w' H. unfold RS.theVisibilityManager in H.
  destruct (RS._cappedVisibilityManager (RS.rs w)); injection H as <- _; discriminate.
Qed.

Lemma never_throws_theTracker (e : Exception) : never_throws e RS.theTracker.
Proof.
  intros w out w' H. unfold RS.theTracker in H.
  destruct (RS._oplogKeyTracker (RS.rs w)); injection H as <- _; discriminate.
Qed.

Lemma never_throws_snapshot (e : Exception) : never_throws e RS.snapshot.
Proof.
  intros w out w' H. unfold RS.snapshot in H.
  destruct (ru_snapshot (recoveryUnit (RS.opCtx w))); injection H as <- _; discriminate.
Qed.

(** Splits a goal [never_throws e m] along the shape of [m]. *)
Ltac never_throws_split :=
  repeat lazymatch goal with
    | |- never_throws _ (RS.bind _ _) => apply never_throws_bind; [ | intros ? ]
    | |- never_throws _ (RS.try_catch _ _) => apply never_throws_try_catch; intros ?
    | |- never_throws _ (RS.ret _) => apply never_throws_ret
    | |- never_throws _ RS.abort => apply never_throws_abort
    | |- never_throws _ (RS.gets _) => apply never_throws_gets
    | |- never_throws _ RS.getRU => apply never_throws_gets
    | |- never_throws _ (RS.modify _) => apply never_throws_modify
    | |- never_throws _ (RS.emit _) => apply never_throws_modify
    | |- never_throws _ RS.theVisibilityManager => apply never_throws_theVisibilityManager
    | |- never_throws _ RS.theTracker => apply never_throws_theTracker
    | |- never_throws _ RS.snapshot => apply never_throws_snapshot
    | |- never_throws _ (RS.throw UserException) =>
        apply never_throws_throw; discriminate
    | |- never_throws _ (RS.invariant ?b) => unfold RS.invariant; destruct b
    | |- never_throws _ (if ?b then _ else _) => destruct b
    | |- never_throws _ (match ?x with _ => _ end) => destruct x
    end.

Lemma cappedDeleteAsNeeded_inlock_no_conflict (kM kD : Z) (env : Env) (j : RecordId) :
  never_throws WriteConflictException (RS.cappedDeleteAsNeeded_inlock kM kD env j).
Proof.
  unfold RS.cappedDeleteAsNeeded_inlock. never_throws_split.
Qed.

Lemma never_throws_holding_lock (e : Exception) (A : Type) (body : RS.M A) :
  never_throws e body -> never_throws e (RS.holding_lock body).
Proof.
  intros Hb w out w' H. unfold RS.holding_lock, RS.bind, RS.try_catch in H.
  destruct (body w) as [[a | e' |] w1] eqn:E; cbn in H.
  - injection H as <- _. discriminate.
  - injection H as <- _. exact (Hb w (Threw e') w1 E).
  - injection H as <- _. discriminate.
Qed.

Lemma cappedDeleteAsNeeded_no_conflict (kM kD : Z) (env : Env) (j : RecordId) :
  never_throws WriteConflictException (RS.cappedDeleteAsNeeded kM kD env j).
Proof.
  unfold RS.cappedDeleteAsNeeded, RS.cappedAndNeedDelete.
  never_throws_split;
    try (apply never_throws_holding_lock; apply cappedDeleteAsNeeded_inlock_no_conflict).
Qed.

(** No write conflict escapes an insert: [insertRecord], and the capped
    deletion it ends with, never throw [WriteConflictException]. A key of
    an old record that another transaction has write-locked stops the
    deleter, and a conflict thrown while it deletes is caught and its
    sub-transaction abandoned. What can escape is the error of the capped
    callback. *)
Theorem insertRecord_never_throws_write_conflict
        (extractKey : Slice -> Z -> StatusWith RecordId) (kM kD : Z) (env : Env)
        (data : Slice) (len : Z) (justInserted : RecordId) (w : RS.World) :
  fst (RS.insertRecord extractKey kM kD env data len w) <> Threw WriteConflictException
  /\ fst (RS.cappedDeleteAsNeeded kM kD env justInserted w) <> Threw WriteConflictException
  /\ fst (RS.cappedDeleteAsNeeded_inlock kM kD env justInserted w)
     <> Threw WriteConflictException.
Proof.
  assert (Hins : never_throws WriteConflictException
                   (RS.insertRecord extractKey kM kD env data len)).
  { unfold RS.insertRecord, RS.vm_updateHighestSeen, RS.vm_getNextAndAddUncommittedRecord,
      RS._nextId, RS.writeBatch_Put, RS.insertKey, RS._changeNumRecords,
      RS._increaseDataSize, RS.registerChanges.
    never_throws_split; try apply cappedDeleteAsNeeded_no_conflict;
      unfold RS.writeBatch_Put; never_throws_split. }
  split; [ | split ].
  - eapply Hins. apply surjective_pairing.
  - eapply cappedDeleteAsNeeded_no_conflict. apply surjective_pairing.
  - eapply cappedDeleteAsNeeded_inlock_no_conflict. apply surjective_pairing.
Qed.

Lemma db_get_In (key v : Slice) (d : DB) : db_get key d = Some v -> In (key, v) d.
Proof.
  induction d as [| [k' v'] d IH]; cbn; [ discriminate | ].
  destruct (slice_eqb key k') eqn:E.
  - intros H. injection H as ->. apply slice_eqb_eq in E. subst k'. now left.
  - intros H. right. now apply IH.
Qed.

(** After [seekExact(id)] has found a record, [next()] goes on from it: on
    a forward cursor without a read ceiling it returns the first record
    above [id], unless that record is hidden, and nothing at the end of the
    collection. *)
Theorem seekExact_then_next (vm : option VM.t) (snapshot : DB) (id : RecordId)
        (c : Cursor.t) (recs : list (RecordId * Slice)) (data : Slice) (c1 : Cursor.t) :
  Cursor._forward c = true ->
  Cursor._readUntilForOplog c = RecordId_null ->
  prefix_entries (Cursor._prefix c) snapshot = entries_of recs ->
  StronglySorted Z.lt (ids_of recs) ->
  Forall stored_id (ids_of recs) ->
  stored_id id ->
  Cursor.seekExact snapshot id c = Some (Some (id, data), c1) ->
  In id (ids_of recs)
  /\ exists c2,
       Cursor.next vm snapshot c1
       = Some (match find (fun r => id <? fst r) recs with
               | Some r =>
                   if match vm with
                      | Some m => VM.isCappedHidden (fst r) m
                      | None => false
                      end
                   then None else Some r
               | None => None
               end, c2).
Proof.
  intros Hfwd Hnull Hent Hs Hall Hid Hseek.
  destruct c as [prefix forward isCapped readUntil eof needFirstSeek skip t it sr].
  cbn [Cursor._forward Cursor._readUntilForOplog Cursor._prefix] in *.
  subst forward readUntil.
  unfold Cursor.seekExact, Get in Hseek. cbn [Cursor._prefix] in Hseek.
  destruct (db_get (_makePrefixedKey prefix id) snapshot) as [v |] eqn:Hget;
    [ | discriminate ].
  injection Hseek as <- <-.
  assert (Hin : In id (ids_of recs)).
  { apply db_get_In in Hget.
    pose proof (in_prefix_entries prefix snapshot _ (_makeKey id) Hget
                  (strip_prefix_app prefix (_makeKey id))) as Hin.
    rewrite Hent in Hin. unfold entries_of in Hin. apply in_map_iff in Hin.
    destruct Hin as ([id' v'] & Heq & Hin). cbn [fst snd] in Heq.
    apply pair_equal_spec in Heq. destruct Heq as [Hk _].
    assert (Hid' : stored_id id').
    { rewrite Forall_forall in Hall. apply Hall. change id' with (fst (id', v')).
      unfold ids_of. now apply in_map. }
    apply makeKey_inj in Hk; [ | exact (proj2 Hid') | exact (proj2 Hid) ].
    subst id'. change id with (fst (id, v')). unfold ids_of. now apply in_map. }
  split; [ exact Hin | ].
  pose proof (find_count_below id recs) as Hfind.
  pose proof (count_below_succ id (ids_of recs) Hs) as Hsucc.
  pose proof (proj2 (count_below_present id (ids_of recs) Hs) Hin) as Hpresent.
  rewrite Hpresent, Z.eqb_refl in Hsucc.
  assert (Hstored : forall j x, nth_error (ids_of recs) j = Some x -> stored_id x).
  { intros j x Hx. rewrite Forall_forall in Hall. apply Hall. eapply nth_error_In; eauto. }
  set (n := count_below id (ids_of recs)) in *.
  destruct (nth_error recs n) as [[idn vn] |] eqn:En.
  2:{ rewrite nth_error_ids_of, En in Hpresent. discriminate. }
  assert (Hidn : idn = id).
  { rewrite nth_error_ids_of, En in Hpresent. cbn in Hpresent. congruence. }
  subst idn.
  assert (Hlt : (n < length recs)%nat).
  { apply nth_error_Some. congruence. }
  unfold Cursor.next.
  cbn [Cursor._eof Cursor.iterator Cursor._iterator Cursor._needFirstSeek negb
       Cursor._prefix Cursor._forward Cursor._isCapped Cursor._readUntilForOplog
       Cursor._skipNextAdvance Cursor._lastLoc Cursor._seekExactResult].
  unfold Cursor.positionIterator.
  cbn [Cursor._iterator Cursor._lastLoc Cursor._forward Cursor._prefix Cursor._isCapped
       Cursor._readUntilForOplog Cursor._needFirstSeek Cursor._seekExactResult].
  unfold Iterator.NewIterator. rewrite Hent.
  change (Iterator.current (Iterator.mk (entries_of recs) None)) with (@None (Slice * Slice)).
  cbv iota.
  unfold Iterator.Seek. cbn [Iterator.entries].
  rewrite seek_index_entries_of by assumption. cbn [Nat.add]. fold n.
  destruct (Nat.ltb_spec n (length recs)) as [_ | Hge]; [ | lia ].
  change (Iterator.current (Iterator.mk (entries_of recs) (Some n)))
    with (nth_error (entries_of recs) n).
  rewrite nth_error_entries_of, En. cbn [option_map fst snd].
  rewrite (makeRecordId_stored id Hid). rewrite Z.eqb_refl. cbn [negb].
  change (Iterator.current (Iterator.mk (entries_of recs) (Some n)))
    with (nth_error (entries_of recs) n).
  rewrite nth_error_entries_of, En. cbn [option_map fst snd].
  rewrite (makeRecordId_stored id Hid). rewrite Z.eqb_refl. cbn [negb].
  cbn [Cursor._iterator Cursor._skipNextAdvance Cursor._needFirstSeek Cursor._forward
       negb fst snd Cursor._prefix Cursor._isCapped Cursor._readUntilForOplog
       Cursor._eof Cursor._lastLoc Cursor._seekExactResult].
  rewrite <- Hfind, Hsucc.
  unfold Cursor.curr. cbn [Cursor._iterator]. unfold Iterator.Next, Iterator.current.
  cbn [Iterator.pos Iterator.entries]. rewrite nth_error_entries_of.
  destruct (nth_error recs (S n)) as [[idm vm'] |] eqn:Em; cbn [option_map fst snd].
  - assert (Eidm : nth_error (ids_of recs) (S n) = Some idm).
    { rewrite nth_error_ids_of, Em. reflexivity. }
    rewrite (makeRecordId_stored idm (Hstored _ _ Eidm)).
    cbn [Cursor._forward Cursor._readUntilForOplog].
    change (isNull RecordId_null) with true. cbv iota.
    destruct vm as [m |].
    + destruct (VM.isCappedHidden idm m); eexists; reflexivity.
    + eexists. reflexivity.
  - eexists. reflexivity.
Qed.

Lemma seekExact_then_next_witness :
  let c := Cursor.mk [80] true false RecordId_null false true false RecordId_null None [] in
  let recs := [(1, [97]); (2, [98; 99]); (4, [100; 101; 102])] in
  let snapshot := RS.db plain_world in
  let c1 := Cursor.mk [80] true false RecordId_null false false false 2 None [98; 99] in
  In 2 (ids_of recs)
  /\ exists c2,
       Cursor.next None snapshot c1
       = Some (match find (fun r => 2 <? fst r) recs with
               | Some r => if false then None else Some r
               | None => None
               end, c2).
Proof.
  intros c recs snapshot c1.
  apply (seekExact_then_next None snapshot 2 c recs [98; 99] c1).
  - reflexivity.
  - reflexivity.
  - vm_compute. reflexivity.
  - cbn. repeat constructor; lia.
  - unfold stored_id, int64, kMinRepr, kMaxRepr. cbn. repeat constructor; lia.
  - unfold stored_id, int64, kMinRepr, kMaxRepr. lia.
  - vm_compute. reflexivity.
Defined.

(* ================================================================== *)
(** * Scans in reverse and scans below a read ceiling *)
(* ================================================================== *)

Lemma filter_none (A : Type) (f : A -> bool) (l : list A) :
  (forall x, In x l -> f x = false) -> filter f l = [].
Proof.
  induction l as [| x l IH]; intros H; cbn [filter]; [ reflexivity | ].
  rewrite (H x (or_introl eq_refl)). apply IH. intros y Hy. apply H. now right.
Qed.

Lemma firstn_count_below_filter (t : RecordId) (recs : list (RecordId * Slice)) :
  StronglySorted Z.lt (ids_of recs) ->
  firstn (count_below t (ids_of recs)) recs = filter (fun r => fst r <? t) recs.
Proof.
  unfold ids_of. induction recs as [| [id v] recs IH]; intros Hs;
    cbn [map count_below fst filter firstn].
  - reflexivity.
  - inversion Hs as [| ? ? Hs' Hall]; subst.
    destruct (Z.ltb_spec id t) as [Hlt | Hge]; cbn [firstn].
    + f_equal. apply IH. exact Hs'.
    + symmetry. apply filter_none. intros [x vx] Hx. cbn [fst].
      rewrite Forall_forall in Hall.
      assert (id < x) by (apply Hall; apply (in_map fst) in Hx; exact Hx).
      apply Z.ltb_ge. lia.
Qed.

Lemma firstn_succ_nth (A : Type) (l : list A) (n : nat) (x : A) :
  nth_error l n = Some x -> firstn (S n) l = firstn n l ++ [x].
Proof.
  revert n. induction l as [| y l IH]; intros n H.
  - destruct n; discriminate.
  - destruct n as [| n]; cbn in H.
    + injection H as ->. reflexivity.
    + cbn [firstn app]. f_equal. change (firstn (S n) l = firstn n l ++ [x]). now apply IH.
Qed.

(** The scan in reverse from a position of the iterator down: the record
    under the iterator, then what [next()] returns. *)
Lemma reverse_scan_from_position (vm : option VM.t) (snapshot : DB) (prefix : Slice)
      (isCapped : bool) (readUntil : RecordId) (recs : list (RecordId * Slice)) :
  Forall int64 (ids_of recs) ->
  forall (n : nat) (lastLoc : RecordId) (sr : Slice),
    (n <= length recs)%nat ->
    exists c',
      match Cursor.curr vm
              (Cursor.mk prefix false isCapped readUntil false false false lastLoc
                         (Some (Iterator.mk (entries_of recs)
                                            (match n with O => None | S q => Some q end))) sr) with
      | Some (r, c1) =>
          match next_n n vm snapshot c1 with
          | Some (rs, c2) => Some (r :: rs, c2)
          | None => None
          end
      | None => None
      end = Some (map Some (rev (firstn n recs)) ++ [None], c')
      /\ Cursor._eof c' = true.
Proof.
  intros Hall n. induction n as [| q IH]; intros lastLoc sr Hn.
  - unfold Cursor.curr. cbn [Cursor._iterator]. unfold Iterator.current.
    cbn [Iterator.pos firstn rev map app next_n].
    eexists. split; reflexivity.
  - destruct (nth_error recs q) as [r |] eqn:Hnth; [ | apply nth_error_None in Hnth; lia ].
    assert (Hid : int64 (fst r)).
    { rewrite Forall_forall in Hall. apply Hall. unfold ids_of. apply in_map.
      eapply nth_error_In; eauto. }
    unfold Cursor.curr. cbn [Cursor._iterator]. unfold Iterator.current.
    cbn [Iterator.pos Iterator.entries]. rewrite nth_error_entries_of, Hnth.
    cbn [option_map]. rewrite (makeRecordId_makeKey _ Hid).
    cbn [Cursor._forward].
    replace (match vm with
             | Some _ => false
             | None => false
             end) with false by now destruct vm.
    cbv iota.
    rewrite (firstn_succ_nth _ recs q r Hnth), rev_app_distr. cbn [rev app map].
    specialize (IH (fst r) sr ltac:(lia)). destruct IH as (c' & IH & Heof).
    exists c'. split; [ | exact Heof ].
    cbn [next_n]. unfold Cursor.next at 1.
    cbn [Cursor._eof Cursor.iterator Cursor._iterator Cursor._skipNextAdvance
         Cursor._needFirstSeek Cursor._forward negb fst snd Iterator.Prev
         Iterator.pos Iterator.entries Cursor._prefix Cursor._isCapped
         Cursor._readUntilForOplog Cursor._lastLoc Cursor._seekExactResult].
    destruct (Cursor.curr vm _) as [[r1 c1] |]; [ | discriminate ].
    destruct (next_n _ vm snapshot c1) as [[rs c2] |]; [ | discriminate ].
    injection IH as -> ->. destruct r as [id data]. reflexivity.
Qed.

Lemma count_below_succ_all (t : RecordId) (ids : list RecordId) :
  StronglySorted Z.lt ids ->
  count_below t ids = length ids -> count_below (t + 1) ids = length ids.
Proof.
  intros Hs Hall. rewrite (count_below_succ t ids Hs), Hall.
  replace (nth_error ids (length ids)) with (@None RecordId); [ reflexivity | ].
  symmetry. apply nth_error_None. lia.
Qed.

(** A cursor in reverse returns every record, the last one first, whatever
    the visibility manager hides; a reverse cursor on an oplog that was
    given a start position and a read ceiling begins at the last record at
    or below the start position. After the first record it reports the end
    and goes on reporting it. *)
Theorem reverse_scan_returns_all_from_start
        (vm : option VM.t) (snapshot : DB) (prefix : Slice) (isCapped : bool)
        (readUntil startIterator : RecordId) (recs : list (RecordId * Slice))
        (c : Cursor.t) :
  Cursor.construct snapshot readUntil prefix false isCapped startIterator = Some c ->
  prefix_entries prefix snapshot = entries_of recs ->
  StronglySorted Z.lt (ids_of recs) ->
  Forall stored_id (ids_of recs) ->
  stored_id startIterator ->
  let from (r : RecordId * Slice) :=
    isNull startIterator || isNull readUntil || (fst r <=? startIterator) in
  exists c',
    next_n (S (length (filter from recs))) vm snapshot c
    = Some (map Some (rev (filter from recs)) ++ [None], c')
    /\ Cursor.next vm snapshot c' = Some (None, c').
Proof.
  intros Hc Hent Hs Hstored Hstart from.
  assert (Hall : Forall int64 (ids_of recs)).
  { eapply Forall_impl; [ | exact Hstored ]. intros a [_ Ha]. exact Ha. }

  unfold Cursor.construct in Hc.
  destruct (negb (isNull startIterator) && negb (isNull readUntil)) eqn:Hhack.
  - (* positioned by the constructor *)
    apply andb_true_iff in Hhack. destruct Hhack as [Hs0 Hr0].
    apply negb_true_iff in Hs0. apply negb_true_iff in Hr0.
    set (n := count_below (startIterator + 1) (ids_of recs)).
    assert (Hfilter : filter from recs = firstn n recs).
    { unfold n. rewrite firstn_count_below_filter by exact Hs.
      apply filter_ext. intros r. unfold from. rewrite Hs0, Hr0. cbn [orb].
      unfold RecordId in *.
      destruct (Z.leb_spec (fst r) startIterator), (Z.ltb_spec (fst r) (startIterator + 1));
        auto; lia. }
    assert (Hn : (n <= length recs)%nat).
    { unfold n. pose proof (count_below_le (startIterator + 1) (ids_of recs)) as H.
      unfold ids_of in H. rewrite length_map in H. exact H. }
    assert (Hlen : length (filter from recs) = n).
    { rewrite Hfilter. apply firstn_length_le. exact Hn. }
    assert (Hpos : exists eof skip,
               Cursor.positionIterator
                 (Cursor.mk prefix false isCapped readUntil false false false startIterator
                            (Some (Iterator.NewIterator prefix snapshot)) [])
               = Some (Cursor.mk prefix false isCapped readUntil eof false skip startIterator
                                 (Some (Iterator.mk (entries_of recs)
                                          (match n with O => None | S q => Some q end))) [])).
    { unfold Cursor.positionIterator. cbn [Cursor._iterator Cursor._lastLoc Cursor._forward
         Cursor._prefix Cursor._isCapped Cursor._readUntilForOplog Cursor._needFirstSeek
         Cursor._seekExactResult].
      unfold Iterator.NewIterator. rewrite Hent.
      change (Iterator.current (Iterator.mk (entries_of recs) None))
        with (@None (Slice * Slice)).
      cbv iota. unfold Iterator.Seek. cbn [Iterator.entries].
      rewrite (seek_index_entries_of startIterator recs Hstart Hstored 0%nat).
      cbn [Nat.add].
      pose proof (count_below_le startIterator (ids_of recs)) as Hle.
      unfold ids_of in Hle. rewrite length_map in Hle. fold (ids_of recs) in Hle.
      destruct (Nat.ltb_spec (count_below startIterator (ids_of recs)) (length recs))
        as [Hlt | Hge].
      - (* the seek lands on a record *)
        unfold Iterator.current at 1. cbn [Iterator.pos Iterator.entries].
        destruct (nth_error recs (count_below startIterator (ids_of recs))) as [[idp vp] |] eqn:Ep;
          [ | apply nth_error_None in Ep; lia ].
        assert (Eidp : nth_error (ids_of recs) (count_below startIterator (ids_of recs))
                       = Some idp).
        { rewrite nth_error_ids_of, Ep. reflexivity. }
        assert (Hsp : stored_id idp).
        { rewrite Forall_forall in Hstored. apply Hstored. eapply nth_error_In; eauto. }
        rewrite nth_error_entries_of, Ep. cbn [option_map fst snd].
        rewrite (makeRecordId_stored idp Hsp).
        pose proof (count_below_succ startIterator (ids_of recs) Hs) as Hsucc.
        rewrite Eidp in Hsucc. fold n in Hsucc.
        destruct (Z.eqb_spec startIterator idp) as [Heq | Hne]; cbn [negb].
        + (* on the start position *)
          rewrite Hsucc.
          unfold Iterator.current. cbn [Iterator.pos Iterator.entries].
          rewrite nth_error_entries_of, Ep. cbn [option_map fst snd].
          rewrite (makeRecordId_stored idp Hsp).
          eexists. eexists. reflexivity.
        + (* after it: one step back *)
          rewrite Hsucc.
          unfold Iterator.Prev. cbn [Iterator.pos Iterator.entries].
          destruct (count_below startIterator (ids_of recs)) as [| p'] eqn:Hp.
          * unfold Iterator.current. cbn [Iterator.pos].
            eexists. eexists. reflexivity.
          * unfold Iterator.current. cbn [Iterator.pos Iterator.entries].
            destruct (nth_error recs p') as [[idq vq] |] eqn:Eq;
              [ | apply nth_error_None in Eq; lia ].
            assert (Hsq : stored_id idq).
            { rewrite Forall_forall in Hstored. apply Hstored.
              apply (nth_error_In (ids_of recs) p'). rewrite nth_error_ids_of, Eq. reflexivity. }
            rewrite nth_error_entries_of, Eq. cbn [option_map fst snd].
            rewrite (makeRecordId_stored idq Hsq).
            eexists. eexists. reflexivity.
      - (* every record is below the start position *)
        assert (Hcb : count_below startIterator (ids_of recs) = length (ids_of recs)).
        { unfold ids_of. rewrite length_map. fold (ids_of recs). lia. }
        pose proof (count_below_succ_all startIterator (ids_of recs) Hs Hcb) as Hnall.
        fold n in Hnall. unfold ids_of in Hnall. rewrite length_map in Hnall.
        unfold Iterator.current at 1. cbn [Iterator.pos].
        unfold Iterator.SeekToLast. cbn [Iterator.entries].
        rewrite Hnall, length_entries_of.
        destruct recs as [| r0 recs'] eqn:Hrecs.
        + cbn [entries_of map length]. unfold Iterator.current. cbn [Iterator.pos].
          eexists. eexists. reflexivity.
        + rewrite <- Hrecs in *.
          assert (Hne : entries_of recs <> []) by (rewrite Hrecs; discriminate).
          destruct (entries_of recs) as [| e0 es] eqn:Ees; [ congruence | ].
          rewrite <- Ees.
          assert (Hl : length recs = S (Nat.pred (length recs))).
          { rewrite Hrecs. reflexivity. }
          unfold Iterator.current. cbn [Iterator.pos Iterator.entries].
          destruct (nth_error recs (Nat.pred (length recs))) as [[idl vl] |] eqn:El;
            [ | apply nth_error_None in El; lia ].
          assert (Hsl : stored_id idl).
          { rewrite Forall_forall in Hstored. apply Hstored.
            apply (nth_error_In (ids_of recs) (Nat.pred (length recs))).
            rewrite nth_error_ids_of, El. reflexivity. }
          rewrite nth_error_entries_of, El. cbn [option_map fst snd].
          rewrite (makeRecordId_stored idl Hsl).
          replace (match length recs with O => None | S q => Some q end)
            with (Some (Nat.pred (length recs)))
            by (destruct (length recs); [ discriminate Hl | reflexivity ]).
          eexists. eexists. reflexivity. }
    destruct Hpos as (eof & skip & Hpos).
    unfold Cursor.iterator in Hc. cbn [Cursor._iterator Cursor._needFirstSeek negb
      Cursor._prefix Cursor._forward Cursor._isCapped Cursor._readUntilForOplog Cursor._eof
      Cursor._skipNextAdvance Cursor._lastLoc Cursor._seekExactResult] in Hc.
    rewrite Hpos in Hc.
    cbn [Cursor._prefix Cursor._forward Cursor._isCapped Cursor._readUntilForOplog
         Cursor._needFirstSeek Cursor._lastLoc Cursor._iterator Cursor._seekExactResult] in Hc.
    injection Hc as <-.
    destruct (reverse_scan_from_position vm snapshot prefix isCapped readUntil recs Hall n
                startIterator [] Hn) as (c' & Hscan & Heof).
    exists c'. split.
    + rewrite Hlen, Hfilter. cbn [next_n]. unfold Cursor.next at 1.
      cbn [Cursor._eof Cursor.iterator Cursor._iterator Cursor._skipNextAdvance
           Cursor._needFirstSeek Cursor._forward negb fst snd
           Cursor._prefix Cursor._isCapped
           Cursor._readUntilForOplog Cursor._lastLoc Cursor._seekExactResult].
      exact Hscan.
    + unfold Cursor.next. now rewrite Heof.
  - (* the first call of next() seeks to the last record *)
    injection Hc as <-.
    assert (Hfilter : filter from recs = recs).
    { transitivity (filter (fun _ => true) recs).
      - apply filter_ext. intros r. unfold from.
        apply andb_false_iff in Hhack.
        destruct Hhack as [H | H]; apply negb_false_iff in H; rewrite H;
          [ reflexivity | now rewrite orb_true_r ].
      - clear. induction recs as [| r recs IH]; cbn [filter]; [ reflexivity | now rewrite IH ]. }
    rewrite Hfilter.
    destruct (reverse_scan_from_position vm snapshot prefix isCapped readUntil recs Hall
                (length recs) RecordId_null [] (Nat.le_refl _)) as (c' & Hscan & Heof).
    rewrite firstn_all in Hscan.
    exists c'. split.
    + cbn [next_n]. unfold Cursor.next at 1.
      cbn [Cursor._eof Cursor.iterator Cursor._iterator Cursor._skipNextAdvance
           Cursor._needFirstSeek Cursor._forward negb fst snd Iterator.SeekToLast
           Iterator.NewIterator Iterator.pos Iterator.entries Cursor._prefix Cursor._isCapped
           Cursor._readUntilForOplog Cursor._lastLoc Cursor._seekExactResult].
      unfold Iterator.SeekToLast, Iterator.NewIterator. cbn [Iterator.entries].
      rewrite Hent, length_entries_of.
      replace (match entries_of recs with
               | [] => None
               | _ :: _ => Some (Nat.pred (length recs))
               end)
        with (match length recs with O => None | S q => Some q end).
      * exact Hscan.
      * destruct recs; reflexivity.
    + unfold Cursor.next. now rewrite Heof.
Qed.

Lemma reverse_scan_returns_all_from_start_witness :
  let vm := Some (VM.mk [2] 4 [] false) in
  let snapshot := RS.db plain_world in
  let recs := [(1, [97]); (2, [98; 99]); (4, [100; 101; 102])] in
  let c := Cursor.mk [80] false true 4 false false true 3
                     (Some (Iterator.mk (prefix_entries [80] snapshot) (Some 1%nat))) [] in
  let from (r : RecordId * Slice) := isNull 3 || isNull 4 || (fst r <=? 3) in
  exists c',
    next_n (S (length (filter from recs))) vm snapshot c
    = Some (map Some (rev (filter from recs)) ++ [None], c')
    /\ Cursor.next vm snapshot c' = Some (None, c').
Proof.
  intros vm snapshot recs c.
  apply (reverse_scan_returns_all_from_start vm snapshot [80] true 4 3 recs c).
  - vm_compute. reflexivity.
  - vm_compute. reflexivity.
  - repeat constructor; lia.
  - unfold stored_id, int64, kMinRepr, kMaxRepr. repeat constructor; cbn; lia.
  - unfold stored_id, int64, kMinRepr, kMaxRepr. lia.
Defined.

Lemma count_below_first (s : RecordId) (r : RecordId * Slice) (recs : list (RecordId * Slice)) :
  s <= fst r -> Forall (fun x => fst r < x) (ids_of recs) -> count_below s (ids_of recs) = 0%nat.
Proof.
  intros Hs Hall. destruct recs as [| [x v] recs]; [ reflexivity | ].
  unfold ids_of in *. cbn [map fst count_below] in *.
  inversion Hall; subst. destruct (Z.ltb_spec x s); [ lia | reflexivity ].
Qed.

(** In increasing order of id, the records a cursor with the read ceiling
    [t] passes from the first one at or above [s] on are the records from
    [s] up to [t], the one at [t] only if it is not hidden. *)
Lemma take_while_below_ceiling (s t : RecordId) (m : VM.t) (recs : list (RecordId * Slice)) :
  StronglySorted Z.lt (ids_of recs) ->
  take_while (fun r => negb ((fst r >? t) || ((fst r =? t) && VM.isCappedHidden (fst r) m)))
             (skipn (count_below s (ids_of recs)) recs)
  = filter (fun r => (s <=? fst r)
                     && ((fst r <? t) || ((fst r =? t) && negb (VM.isCappedHidden (fst r) m))))
           recs.
Proof.
  induction recs as [| [id v] recs IH]; intros Hs.
  - reflexivity.
  - unfold ids_of in Hs. cbn [map fst] in Hs. inversion Hs as [| ? ? Hs' Hall]; subst.
    fold (ids_of recs) in Hs', Hall. specialize (IH Hs').
    unfold ids_of at 1. cbn [map fst count_below filter]. fold (ids_of recs).
    destruct (Z.ltb_spec id s) as [Hlt | Hge].
    + destruct (Z.leb_spec s id); [ lia | ]. cbn [andb skipn]. exact IH.
    + destruct (Z.leb_spec s id); [ | lia ]. cbn [andb skipn take_while fst].
      rewrite (count_below_first s (id, v) recs Hge Hall) in IH. cbn [skipn] in IH.
      destruct (Z.gtb_spec id t) as [Hgt | Hle]; cbn [orb negb].
      * destruct (Z.ltb_spec id t); [ lia | ]. destruct (Z.eqb_spec id t); [ lia | ].
        cbn [andb orb]. symmetry. apply filter_none. intros [x vx] Hx. cbn [fst].
        rewrite Forall_forall in Hall.
        assert (id < x) by (apply Hall; apply (in_map fst) in Hx; exact Hx).
        destruct (Z.ltb_spec x t); [ lia | ]. destruct (Z.eqb_spec x t); [ lia | ].
        now rewrite andb_false_r.
      * destruct (Z.eqb_spec id t) as [Heq | Hne]; cbn [andb].
        -- destruct (Z.ltb_spec id t); [ lia | ]. cbn [orb].
           destruct (VM.isCappedHidden id m); cbn [negb].
           ++ symmetry. apply filter_none. intros [x vx] Hx. cbn [fst].
              rewrite Forall_forall in Hall.
              assert (id < x) by (apply Hall; apply (in_map fst) in Hx; exact Hx).
              destruct (Z.ltb_spec x t); [ lia | ]. destruct (Z.eqb_spec x t); [ lia | ].
              now rewrite andb_false_r.
           ++ f_equal. exact IH.
        -- destruct (Z.ltb_spec id t); [ | lia ]. cbn [orb negb]. f_equal. exact IH.
Qed.

(** The scan below a read ceiling from a position of the iterator on. *)
Lemma scan_from_position_ceiling (m : VM.t) (snapshot : DB) (prefix : Slice)
      (isCapped : bool) (readUntil : RecordId) (recs : list (RecordId * Slice)) :
  isNull readUntil = false ->
  Forall int64 (ids_of recs) ->
  let passes (r : RecordId * Slice) :=
    negb ((fst r >? readUntil)
          || ((fst r =? readUntil) && VM.isCappedHidden (fst r) m)) in
  forall (rest : list (RecordId * Slice)) (po : option nat) (lastLoc : RecordId) (sr : Slice),
    match po with Some p => skipn p recs | None => [] end = rest ->
    exists c',
      match Cursor.curr (Some m)
              (Cursor.mk prefix true isCapped readUntil false false false lastLoc
                         (Some (Iterator.mk (entries_of recs) po)) sr) with
      | Some (r, c1) =>
          match next_n (length (take_while passes rest)) (Some m) snapshot c1 with
          | Some (rs, c2) => Some (r :: rs, c2)
          | None => None
          end
      | None => None
      end = Some (map Some (take_while passes rest) ++ [None], c')
      /\ Cursor._eof c' = true.
Proof.
  intros Hnull Hall passes rest. induction rest as [| r rest IH]; intros po lastLoc sr Hskip.
  - assert (Hcur : Iterator.current (Iterator.mk (entries_of recs) po) = None).
    { unfold Iterator.current. cbn [Iterator.pos Iterator.entries].
      destruct po as [p |]; [ | reflexivity ].
      apply skipn_nil_nth in Hskip. rewrite nth_error_entries_of, Hskip. reflexivity. }
    unfold Cursor.curr. cbn [Cursor._iterator]. rewrite Hcur.
    cbn [take_while length next_n map app].
    eexists. split; [ reflexivity | reflexivity ].
  - destruct po as [p |]; [ | discriminate ].
    apply skipn_cons_nth in Hskip. destruct Hskip as [Hnth Hskip].
    assert (Hid : int64 (fst r)).
    { rewrite Forall_forall in Hall. apply Hall. unfold ids_of. apply in_map.
      eapply nth_error_In; eauto. }
    unfold Cursor.curr. cbn [Cursor._iterator]. unfold Iterator.current.
    cbn [Iterator.pos Iterator.entries]. rewrite nth_error_entries_of, Hnth.
    cbn [option_map]. rewrite (makeRecordId_makeKey _ Hid).
    cbn [Cursor._forward Cursor._readUntilForOplog].
    rewrite Hnull. cbv iota.
    cbn [take_while]. unfold passes at 1 3.
    destruct ((fst r >? readUntil)
              || ((fst r =? readUntil) && VM.isCappedHidden (fst r) m)) eqn:Hhid; cbn [negb].
    + cbn [length next_n map app].
      eexists. split; [ reflexivity | reflexivity ].
    + cbn [length map app].
      specialize (IH (Some (S p)) (fst r) sr Hskip). destruct IH as (c' & IH & Heof).
      exists c'. split; [ | exact Heof ].
      cbn [next_n]. unfold Cursor.next at 1.
      cbn [Cursor._eof Cursor.iterator Cursor._iterator Cursor._skipNextAdvance
           Cursor._needFirstSeek Cursor._forward negb fst snd Iterator.Next
           Iterator.pos Iterator.entries Cursor._prefix Cursor._isCapped
           Cursor._readUntilForOplog Cursor._lastLoc Cursor._seekExactResult].
      destruct (Cursor.curr (Some m) _) as [[r1 c1] |]; [ | discriminate ].
      destruct (next_n _ (Some m) snapshot c1) as [[rs c2] |]; [ | discriminate ].
      injection IH as -> ->. destruct r as [id data]. reflexivity.
Qed.

(** Where the constructor leaves the iterator of a forward cursor that was
    given the start position [startIterator]: on the first record at or
    above it. *)
Lemma positionIterator_forward_start (snapshot : DB) (prefix : Slice) (isCapped : bool)
      (readUntil startIterator : RecordId) (recs : list (RecordId * Slice)) :
  prefix_entries prefix snapshot = entries_of recs ->
  Forall stored_id (ids_of recs) ->
  stored_id startIterator ->
  let p := count_below startIterator (ids_of recs) in
  exists eof skip,
    Cursor.positionIterator
      (Cursor.mk prefix true isCapped readUntil false false false startIterator
                 (Some (Iterator.NewIterator prefix snapshot)) [])
    = Some (Cursor.mk prefix true isCapped readUntil eof false skip startIterator
                      (Some (Iterator.mk (entries_of recs)
                               (if (p <? length recs)%nat then Some p else None)))
                      []).
Proof.
  intros Hent Hstored Hstart p.
  assert (Hp : (p <= length recs)%nat).
  { unfold p. pose proof (count_below_le startIterator (ids_of recs)) as H.
    unfold ids_of in H. rewrite length_map in H. exact H. }
  unfold Cursor.positionIterator. cbn [Cursor._iterator Cursor._lastLoc Cursor._forward
     Cursor._prefix Cursor._isCapped Cursor._readUntilForOplog Cursor._needFirstSeek
     Cursor._seekExactResult].
  unfold Iterator.NewIterator. rewrite Hent.
  change (Iterator.current (Iterator.mk (entries_of recs) None))
    with (@None (Slice * Slice)).
  cbv iota. unfold Iterator.Seek. cbn [Iterator.entries].
  rewrite (seek_index_entries_of startIterator recs Hstart Hstored 0%nat).
  cbn [Nat.add]. fold p.
  destruct (Nat.ltb_spec p (length recs)) as [Hlt | Hge].
  - unfold Iterator.current. cbn [Iterator.pos Iterator.entries].
    destruct (nth_error recs p) as [[idp vp] |] eqn:Ep;
      [ | apply nth_error_None in Ep; lia ].
    assert (Hsp : stored_id idp).
    { rewrite Forall_forall in Hstored. apply Hstored.
      apply (nth_error_In (ids_of recs) p). rewrite nth_error_ids_of, Ep. reflexivity. }
    rewrite nth_error_entries_of, Ep. cbn [option_map fst snd].
    rewrite (makeRecordId_stored idp Hsp).
    cbn [Iterator.pos Iterator.entries].
    rewrite ?nth_error_entries_of, ?Ep. cbn [option_map fst snd].
    rewrite ?(makeRecordId_stored idp Hsp).
    eexists. eexists. reflexivity.
  - unfold Iterator.current. cbn [Iterator.pos].
    eexists. eexists. reflexivity.
Qed.

(** The constructor of a forward cursor succeeds on a collection whose ids
    are stored ids. *)
Lemma construct_forward_some (snapshot : DB) (prefix : Slice) (isCapped : bool)
      (readUntil startIterator : RecordId) (recs : list (RecordId * Slice)) :
  prefix_entries prefix snapshot = entries_of recs ->
  Forall stored_id (ids_of recs) ->
  stored_id startIterator ->
  exists c,
    Cursor.construct snapshot readUntil prefix true isCapped startIterator = Some c.
Proof.
  intros Hent Hstored Hstart. unfold Cursor.construct.
  destruct (negb (isNull startIterator) && negb (isNull readUntil)); [ | eexists; reflexivity ].
  destruct (positionIterator_forward_start snapshot prefix isCapped readUntil startIterator
              recs Hent Hstored Hstart) as (eof & skip & Hpos).
  unfold Cursor.iterator. cbn [Cursor._iterator Cursor._needFirstSeek negb
    Cursor._prefix Cursor._forward Cursor._isCapped Cursor._readUntilForOplog Cursor._eof
    Cursor._skipNextAdvance Cursor._lastLoc Cursor._seekExactResult].
  rewrite Hpos. eexists. reflexivity.
Qed.

(** The forward scan of a cursor with a read ceiling, from its
    construction on. *)
Lemma forward_scan_ceiling_run
      (m : VM.t) (snapshot : DB) (prefix : Slice) (isCapped : bool)
      (readUntil startIterator : RecordId) (recs : list (RecordId * Slice))
      (c : Cursor.t) :
  Cursor.construct snapshot readUntil prefix true isCapped startIterator = Some c ->
  readUntil <> RecordId_null ->
  prefix_entries prefix snapshot = entries_of recs ->
  StronglySorted Z.lt (ids_of recs) ->
  Forall stored_id (ids_of recs) ->
  stored_id startIterator ->
  let readable (r : RecordId * Slice) :=
    (startIterator <=? fst r)
    && ((fst r <? readUntil)
        || ((fst r =? readUntil) && negb (VM.isCappedHidden (fst r) m))) in
  exists c',
    next_n (S (length (filter readable recs))) (Some m) snapshot c
    = Some (map Some (filter readable recs) ++ [None], c')
    /\ Cursor.next (Some m) snapshot c' = Some (None, c').
Proof.
  intros Hc Hceil Hent Hs Hstored Hstart readable.
  assert (Hall : Forall int64 (ids_of recs)).
  { eapply Forall_impl; [ | exact Hstored ]. intros a [_ Ha]. exact Ha. }
  assert (Hnull : isNull readUntil = false).
  { unfold isNull. apply Z.eqb_neq. exact Hceil. }
  pose proof (take_while_below_ceiling startIterator readUntil m recs Hs) as Hfilter.
  fold readable in Hfilter.
  set (p := count_below startIterator (ids_of recs)) in *.
  assert (Hp : (p <= length recs)%nat).
  { unfold p. pose proof (count_below_le startIterator (ids_of recs)) as H.
    unfold ids_of in H. rewrite length_map in H. exact H. }
  assert (Hrest : forall po,
             po = (if (p <? length recs)%nat then Some p else None) ->
             match po with Some q => skipn q recs | None => [] end = skipn p recs).
  { intros po ->. destruct (Nat.ltb_spec p (length recs)) as [Hlt | Hge]; [ reflexivity | ].
    symmetry. apply skipn_all2. exact Hge. }
  unfold Cursor.construct in Hc. rewrite Hnull in Hc. cbn [negb] in Hc.
  rewrite andb_true_r in Hc.
  destruct (isNull startIterator) eqn:Hs0; cbn [negb] in Hc.
  - (* the first call of next() seeks to the first record *)
    injection Hc as <-.
    assert (Hp0 : p = 0%nat).
    { unfold p. unfold isNull in Hs0. apply Z.eqb_eq in Hs0. rewrite Hs0.
      destruct recs as [| [x v] recs']; [ reflexivity | ].
      unfold ids_of. cbn [map fst count_below].
      inversion Hstored as [| ? ? [Hx _] _]; subst.
      destruct (Z.ltb_spec x 0); [ lia | reflexivity ]. }
    rewrite Hp0 in Hfilter. cbn [skipn] in Hfilter.
    destruct (scan_from_position_ceiling m snapshot prefix isCapped readUntil recs Hnull Hall
                recs (Some 0%nat) RecordId_null [] eq_refl) as (c' & Hscan & Heof).
    cbv zeta in Hscan. unfold RecordId in Hscan, Hfilter. rewrite Hfilter in Hscan.
    exists c'. split.
    + cbn [next_n]. unfold Cursor.next at 1.
      cbn [Cursor._eof Cursor.iterator Cursor._iterator Cursor._skipNextAdvance
           Cursor._needFirstSeek Cursor._forward negb fst snd Iterator.SeekToFirst
           Iterator.NewIterator Iterator.pos Iterator.entries Cursor._prefix Cursor._isCapped
           Cursor._readUntilForOplog Cursor._lastLoc Cursor._seekExactResult].
      unfold Iterator.SeekToFirst, Iterator.NewIterator. cbn [Iterator.entries].
      rewrite Hent. exact Hscan.
    + unfold Cursor.next. now rewrite Heof.
  - (* positioned by the constructor at the first record at or above the start *)
    pose proof (positionIterator_forward_start snapshot prefix isCapped readUntil
                  startIterator recs Hent Hstored Hstart) as Hpos.
    cbv zeta in Hpos. fold p in Hpos.
    destruct Hpos as (eof & skip & Hpos).
    unfold Cursor.iterator in Hc. cbn [Cursor._iterator Cursor._needFirstSeek negb
      Cursor._prefix Cursor._forward Cursor._isCapped Cursor._readUntilForOplog Cursor._eof
      Cursor._skipNextAdvance Cursor._lastLoc Cursor._seekExactResult] in Hc.
    rewrite Hpos in Hc.
    cbn [Cursor._prefix Cursor._forward Cursor._isCapped Cursor._readUntilForOplog
         Cursor._needFirstSeek Cursor._lastLoc Cursor._iterator Cursor._seekExactResult] in Hc.
    injection Hc as <-.
    destruct (scan_from_position_ceiling m snapshot prefix isCapped readUntil recs Hnull Hall
                (skipn p recs) (if (p <? length recs)%nat then Some p else None)
                startIterator [] (Hrest _ eq_refl)) as (c' & Hscan & Heof).
    cbv zeta in Hscan. unfold RecordId in Hscan, Hfilter. rewrite Hfilter in Hscan.
    exists c'. split.
    + cbn [next_n]. unfold Cursor.next at 1.
      cbn [Cursor._eof Cursor.iterator Cursor._iterator Cursor._skipNextAdvance
           Cursor._needFirstSeek Cursor._forward negb fst snd
           Cursor._prefix Cursor._isCapped
           Cursor._readUntilForOplog Cursor._lastLoc Cursor._seekExactResult].
      exact Hscan.
    + unfold Cursor.next. now rewrite Heof.
Qed.

Lemma skipn_count_below_filter (s : RecordId) (recs : list (RecordId * Slice)) :
  StronglySorted Z.lt (ids_of recs) ->
  skipn (count_below s (ids_of recs)) recs
  = filter (fun r : RecordId * Slice => s <=? fst r) recs.
Proof.
  induction recs as [| [id v] recs IH]; intros Hs.
  - reflexivity.
  - unfold ids_of in Hs. cbn [map fst] in Hs. inversion Hs as [| ? ? Hs' Hall]; subst.
    fold (ids_of recs) in Hs', Hall. specialize (IH Hs').
    unfold ids_of at 1. cbn [map fst count_below filter]. fold (ids_of recs).
    destruct (Z.ltb_spec id s) as [Hlt | Hge].
    + destruct (Z.leb_spec s id); [ lia | ]. cbn [skipn]. exact IH.
    + destruct (Z.leb_spec s id); [ | lia ]. cbn [skipn]. f_equal.
      rewrite (count_below_first s (id, v) recs Hge Hall) in IH. exact IH.
Qed.

(** The scan of a cursor that has no visibility manager, from a position of
    the iterator on: [curr()] withholds nothing, whatever the read ceiling
    of the cursor. *)
Lemma scan_from_position_no_manager (snapshot : DB) (prefix : Slice)
      (isCapped : bool) (readUntil : RecordId) (recs : list (RecordId * Slice)) :
  Forall int64 (ids_of recs) ->
  forall (rest : list (RecordId * Slice)) (po : option nat) (lastLoc : RecordId) (sr : Slice),
    match po with Some p => skipn p recs | None => [] end = rest ->
    exists c',
      match Cursor.curr None
              (Cursor.mk prefix true isCapped readUntil false false false lastLoc
                         (Some (Iterator.mk (entries_of recs) po)) sr) with
      | Some (r, c1) =>
          match next_n (length rest) None snapshot c1 with
          | Some (rs, c2) => Some (r :: rs, c2)
          | None => None
          end
      | None => None
      end = Some (map Some rest ++ [None], c')
      /\ Cursor._eof c' = true.
Proof.
  intros Hall rest. induction rest as [| r rest IH]; intros po lastLoc sr Hskip.
  - assert (Hcur : Iterator.current (Iterator.mk (entries_of recs) po) = None).
    { unfold Iterator.current. cbn [Iterator.pos Iterator.entries].
      destruct po as [p |]; [ | reflexivity ].
      apply skipn_nil_nth in Hskip. rewrite nth_error_entries_of, Hskip. reflexivity. }
    unfold Cursor.curr. cbn [Cursor._iterator]. rewrite Hcur.
    cbn [length next_n map app].
    eexists. split; [ reflexivity | reflexivity ].
  - destruct po as [p |]; [ | discriminate ].
    apply skipn_cons_nth in Hskip. destruct Hskip as [Hnth Hskip].
    assert (Hid : int64 (fst r)).
    { rewrite Forall_forall in Hall. apply Hall. unfold ids_of. apply in_map.
      eapply nth_error_In; eauto. }
    unfold Cursor.curr. cbn [Cursor._iterator]. unfold Iterator.current.
    cbn [Iterator.pos Iterator.entries]. rewrite nth_error_entries_of, Hnth.
    cbn [option_map]. rewrite (makeRecordId_makeKey _ Hid).
    cbv iota. cbn [length map app].
    specialize (IH (Some (S p)) (fst r) sr Hskip). destruct IH as (c' & IH & Heof).
    exists c'. split; [ | exact Heof ].
    cbn [next_n]. unfold Cursor.next at 1.
    cbn [Cursor._eof Cursor.iterator Cursor._iterator Cursor._skipNextAdvance
         Cursor._needFirstSeek Cursor._forward negb fst snd Iterator.Next
         Iterator.pos Iterator.entries Cursor._prefix Cursor._isCapped
         Cursor._readUntilForOplog Cursor._lastLoc Cursor._seekExactResult].
    destruct (Cursor.curr None _) as [[r1 c1] |]; [ | discriminate ].
    destruct (next_n _ None snapshot c1) as [[rs c2] |]; [ | discriminate ].
    injection IH as -> ->. destruct r as [id data]. reflexivity.
Qed.

(** The forward scan of a cursor that has a read ceiling and no visibility
    manager, from its construction on. *)
Lemma forward_scan_no_manager_run
      (snapshot : DB) (prefix : Slice) (isCapped : bool)
      (readUntil startIterator : RecordId) (recs : list (RecordId * Slice))
      (c : Cursor.t) :
  Cursor.construct snapshot readUntil prefix true isCapped startIterator = Some c ->
  readUntil <> RecordId_null ->
  prefix_entries prefix snapshot = entries_of recs ->
  StronglySorted Z.lt (ids_of recs) ->
  Forall stored_id (ids_of recs) ->
  stored_id startIterator ->
  let from_start (r : RecordId * Slice) := startIterator <=? fst r in
  exists c',
    next_n (S (length (filter from_start recs))) None snapshot c
    = Some (map Some (filter from_start recs) ++ [None], c')
    /\ Cursor.next None snapshot c' = Some (None, c').
Proof.
  intros Hc Hceil Hent Hs Hstored Hstart from_start.
  assert (Hall : Forall int64 (ids_of recs)).
  { eapply Forall_impl; [ | exact Hstored ]. intros a [_ Ha]. exact Ha. }
  assert (Hnull : isNull readUntil = false).
  { unfold isNull. apply Z.eqb_neq. exact Hceil. }
  unfold from_start. rewrite <- (skipn_count_below_filter startIterator recs Hs).
  set (p := count_below startIterator (ids_of recs)) in *.
  assert (Hp : (p <= length recs)%nat).
  { unfold p. pose proof (count_below_le startIterator (ids_of recs)) as H.
    unfold ids_of in H. rewrite length_map in H. exact H. }
  assert (Hrest : forall po,
             po = (if (p <? length recs)%nat then Some p else None) ->
             match po with Some q => skipn q recs | None => [] end = skipn p recs).
  { intros po ->. destruct (Nat.ltb_spec p (length recs)) as [Hlt | Hge]; [ reflexivity | ].
    symmetry. apply skipn_all2. exact Hge. }
  unfold Cursor.construct in Hc. rewrite Hnull in Hc. cbn [negb] in Hc.
  rewrite andb_true_r in Hc.
  destruct (isNull startIterator) eqn:Hs0; cbn [negb] in Hc.
  - injection Hc as <-.
    assert (Hp0 : p = 0%nat).
    { unfold p. unfold isNull in Hs0. apply Z.eqb_eq in Hs0. rewrite Hs0.
      destruct recs as [| [x v] recs']; [ reflexivity | ].
      unfold ids_of. cbn [map fst count_below].
      inversion Hstored as [| ? ? [Hx _] _]; subst.
      destruct (Z.ltb_spec x 0); [ lia | reflexivity ]. }
    rewrite Hp0. cbn [skipn].
    destruct (scan_from_position_no_manager snapshot prefix isCapped readUntil recs Hall
                recs (Some 0%nat) RecordId_null [] eq_refl) as (c' & Hscan & Heof).
    exists c'. split.
    + cbn [next_n]. unfold Cursor.next at 1.
      cbn [Cursor._eof Cursor.iterator Cursor._iterator Cursor._skipNextAdvance
           Cursor._needFirstSeek Cursor._forward negb fst snd Iterator.SeekToFirst
           Iterator.NewIterator Iterator.pos Iterator.entries Cursor._prefix Cursor._isCapped
           Cursor._readUntilForOplog Cursor._lastLoc Cursor._seekExactResult].
      unfold Iterator.SeekToFirst, Iterator.NewIterator. cbn [Iterator.entries].
      rewrite Hent. exact Hscan.
    + unfold Cursor.next. now rewrite Heof.
  - pose proof (positionIterator_forward_start snapshot prefix isCapped readUntil
                  startIterator recs Hent Hstored Hstart) as Hpos.
    cbv zeta in Hpos. fold p in Hpos.
    destruct Hpos as (eof & skip & Hpos).
    unfold Cursor.iterator in Hc. cbn [Cursor._iterator Cursor._needFirstSeek negb
      Cursor._prefix Cursor._forward Cursor._isCapped Cursor._readUntilForOplog Cursor._eof
      Cursor._skipNextAdvance Cursor._lastLoc Cursor._seekExactResult] in Hc.
    rewrite Hpos in Hc.
    cbn [Cursor._prefix Cursor._forward Cursor._isCapped Cursor._readUntilForOplog
         Cursor._needFirstSeek Cursor._lastLoc Cursor._iterator Cursor._seekExactResult] in Hc.
    injection Hc as <-.
    destruct (scan_from_position_no_manager snapshot prefix isCapped readUntil recs Hall
                (skipn p recs) (if (p <? length recs)%nat then Some p else None)
                startIterator [] (Hrest _ eq_refl)) as (c' & Hscan & Heof).
    exists c'. split.
    + cbn [next_n]. unfold Cursor.next at 1.
      cbn [Cursor._eof Cursor.iterator Cursor._iterator Cursor._skipNextAdvance
           Cursor._needFirstSeek Cursor._forward negb fst snd
           Cursor._prefix Cursor._isCapped
           Cursor._readUntilForOplog Cursor._lastLoc Cursor._seekExactResult].
      exact Hscan.
    + unfold Cursor.next. now rewrite Heof.
Qed.

(** A forward scan by a cursor whose transaction has a read ceiling (set by
    a read of the oplog), on a collection whose ids are not negative and in
    increasing order, from a start position that is not negative. With a
    visibility manager (a capped collection) it returns, in increasing order
    of id, the records from the start position on that are below the
    ceiling, and the record at the ceiling if it is not hidden; it returns
    nothing above the ceiling. Without a visibility manager (a collection
    that is not capped) the ceiling is not tested: it returns every record
    from the start position on, those above the ceiling too. In both cases
    it then reports the end and goes on reporting it; without a start
    position it begins at the first record. *)
Theorem forward_scan_stops_at_ceiling
        (vm : option VM.t) (snapshot : DB) (prefix : Slice) (isCapped : bool)
        (readUntil startIterator : RecordId) (recs : list (RecordId * Slice))
        (c : Cursor.t) :
  Cursor.construct snapshot readUntil prefix true isCapped startIterator = Some c ->
  readUntil <> RecordId_null ->
  prefix_entries prefix snapshot = entries_of recs ->
  StronglySorted Z.lt (ids_of recs) ->
  Forall stored_id (ids_of recs) ->
  stored_id startIterator ->
  let readable (r : RecordId * Slice) :=
    (startIterator <=? fst r)
    && match vm with
       | Some m =>
           (fst r <? readUntil)
           || ((fst r =? readUntil) && negb (VM.isCappedHidden (fst r) m))
       | None => true
       end in
  exists c',
    next_n (S (length (filter readable recs))) vm snapshot c
    = Some (map Some (filter readable recs) ++ [None], c')
    /\ Cursor.next vm snapshot c' = Some (None, c').
Proof.
  intros Hc Hceil Hent Hs Hstored Hstart readable.
  destruct vm as [m |].
  - exact (forward_scan_ceiling_run m snapshot prefix isCapped readUntil startIterator recs c
             Hc Hceil Hent Hs Hstored Hstart).
  - assert (Hext : filter readable recs = filter (fun r => startIterator <=? fst r) recs).
    { apply filter_ext. intros r. unfold readable. apply andb_true_r. }
    rewrite Hext.
    exact (forward_scan_no_manager_run snapshot prefix isCapped readUntil startIterator recs c
             Hc Hceil Hent Hs Hstored Hstart).
Qed.

Lemma forward_scan_stops_at_ceiling_witness :
  let m := VM.mk [20; 30] 30 [] false in
  let snapshot := RS.db oplog_three_world in
  let prefix := RS._prefix (RS.rs oplog_three_world) in
  let recs := map (fun id => (id, oplog_entry id)) [10; 20; 30] in
  let c := Cursor.mk prefix true true 20 false true false RecordId_null None [] in
  let readable (vm : option VM.t) (r : RecordId * Slice) :=
    (RecordId_null <=? fst r)
    && match vm with
       | Some m =>
           (fst r <? 20) || ((fst r =? 20) && negb (VM.isCappedHidden (fst r) m))
       | None => true
       end in
  (exists c',
      next_n (S (length (filter (readable (Some m)) recs))) (Some m) snapshot c
      = Some (map Some (filter (readable (Some m)) recs) ++ [None], c')
      /\ Cursor.next (Some m) snapshot c' = Some (None, c'))
  /\ (exists c',
         next_n (S (length (filter (readable None) recs))) None snapshot c
         = Some (map Some (filter (readable None) recs) ++ [None], c')
         /\ Cursor.next None snapshot c' = Some (None, c')).
Proof.
  intros m snapshot prefix recs c readable. split.
  - apply (forward_scan_stops_at_ceiling (Some m) snapshot prefix true 20 RecordId_null recs c).
    + vm_compute. reflexivity.
    + discriminate.
    + vm_compute. reflexivity.
    + repeat constructor; lia.
    + unfold stored_id, int64, kMinRepr, kMaxRepr. repeat constructor; cbn; lia.
    + unfold stored_id, int64, kMinRepr, kMaxRepr, RecordId_null. lia.
  - apply (forward_scan_stops_at_ceiling None snapshot prefix true 20 RecordId_null recs c).
    + vm_compute. reflexivity.
    + discriminate.
    + vm_compute. reflexivity.
    + repeat constructor; lia.
    + unfold stored_id, int64, kMinRepr, kMaxRepr. repeat constructor; cbn; lia.
    + unfold stored_id, int64, kMinRepr, kMaxRepr, RecordId_null. lia.
Defined.

(* ================================================================== *)
(** * What a capped deletion achieves *)
(* ================================================================== *)

(** The loop when nothing stops it: it deletes entries from the front until
    the sizes saved reach what the collection is over its caps, or 20000
    entries are deleted, or no entry is left; the entry it deleted last was
    still needed. It leaves the counters and the deltas of the transaction
    to its caller. *)
Lemma deleteLoop_unobstructed (env : Env) (j : RecordId) (soc doc : Z) :
  forall (rest : list (Slice * Slice)) (ss dr : Z) (w : RS.World)
         (out : Outcome (Z * Z * list (Slice * Slice))) (w' : RS.World),
    RS.deleteLoop env j soc doc rest ss dr w = (out, w') ->
    unobstructed env j (RS.rs w) rest ->
    exists pre post,
      rest = pre ++ post
      /\ out = Returned (ss + entries_size (RS._isOplog (RS.rs w)) pre,
                         dr + Z.of_nat (length pre), post)
      /\ (post = [] \/ 20000 <= dr + Z.of_nat (length pre)
          \/ (soc <= ss + entries_size (RS._isOplog (RS.rs w)) pre
              /\ doc <= dr + Z.of_nat (length pre)))
      /\ (forall pre' e,
            pre = pre' ++ [e] ->
            (ss + entries_size (RS._isOplog (RS.rs w)) pre' < soc
             \/ dr + Z.of_nat (length pre') < doc)
            /\ dr + Z.of_nat (length pre') < 20000)
      /\ RS._numRecords (RS.rs w') = RS._numRecords (RS.rs w)
      /\ RS._dataSize (RS.rs w') = RS._dataSize (RS.rs w)
      /\ ru_deltaNumRecords (recoveryUnit (RS.opCtx w'))
         = ru_deltaNumRecords (recoveryUnit (RS.opCtx w))
      /\ ru_deltaDataSize (recoveryUnit (RS.opCtx w'))
         = ru_deltaDataSize (recoveryUnit (RS.opCtx w)).
Proof.
  induction rest as [| [k v] rest' IH]; intros ss dr w out w' H Hun.
  - cbn in H. injection H as <- <-.
    exists [], []. cbn [entries_size fold_right length app].
    rewrite !Z.add_0_r.
    split; [ reflexivity | ]. split; [ reflexivity | ]. split; [ now left | ].
    split; [ intros pre' e He; destruct pre'; discriminate | ].
    repeat split; reflexivity.
  - destruct Hun as (Hsd & Htrk & Hcb & m & Hvm & Hall).
    inversion Hall as [| ? ? (id & Hid & Hlt & Hhid & Hrw) Hall']; subst.
    cbn [fst] in Hid.
    cbn [RS.deleteLoop] in H.
    destruct (((ss <? soc) || (dr <? doc)) && (dr <? 20000)) eqn:Hcond.
    2:{ unfold RS.ret in H. injection H as <- <-.
        exists [], ((k, v) :: rest'). cbn [entries_size fold_right length app].
        rewrite !Z.add_0_r.
        split; [ reflexivity | ]. split; [ reflexivity | ].
        split.
        { right. apply andb_false_iff in Hcond. destruct Hcond as [Hc | Hc].
          - apply orb_false_iff in Hc. destruct Hc as [Hc1 Hc2].
            apply Z.ltb_ge in Hc1. apply Z.ltb_ge in Hc2. right. lia.
          - apply Z.ltb_ge in Hc. left. lia. }
        split; [ intros pre' e He; destruct pre'; discriminate | ].
        repeat split; reflexivity. }
    apply andb_true_iff in Hcond. destruct Hcond as [Hover Hcap].
    apply Z.ltb_lt in Hcap.
    assert (Hover' : ss < soc \/ dr < doc).
    { apply orb_true_iff in Hover. destruct Hover as [Hc | Hc]; apply Z.ltb_lt in Hc; auto. }
    rewrite Hid in H.
    unfold RS.vm_isCappedHidden, RS.theVisibilityManager in H. unfold RS.bind at 1 2 in H.
    rewrite Hvm in H. unfold RS.ret at 1 in H. rewrite Hhid in H.
    destruct (Z.geb_spec id j) as [Hge | _]; [ lia | ].
    unfold RS.bind at 1, RS.gets at 1 in H. rewrite Hsd in H.
    unfold RS.bind at 1, RS.emit at 1, RS.modify at 1 in H.
    rewrite Hrw in H. cbn [negb] in H.
    (* the entry is deleted and the loop goes on *)
    assert (Hrec : forall w1,
              RS._shuttingDown (RS.rs w1) = false ->
              RS._isOplog (RS.rs w1) = RS._isOplog (RS.rs w) ->
              (RS._isOplog (RS.rs w) = true -> RS._oplogKeyTracker (RS.rs w1) <> None) ->
              RS._cappedCallback (RS.rs w1) = RS._cappedCallback (RS.rs w) ->
              RS._cappedVisibilityManager (RS.rs w1) = Some m ->
              RS._prefix (RS.rs w1) = RS._prefix (RS.rs w) ->
              RS._numRecords (RS.rs w1) = RS._numRecords (RS.rs w) ->
              RS._dataSize (RS.rs w1) = RS._dataSize (RS.rs w) ->
              ru_deltaNumRecords (recoveryUnit (RS.opCtx w1))
              = ru_deltaNumRecords (recoveryUnit (RS.opCtx w)) ->
              ru_deltaDataSize (recoveryUnit (RS.opCtx w1))
              = ru_deltaDataSize (recoveryUnit (RS.opCtx w)) ->
              RS.deleteLoop env j soc doc rest'
                            (ss + entry_size (RS._isOplog (RS.rs w)) (k, v)) (dr + 1) w1
              = (out, w') ->
              exists pre post,
                (k, v) :: rest' = pre ++ post
                /\ out = Returned (ss + entries_size (RS._isOplog (RS.rs w)) pre,
                                   dr + Z.of_nat (length pre), post)
                /\ (post = [] \/ 20000 <= dr + Z.of_nat (length pre)
                    \/ (soc <= ss + entries_size (RS._isOplog (RS.rs w)) pre
                        /\ doc <= dr + Z.of_nat (length pre)))
                /\ (forall pre' e,
                      pre = pre' ++ [e] ->
                      (ss + entries_size (RS._isOplog (RS.rs w)) pre' < soc
                       \/ dr + Z.of_nat (length pre') < doc)
                      /\ dr + Z.of_nat (length pre') < 20000)
                /\ RS._numRecords (RS.rs w') = RS._numRecords (RS.rs w)
                /\ RS._dataSize (RS.rs w') = RS._dataSize (RS.rs w)
                /\ ru_deltaNumRecords (recoveryUnit (RS.opCtx w'))
                   = ru_deltaNumRecords (recoveryUnit (RS.opCtx w))
                /\ ru_deltaDataSize (recoveryUnit (RS.opCtx w'))
                   = ru_deltaDataSize (recoveryUnit (RS.opCtx w))).
    { intros w1 Hsd1 Hop1 Htrk1 Hcb1 Hvm1 Hpre1 Hn1 Hd1 Hdn1 Hdd1 Hloop.
      assert (Hun1 : unobstructed env j (RS.rs w1) rest').
      { unfold unobstructed. split; [ exact Hsd1 | ].
        split; [ intros Ho; apply Htrk1; congruence | ].
        split; [ intros cb i x Hc; apply (Hcb cb); congruence | ].
        exists m. split; [ exact Hvm1 | ]. rewrite Hpre1. exact Hall'. }
      destruct (IH _ _ w1 out w' Hloop Hun1)
        as (pre & post & Hrest & Hout & Hstop & Hmin & Hn & Hd & Hdn & Hdd).
      rewrite Hop1 in *.
      exists ((k, v) :: pre), post.
      cbn [entries_size fold_right length]. fold (entries_size (RS._isOplog (RS.rs w)) pre).
      rewrite Nat2Z.inj_succ.
      split; [ now rewrite Hrest | ].
      split.
      { rewrite Hout, <- Z.add_assoc.
        replace (dr + 1 + Z.of_nat (length pre)) with (dr + Z.succ (Z.of_nat (length pre)))
          by lia.
        reflexivity. }
      split.
      { destruct Hstop as [Hs | [Hs | Hs]]; [ now left | right; left; lia | right; right; lia ]. }
      split.
      { intros pre' e He. destruct pre' as [| e' pre''].
        - cbn [entries_size fold_right length app]. cbn [app] in He. lia.
        - cbn [app] in He. injection He as <- He.
          destruct (Hmin pre'' e He) as [Hm1 Hm2].
          cbn [entries_size fold_right length].
          fold (entries_size (RS._isOplog (RS.rs w)) pre'').
          rewrite Nat2Z.inj_succ. lia. }
      repeat split; congruence. }
    unfold RS.bind at 1 in H.
    destruct (RS._isOplog (RS.rs w)) eqn:Hop.
    + (* oplog: the tracker supplies the size and is updated *)
      unfold RS.bind at 1, RS.theTracker at 1 in H. cbn [RS.rs] in H.
      destruct (RS._oplogKeyTracker (RS.rs w)) as [trk |] eqn:Htrk0;
        [ | exfalso; now apply Htrk ].
      unfold RS.ret at 1 in H.
      destruct (RS._cappedCallback (RS.rs w)) as [cb |] eqn:Hcb0.
      * unfold RS.bind at 1 2, RS.emit at 1, RS.modify at 1 in H.
        cbn [RS.rs RS.opCtx RS.db RS.trace] in H.
        rewrite (Hcb cb id [5; 0; 0; 0; 0] eq_refl) in H.
        cbn in H. unfold RS.deleteKey, RS.theTracker in H. unfold RS.bind at 1 2 in H.
        cbn [RS.rs] in H. rewrite Htrk0 in H. cbn in H.
        eapply Hrec; [ .. | exact H ]; cbn; try reflexivity; try assumption;
          try (intros; discriminate).
      * cbn in H. unfold RS.deleteKey, RS.theTracker in H. unfold RS.bind at 1 2 in H.
        cbn [RS.rs] in H. rewrite Htrk0 in H. cbn in H.
        eapply Hrec; [ .. | exact H ]; cbn; try reflexivity; try assumption;
          try (intros; discriminate).
    + (* plain capped collection *)
      unfold RS.ret at 1 in H.
      destruct (RS._cappedCallback (RS.rs w)) as [cb |] eqn:Hcb0.
      * unfold RS.bind at 1 2, RS.emit at 1, RS.modify at 1 in H.
        cbn [RS.rs RS.opCtx RS.db RS.trace] in H.
        rewrite (Hcb cb id v eq_refl) in H.
        cbn in H.
        eapply Hrec; [ .. | exact H ]; cbn; try reflexivity; try assumption;
          try (intros; discriminate).
      * cbn in H.
        eapply Hrec; [ .. | exact H ]; cbn; try reflexivity; try assumption;
          try (intros; discriminate).
Qed.

Lemma prefix_same_length (A : Type) (pre1 post1 pre2 post2 : list A) :
  pre1 ++ post1 = pre2 ++ post2 -> length pre1 = length pre2 ->
  pre1 = pre2 /\ post1 = post2.
Proof.
  revert pre2. induction pre1 as [| x pre1 IH]; intros [| y pre2] Heq Hlen;
    try discriminate.
  - split; [ reflexivity | exact Heq ].
  - cbn in Heq. injection Heq as -> Heq. injection Hlen as Hlen.
    destruct (IH pre2 Heq Hlen) as [-> ->]. split; reflexivity.
Qed.

Lemma unobstructed_suffix (env : Env) (j : RecordId) (s : RS.t)
      (pre post : list (Slice * Slice)) :
  unobstructed env j s (pre ++ post) -> unobstructed env j s post.
Proof.
  intros (Hsd & Htrk & Hcb & m & Hvm & Hall).
  split; [ exact Hsd | ]. split; [ exact Htrk | ]. split; [ exact Hcb | ].
  exists m. split; [ exact Hvm | ]. apply Forall_app in Hall. tauto.
Qed.

(** The [try] block when nothing stops the deleter: it returns the number
    of entries deleted and its commit takes them off the counters. *)
Lemma cappedDeleteAsNeeded_inlock_try_unobstructed (env : Env) (j : RecordId) (soc doc : Z)
      (w : RS.World) (out : Outcome Z) (w' : RS.World) :
  recoveryUnit (RS.opCtx w) = newRocksRecoveryUnit ->
  RS.cappedDeleteAsNeeded_inlock_try env j soc doc w = (out, w') ->
  unobstructed env j (RS.rs w) (deleter_entries w) ->
  exists pre post,
    deleter_entries w = pre ++ post
    /\ out = Returned (Z.of_nat (length pre))
    /\ (post = [] \/ 20000 <= Z.of_nat (length pre)
        \/ (soc <= entries_size (RS._isOplog (RS.rs w)) pre
            /\ doc <= Z.of_nat (length pre)))
    /\ (forall pre' e,
          pre = pre' ++ [e] ->
          (entries_size (RS._isOplog (RS.rs w)) pre' < soc \/ Z.of_nat (length pre') < doc)
          /\ Z.of_nat (length pre') < 20000)
    /\ RS._numRecords (RS.rs w') = RS._numRecords (RS.rs w) - Z.of_nat (length pre)
    /\ RS._dataSize (RS.rs w')
       = RS._dataSize (RS.rs w) - entries_size (RS._isOplog (RS.rs w)) pre.
Proof.
  intros Hru H Hun.
  unfold RS.cappedDeleteAsNeeded_inlock_try in H.
  unfold RS.bind at 1, RS.gets at 1 in H.
  unfold RS.bind at 1, RS.snapshot at 1 in H. rewrite Hru in H.
  cbn [ru_snapshot newRocksRecoveryUnit] in H.
  set (w0 := RS.set_ru _ w) in H.
  assert (Hd0 : ru_deltaNumRecords (recoveryUnit (RS.opCtx w0)) = 0
                /\ ru_deltaDataSize (recoveryUnit (RS.opCtx w0)) = 0).
  { unfold w0. cbn. rewrite Hru. split; reflexivity. }
  assert (Hiter : exists o1 w1,
             RS.deleteLoop env j soc doc (deleter_entries w) 0 0 w0 = (o1, w1)
             /\ match o1 with
                | Returned (sizeSaved, docsRemoved, rest) =>
                    RS.bind
                      (if docsRemoved >? 0
                       then
                         RS.bind (RS._changeNumRecords (- docsRemoved))
                           (fun _ : unit =>
                              RS.bind (RS._increaseDataSize (- sizeSaved))
                                (fun _ : unit => RS.commitUnitOfWork))
                       else RS.ret tt)
                      (fun _ : unit =>
                         RS.bind
                           match rest with
                           | [] => RS.ret tt
                           | (k, _) :: _ =>
                               match _makeRecordId k with
                               | Some oldestAliveRecordId =>
                                   RS.bind (RS.vm_isCappedHidden oldestAliveRecordId)
                                     (fun hidden : bool =>
                                        if negb hidden
                                        then RS.modify (RS.set_rs (RS.with_hint oldestAliveRecordId))
                                        else RS.ret tt)
                               | None => RS.abort
                               end
                           end (fun _ : unit => RS.ret docsRemoved)) w1 = (out, w')
                | Threw e => (Threw e, w1) = (out, w')
                | Aborted => (Aborted, w1) = (out, w')
                end).
  { unfold RS.bind at 1 in H. unfold deleter_entries, tracker_prefix_of.
    destruct Hun as (_ & Htrk & _).
    destruct (RS._isOplog (RS.rs w)) eqn:Hop.
    - unfold RS.bind at 1, RS.theTracker at 1 in H. cbn [RS.rs w0 RS.set_ru] in H.
      destruct (RS._oplogKeyTracker (RS.rs w)) as [trk |] eqn:Htrk0;
        [ | exfalso; now apply Htrk ].
      unfold RS.ret at 1 in H. cbn [option_map]. unfold RS.bind at 1 in H.
      destruct (RS.deleteLoop env j soc doc _ 0 0 w0) as [o1 w1] eqn:Hloop.
      exists o1, w1. split; [ reflexivity | ].
      destruct o1 as [[[ss dr] rest] | e |]; exact H.
    - unfold RS.ret at 1 in H. unfold RS.bind at 1 in H.
      destruct (RS.deleteLoop env j soc doc _ 0 0 w0) as [o1 w1] eqn:Hloop.
      exists o1, w1. split; [ reflexivity | ].
      destruct o1 as [[[ss dr] rest] | e |]; exact H. }
  clear H.
  destruct Hiter as (o1 & w1 & Hloop & H).
  pose proof (deleteLoop_spec env j soc doc _ _ _ _ _ _ Hloop ltac:(lia)) as Hspec.
  destruct Hspec as (_ & _ & _ & _ & _ & _ & F1 & _).
  apply deleteLoop_unobstructed in Hloop; [ | exact Hun ].
  destruct Hloop as (pre & post & Hent & Hout & Hstop & Hmin & Hn1 & Hs1 & Hdn1 & Hdd1).
  destruct Hd0 as [Hdn0 Hdd0]. rewrite Hdn0 in Hdn1. rewrite Hdd0 in Hdd1.
  change (RS.rs w0) with (RS.rs w) in *.
  subst o1. rewrite !Z.add_0_l in *.
  exists pre, post.
  split; [ exact Hent | ].
  assert (Hcommit : exists w2,
            (if Z.of_nat (length pre) >? 0
             then
               RS.bind (RS._changeNumRecords (- Z.of_nat (length pre)))
                 (fun _ : unit =>
                    RS.bind (RS._increaseDataSize (- entries_size (RS._isOplog (RS.rs w)) pre))
                      (fun _ : unit => RS.commitUnitOfWork))
             else RS.ret tt) w1 = (Returned tt, w2)
            /\ RS._cappedVisibilityManager (RS.rs w2) = RS._cappedVisibilityManager (RS.rs w)
            /\ RS._numRecords (RS.rs w2) = RS._numRecords (RS.rs w) - Z.of_nat (length pre)
            /\ RS._dataSize (RS.rs w2)
               = RS._dataSize (RS.rs w) - entries_size (RS._isOplog (RS.rs w)) pre).
  { destruct (Z.gtb_spec (Z.of_nat (length pre)) 0) as [Hpos | Hzero].
    - eexists. split; [ reflexivity | ]. cbn.
      split; [ exact (pf_vm _ _ F1) | ].
      rewrite Hn1, Hs1, Hdn1, Hdd1. split; lia.
    - exists w1. split; [ reflexivity | ].
      split; [ exact (pf_vm _ _ F1) | ].
      destruct pre; [ | cbn [length] in Hzero; lia ].
      cbn [length entries_size fold_right]. rewrite Hn1, Hs1. split; lia. }
  destruct Hcommit as (w2 & Hc & Hvm2 & Hn2 & Hs2).
  unfold RS.bind at 1 in H. rewrite Hc in H.
  unfold RS.bind at 1 in H.
  assert (Hfin : out = Returned (Z.of_nat (length pre))
                 /\ RS._numRecords (RS.rs w') = RS._numRecords (RS.rs w2)
                 /\ RS._dataSize (RS.rs w') = RS._dataSize (RS.rs w2)).
  { destruct post as [| [k v] post'].
    - cbn in H. unfold RS.ret in H. injection H as <- <-. repeat split; reflexivity.
    - rewrite Hent in Hun. apply unobstructed_suffix in Hun.
      destruct Hun as (_ & _ & _ & m & Hvm & Hall).
      inversion Hall as [| ? ? (id & Hid & _) _]; subst. cbn [fst] in Hid.
      rewrite Hid in H.
      unfold RS.vm_isCappedHidden, RS.theVisibilityManager in H. unfold RS.bind at 1 2 in H.
      rewrite Hvm2, Hvm in H. unfold RS.ret at 1 in H.
      destruct (VM.isCappedHidden id m); cbn in H; unfold RS.ret in H;
        injection H as <- <-; repeat split; reflexivity. }
  destruct Hfin as (Ho & Hn' & Hs').
  split; [ exact Ho | ]. split; [ exact Hstop | ]. split; [ exact Hmin | ].
  split; congruence.
Qed.

(** A deletion pass that nothing stops brings the collection back within
    its caps, with the fewest deletions: it deletes the oldest entries, in
    order, until the data size and the number of records (those of the
    store plus the deltas of the caller's transaction) are within
    [cappedMaxSize] and [cappedMaxDocs], or until it has deleted 20000
    entries or no entry is left; before its last deletion the collection
    was still over one of its caps. It returns the number of entries
    deleted, and its commit has taken them and their sizes off the
    counters and their keys off the engine. *)
Theorem cappedDeleteAsNeeded_inlock_restores_caps
        (kOplogCompactEveryMins kOplogCompactEveryDeletedRecords : Z) (env : Env)
        (justInserted : RecordId) (w : RS.World) (out : Outcome Z) (w' : RS.World) :
  RS.cappedDeleteAsNeeded_inlock kOplogCompactEveryMins kOplogCompactEveryDeletedRecords
                                 env justInserted w = (out, w') ->
  unobstructed env justInserted (RS.rs w) (deleter_entries w) ->
  let s := RS.rs w in
  let dataSize := RS._dataSize s + ru_deltaDataSize (recoveryUnit (RS.opCtx w)) in
  let numRecords := RS._numRecords s + ru_deltaNumRecords (recoveryUnit (RS.opCtx w)) in
  let size := entries_size (RS._isOplog s) in
  exists pre post ds,
    deleter_entries w = pre ++ post
    /\ decoded_as pre ds
    /\ out = Returned (Z.of_nat (length pre))
    /\ RS.db w' = apply_batch (flat_map (del_ops s) ds) (RS.db w)
    /\ RS._numRecords (RS.rs w') = RS._numRecords s - Z.of_nat (length pre)
    /\ RS._dataSize (RS.rs w') = RS._dataSize s - size pre
    /\ (post = [] \/ Z.of_nat (length pre) = 20000
        \/ (dataSize - size pre <= RS._cappedMaxSize s
            /\ (RS._cappedMaxDocs s = -1
                \/ numRecords - Z.of_nat (length pre) <= RS._cappedMaxDocs s)))
    /\ (forall pre' e,
          pre = pre' ++ [e] ->
          size pre' < Z.max 0 (dataSize - RS._cappedMaxSize s)
          \/ (RS._cappedMaxDocs s <> -1
              /\ RS._cappedMaxDocs s < numRecords - Z.of_nat (length pre'))).
Proof.
  intros H Hun s dataSize numRecords size.
  pose proof (cappedDeleteAsNeeded_inlock_spec _ _ _ _ _ _ _ H) as Hspec.
  destruct Hspec as (pre_s & post_s & ds & Hent_s & Hdec & Hdb & _ & _ & _ & Hout_s).
  unfold RS.cappedDeleteAsNeeded_inlock in H.
  unfold RS.bind at 1, RS.getRU at 1, RS.gets at 1 in H.
  unfold RS.bind at 1, RS.modify at 1 in H.
  unfold RS.bind at 1, RS.gets at 1 in H.
  set (w0 := RS.set_ru (fun _ => newRocksRecoveryUnit) w) in H.
  unfold RS.bind at 1, RS.try_catch at 1 in H. unfold RS.bind at 1 in H.
  cbv zeta in H.
  match type of H with
  | context [RS.cappedDeleteAsNeeded_inlock_try env justInserted ?a ?b w0] =>
      set (soc := a) in H; set (doc := b) in H;
      destruct (RS.cappedDeleteAsNeeded_inlock_try env justInserted soc doc w0)
        as [o1 w1] eqn:Hbody
  end.
  pose proof (cappedDeleteAsNeeded_inlock_try_spec env justInserted soc doc w0 o1 w1
                eq_refl Hbody) as Htry.
  destruct Htry as (_ & _ & _ & _ & _ & _ & _ & _ & F1 & _).
  apply cappedDeleteAsNeeded_inlock_try_unobstructed in Hbody; [ | reflexivity | exact Hun ].
  destruct Hbody as (pre & post & Hent & Ho1 & Hstop & Hmin & Hn1 & Hs1).
  change (deleter_entries w0) with (deleter_entries w) in Hent.
  change (RS.rs w0) with s in *.
  fold size in Hstop, Hmin, Hs1.
  assert (Hsoc : soc = Z.max 0 (dataSize - RS._cappedMaxSize s)).
  { unfold soc. fold dataSize.
    destruct (Z.gtb_spec dataSize (RS._cappedMaxSize s)); lia. }
  assert (Hdoc : doc = if RS._cappedMaxDocs s =? -1 then 0
                       else Z.max 0 (numRecords - RS._cappedMaxDocs s)).
  { unfold doc. fold numRecords.
    destruct (RS._cappedMaxDocs s =? -1); cbn [negb andb]; [ reflexivity | ].
    destruct (Z.gtb_spec numRecords (RS._cappedMaxDocs s)); lia. }
  clearbody soc doc.
  assert (Hfinal : out = Returned (Z.of_nat (length pre))
                   /\ RS._numRecords (RS.rs w') = RS._numRecords (RS.rs w1)
                   /\ RS._dataSize (RS.rs w') = RS._dataSize (RS.rs w1)).
  { subst o1. cbn in H.
    destruct (RS._isOplog (RS.rs w1)) eqn:Hop.
    - unfold RS.bind, RS.theTracker in H. cbn [RS.rs RS.set_ru] in H.
      destruct (RS._oplogKeyTracker (RS.rs w1)) as [trk |] eqn:Htrk.
      + destruct ((env_minutes env >=? kOplogCompactEveryMins)
                  || (_deletedKeysSinceCompaction trk >=? kOplogCompactEveryDeletedRecords));
          cbn in H; injection H as <- <-; repeat split; reflexivity.
      + exfalso. destruct Hun as (_ & Hsome & _).
        pose proof (pf_tracker _ _ F1) as Ht. pose proof (pf_isOplog _ _ F1) as Hi.
        change (RS.rs w0) with s in Ht, Hi.
        unfold tracker_prefix_of in Ht. rewrite Htrk in Ht. cbn [option_map] in Ht.
        rewrite Hop in Hi. symmetry in Hi. specialize (Hsome Hi).
        unfold s in *.
        destruct (RS._oplogKeyTracker (RS.rs w)); [ discriminate Ht | now apply Hsome ].
    - cbn in H. injection H as <- <-. repeat split; reflexivity. }
  destruct Hfinal as (Hout & Hn' & Hs').
  assert (Hsame : pre_s = pre /\ post_s = post).
  { apply prefix_same_length; [ congruence | ].
    rewrite (decoded_as_length _ _ Hdec).
    specialize (Hout_s _ Hout). apply Nat2Z.inj. congruence. }
  destruct Hsame as [-> ->].
  exists pre, post, ds.
  split; [ exact Hent | ]. split; [ exact Hdec | ]. split; [ exact Hout | ].
  split; [ exact Hdb | ]. split; [ congruence | ]. split; [ congruence | ].
  split.
  - destruct Hstop as [Hp | [Hcap | [Hs Hd]]].
    + now left.
    + right. left.
      destruct (exists_last (l := pre)) as (pre' & e & Hlast).
      { intros ->. cbn [length] in Hcap. lia. }
      destruct (Hmin pre' e Hlast) as [_ Hlt].
      assert (Z.of_nat (length pre) = Z.of_nat (length pre') + 1)
        by (rewrite Hlast, length_app; cbn [length]; lia).
      lia.
    + right. right. split; [ lia | ].
      destruct (Z.eqb_spec (RS._cappedMaxDocs s) (-1)) as [Hm | Hm]; [ now left | right; lia ].
  - intros pre' e Hlast. destruct (Hmin pre' e Hlast) as [[Hs | Hd] _].
    + left. lia.
    + right. destruct (Z.eqb_spec (RS._cappedMaxDocs s) (-1)) as [Hm | Hm]; [ lia | ].
      split; [ exact Hm | lia ].
Qed.

Lemma cappedDeleteAsNeeded_inlock_restores_caps_witness :
  let w := full_capped_world in
  let r := RS.cappedDeleteAsNeeded_inlock 60 1000000 quiet_env 11 w in
  let s := RS.rs w in
  let dataSize := RS._dataSize s + ru_deltaDataSize (recoveryUnit (RS.opCtx w)) in
  let numRecords := RS._numRecords s + ru_deltaNumRecords (recoveryUnit (RS.opCtx w)) in
  let size := entries_size (RS._isOplog s) in
  exists pre post ds,
    deleter_entries w = pre ++ post
    /\ decoded_as pre ds
    /\ fst r = Returned (Z.of_nat (length pre))
    /\ RS.db (snd r) = apply_batch (flat_map (del_ops s) ds) (RS.db w)
    /\ RS._numRecords (RS.rs (snd r)) = RS._numRecords s - Z.of_nat (length pre)
    /\ RS._dataSize (RS.rs (snd r)) = RS._dataSize s - size pre
    /\ (post = [] \/ Z.of_nat (length pre) = 20000
        \/ (dataSize - size pre <= RS._cappedMaxSize s
            /\ (RS._cappedMaxDocs s = -1
                \/ numRecords - Z.of_nat (length pre) <= RS._cappedMaxDocs s)))
    /\ (forall pre' e,
          pre = pre' ++ [e] ->
          size pre' < Z.max 0 (dataSize - RS._cappedMaxSize s)
          \/ (RS._cappedMaxDocs s <> -1
              /\ RS._cappedMaxDocs s < numRecords - Z.of_nat (length pre'))).
Proof.
  intros w r.
  apply (cappedDeleteAsNeeded_inlock_restores_caps 60 1000000 quiet_env 11 w (fst r) (snd r)).
  - vm_compute. reflexivity.
  - unfold unobstructed. split; [ reflexivity | ]. split; [ discriminate | ].
    split; [ discriminate | ].
    exists (VM.mk [11] 11 [] false). split; [ reflexivity | ].
    let e := eval vm_compute in (deleter_entries w) in
    change (deleter_entries w) with e.
    repeat (constructor;
            [ eexists; split; [ vm_compute; reflexivity | ];
              split; [ vm_compute; reflexivity | ];
              split; vm_compute; reflexivity | ]).
    constructor.
Defined.

(* ================================================================== *)
(** * A record that is not stored *)
(* ================================================================== *)

Lemma bind_snapshot (A : Type) (k : DB -> RS.M A) (w : RS.World) :
  RS.bind RS.snapshot k w
  = let snap := match ru_snapshot (recoveryUnit (RS.opCtx w)) with
                | Some d => d
                | None => RS.db w
                end in
    k snap (RS.set_ru (fun ru => mkRU (Some snap) (ru_writeBatch ru) (ru_deltaDataSize ru)
                                      (ru_deltaNumRecords ru) (ru_changes ru)
                                      (ru_oplogReadTill ru)) w).
Proof. unfold RS.bind at 1. rewrite snapshot_run. reflexivity. Qed.



(* ================================================================== *)
(** * Opening a cursor on the oplog *)
(* ================================================================== *)

Lemma bind_assoc (A B C : Type) (m : RS.M A) (f : A -> RS.M B) (g : B -> RS.M C)
      (w : RS.World) :
  RS.bind (RS.bind m f) g w = RS.bind m (fun x => RS.bind (f x) g) w.
Proof. unfold RS.bind. destruct (m w) as [[a | e |] w1]; reflexivity. Qed.

(** [getCursor(opCtx, true)] on the oplog. When the transaction already has
    a snapshot and other writers are possible (the lock state is not a
    no-op and the collection is not locked in mode X), it throws
    [WriteConflictException] and changes nothing. Otherwise it pins the read
    ceiling of the transaction at [oplogStartHack()] of that moment and
    returns a cursor that starts at [_cappedOldestKeyHint]; whatever is
    registered or committed afterwards, a scan with that cursor returns the
    records from the hint up to the ceiling, the one at the ceiling only if
    it is not hidden then, and nothing above it. *)
Theorem getCursor_oplog_pins_ceiling
        (w : RS.World) (m : VM.t) (recs : list (RecordId * Slice)) :
  let s := RS.rs w in
  let ctx := RS.opCtx w in
  let snap := match ru_snapshot (recoveryUnit ctx) with
              | Some d => d
              | None => RS.db w
              end in
  let readUntil := VM.oplogStartHack m in
  RS._isOplog s = true ->
  RS._cappedVisibilityManager s = Some m ->
  readUntil <> RecordId_null ->
  prefix_entries (RS._prefix s) snap = entries_of recs ->
  StronglySorted Z.lt (ids_of recs) ->
  Forall stored_id (ids_of recs) ->
  stored_id (RS._cappedOldestKeyHint s) ->
  if (match ru_snapshot (recoveryUnit ctx) with Some _ => true | None => false end)
     && negb (lockIsNoop ctx) && negb (isCollectionLockedX ctx)
  then RS.getCursor true w = (Threw WriteConflictException, w)
  else
    exists c w',
      RS.getCursor true w = (Returned c, w')
      /\ ru_oplogReadTill (recoveryUnit (RS.opCtx w')) = readUntil
      /\ ru_snapshot (recoveryUnit (RS.opCtx w')) = Some snap
      /\ RS.rs w' = s /\ RS.db w' = RS.db w
      /\ forall later : VM.t,
           let readable (r : RecordId * Slice) :=
             (RS._cappedOldestKeyHint s <=? fst r)
             && ((fst r <? readUntil)
                 || ((fst r =? readUntil) && negb (VM.isCappedHidden (fst r) later))) in
           exists c',
             next_n (S (length (filter readable recs))) (Some later) snap c
             = Some (map Some (filter readable recs) ++ [None], c')
             /\ Cursor.next (Some later) snap c' = Some (None, c').
Proof.
  intros s ctx snap readUntil Hop Hvm Hceil Hent Hs Hstored Hhint.
  assert (Hstart : forall (A : Type) (k : RecordId -> RS.M A),
             RS.bind
               (RS.bind (RS.gets RS.opCtx)
                  (fun ctx0 : OperationContext =>
                     RS.bind
                       (if (match ru_snapshot (recoveryUnit ctx0) with
                            | Some _ => true
                            | None => false
                            end)
                           && negb (lockIsNoop ctx0) && negb (isCollectionLockedX ctx0)
                        then RS.throw WriteConflictException
                        else RS.ret tt)
                       (fun _ : unit =>
                          RS.bind RS.theVisibilityManager
                            (fun vm : VM.t =>
                               RS.bind (RS.setOplogReadTill (VM.oplogStartHack vm))
                                 (fun _ : unit => RS.ret (RS._cappedOldestKeyHint s))))))
               k w
             = if (match ru_snapshot (recoveryUnit ctx) with Some _ => true | None => false end)
                  && negb (lockIsNoop ctx) && negb (isCollectionLockedX ctx)
               then (Threw WriteConflictException, w)
               else k (RS._cappedOldestKeyHint s)
                      (RS.set_ru (fun ru =>
                         mkRU (ru_snapshot ru) (ru_writeBatch ru) (ru_deltaDataSize ru)
                              (ru_deltaNumRecords ru) (ru_changes ru) readUntil) w)).
  { intros A k. rewrite bind_assoc. unfold RS.bind at 1, RS.gets at 1. fold ctx.
    rewrite bind_assoc.
    destruct ((match ru_snapshot (recoveryUnit ctx) with Some _ => true | None => false end)
              && negb (lockIsNoop ctx) && negb (isCollectionLockedX ctx)).
    - reflexivity.
    - unfold RS.bind at 1, RS.ret at 1. rewrite bind_assoc.
      unfold RS.bind at 1, RS.theVisibilityManager at 1. fold s. rewrite Hvm.
      rewrite bind_assoc. unfold RS.bind at 1, RS.setOplogReadTill, RS.modify at 1.
      fold readUntil. unfold RS.bind at 1, RS.ret at 1. reflexivity. }
  destruct ((match ru_snapshot (recoveryUnit ctx) with Some _ => true | None => false end)
            && negb (lockIsNoop ctx) && negb (isCollectionLockedX ctx)) eqn:Hconflict.
  - unfold RS.getCursor.
    unfold RS.bind at 1, RS.gets at 1. fold s. rewrite Hop, Hstart.
    reflexivity.
  - destruct (construct_forward_some snap (RS._prefix s) (RS._isCapped s) readUntil
                (RS._cappedOldestKeyHint s) recs Hent Hstored Hhint) as (c & Hc).
    unfold RS.getCursor.
    unfold RS.bind at 1, RS.gets at 1. fold s. rewrite Hop, Hstart.
    unfold RS.bind at 1, RS.getRU, RS.gets at 1.
    rewrite bind_snapshot. cbv zeta.
    cbn [RS.set_ru RS.opCtx RS.rs RS.db RS.trace recoveryUnit ru_snapshot ru_oplogReadTill
         ru_writeBatch ru_deltaDataSize ru_deltaNumRecords ru_changes lockIsNoop
         isCollectionLockedX].
    fold ctx. fold snap. fold s. rewrite Hc.
    eexists. eexists. split; [ reflexivity | ].
    cbn [RS.set_ru RS.opCtx RS.rs RS.db RS.trace recoveryUnit ru_snapshot ru_oplogReadTill].
    split; [ reflexivity | ]. split; [ reflexivity | ]. split; [ reflexivity | ].
    split; [ reflexivity | ].
    intros later.
    exact (forward_scan_ceiling_run later snap (RS._prefix s) (RS._isCapped s) readUntil
             (RS._cappedOldestKeyHint s) recs c Hc Hceil Hent Hs Hstored Hhint).
Qed.

Lemma getCursor_oplog_pins_ceiling_witness :
  let m := VM.mk [30] 30 [] false in
  let w := RS.set_rs (RS.with_vm (Some m)) oplog_three_world in
  let recs := map (fun id => (id, oplog_entry id)) [10; 20; 30] in
  exists c w',
    RS.getCursor true w = (Returned c, w')
    /\ ru_oplogReadTill (recoveryUnit (RS.opCtx w')) = 30
    /\ ru_snapshot (recoveryUnit (RS.opCtx w')) = Some (RS.db w)
    /\ RS.rs w' = RS.rs w /\ RS.db w' = RS.db w
    /\ forall later : VM.t,
         let readable (r : RecordId * Slice) :=
           (0 <=? fst r)
           && ((fst r <? 30) || ((fst r =? 30) && negb (VM.isCappedHidden (fst r) later))) in
         exists c',
           next_n (S (length (filter readable recs))) (Some later) (RS.db w) c
           = Some (map Some (filter readable recs) ++ [None], c')
           /\ Cursor.next (Some later) (RS.db w) c' = Some (None, c').
Proof.
  intros m w recs.
  apply (getCursor_oplog_pins_ceiling w m recs).
  - reflexivity.
  - reflexivity.
  - discriminate.
  - vm_compute. reflexivity.
  - repeat constructor; lia.
  - unfold stored_id, int64, kMinRepr, kMaxRepr. repeat constructor; cbn; lia.
  - unfold stored_id, int64, kMinRepr, kMaxRepr. cbn. lia.
Defined.

(* ================================================================== *)
(** * The counters after a capped deletion *)
(* ================================================================== *)

(** However the loop ends, it leaves the counters of the store and the
    deltas of the transaction alone, and when it returns, the size and the
    number it reports are those of the entries it passed. *)
Lemma deleteLoop_accounts (env : Env) (j : RecordId) (soc doc : Z) :
  forall (rest : list (Slice * Slice)) (ss dr : Z) (w : RS.World)
         (out : Outcome (Z * Z * list (Slice * Slice))) (w' : RS.World),
    RS.deleteLoop env j soc doc rest ss dr w = (out, w') ->
    RS._numRecords (RS.rs w') = RS._numRecords (RS.rs w)
    /\ RS._dataSize (RS.rs w') = RS._dataSize (RS.rs w)
    /\ ru_deltaNumRecords (recoveryUnit (RS.opCtx w'))
       = ru_deltaNumRecords (recoveryUnit (RS.opCtx w))
    /\ ru_deltaDataSize (recoveryUnit (RS.opCtx w'))
       = ru_deltaDataSize (recoveryUnit (RS.opCtx w))
    /\ forall ss' dr' post',
         out = Returned (ss', dr', post') ->
         exists pre,
           rest = pre ++ post'
           /\ ss' = ss + entries_size (RS._isOplog (RS.rs w)) pre
           /\ dr' = dr + Z.of_nat (length pre).
Proof.
  induction rest as [| [k v] rest' IH]; intros ss dr w out w' H.
  - cbn in H. injection H as <- <-.
    repeat (split; [ reflexivity | ]).
    intros ss' dr' post' Heq. injection Heq as <- <- <-.
    exists []. cbn [entries_size fold_right length app]. repeat split; lia.
  - (* the ways the loop ends at this entry without deleting it *)
    assert (Hstop : forall o evs,
              match o with
              | Returned (ss', dr', post') => ss' = ss /\ dr' = dr /\ post' = (k, v) :: rest'
              | _ => True
              end ->
              (o, RS.mkWorld (RS.rs w) (RS.opCtx w) (RS.db w) (RS.trace w ++ evs)) = (out, w') ->
              RS._numRecords (RS.rs w') = RS._numRecords (RS.rs w)
              /\ RS._dataSize (RS.rs w') = RS._dataSize (RS.rs w)
              /\ ru_deltaNumRecords (recoveryUnit (RS.opCtx w'))
                 = ru_deltaNumRecords (recoveryUnit (RS.opCtx w))
              /\ ru_deltaDataSize (recoveryUnit (RS.opCtx w'))
                 = ru_deltaDataSize (recoveryUnit (RS.opCtx w))
              /\ forall ss' dr' post',
                   out = Returned (ss', dr', post') ->
                   exists pre,
                     (k, v) :: rest' = pre ++ post'
                     /\ ss' = ss + entries_size (RS._isOplog (RS.rs w)) pre
                     /\ dr' = dr + Z.of_nat (length pre)).
    { intros o evs Ho Heq. injection Heq as <- <-.
      repeat (split; [ reflexivity | ]).
      intros ss' dr' post' Heq. subst o. destruct Ho as (-> & -> & ->).
      exists []. cbn [entries_size fold_right length app]. repeat split; lia. }
    assert (Hw : w = RS.mkWorld (RS.rs w) (RS.opCtx w) (RS.db w) (RS.trace w ++ [])).
    { rewrite app_nil_r. now destruct w. }
    cbn [RS.deleteLoop] in H.
    destruct (((ss <? soc) || (dr <? doc)) && (dr <? 20000)) eqn:Hcond.
    2:{ unfold RS.ret in H. rewrite Hw in H at 1. eapply Hstop; eauto. simpl; auto. }
    destruct (_makeRecordId k) as [id |] eqn:Hid.
    2:{ unfold RS.abort in H. rewrite Hw in H at 1. eapply Hstop; eauto. simpl; auto. }
    unfold RS.vm_isCappedHidden, RS.theVisibilityManager in H. unfold RS.bind at 1 2 in H.
    destruct (RS._cappedVisibilityManager (RS.rs w)) as [vm |] eqn:Hvm.
    2:{ rewrite Hw in H at 1. eapply Hstop; eauto. simpl; auto. }
    unfold RS.ret at 1 in H.
    destruct (VM.isCappedHidden id vm) eqn:Hhid.
    { unfold RS.ret in H. rewrite Hw in H at 1. eapply Hstop; eauto. simpl; auto. }
    destruct (id >=? j) eqn:Hj.
    { unfold RS.ret in H. rewrite Hw in H at 1. eapply Hstop; eauto. simpl; auto. }
    unfold RS.bind at 1, RS.gets at 1 in H.
    destruct (RS._shuttingDown (RS.rs w)) eqn:Hsd.
    { unfold RS.ret in H. rewrite Hw in H at 1. eapply Hstop; eauto. simpl; auto. }
    unfold RS.bind at 1, RS.emit at 1, RS.modify at 1 in H.
    set (key := _makePrefixedKey (RS._prefix (RS.rs w)) id) in *.
    destruct (env_registerWrite env key) eqn:Hrw; cbn [negb] in H.
    2:{ cbn in H. rewrite <- app_assoc in H.
        eapply (Hstop _ ([EvRegisterWrite key false] ++ [EvLog])); [ | exact H ].
        simpl; auto. }
    (* the entry is deleted and the loop goes on *)
    assert (Hrec : forall w1,
              RS._isOplog (RS.rs w1) = RS._isOplog (RS.rs w) ->
              RS._numRecords (RS.rs w1) = RS._numRecords (RS.rs w) ->
              RS._dataSize (RS.rs w1) = RS._dataSize (RS.rs w) ->
              ru_deltaNumRecords (recoveryUnit (RS.opCtx w1))
              = ru_deltaNumRecords (recoveryUnit (RS.opCtx w)) ->
              ru_deltaDataSize (recoveryUnit (RS.opCtx w1))
              = ru_deltaDataSize (recoveryUnit (RS.opCtx w)) ->
              RS.deleteLoop env j soc doc rest'
                            (ss + entry_size (RS._isOplog (RS.rs w)) (k, v)) (dr + 1) w1
              = (out, w') ->
              RS._numRecords (RS.rs w') = RS._numRecords (RS.rs w)
              /\ RS._dataSize (RS.rs w') = RS._dataSize (RS.rs w)
              /\ ru_deltaNumRecords (recoveryUnit (RS.opCtx w'))
                 = ru_deltaNumRecords (recoveryUnit (RS.opCtx w))
              /\ ru_deltaDataSize (recoveryUnit (RS.opCtx w'))
                 = ru_deltaDataSize (recoveryUnit (RS.opCtx w))
              /\ forall ss' dr' post',
                   out = Returned (ss', dr', post') ->
                   exists pre,
                     (k, v) :: rest' = pre ++ post'
                     /\ ss' = ss + entries_size (RS._isOplog (RS.rs w)) pre
                     /\ dr' = dr + Z.of_nat (length pre)).
    { intros w1 Hop1 Hn1 Hd1 Hdn1 Hdd1 Hloop.
      destruct (IH _ _ w1 out w' Hloop) as (Hn & Hd & Hdn & Hdd & Hout).
      rewrite Hop1 in Hout.
      repeat (split; [ congruence | ]).
      intros ss' dr' post' Heq. destruct (Hout _ _ _ Heq) as (pre & Hrest & Hss & Hdr).
      exists ((k, v) :: pre).
      cbn [entries_size fold_right length]. fold (entries_size (RS._isOplog (RS.rs w)) pre).
      rewrite Nat2Z.inj_succ.
      split; [ now rewrite Hrest | ]. split; lia. }
    unfold RS.bind at 1 in H.
    destruct (RS._isOplog (RS.rs w)) eqn:Hop.
    + (* oplog: the tracker supplies the size and is updated *)
      unfold RS.bind at 1, RS.theTracker at 1 in H. cbn [RS.rs] in H.
      destruct (RS._oplogKeyTracker (RS.rs w)) as [trk |] eqn:Htrk.
      2:{ eapply (Hstop _ [EvRegisterWrite key true]); [ | exact H ]. exact I. }
      unfold RS.ret at 1 in H.
      destruct (RS._cappedCallback (RS.rs w)) as [cb |] eqn:Hcb.
      * unfold RS.bind at 1 2, RS.emit at 1, RS.modify at 1 in H.
        cbn [RS.rs RS.opCtx RS.db RS.trace] in H.
        destruct (cb id [5; 0; 0; 0; 0]) eqn:Hres.
        -- cbn in H. unfold RS.deleteKey, RS.theTracker in H. unfold RS.bind at 1 2 in H.
           cbn [RS.rs] in H. rewrite Htrk in H. cbn in H.
           eapply Hrec; [ .. | exact H ]; cbn; try reflexivity; assumption.
        -- cbn in H. rewrite <- app_assoc in H.
           eapply (Hstop _ ([EvRegisterWrite key true]
                              ++ [EvAboutToDeleteCapped id [5; 0; 0; 0; 0]]));
             [ | exact H ].
           exact I.
        -- cbn in H. rewrite <- app_assoc in H.
           eapply (Hstop _ ([EvRegisterWrite key true]
                              ++ [EvAboutToDeleteCapped id [5; 0; 0; 0; 0]]));
             [ | exact H ].
           exact I.
      * cbn in H. unfold RS.deleteKey, RS.theTracker in H. unfold RS.bind at 1 2 in H.
        cbn [RS.rs] in H. rewrite Htrk in H. cbn in H.
        eapply Hrec; [ .. | exact H ]; cbn; try reflexivity; assumption.
    + (* plain capped collection *)
      unfold RS.ret at 1 in H.
      destruct (RS._cappedCallback (RS.rs w)) as [cb |] eqn:Hcb.
      * unfold RS.bind at 1 2, RS.emit at 1, RS.modify at 1 in H.
        cbn [RS.rs RS.opCtx RS.db RS.trace] in H.
        destruct (cb id v) eqn:Hres.
        -- cbn in H.
           eapply Hrec; [ .. | exact H ]; cbn; try reflexivity; assumption.
        -- cbn in H. rewrite <- app_assoc in H.
           eapply (Hstop _ ([EvRegisterWrite key true] ++ [EvAboutToDeleteCapped id v]));
             [ | exact H ].
           exact I.
        -- cbn in H. rewrite <- app_assoc in H.
           eapply (Hstop _ ([EvRegisterWrite key true] ++ [EvAboutToDeleteCapped id v]));
             [ | exact H ].
           exact I.
      * cbn in H.
        eapply Hrec; [ .. | exact H ]; cbn; try reflexivity; assumption.
Qed.

(** The [try] block, when it returns or throws: the deletions it has
    committed are those of the entries it reports, and they are off the
    counters; when it throws it has committed nothing. *)
Lemma cappedDeleteAsNeeded_inlock_try_accounts (env : Env) (j : RecordId) (soc doc : Z)
      (w : RS.World) (out : Outcome Z) (w' : RS.World) :
  recoveryUnit (RS.opCtx w) = newRocksRecoveryUnit ->
  RS.cappedDeleteAsNeeded_inlock_try env j soc doc w = (out, w') ->
  out <> Aborted ->
  exists pre post ds,
    deleter_entries w = pre ++ post
    /\ decoded_as pre ds
    /\ RS.db w' = apply_batch (flat_map (del_ops (RS.rs w)) ds) (RS.db w)
    /\ pass_frame w w'
    /\ RS._numRecords (RS.rs w') = RS._numRecords (RS.rs w) - Z.of_nat (length pre)
    /\ RS._dataSize (RS.rs w')
       = RS._dataSize (RS.rs w) - entries_size (RS._isOplog (RS.rs w)) pre
    /\ match out with
       | Returned n => n = Z.of_nat (length pre)
       | Threw _ => pre = []
       | Aborted => True
       end.
Proof.
  intros Hru H Hna.
  unfold RS.cappedDeleteAsNeeded_inlock_try in H.
  unfold RS.bind at 1, RS.gets at 1 in H.
  unfold RS.bind at 1, RS.snapshot at 1 in H. rewrite Hru in H.
  cbn [ru_snapshot newRocksRecoveryUnit] in H.
  set (w0 := RS.set_ru _ w) in H.
  assert (F0 : pass_frame w w0).
  { constructor; try reflexivity. exists []. split; [ cbn; now rewrite app_nil_r | constructor ]. }
  assert (Hb0 : batch_of w0 = []).
  { unfold batch_of, w0. cbn. now rewrite Hru. }
  assert (Hd0 : ru_deltaNumRecords (recoveryUnit (RS.opCtx w0)) = 0
                /\ ru_deltaDataSize (recoveryUnit (RS.opCtx w0)) = 0).
  { unfold w0. cbn. rewrite Hru. split; reflexivity. }
  destruct Hd0 as [Hdn0 Hdd0].
  assert (Hiter : (exists o1 w1,
             RS.deleteLoop env j soc doc (deleter_entries w) 0 0 w0 = (o1, w1)
             /\ match o1 with
                | Returned (sizeSaved, docsRemoved, rest) =>
                    RS.bind
                      (if docsRemoved >? 0
                       then
                         RS.bind (RS._changeNumRecords (- docsRemoved))
                           (fun _ : unit =>
                              RS.bind (RS._increaseDataSize (- sizeSaved))
                                (fun _ : unit => RS.commitUnitOfWork))
                       else RS.ret tt)
                      (fun _ : unit =>
                         RS.bind
                           match rest with
                           | [] => RS.ret tt
                           | (k, _) :: _ =>
                               match _makeRecordId k with
                               | Some oldestAliveRecordId =>
                                   RS.bind (RS.vm_isCappedHidden oldestAliveRecordId)
                                     (fun hidden : bool =>
                                        if negb hidden
                                        then RS.modify (RS.set_rs (RS.with_hint oldestAliveRecordId))
                                        else RS.ret tt)
                               | None => RS.abort
                               end
                           end (fun _ : unit => RS.ret docsRemoved)) w1 = (out, w')
                | Threw e => (Threw e, w1) = (out, w')
                | Aborted => (Aborted, w1) = (out, w')
                end)
           \/ (@Aborted Z, w0) = (out, w')).
  { unfold RS.bind at 1 in H. unfold deleter_entries, tracker_prefix_of.
    destruct (RS._isOplog (RS.rs w)) eqn:Hop.
    - unfold RS.bind at 1, RS.theTracker at 1 in H. cbn [RS.rs w0 RS.set_ru] in H.
      destruct (RS._oplogKeyTracker (RS.rs w)) as [trk |] eqn:Htrk.
      + unfold RS.ret at 1 in H. cbn [option_map]. unfold RS.bind at 1 in H.
        destruct (RS.deleteLoop env j soc doc _ 0 0 w0) as [o1 w1] eqn:Hloop.
        left. exists o1, w1. split; [ reflexivity | ].
        destruct o1 as [[[ss dr] rest] | e |]; exact H.
      + right. exact H.
    - unfold RS.ret at 1 in H. unfold RS.bind at 1 in H.
      destruct (RS.deleteLoop env j soc doc _ 0 0 w0) as [o1 w1] eqn:Hloop.
      left. exists o1, w1. split; [ reflexivity | ].
      destruct o1 as [[[ss dr] rest] | e |]; exact H. }
  clear H.
  destruct Hiter as [(o1 & w1 & Hloop & H) | Habort];
    [ | injection Habort as <- _; now contradiction Hna ].
  pose proof (deleteLoop_accounts env j soc doc _ _ _ _ _ _ Hloop) as Hacc.
  destruct Hacc as (Hn1 & Hs1 & Hdn1 & Hdd1 & Hret).
  rewrite Hdn0 in Hdn1. rewrite Hdd0 in Hdd1.
  apply deleteLoop_spec in Hloop; [ | lia ].
  destruct Hloop as (pre & post & ds & Hent & Hdec & _ & F1 & Hdb1 & Hb1 & _ & Hout).
  assert (F01 : pass_frame w w1) by (eapply pass_frame_trans; eauto).
  rewrite Hb0 in Hb1. cbn [app] in Hb1. change (RS.rs w0) with (RS.rs w) in *.
  change (RS.db w0) with (RS.db w) in *.
  destruct o1 as [[[ss dr] rest] | e |].
  2:{ injection H as <- <-.
      exists [], (deleter_entries w), [].
      cbn [entries_size fold_right length flat_map apply_batch fold_left app].
      split; [ reflexivity | ]. split; [ reflexivity | ]. split; [ exact Hdb1 | ].
      split; [ exact F01 | ]. split; [ rewrite Hn1; cbn; lia | ].
      split; [ rewrite Hs1; lia | reflexivity ]. }
  2:{ injection H as <- _. now contradiction Hna. }
  destruct Hout as [-> ->].
  destruct (Hret _ _ _ eq_refl) as (pre_a & Hent_a & Hss & Hdr).
  assert (Hpre : pre_a = pre).
  { rewrite Hent in Hent_a. apply app_inv_tail in Hent_a. congruence. }
  subst pre_a. rewrite Z.add_0_l in Hss, Hdr.
  assert (Hlen : Z.of_nat (length ds) = Z.of_nat (length pre)).
  { rewrite (decoded_as_length _ _ Hdec). reflexivity. }
  rewrite Z.add_0_l in H.
  assert (Hcommit : exists w2,
            (if Z.of_nat (length ds) >? 0
             then
               RS.bind (RS._changeNumRecords (- Z.of_nat (length ds)))
                 (fun _ : unit =>
                    RS.bind (RS._increaseDataSize (- ss))
                      (fun _ : unit => RS.commitUnitOfWork))
             else RS.ret tt) w1 = (Returned tt, w2)
            /\ pass_frame w1 w2
            /\ RS.db w2 = apply_batch (flat_map (del_ops (RS.rs w)) ds) (RS.db w)
            /\ RS._numRecords (RS.rs w2) = RS._numRecords (RS.rs w) - Z.of_nat (length pre)
            /\ RS._dataSize (RS.rs w2)
               = RS._dataSize (RS.rs w) - entries_size (RS._isOplog (RS.rs w)) pre).
  { destruct (Z.gtb_spec (Z.of_nat (length ds)) 0) as [Hpos | Hzero].
    - eexists. split; [ reflexivity | ]. split.
      + constructor; try reflexivity.
        eexists. split; [ reflexivity | repeat constructor ].
      + split.
        * cbn. fold (batch_of w1). now rewrite Hb1, Hdb1.
        * cbn. rewrite Hn1, Hs1, Hdn1, Hdd1. split; lia.
    - exists w1. split; [ reflexivity | ]. split; [ apply pass_frame_refl | ].
      destruct ds; [ | simpl in Hzero; lia ].
      destruct pre; [ | cbn [length] in Hlen; lia ].
      cbn [entries_size fold_right length] in *. cbn.
      split; [ congruence | ]. split; lia. }
  destruct Hcommit as (w2 & Hc & F2 & Hdb2 & Hn2 & Hs2).
  unfold RS.bind at 1 in H. rewrite Hc in H.
  assert (F02 : pass_frame w w2) by (eapply pass_frame_trans; eauto).
  unfold RS.bind at 1 in H.
  assert (Hfin : forall w3,
            pass_frame w2 w3 ->
            RS.db w3 = RS.db w2 ->
            RS._numRecords (RS.rs w3) = RS._numRecords (RS.rs w2) ->
            RS._dataSize (RS.rs w3) = RS._dataSize (RS.rs w2) ->
            (Returned (Z.of_nat (length ds)), w3) = (out, w') ->
            exists pre post ds,
              deleter_entries w = pre ++ post
              /\ decoded_as pre ds
              /\ RS.db w' = apply_batch (flat_map (del_ops (RS.rs w)) ds) (RS.db w)
              /\ pass_frame w w'
              /\ RS._numRecords (RS.rs w') = RS._numRecords (RS.rs w) - Z.of_nat (length pre)
              /\ RS._dataSize (RS.rs w')
                 = RS._dataSize (RS.rs w) - entries_size (RS._isOplog (RS.rs w)) pre
              /\ match out with
                 | Returned n => n = Z.of_nat (length pre)
                 | Threw _ => pre = []
                 | Aborted => True
                 end).
  { intros w3 F3 Hdb3 Hn3 Hs3 Heq. injection Heq as <- <-.
    exists pre, post, ds.
    split; [ exact Hent | ]. split; [ exact Hdec | ]. split; [ congruence | ].
    split; [ eapply pass_frame_trans; eauto | ].
    split; [ congruence | ]. split; [ congruence | exact Hlen ]. }
  destruct post as [| [k v] post'].
  - cbn in H. unfold RS.ret in H.
    exact (Hfin w2 (pass_frame_refl _) eq_refl eq_refl eq_refl H).
  - destruct (_makeRecordId k) as [oldest |].
    2:{ cbn in H. unfold RS.abort in H. injection H as <- _. now contradiction Hna. }
    unfold RS.vm_isCappedHidden, RS.theVisibilityManager in H. unfold RS.bind at 1 2 in H.
    destruct (RS._cappedVisibilityManager (RS.rs w2)) as [vm |].
    2:{ injection H as <- _. now contradiction Hna. }
    unfold RS.ret at 1 in H.
    destruct (VM.isCappedHidden oldest vm); cbn in H; unfold RS.ret in H.
    + exact (Hfin w2 (pass_frame_refl _) eq_refl eq_refl eq_refl H).
    + refine (Hfin (RS.set_rs (RS.with_hint oldest) w2) _ eq_refl eq_refl eq_refl H).
      constructor; try reflexivity.
      exists []. split; [ cbn; now rewrite app_nil_r | constructor ].
Qed.

(** A deletion pass keeps the counters in step with the engine, however it
    ends: the entries whose keys it has deleted from the engine are a
    front part of the entries it walks, it has taken their number off
    [numRecords] and their sizes off [dataSize], and their number is what
    it returns. When the error of the callback escapes, nothing was
    deleted and nothing counted: the deletions staged before the error are
    dropped with the sub-transaction. *)
Theorem cappedDeleteAsNeeded_inlock_counts_what_it_deletes
        (kOplogCompactEveryMins kOplogCompactEveryDeletedRecords : Z) (env : Env)
        (justInserted : RecordId) (w : RS.World) (out : Outcome Z) (w' : RS.World) :
  RS.cappedDeleteAsNeeded_inlock kOplogCompactEveryMins kOplogCompactEveryDeletedRecords
                                 env justInserted w = (out, w') ->
  out <> Aborted ->
  exists pre post ds,
    deleter_entries w = pre ++ post
    /\ decoded_as pre ds
    /\ RS.db w' = apply_batch (flat_map (del_ops (RS.rs w)) ds) (RS.db w)
    /\ RS._numRecords (RS.rs w') = RS._numRecords (RS.rs w) - Z.of_nat (length pre)
    /\ RS._dataSize (RS.rs w')
       = RS._dataSize (RS.rs w) - entries_size (RS._isOplog (RS.rs w)) pre
    /\ (forall n, out = Returned n -> n = Z.of_nat (length pre))
    /\ (forall e, out = Threw e -> e = UserException /\ pre = []).
Proof.
  intros H Hna.
  unfold RS.cappedDeleteAsNeeded_inlock in H.
  unfold RS.bind at 1, RS.getRU at 1, RS.gets at 1 in H.
  unfold RS.bind at 1, RS.modify at 1 in H.
  unfold RS.bind at 1, RS.gets at 1 in H.
  set (w0 := RS.set_ru (fun _ => newRocksRecoveryUnit) w) in H.
  unfold RS.bind at 1, RS.try_catch at 1 in H. unfold RS.bind at 1 in H.
  cbv zeta in H.
  match type of H with
  | context [RS.cappedDeleteAsNeeded_inlock_try env justInserted ?a ?b w0] =>
      destruct (RS.cappedDeleteAsNeeded_inlock_try env justInserted a b w0)
        as [o1 w1] eqn:Hbody
  end.
  assert (Hna1 : o1 <> Aborted).
  { intros ->. cbn in H. injection H as <- _. now contradiction Hna. }
  apply cappedDeleteAsNeeded_inlock_try_accounts in Hbody; [ | reflexivity | exact Hna1 ].
  destruct Hbody as (pre & post & ds & Hent & Hdec & Hdb1 & _ & Hn1 & Hs1 & Hout).
  change (deleter_entries w0) with (deleter_entries w) in Hent.
  change (RS.rs w0) with (RS.rs w) in *. change (RS.db w0) with (RS.db w) in *.
  assert (Hfin : forall (o : Outcome Z) wf,
            RS.db wf = RS.db w1 ->
            RS._numRecords (RS.rs wf) = RS._numRecords (RS.rs w1) ->
            RS._dataSize (RS.rs wf) = RS._dataSize (RS.rs w1) ->
            (forall n, o = Returned n -> n = Z.of_nat (length pre)) ->
            (forall e, o = Threw e -> e = UserException /\ pre = []) ->
            (o, wf) = (out, w') ->
            exists pre post ds,
              deleter_entries w = pre ++ post
              /\ decoded_as pre ds
              /\ RS.db w' = apply_batch (flat_map (del_ops (RS.rs w)) ds) (RS.db w)
              /\ RS._numRecords (RS.rs w') = RS._numRecords (RS.rs w) - Z.of_nat (length pre)
              /\ RS._dataSize (RS.rs w')
                 = RS._dataSize (RS.rs w) - entries_size (RS._isOplog (RS.rs w)) pre
              /\ (forall n, out = Returned n -> n = Z.of_nat (length pre))
              /\ (forall e, out = Threw e -> e = UserException /\ pre = [])).
  { intros o wf Hdbf Hnf Hsf Ho He Heq. injection Heq as <- <-.
    exists pre, post, ds.
    split; [ exact Hent | ]. split; [ exact Hdec | ]. split; [ congruence | ].
    split; [ congruence | ]. split; [ congruence | ]. split; assumption. }
  destruct o1 as [n | e |]; [ | | now contradiction Hna1 ].
  - (* the pass returned: restore, then the oplog compaction check *)
    subst n. cbn in H.
    destruct (RS._isOplog (RS.rs w1)) eqn:Hop.
    + unfold RS.bind, RS.theTracker in H. cbn [RS.rs RS.set_ru] in H.
      destruct (RS._oplogKeyTracker (RS.rs w1)) as [trk |] eqn:Htrk.
      * destruct ((env_minutes env >=? kOplogCompactEveryMins)
                  || (_deletedKeysSinceCompaction trk >=? kOplogCompactEveryDeletedRecords));
          cbn in H;
          (refine (Hfin (Returned _) _ _ _ _ _ _ H);
           [ reflexivity | reflexivity | reflexivity
           | intros n Hn; now injection Hn as <- | discriminate ]).
      * injection H as <- _. now contradiction Hna.
    + cbn in H.
      refine (Hfin (Returned _) _ _ _ _ _ _ H);
        [ reflexivity | reflexivity | reflexivity
        | intros n Hn; now injection Hn as <- | discriminate ].
  - subst pre. destruct e; cbn in H.
    + refine (Hfin (Returned 0) _ _ _ _ _ _ H);
        [ reflexivity | reflexivity | reflexivity
        | intros n Hn; now injection Hn as <- | discriminate ].
    + refine (Hfin (Threw UserException) _ _ _ _ _ _ H);
        [ reflexivity | reflexivity | reflexivity | discriminate
        | intros e He; injection He as <-; split; reflexivity ].
Qed.

Lemma cappedDeleteAsNeeded_inlock_counts_what_it_deletes_witness :
  let w := RS.set_rs (fun s =>
             RS.mk (RS._prefix s) (RS._isCapped s) (RS._cappedMaxSize s)
                   (RS._cappedMaxSizeSlack s) (RS._cappedMaxDocs s)
                   (Some (fun id _ => if id =? 3 then CallbackError else CallbackOK))
                   (RS._isOplog s) (RS._oplogKeyTracker s) (RS._cappedOldestKeyHint s)
                   (RS._cappedVisibilityManager s) (RS._nextIdNum s) (RS._dataSize s)
                   (RS._numRecords s) (RS._hasBackgroundThread s) (RS._shuttingDown s))
             full_capped_world in
  let r := RS.cappedDeleteAsNeeded_inlock 60 1000000 quiet_env 11 w in
  exists pre post ds,
    deleter_entries w = pre ++ post
    /\ decoded_as pre ds
    /\ RS.db (snd r) = apply_batch (flat_map (del_ops (RS.rs w)) ds) (RS.db w)
    /\ RS._numRecords (RS.rs (snd r)) = RS._numRecords (RS.rs w) - Z.of_nat (length pre)
    /\ RS._dataSize (RS.rs (snd r))
       = RS._dataSize (RS.rs w) - entries_size (RS._isOplog (RS.rs w)) pre
    /\ (forall n, fst r = Returned n -> n = Z.of_nat (length pre))
    /\ (forall e, fst r = Threw e -> e = UserException /\ pre = []).
Proof.
  intros w r.
  apply (cappedDeleteAsNeeded_inlock_counts_what_it_deletes
           60 1000000 quiet_env 11 w (fst r) (snd r)).
  - vm_compute. reflexivity.
  - vm_compute. discriminate.
Defined.
